(** * Adjacency graphs, paths and the cycles graph

    A shallow embedding of [graph.hpp]/[graph.cpp] and
    [paths-cycles.hpp]/[paths-cycles.cpp].

    Conventions of the embedding.
    - A pointer is [ptr = option nat]: [None] is the null pointer,
      [Some a] the address [a] of an object of the heap.
    - The heap holds the [Vertex] and the [Edge] objects.  [new] returns the
      next address (addresses are not reused), [delete] empties the cell.
      Reading through a null or dangling pointer, or indexing a vector
      out of range, is undefined in C++; every operation of the model
      returns [None] there.
    - The intrusive doubly linked list of a vertex ([edges], [next], [prev],
      with its head sentinel) is the list of the addresses of its edge
      records, first element = [edges->next].
    - [int] values are integers of [Z].  Signed overflow is undefined in
      C++: the doubling of the capacity [maxn] and the product that sizes
      the hash table of signatures have no result when they leave [int];
      the counters stay within [int] below 2^31 objects.  [unsigned short]
      fields wrap modulo 2^16.
    - A [char*] label is an [option string].  Copying a label copies
      [strnlen(label, _GRAPH_MAX_LABEL) + 1] bytes: a label of at most
      [_GRAPH_MAX_LABEL] characters is copied whole with its terminator;
      of a longer one the first [_GRAPH_MAX_LABEL + 1] characters are
      copied and no terminator is stored.  A stored label of
      [_GRAPH_MAX_LABEL + 1] characters is such a buffer without
      terminator: [strncmp] and [strnlen] stay inside it, reading it as a
      C string is undefined ([c_str]). *)

From Stdlib Require Import ZArith Lia Ascii String.
From stdpp Require Import base option list strings gmap sorting.

Local Open Scope Z_scope.

Abbreviation ptr := (option nat) (only parsing).
Abbreviation NULL := (@None nat).

Definition _GRAPH_MAX_LABEL : nat := 100.

(** [len = strnlen(label, _GRAPH_MAX_LABEL) + 1; memcpy(this->label, label,
    len)]: the characters of the label and its terminator when it has at
    most [_GRAPH_MAX_LABEL] characters, its first [_GRAPH_MAX_LABEL + 1]
    characters and no terminator otherwise. *)
Definition copy_label (label : option string) : option string :=
  String.substring 0 (S _GRAPH_MAX_LABEL) <$> label.

(** A stored label read up to its terminator, as [std::string::append] and
    [printf] do: a buffer of [_GRAPH_MAX_LABEL + 1] characters has none. *)
Definition c_str (s : string) : option string :=
  if bool_decide (String.length s ≤ _GRAPH_MAX_LABEL)%nat then Some s
  else None.

(** [strncmp(a, b, _GRAPH_MAX_LABEL) == 0] *)
Definition strncmp_eq (a b : string) : bool :=
  bool_decide (String.substring 0 _GRAPH_MAX_LABEL a
               = String.substring 0 _GRAPH_MAX_LABEL b).

(** ** Vectors indexed by an [int] *)

Definition vec_get {A} (v : list A) (i : Z) : option A :=
  if bool_decide (0 <= i) then v !! Z.to_nat i else None.

Definition vec_set {A} (v : list A) (i : Z) (x : A) : option (list A) :=
  if bool_decide (0 <= i < Z.of_nat (length v))
  then Some (<[Z.to_nat i := x]> v) else None.

(** [v.resize(n, x)] *)
Definition vec_resize {A} (v : list A) (n : Z) (x : A) : list A :=
  resize (Z.to_nat n) x v.

Definition vec_size {A} (v : list A) : Z := Z.of_nat (length v).

(** [(unsigned) x] for an [int] x *)
Definition to_unsigned (x : Z) : Z := x mod 2 ^ 32.

(** [(char) x] for an [unsigned char] x *)
Definition to_char (x : Z) : Z := if bool_decide (x > 127) then x - 256 else x.

(** [unsigned short] arithmetic *)
Definition to_ushort (x : Z) : Z := x mod 2 ^ 16.

(** [(int) x] for an [unsigned int] x *)
Definition to_int (x : Z) : Z :=
  if bool_decide (x >= 2 ^ 31) then x - 2 ^ 32 else x.

(** ** Loops *)

(** [for (i = from; i < from + count; i++) if (f(i)) return true;
     return false;] *)
Fixpoint any_from (f : Z → option bool) (i : Z) (count : nat) : option bool :=
  match count with
  | O => Some false
  | S k => b ← f i; if b : bool then Some true else any_from f (i + 1) k
  end.

(** [for (i = from; i < from + count; i++) s = body(i, s);] *)
Fixpoint for_range {St} (body : Z → St → option St) (i : Z) (count : nat)
    (s : St) : option St :=
  match count with
  | O => Some s
  | S k => s' ← body i s; for_range body (i + 1) k s'
  end.

(** [for (auto x : xs) s = body(x, s);] *)
Fixpoint for_each {A St} (body : A → St → option St) (xs : list A) (s : St)
    : option St :=
  match xs with
  | [] => Some s
  | x :: xs' => s' ← body x s; for_each body xs' s'
  end.

(** ** Extremities *)

Module Extremity.

Inductive Kind := TAIL | HEAD | UNDEF.

#[global] Instance Kind_eq_dec : EqDecision Kind.
Proof. solve_decision. Defined.

Record t := mk { id : Z; ty : Kind }.

(** [Extremity(int id = 0, Type t = UNDEF)] *)
Definition default : t := mk 0 UNDEF.

Definition getId (x : t) : Z := id x.
Definition getType (x : t) : Kind := ty x.

(** [operator==] *)
Definition eqb (x other : t) : bool :=
  (bool_decide (id x = id other) && bool_decide (ty x = ty other))
  || (bool_decide (ty x = UNDEF) && bool_decide (ty other = UNDEF)).

(** [operator!=] *)
Definition neqb (x other : t) : bool := negb (eqb x other).

(** [operator!]: the extremity with the inverse kind *)
Definition inverse (x : t) : t :=
  mk (id x) (match ty x with UNDEF => UNDEF | TAIL => HEAD | HEAD => TAIL end).

End Extremity.

(** ** Edge records *)

Module Edge.

Record t := mk {
  adj : ptr;              (* Vertex adjacent to *)
  adjRef : ptr;           (* this edge on the adjacent vertex's list *)
  label : option string;
  ex1 : Extremity.t;      (* extremity of the vertex storing the record *)
  ex2 : Extremity.t;      (* extremity of the adjacent vertex *)
  sibling : ptr
}.

(** [Edge::Edge(Vertex *adj, const char *label)] *)
Definition new (adj : ptr) (label : option string) : t :=
  mk adj NULL (copy_label label) Extremity.default Extremity.default NULL.

Definition set_adjRef (e : t) (r : ptr) : t :=
  mk (adj e) r (label e) (ex1 e) (ex2 e) (sibling e).
Definition set_ex (e : t) (x1 x2 : Extremity.t) : t :=
  mk (adj e) (adjRef e) (label e) x1 x2 (sibling e).
Definition set_sibling (e : t) (s : ptr) : t :=
  mk (adj e) (adjRef e) (label e) (ex1 e) (ex2 e) s.
Definition set_label (e : t) (l : option string) : t :=
  mk (adj e) (adjRef e) (copy_label l) (ex1 e) (ex2 e) (sibling e).

Definition getExtremityFrom (e : t) : Extremity.t := ex1 e.
Definition getExtremityTo (e : t) : Extremity.t := ex2 e.

(** [Edge::incompatible]: both tests compare the gene ids only. *)
Definition incompatible (this e : t) : bool :=
  if xorb (bool_decide (Extremity.id (ex1 this) = Extremity.id (ex1 e)))
          (bool_decide (Extremity.id (ex2 this) = Extremity.id (ex2 e)))
  then true
  else if xorb (bool_decide (Extremity.id (ex1 this) = Extremity.id (ex2 e)))
               (bool_decide (Extremity.id (ex2 this) = Extremity.id (ex1 e)))
  then true
  else false.

(** *** The edge records of the heap *)

Abbreviation store := (list (option t)) (only parsing).

Definition deref (es : store) (p : ptr) : option t :=
  a ← p; o ← es !! a; o.

(** [new Edge(...)] *)
Definition alloc (es : store) (e : t) : store * ptr :=
  (es ++ [Some e], Some (length es)).

(** an assignment to fields of [*p] *)
Definition update (es : store) (p : ptr) (f : t → t) : option store :=
  a ← p; e ← deref es p; Some (<[a := Some (f e)]> es).

(** [delete p] *)
Definition free (es : store) (p : ptr) : option store :=
  a ← p; _ ← deref es p; Some (<[a := None]> es).

Definition getAdj (es : store) (this : ptr) : option ptr :=
  adj <$> deref es this.
Definition getAdjRef (es : store) (this : ptr) : option ptr :=
  adjRef <$> deref es this.
Definition getLabel (es : store) (this : ptr) : option (option string) :=
  label <$> deref es this.
Definition getSibling (es : store) (this : ptr) : option ptr :=
  sibling <$> deref es this.

Definition set_ex1_id (i : Z) (e : t) : t :=
  set_ex e (Extremity.mk i (Extremity.ty (ex1 e))) (ex2 e).
Definition set_ex1_ty (k : Extremity.Kind) (e : t) : t :=
  set_ex e (Extremity.mk (Extremity.id (ex1 e)) k) (ex2 e).
Definition set_ex2_id (i : Z) (e : t) : t :=
  set_ex e (ex1 e) (Extremity.mk i (Extremity.ty (ex2 e))).
Definition set_ex2_ty (k : Extremity.Kind) (e : t) : t :=
  set_ex e (ex1 e) (Extremity.mk (Extremity.id (ex2 e)) k).

(** [Edge::setExtremities]: four chained assignments, each one first to
    the record of the other endpoint, then to this one. *)
Definition setExtremities (es : store) (this : ptr)
    (id1 : Z) (t1 : Extremity.Kind) (id2 : Z) (t2 : Extremity.Kind)
    : option store :=
  r ← getAdjRef es this;
  es ← update es r (set_ex2_id id1); es ← update es this (set_ex1_id id1);
  es ← update es r (set_ex2_ty t1);  es ← update es this (set_ex1_ty t1);
  es ← update es r (set_ex1_id id2); es ← update es this (set_ex2_id id2);
  es ← update es r (set_ex1_ty t2);  update es this (set_ex2_ty t2).

(** [Edge::setSibling]: [sibling = adjRef->sibling = e] *)
Definition setSibling (es : store) (this : ptr) (e : ptr) : option store :=
  r ← getAdjRef es this;
  es ← update es r (λ x, set_sibling x e);
  update es this (λ x, set_sibling x e).

(** [Edge::incident] *)
Definition incident (es : store) (this : ptr) (v : ptr) : option bool :=
  e ← deref es this;
  if bool_decide (adj e = v) then Some true
  else r ← deref es (adjRef e);
       if bool_decide (adj r = v) then Some true else Some false.

(** [e->incompatible(e')] through the two pointers *)
Definition incompatible_at (es : store) (this e : ptr) : option bool :=
  x ← deref es this; y ← deref es e; Some (incompatible x y).

(** [operator==]: the same record or its mirror *)
Definition same (es : store) (this other : ptr) : option bool :=
  o ← deref es other;
  Some (bool_decide (this = other) || bool_decide (this = adjRef o)).

(** [operator<] *)
Definition lt (es : store) (this other : ptr) : option bool :=
  x ← deref es this; o ← deref es other;
  if bool_decide (this = other) || bool_decide (this = adjRef o)
  then Some true
  else
    let i1 := Extremity.id (ex1 x) in
    let i2 := Extremity.id (ex2 x) in
    let o1 := Extremity.id (ex1 o) in
    let o2 := Extremity.id (ex2 o) in
    let '(e10, e11) := if bool_decide (i1 > i2) then (i2, i1) else (i1, i2) in
    let '(e20, e21) := if bool_decide (o1 > o2) then (o2, o1) else (o1, o2) in
    if bool_decide (Extremity.ty (ex1 x) = Extremity.UNDEF) then Some true
    else if bool_decide (Extremity.ty (ex1 o) = Extremity.UNDEF) then Some false
    else if bool_decide (e10 < e20) then Some true
    else if bool_decide (e10 > e20) then Some false
    else if bool_decide (e11 < e21) then Some true
    else if bool_decide (e11 > e21) then Some false
    else Some (bool_decide (Extremity.ty (ex1 x) = Extremity.TAIL)).

(** [operator<=] *)
Definition le (es : store) (this other : ptr) : option bool :=
  o ← deref es other;
  if bool_decide (this = other) || bool_decide (this = adjRef o)
  then Some true else lt es this other.

(** [operator>] *)
Definition gt (es : store) (this other : ptr) : option bool :=
  negb <$> le es this other.

(** [operator>=] *)
Definition ge (es : store) (this other : ptr) : option bool :=
  o ← deref es other;
  if bool_decide (this = other) || bool_decide (this = adjRef o)
  then Some true else gt es this other.


End Edge.

(** ** Paths *)

Module Path.

(** [l] vertices and [le] edges are in use in the vectors [v] and [e]. *)
Record t := mk { l : Z; le : Z; v : list ptr; e : list ptr }.

Definition INITIAL_CAPACITY : Z := 4.

(** [Path::Path()] *)
Definition new : t :=
  mk 0 0 (vec_resize [] INITIAL_CAPACITY NULL)
         (vec_resize [] INITIAL_CAPACITY NULL).

(** [Path::addVertex]; the result of the C++ method is the new [l]. *)
Definition addVertex (p : t) (x : ptr) : option t :=
  let vv := if bool_decide (to_unsigned (l p) = vec_size (v p))
            then vec_resize (v p) (vec_size (v p) * 2) NULL else v p in
  vv' ← vec_set vv (l p) x;
  Some (mk (l p + 1) (le p) vv' (e p)).

(** [Path::removeVertex]; the result of the C++ method is the new [l]. *)
Definition removeVertex (p : t) : t :=
  let vv := if bool_decide (to_unsigned (l p) < vec_size (v p) / 2)
            then vec_resize (v p) (vec_size (v p) / 2) NULL else v p in
  mk (l p - 1) (le p) vv (e p).

(** [Path::addEdge]; the result of the C++ method is the new [le]. *)
Definition addEdge (p : t) (x : ptr) : option t :=
  let ee := if bool_decide (to_unsigned (le p) = vec_size (e p))
            then vec_resize (e p) (vec_size (e p) * 2) NULL else e p in
  ee' ← vec_set ee (le p) x;
  Some (mk (l p) (le p + 1) (v p) ee').

(** [Path::removeEdge]; the result of the C++ method is the new [le]. *)
Definition removeEdge (p : t) : t :=
  let ee := if bool_decide (to_unsigned (le p) < vec_size (e p) / 2)
            then vec_resize (e p) (vec_size (e p) / 2) NULL else e p in
  mk (l p) (le p - 1) (v p) ee.

(** [Path::add] *)
Definition add (p : t) (x : ptr) (ed : ptr) : option t :=
  p ← addEdge p ed; addVertex p x.

(** [Path::Path(Vertex *v)] *)
Definition of_vertex (x : ptr) : option t := addVertex new x.

(** [Path::replace] *)
Definition replace (p : t) (pos : Z) (x : ptr) : option t :=
  vv ← vec_set (v p) pos x; Some (mk (l p) (le p) vv (e p)).

Definition nth (p : t) (k : Z) : option ptr := vec_get (v p) k.
Definition last (p : t) : option ptr := vec_get (v p) (l p - 1).
Definition first (p : t) : option ptr := vec_get (v p) 0.
Definition len (p : t) : Z := l p.
Definition nthE (p : t) (k : Z) : option ptr := vec_get (e p) k.
Definition lastE (p : t) : option ptr := vec_get (e p) (le p - 1).
Definition firstE (p : t) : option ptr := vec_get (e p) 0.
Definition lenE (p : t) : Z := le p.

(** [Path::getVertices], [Path::getEdges]: the vectors cut to the
    lengths in use *)
Definition getVertices (p : t) : list ptr := vec_resize (v p) (l p) NULL.
Definition getEdges (p : t) : list ptr := vec_resize (e p) (le p) NULL.

(** [Path::inPath(Vertex *v)] *)
Definition inPath_vertex (p : t) (x : ptr) : option bool :=
  any_from (λ i, y ← vec_get (v p) i; Some (bool_decide (y = x)))
           0 (Z.to_nat (l p)).

(** [Path::inPath(Edge *e)] *)
Definition inPath (es : Edge.store) (p : t) (ed : ptr) : option bool :=
  any_from (λ i, y ← vec_get (e p) i;
                 if bool_decide (y = ed) then Some true
                 else r ← Edge.getAdjRef es ed; Some (bool_decide (y = r)))
           0 (Z.to_nat (le p)).

(** [Path::inPath(Extremity, Extremity)] *)
Definition inPath_extremities (es : Edge.store) (p : t)
    (x1 x2 : Extremity.t) : option bool :=
  any_from (λ i, y ← vec_get (e p) i; ed ← Edge.deref es y;
                 Some ((Extremity.eqb (Edge.ex1 ed) x1
                        && Extremity.eqb (Edge.ex2 ed) x2)
                       || (Extremity.eqb (Edge.ex1 ed) x2
                           && Extremity.eqb (Edge.ex2 ed) x1)))
           0 (Z.to_nat (le p)).

(** [Path::countNullExtremities] *)
Definition countNullExtremities (es : Edge.store) (p : t) : option Z :=
  for_range (λ i nulls,
      y ← vec_get (e p) i; ed ← Edge.deref es y;
      let nulls :=
        if bool_decide (Extremity.ty (Edge.ex1 ed) = Extremity.UNDEF)
        then nulls + 1 else nulls in
      Some (if bool_decide (Extremity.ty (Edge.ex2 ed) = Extremity.UNDEF)
            then nulls + 1 else nulls))
    0 (Z.to_nat (le p)) 0.

(** [Path::isCycle()] *)
Definition isCycle (es : Edge.store) (p : t) : option bool :=
  c ← (if bool_decide (len p > 1) && bool_decide (len p = lenE p + 1)
       then f ← first p; la ← last p; Some (bool_decide (f = la))
       else Some false);
  if c : bool then Some true
  else
    c' ← (if bool_decide (lenE p > 1) && bool_decide (len p = lenE p)
          then y ← lastE p; a ← Edge.getAdj es y; f ← first p;
               Some (bool_decide (a = f))
          else Some false);
    if c' : bool then Some true else Some false.

(** [Path::isCycle(Edge *e)] *)
Definition isCycle_with (es : Edge.store) (p : t) (ed : ptr) : option bool :=
  if bool_decide (len p = lenE p + 1)
  then a ← Edge.getAdj es ed; f ← first p;
       if bool_decide (a = f) then Some true else Some false
  else Some false.

(** [Path::consistent()]: [false] as soon as two edges at positions
    [i < j] are incompatible or are the same edge. *)
Definition consistent (es : Edge.store) (p : t) : option bool :=
  negb <$>
    any_from (λ i,
      any_from (λ j,
        if bool_decide (j > i)
        then ei ← vec_get (e p) i; ej ← vec_get (e p) j;
             inc ← Edge.incompatible_at es ei ej;
             if inc : bool then Some true else Edge.same es ei ej
        else Some false)
      0 (Z.to_nat (le p)))
    0 (Z.to_nat (le p)).

(** [Path::consistent(Edge *edge)]: the result and the path afterwards *)
Definition consistent_edge (es : Edge.store) (p : t) (edge : ptr)
    : option (bool * t) :=
  b ← inPath es p edge;
  if b : bool then Some (false, p)
  else
    p ← addEdge p edge;
    a ← Edge.getAdj es edge;
    p ← addVertex p a;
    result ← consistent es p;
    let p := removeEdge p in
    let p := removeVertex p in
    Some (result, p).

(** [Path::consistent(Path *p)] *)
Definition consistent_path (es : Edge.store) (p q : t) : option bool :=
  negb <$>
    any_from (λ i,
      any_from (λ j,
        ei ← vec_get (e p) i; ej ← vec_get (e q) j;
        Edge.incompatible_at es ei ej)
      0 (Z.to_nat (le q)))
    0 (Z.to_nat (le p)).

(** The inner loop of the sort in [signature]:
    [for (j = ...; j >= 0 && *x < *edges[j]; j--) edges[j+1] = edges[j];]
    gives the vector and the final [j]. *)
Fixpoint shift (es : Edge.store) (x : ptr) (edges : list ptr) (j : Z)
    (fuel : nat) : option (list ptr * Z) :=
  if bool_decide (j >= 0)
  then ej ← vec_get edges j;
       b ← Edge.lt es x ej;
       if b : bool
       then match fuel with
            | O => None
            | S k => edges' ← vec_set edges (j + 1) ej;
                     shift es x edges' (j - 1) k
            end
       else Some (edges, j)
  else Some (edges, j).

(** [Path::signature] *)
Definition signature (es : Edge.store) (p : t) : option string :=
  if bool_decide (le p < 0) then None
  else
    let edges := vec_resize [] (le p) NULL in
    edges ← for_range (λ i edges, y ← vec_get (e p) i; vec_set edges i y)
                      0 (Z.to_nat (le p)) edges;
    edges ← for_range (λ i edges,
                x ← vec_get edges i;
                '(edges, j) ← shift es x edges (i - 1) (Z.to_nat i);
                vec_set edges (j + 1) x)
              1 (Z.to_nat (le p - 1)) edges;
    for_range (λ i s, y ← vec_get edges i; lab ← Edge.getLabel es y;
                      lb ← lab; lb ← c_str lb; Some (String.append s lb))
              0 (Z.to_nat (le p)) EmptyString.

(** [*p + vertex], [*p + edge]: a copy of the path, extended *)
Definition plus_vertex (p : t) (x : ptr) : option t := addVertex p x.
Definition plus_edge (p : t) (ed : ptr) : option t := addEdge p ed.

End Path.

(** ** Vertex objects *)

Module Vertex.

(** [edges] lists the edge records of the vertex, [edges->next] first.
    [data] is the satellite data: the only one the program stores is the
    path of a cycle, which the vertex then owns; the model keeps the
    path itself. *)
Record t := mk {
  id : Z;
  degree : Z;
  direction : Z;
  part : Z;
  family : Z;
  label : option string;
  edges : list ptr;
  data : option Path.t;
  ex1 : Extremity.t;      (* left extremity *)
  ex2 : Extremity.t       (* right extremity *)
}.

(** [Vertex::Vertex(int id = -1, char direction = 0, int family = 0)] *)
Definition new (id direction family : Z) : t :=
  mk id 0 direction 0 (to_ushort family) None [] None
     Extremity.default Extremity.default.

Definition set_degree_edges (x : t) (d : Z) (es : list ptr) : t :=
  mk (id x) d (direction x) (part x) (family x) (label x) es (data x)
     (ex1 x) (ex2 x).
Definition setDirection (x : t) (d : Z) : t :=
  mk (id x) (degree x) d (part x) (family x) (label x) (edges x) (data x)
     (ex1 x) (ex2 x).
(** [Vertex::setPart]: the field is an [unsigned char] *)
Definition setPart (x : t) (p : Z) : t :=
  mk (id x) (degree x) (direction x) (p mod 2 ^ 8) (family x) (label x)
     (edges x) (data x) (ex1 x) (ex2 x).
Definition set_family (x : t) (f : Z) : t :=
  mk (id x) (degree x) (direction x) (part x) (to_ushort f) (label x)
     (edges x) (data x) (ex1 x) (ex2 x).
Definition setLabel (x : t) (l : option string) : t :=
  mk (id x) (degree x) (direction x) (part x) (family x) (copy_label l)
     (edges x) (data x) (ex1 x) (ex2 x).
Definition setData (x : t) (d : option Path.t) : t :=
  mk (id x) (degree x) (direction x) (part x) (family x) (label x)
     (edges x) d (ex1 x) (ex2 x).
(** [Vertex::setExtremities] *)
Definition setExtremities (x : t)
    (id1 : Z) (t1 : Extremity.Kind) (id2 : Z) (t2 : Extremity.Kind) : t :=
  mk (id x) (degree x) (direction x) (part x) (family x) (label x)
     (edges x) (data x) (Extremity.mk id1 t1) (Extremity.mk id2 t2).

Definition getId (x : t) : Z := id x.
Definition getExtremityLeft (x : t) : Extremity.t := ex1 x.
Definition getExtremityRight (x : t) : Extremity.t := ex2 x.
Definition getDirection (x : t) : Z := direction x.
Definition getDegree (x : t) : Z := degree x.
Definition getPart (x : t) : Z := part x.
Definition getData (x : t) : option Path.t := data x.
Definition getLabel (x : t) : option string := label x.

(** [Vertex::hasExtremity] *)
Definition hasExtremity (x : t) (ex : Extremity.t) : bool :=
  Extremity.eqb ex (ex1 x) || Extremity.eqb ex (ex2 x).

(** [Vertex::addEdge]: a new record at the front of the list *)
Definition addEdge (this : t) (es : Edge.store) (adj : ptr)
    (label : option string) : t * Edge.store * ptr :=
  let '(es', e) := Edge.alloc es (Edge.new adj label) in
  (set_degree_edges this (to_ushort (degree this + 1)) (e :: edges this),
   es', e).

(** [Vertex::removeEdge]: unlinks the record from the list and deletes
    it.  The record has to be one of this vertex's list. *)
Definition removeEdge (this : t) (es : Edge.store) (e : ptr)
    : option (t * Edge.store) :=
  if bool_decide (e ∈ edges this)
  then es' ← Edge.free es e;
       Some (set_degree_edges this (to_ushort (degree this - 1))
                              (filter (λ x, x ≠ e) (edges this)), es')
  else None.

(** *** The vertex objects of the heap *)

Abbreviation store := (list (option t)) (only parsing).

Definition deref (vs : store) (p : ptr) : option t :=
  a ← p; o ← vs !! a; o.

(** [new Vertex(...)] *)
Definition alloc (vs : store) (x : t) : store * ptr :=
  (vs ++ [Some x], Some (length vs)).

Definition update (vs : store) (p : ptr) (f : t → t) : option store :=
  a ← p; x ← deref vs p; Some (<[a := Some (f x)]> vs).

(** [delete p], for a vertex whose list of edges is empty *)
Definition free (vs : store) (p : ptr) : option store :=
  a ← p; _ ← deref vs p; Some (<[a := None]> vs).

End Vertex.

(** ** The heap *)

Module Heap.

Record t := mk { vs : Vertex.store; es : Edge.store }.

Definition empty : t := mk [] [].

Definition vertex (h : t) (p : ptr) : option Vertex.t := Vertex.deref (vs h) p.
Definition edge (h : t) (p : ptr) : option Edge.t := Edge.deref (es h) p.

Definition update_vertex (h : t) (p : ptr) (f : Vertex.t → Vertex.t)
    : option t :=
  vs' ← Vertex.update (vs h) p f; Some (mk vs' (es h)).

(** [v->addEdge(adj, label)] *)
Definition Vertex_addEdge (h : t) (v : ptr) (adj : ptr)
    (label : option string) : option (t * ptr) :=
  a ← v; x ← vertex h v;
  let '(x', es', e) := Vertex.addEdge x (es h) adj label in
  Some (mk (<[a := Some x']> (vs h)) es', e).

(** [v->removeEdge(e)] *)
Definition Vertex_removeEdge (h : t) (v : ptr) (e : ptr) : option t :=
  a ← v; x ← vertex h v;
  '(x', es') ← Vertex.removeEdge x (es h) e;
  Some (mk (<[a := Some x']> (vs h)) es').

(** [e->setExtremities(...)], [e->setSibling(...)] *)
Definition Edge_setExtremities (h : t) (e : ptr)
    (id1 : Z) (t1 : Extremity.Kind) (id2 : Z) (t2 : Extremity.Kind)
    : option t :=
  es' ← Edge.setExtremities (es h) e id1 t1 id2 t2; Some (mk (vs h) es').
Definition Edge_setSibling (h : t) (e : ptr) (s : ptr) : option t :=
  es' ← Edge.setSibling (es h) e s; Some (mk (vs h) es').

End Heap.

(** ** Graphs *)

(** [while (bound >= size) size *= 2;]  The loop does not end for a size
    below 1 (no result). *)
Fixpoint grow (size bound : Z) (fuel : nat) : option Z :=
  if bool_decide (bound >= size)
  then match fuel with
       | O => None
       | S k => grow (size * 2) bound k
       end
  else Some size.

(** [while (id >= maxn) maxn *= 2;] on the [int] [maxn]: a doubling that
    leaves [int] is undefined (no result), and so is the loop that does not
    end for a capacity below 1. *)
Fixpoint grow_int (size bound : Z) (fuel : nat) : option Z :=
  if bool_decide (bound >= size)
  then match fuel with
       | O => None
       | S k => if bool_decide (- 2 ^ 31 <= size * 2 < 2 ^ 31)
                then grow_int (size * 2) bound k
                else None
       end
  else Some size.

Module Graph.

Record t := mk {
  n : Z;                        (* number of vertices *)
  maxn : Z;                     (* capacity of [vertices] *)
  m : Z;                        (* number of edges *)
  lastVid : Z;                  (* greatest id used on adding a vertex *)
  vertices : list ptr;
  label : option string;
  npart : list Z;               (* int npart[128] *)
  fsize : list Z;
  fname : list (option string)
}.

Definition set_n (g : t) (x : Z) : t :=
  mk x (maxn g) (m g) (lastVid g) (vertices g) (label g) (npart g)
     (fsize g) (fname g).
Definition set_m (g : t) (x : Z) : t :=
  mk (n g) (maxn g) x (lastVid g) (vertices g) (label g) (npart g)
     (fsize g) (fname g).
Definition set_lastVid (g : t) (x : Z) : t :=
  mk (n g) (maxn g) (m g) x (vertices g) (label g) (npart g)
     (fsize g) (fname g).
Definition set_vertices (g : t) (mx : Z) (x : list ptr) : t :=
  mk (n g) mx (m g) (lastVid g) x (label g) (npart g) (fsize g) (fname g).
Definition set_npart (g : t) (x : list Z) : t :=
  mk (n g) (maxn g) (m g) (lastVid g) (vertices g) (label g) x
     (fsize g) (fname g).
Definition set_fsize (g : t) (x : list Z) : t :=
  mk (n g) (maxn g) (m g) (lastVid g) (vertices g) (label g) (npart g)
     x (fname g).
Definition set_fname (g : t) (x : list (option string)) : t :=
  mk (n g) (maxn g) (m g) (lastVid g) (vertices g) (label g) (npart g)
     (fsize g) x.

(** [Graph::setLabel] *)
Definition setLabel (g : t) (l : option string) : t :=
  mk (n g) (maxn g) (m g) (lastVid g) (vertices g) (copy_label l) (npart g)
     (fsize g) (fname g).

(** [Graph::Graph(const char *label, int maxvertices)]; the vector cannot
    be built with a negative size. *)
Definition new (label : option string) (maxvertices : Z) : option t :=
  if bool_decide (maxvertices < 0) then None
  else
    let g := mk 0 maxvertices 0 (-1) (vec_resize [] maxvertices NULL) None
                (vec_resize [] 128 0) [] [] in
    let g := setLabel g label in
    let g := if bool_decide (maxn g < 1)
             then set_vertices g 128 (vec_resize (vertices g) 128 NULL)
             else g in
    let g := set_fsize g (vec_resize (fsize g) 128 0) in
    Some (set_fname g (vec_resize (fname g) 128 None)).

Definition getN (g : t) : Z := n g.
Definition getM (g : t) : Z := m g.
Definition getLabel (g : t) : option string := label g.

(** [Graph::getVertex(int id)] *)
Definition getVertex (g : t) (id : Z) : option ptr := vec_get (vertices g) id.

(** [Graph::getVertex(char label[])] *)
Fixpoint getVertex_label_from (h : Heap.t) (g : t) (label : string) (i : Z)
    (count : nat) : option ptr :=
  match count with
  | O => Some NULL
  | S k =>
      p ← vec_get (vertices g) i;
      hit ← (if bool_decide (p ≠ NULL)
             then x ← Heap.vertex h p; lb ← Vertex.label x;
                  Some (strncmp_eq lb label)
             else Some false);
      if hit : bool then Some p
      else getVertex_label_from h g label (i + 1) k
  end.
Definition getVertex_label (h : Heap.t) (g : t) (label : string)
    : option ptr :=
  getVertex_label_from h g label 0 (Z.to_nat (lastVid g + 1)).

(** [Graph::getMaxVertexId] *)
Fixpoint getMaxVertexId_from (g : t) (i : Z) (count : nat) : option Z :=
  if bool_decide (i >= 0)
  then p ← vec_get (vertices g) i;
       if bool_decide (p = NULL)
       then match count with
            | O => None
            | S k => getMaxVertexId_from g (i - 1) k
            end
       else Some i
  else Some i.
Definition getMaxVertexId (g : t) : option Z :=
  getMaxVertexId_from g (lastVid g) (Z.to_nat (lastVid g + 1)).

(** [Graph::addEdge(Vertex *v1, Vertex *v2, const char *label)] *)
Definition addEdge (h : Heap.t) (g : t) (v1 v2 : ptr)
    (label : option string) : option (Heap.t * t * ptr) :=
  if bool_decide (v1 = v2) || bool_decide (v1 = NULL)
     || bool_decide (v2 = NULL)
  then Some (h, g, NULL)
  else
    let g := set_m g (m g + 1) in
    '(h, e1) ← Heap.Vertex_addEdge h v1 v2 label;
    '(h, e2) ← Heap.Vertex_addEdge h v2 v1 label;
    es ← Edge.update (Heap.es h) e1 (λ x, Edge.set_adjRef x e2);
    es ← Edge.update es e2 (λ x, Edge.set_adjRef x e1);
    Some (Heap.mk (Heap.vs h) es, g, e1).

(** [Graph::addEdge(int id1, int id2, const char *label)] *)
Definition addEdge_id (h : Heap.t) (g : t) (id1 id2 : Z)
    (label : option string) : option (Heap.t * t * ptr) :=
  if bool_decide (id1 >= maxn g) || bool_decide (id2 > maxn g)
  then Some (h, g, NULL)
  else v1 ← getVertex g id1; v2 ← getVertex g id2; addEdge h g v1 v2 label.

(** [Graph::addVertex(int id, const char *label, char part,
    unsigned int family)] *)
Definition addVertex (h : Heap.t) (g : t) (id : Z) (label : option string)
    (part : Z) (family : Z) : option (Heap.t * t * ptr) :=
  let part := if bool_decide (part < 0) then 0 else part in
  g ← (if bool_decide (id >= maxn g)
       then mx ← grow_int (maxn g) id (Z.to_nat id + 1);
            Some (set_vertices g mx (vec_resize (vertices g) mx NULL))
       else Some g);
  slot ← vec_get (vertices g) id;
  if bool_decide (slot ≠ NULL) then Some (h, g, NULL)
  else
    sz ← grow (vec_size (fsize g)) family (Z.to_nat family + 1);
    let fs := vec_resize (fsize g) sz 0 in
    c ← vec_get fs family;
    fs ← vec_set fs family (c + 1);
    let g := set_fsize g fs in
    let g := if bool_decide (id > lastVid g) then set_lastVid g id else g in
    let g := set_n g (n g + 1) in
    c ← vec_get (npart g) (to_unsigned part);
    np ← vec_set (npart g) (to_unsigned part) (c + 1);
    let g := set_npart g np in
    let '(vs, v) := Vertex.alloc (Heap.vs h) (Vertex.new id 0 0) in
    vv ← vec_set (vertices g) id v;
    let g := set_vertices g (maxn g) vv in
    vs ← Vertex.update vs v
           (λ x, Vertex.setLabel (Vertex.set_family (Vertex.setPart x part)
                                                    family) label);
    Some (Heap.mk vs (Heap.es h), g, v).

(** the scan for an empty slot of [addVertex(const char *label, ...)] *)
Fixpoint free_slot (g : t) (id : Z) (count : nat) : option Z :=
  match count with
  | O => Some id
  | S k => p ← vec_get (vertices g) id;
           if bool_decide (p ≠ NULL) then free_slot g (id + 1) k else Some id
  end.

(** [Graph::addVertex(const char *label, char part, unsigned int family)] *)
Definition addVertex_auto (h : Heap.t) (g : t) (label : option string)
    (part : Z) (family : Z) : option (Heap.t * t * ptr) :=
  id ← (if bool_decide (lastVid g < maxn g - 1) then Some (lastVid g + 1)
        else free_slot g 0 (Z.to_nat (maxn g)));
  addVertex h g id label part family.

(** [Graph::removeEdge(Edge *e)] *)
Definition removeEdge (h : Heap.t) (g : t) (e : ptr) : option (Heap.t * t) :=
  if bool_decide (e = NULL) then Some (h, g)
  else
    let e1 := e in
    e2 ← Edge.getAdjRef (Heap.es h) e;
    v1 ← Edge.getAdj (Heap.es h) e2;
    v2 ← Edge.getAdj (Heap.es h) e1;
    s ← Edge.getSibling (Heap.es h) e1;
    h ← (if bool_decide (s ≠ NULL) then Heap.Edge_setSibling h s NULL
         else Some h);
    h ← Heap.Vertex_removeEdge h v1 e1;
    h ← Heap.Vertex_removeEdge h v2 e2;
    Some (h, set_m g (m g - 1)).

(** [while (v->edges->next != NULL) removeEdge(v->edges->next);] *)
Fixpoint removeEdges (h : Heap.t) (g : t) (v : ptr) (fuel : nat)
    : option (Heap.t * t) :=
  x ← Heap.vertex h v;
  match Vertex.edges x with
  | [] => Some (h, g)
  | e :: _ =>
      match fuel with
      | O => None
      | S k => '(h, g) ← removeEdge h g e; removeEdges h g v k
      end
  end.

(** [Graph::removeVertex(Vertex *v)] *)
Definition removeVertex (h : Heap.t) (g : t) (v : ptr)
    : option (Heap.t * t) :=
  if bool_decide (v = NULL) then Some (h, g)
  else
    x ← Heap.vertex h v;
    '(h, g) ← removeEdges h g v (length (Vertex.edges x));
    x ← Heap.vertex h v;
    vv ← vec_set (vertices g) (Vertex.id x) NULL;
    let g := set_vertices g (maxn g) vv in
    c ← vec_get (npart g) (to_unsigned (Vertex.part x));
    np ← vec_set (npart g) (to_unsigned (Vertex.part x)) (c - 1);
    let g := set_npart g np in
    c ← vec_get (fsize g) (Vertex.family x);
    fs ← vec_set (fsize g) (Vertex.family x) (c - 1);
    let g := set_fsize g fs in
    vs ← Vertex.free (Heap.vs h) v;
    Some (Heap.mk vs (Heap.es h), set_n g (n g - 1)).

(** [Graph::removeVertex(int id)] *)
Definition removeVertex_id (h : Heap.t) (g : t) (id : Z)
    : option (Heap.t * t) :=
  v ← getVertex g id; removeVertex h g v.

(** [Graph::partSize] *)
Definition partSize (g : t) (part : Z) : option Z :=
  if bool_decide (part < 0) || bool_decide (part > 127) then Some 0
  else vec_get (npart g) (to_unsigned part).

(** [Graph::familyName] *)
Definition familyName (g : t) (family : Z) : option (option string) :=
  if bool_decide (family >= vec_size (fname g)) then Some None
  else vec_get (fname g) family.

(** [Graph::setFamilyName]; the name is copied whole. *)
Definition setFamilyName (g : t) (family : Z) (name : string) : option t :=
  sz ← grow (vec_size (fname g)) family (Z.to_nat family + 1);
  fn ← vec_set (vec_resize (fname g) sz None) family (Some name);
  Some (set_fname g fn).

(** *** Iteration over the vertices *)

Record iterator := mk_iterator { cur : Z; it_part : Z; it_family : Z }.

(** the test of the scanning loops of [_begin] and [operator++] *)
Definition selected (h : Heap.t) (g : t) (part family : Z) (id : Z)
    : option bool :=
  p ← vec_get (vertices g) id;
  if bool_decide (p ≠ NULL)
  then
    okp ← (if bool_decide (part = -1) then Some true
           else x ← Heap.vertex h p; Some (bool_decide (part = Vertex.part x)));
    if okp : bool
    then if bool_decide (family = -1) then Some true
         else x ← Heap.vertex h p;
              Some (bool_decide (family = Vertex.family x))
    else Some false
  else Some false.

(** [for (; id < maxn; id++) if (selected) break;] *)
Fixpoint scan (h : Heap.t) (g : t) (part family : Z) (id : Z) (fuel : nat)
    : option Z :=
  if bool_decide (id < maxn g)
  then match fuel with
       | O => None
       | S k => b ← selected h g part family id;
                if b : bool then Some id
                else scan h g part family (id + 1) k
       end
  else Some id.

(** [Graph::_begin] *)
Definition _begin (h : Heap.t) (g : t) (part family : Z) (id : Z)
    : option iterator :=
  id ← scan h g part family id (Z.to_nat (maxn g - id));
  Some (mk_iterator id part family).

Definition begin_ (h : Heap.t) (g : t) : option iterator :=
  _begin h g (-1) (-1) 0.
Definition begin_part (h : Heap.t) (g : t) (part : Z) : option iterator :=
  _begin h g part (-1) 0.
(** [begin(char part, unsigned int family)] and [begin(unsigned int
    family)] hand the family to the [int] parameter of [_begin]. *)
Definition begin_part_family (h : Heap.t) (g : t) (part family : Z)
    : option iterator :=
  _begin h g part (to_int family) 0.
Definition begin_family (h : Heap.t) (g : t) (family : Z) : option iterator :=
  _begin h g (-1) (to_int family) 0.
Definition begin_id (h : Heap.t) (g : t) (id : Z) : option iterator :=
  _begin h g (-1) (-1) (if bool_decide (id >= 0) then id else 0).

(** [Graph::end] *)
Definition end_ (g : t) : iterator := mk_iterator (maxn g) (-1) (-1).

(** [operator++] *)
Definition next (h : Heap.t) (g : t) (it : iterator) : option iterator :=
  id ← scan h g (it_part it) (it_family it) (cur it + 1)
            (Z.to_nat (maxn g - (cur it + 1)));
  Some (mk_iterator id (it_part it) (it_family it)).

(** [operator*] *)
Definition get (g : t) (it : iterator) : option ptr :=
  vec_get (vertices g) (cur it).

(** [operator!=]: on iterators of one graph, the positions differ *)
Definition differ (it it' : iterator) : bool := bool_decide (cur it ≠ cur it').

(** The vertices visited by [for (; it != end(); ++it)] when the loop
    leaves the vertices of [g] as they are. *)
Fixpoint visited (h : Heap.t) (g : t) (it : iterator) (fuel : nat)
    : option (list ptr) :=
  if differ it (end_ g)
  then match fuel with
       | O => None
       | S k => p ← get g it; it' ← next h g it;
                rest ← visited h g it' k; Some (p :: rest)
       end
  else Some [].

Definition range (h : Heap.t) (g : t) (it : iterator) : option (list ptr) :=
  visited h g it (Z.to_nat (maxn g) + 1).

(** [for (; it != end(); it++) size++;] *)
Fixpoint count_from (h : Heap.t) (g : t) (it : iterator) (size : Z)
    (fuel : nat) : option Z :=
  if differ it (end_ g)
  then match fuel with
       | O => None
       | S k => it' ← next h g it; count_from h g it' (size + 1) k
       end
  else Some size.

(** [Graph::familySize(unsigned int family, char part)].  Its call
    [begin(family, part)] is a call of [begin(char part, unsigned int
    family)], the only [begin] with two parameters: the family is converted
    to the [char] of the part, and the part to the [unsigned int] of the
    family. *)
Definition familySize (h : Heap.t) (g : t) (family part : Z) : option Z :=
  it ← begin_part_family h g (to_char (family mod 2 ^ 8)) (to_unsigned part);
  count_from h g it 0 (Z.to_nat (maxn g) + 1).

(** [Graph::removeEdge(Extremity ex1, Extremity ex2)] *)
Definition removeEdge_extremities (h : Heap.t) (g : t)
    (ex1 ex2 : Extremity.t) : option (Heap.t * t) :=
  it ← begin_ h g;
  vs ← range h g it;
  for_each (λ v '(h, g),
      x ← Heap.vertex h v;
      if Vertex.hasExtremity x ex1 || Vertex.hasExtremity x ex2
      then for_each (λ e '(h, g),
               ed ← Heap.edge h e;
               if (Extremity.eqb (Edge.ex1 ed) ex1
                   && Extremity.eqb (Edge.ex2 ed) ex2)
                  || (Extremity.eqb (Edge.ex1 ed) ex2
                      && Extremity.eqb (Edge.ex2 ed) ex1)
               then removeEdge h g e
               else Some (h, g))
             (Vertex.edges x) (h, g)
      else Some (h, g))
    vs (h, g).

(** [Graph::Graph(Graph &g)] *)
Definition copy (h : Heap.t) (g : t) : option (Heap.t * t) :=
  this ← new (label g) (maxn g);
  it ← begin_ h g;
  vs ← range h g it;
  '(h, this) ←
    for_each (λ v '(h, this),
        x ← Heap.vertex h v;
        '(h, this, newv) ← addVertex h this (Vertex.id x) (Vertex.label x)
                                     (to_char (Vertex.part x))
                                     (Vertex.family x);
        h ← Heap.update_vertex h newv
               (λ y, Vertex.setDirection y (Vertex.getDirection x));
        let e1 := Vertex.getExtremityLeft x in
        let e2 := Vertex.getExtremityRight x in
        h ← Heap.update_vertex h newv
               (λ y, Vertex.setExtremities y
                       (Extremity.getId e1) (Extremity.getType e1)
                       (Extremity.getId e2) (Extremity.getType e2));
        Some (h, this))
      vs (h, this);
  for_each (λ v '(h, this),
      x ← Heap.vertex h v;
      for_each (λ e '(h, this),
          ed ← Heap.edge h e;
          a ← Heap.vertex h (Edge.adj ed);
          if bool_decide (Vertex.id a > Vertex.id x)
          then
            let sibling := Edge.sibling ed in
            if bool_decide (sibling ≠ NULL)
               && bool_decide (Extremity.getType (Edge.getExtremityFrom ed)
                               = Extremity.HEAD)
            then Some (h, this)
            else
              '(h, this, newe) ← addEdge_id h this (Vertex.id x)
                                            (Vertex.id a) (Edge.label ed);
              let e1 := Edge.getExtremityFrom ed in
              let e2 := Edge.getExtremityTo ed in
              h ← Heap.Edge_setExtremities h newe
                     (Extremity.getId e1) (Extremity.getType e1)
                     (Extremity.getId e2) (Extremity.getType e2);
              if bool_decide (sibling ≠ NULL)
              then
                sb ← Heap.edge h sibling;
                sr ← Heap.edge h (Edge.adjRef sb);
                sfrom ← Heap.vertex h (Edge.adj sr);
                sto ← Heap.vertex h (Edge.adj sb);
                '(h, this, newe_sibling) ←
                  addEdge_id h this (Vertex.id sfrom) (Vertex.id sto)
                             (Edge.label sb);
                ed ← Heap.edge h e;
                let e1 := Edge.getExtremityFrom ed in
                let e2 := Edge.getExtremityTo ed in
                h ← Heap.Edge_setExtremities h newe_sibling
                       (Extremity.getId e1) (Extremity.getType e1)
                       (Extremity.getId e2) (Extremity.getType e2);
                h ← Heap.Edge_setSibling h newe newe_sibling;
                h ← Heap.Edge_setSibling h newe_sibling newe;
                Some (h, this)
              else Some (h, this)
          else Some (h, this))
        (Vertex.edges x) (h, this))
    vs (h, this).

End Graph.

(** ** The cycles graph *)

Module CyclesGraph.

(** *** Collecting the cycles of a given length *)

(** The body of the loop over the edges [e] of the last vertex of a path
    [p], in round [i]: [p] (which [consistent] goes through) and the list
    of the next round. *)
Definition try_edge (es : Edge.store) (len i : Z) (e : ptr)
    (st : Path.t * list Path.t) : option (Path.t * list Path.t) :=
  let '(p, newlist) := st in
  '(ok, p) ← Path.consistent_edge es p e;
  if negb ok then Some (p, newlist)
  else
    cycle ← Path.isCycle_with es p e;
    if bool_decide (i < len - 1) && negb cycle
    then a ← Edge.getAdj es e;
         q ← Path.plus_vertex p a;
         q ← Path.plus_edge q e;
         Some (p, q :: newlist)
    else if bool_decide (i = len - 1) && cycle
    then f ← Path.firstE p;
         above ← Edge.gt es e f;
         if above : bool
         then q ← Path.plus_edge p e; Some (p, q :: newlist)
         else Some (p, newlist)
    else Some (p, newlist).

(** [for (auto e : *p->last()) ...] *)
Definition extend (h : Heap.t) (len i : Z) (p : Path.t)
    (newlist : list Path.t) : option (list Path.t) :=
  la ← Path.last p;
  x ← Heap.vertex h la;
  '(_, newlist) ← for_each (try_edge (Heap.es h) len i) (Vertex.edges x)
                           (p, newlist);
  Some newlist.

(** one round: [for (auto p : *list) ...], from an empty [newlist] *)
Definition round (h : Heap.t) (len i : Z) (paths : list Path.t)
    : option (list Path.t) :=
  for_each (extend h len i) paths [].

(** [for (auto c : *list) ...]: a cycle is kept when its signature is new *)
Definition keep_new (es : Edge.store) (c : Path.t)
    (st : list string * list Path.t) : option (list string * list Path.t) :=
  let '(cycle_signatures, cycles) := st in
  sign ← Path.signature es c;
  if bool_decide (sign ∈ cycle_signatures) then Some (cycle_signatures, cycles)
  else Some (sign :: cycle_signatures, c :: cycles).

(** the body of the loop over the start vertices *)
Definition from_vertex (h : Heap.t) (len : Z) (v : ptr)
    (st : list string * list Path.t) : option (list string * list Path.t) :=
  p ← Path.of_vertex v;
  paths ← for_range (round h len) 0 (Z.to_nat len) [p];
  for_each (keep_new (Heap.es h)) paths st.

(** The list [cycles] of [buildCyclesGraph(Graph *ag, int len)] when the
    graph has a vertex and [len >= 2].  The hash table of the signatures is
    sized by the [int] product [(ag->getN()/2)*(ag->getN()/2)], which is
    undefined when it leaves [int] (no result). *)
Definition cycles (h : Heap.t) (ag : Graph.t) (len : Z)
    : option (list Path.t) :=
  if bool_decide ((Graph.getN ag ÷ 2) * (Graph.getN ag ÷ 2) >= 2 ^ 31)
  then None
  else
    it ← Graph.begin_ h ag;
    v ← Graph.get ag it;
    x ← Heap.vertex h v;
    let part := to_char (Vertex.getPart x) in
    it ← Graph.begin_part h ag part;
    starts ← Graph.range h ag it;
    '(_, cycles) ← for_each (from_vertex h len) starts ([], []);
    Some cycles.

(** *** Building the graph of the cycles *)

(** [std::map<int, forward_list<Vertex *>>], in the order of its keys *)
Abbreviation table := (list (Z * list ptr)) (only parsing).

(** [t[k].push_front(w)] *)
Fixpoint table_push (k : Z) (w : ptr) (t : table) : table :=
  match t with
  | [] => [(k, [w])]
  | (k', ws) :: t' =>
      if bool_decide (k = k') then (k', w :: ws) :: t'
      else if bool_decide (k < k') then (k, [w]) :: t
      else (k', ws) :: table_push k w t'
  end.

(** [std::unordered_map<int, table>] *)
Abbreviation tables := (gmap Z (list (Z * list ptr))) (only parsing).

Definition tables_at (associations : tables) (a : Z) : table :=
  default [] (associations !! a).

(** [associations[a][b].push_front(w)] *)
Definition tables_push (associations : tables) (a b : Z) (w : ptr) : tables :=
  <[a := table_push b w (tables_at associations a)]> associations.

(** [if (added.find(w) == added.end())
       { addEdge(v, w, NULL); added.insert(w); }] *)
Definition connect (v w : ptr) (st : Heap.t * Graph.t * list ptr)
    : option (Heap.t * Graph.t * list ptr) :=
  let '(h, this, added) := st in
  if bool_decide (w ∉ added)
  then '(h, this, _) ← Graph.addEdge h this v w None;
       Some (h, this, w :: added)
  else Some (h, this, added).

(** The loop over [associations[a]] for an edge pairing [a] with [b]:
    an edge from [v] to every vertex recorded with [a] and another
    partner, unless one was added already. *)
Definition link (associations : tables) (v : ptr) (a b : Z)
    (st : Heap.t * Graph.t * list ptr)
    : option (Heap.t * Graph.t * list ptr) :=
  for_each (λ '(key, ws) st,
      if bool_decide (key = b) then Some st
      else for_each (connect v) ws st)
    (tables_at associations a) st.

(** the body of the loop over the edges of a cycle [c] *)
Definition record_edge (c : Path.t) (v : ptr) (i : Z)
    (st : Heap.t * Graph.t * list ptr * tables)
    : option (Heap.t * Graph.t * list ptr * tables) :=
  let '(h, this, added, associations) := st in
  e ← Path.nthE c i;
  ed ← Heap.edge h e;
  let from := Edge.getExtremityFrom ed in
  let to := Edge.getExtremityTo ed in
  if bool_decide (Extremity.getType from = Extremity.UNDEF)
     || bool_decide (Extremity.getType to = Extremity.UNDEF)
  then Some st
  else
    '(h, this, added) ← link associations v (Extremity.getId from)
                             (Extremity.getId to) (h, this, added);
    let associations := tables_push associations (Extremity.getId from)
                                    (Extremity.getId to) v in
    '(h, this, added) ← link associations v (Extremity.getId to)
                             (Extremity.getId from) (h, this, added);
    let associations := tables_push associations (Extremity.getId to)
                                    (Extremity.getId from) v in
    Some (h, this, added, associations).

(** the body of the loop over the cycles *)
Definition add_cycle (c : Path.t) (st : Heap.t * Graph.t * tables)
    : option (Heap.t * Graph.t * tables) :=
  let '(h, this, associations) := st in
  sign ← Path.signature (Heap.es h) c;
  '(h, this, v) ← Graph.addVertex_auto h this (Some sign) 0 0;
  h ← Heap.update_vertex h v (λ x, Vertex.setData x (Some c));
  '(h, this, _, associations) ←
    for_range (record_edge c v) 0 (Z.to_nat (Path.lenE c))
              (h, this, [], associations);
  Some (h, this, associations).

(** [CyclesGraph::buildCyclesGraph(Graph *ag, forward_list<Path *> *cycles)] *)
Definition buildCyclesGraph_list (h : Heap.t) (this : Graph.t)
    (ag : Graph.t) (cycles : list Path.t) : option (Heap.t * Graph.t) :=
  '(h, this, _) ← for_each add_cycle cycles (h, this, ∅);
  Some (h, this).

(** [CyclesGraph::buildCyclesGraph(Graph *ag, int len)] *)
Definition buildCyclesGraph (h : Heap.t) (this : Graph.t) (ag : Graph.t)
    (len : Z) : option (Heap.t * Graph.t) :=
  if bool_decide (Graph.getN ag < 1) || bool_decide (len < 2)
  then buildCyclesGraph_list h this ag []
  else cs ← cycles h ag len; buildCyclesGraph_list h this ag cs.

(** [CyclesGraph::CyclesGraph(Graph *ag, const char *label, int len)] *)
Definition new (h : Heap.t) (ag : Graph.t) (label : option string) (len : Z)
    : option (Heap.t * Graph.t) :=
  this ← Graph.new label (Graph.getN ag);
  buildCyclesGraph h this ag len.

End CyclesGraph.

(** The predicate of the specification's words: the same two tests, with the
    equality of extremities of the data model. *)
Definition incompatible_by_extremity (a b c d : Extremity.t) : bool :=
  xorb (Extremity.eqb a c) (Extremity.eqb b d)
  || xorb (Extremity.eqb a d) (Extremity.eqb b c).


(** ** Well-formed paths *)

(** The lengths in use are within the vectors (which are never empty) and
    within the range of [int]. *)
Definition Path_wf (p : Path.t) : Prop :=
  (0 ≤ Path.l p ≤ vec_size (Path.v p) ∧ 1 ≤ vec_size (Path.v p)
   ∧ Path.l p < 2 ^ 31)
  ∧ (0 ≤ Path.le p ≤ vec_size (Path.e p) ∧ 1 ≤ vec_size (Path.e p)
     ∧ Path.le p < 2 ^ 31).

(** Every pointer of the list is the address of an edge record. *)
Definition edges_live (es : Edge.store) (l : list ptr) : Prop :=
  ∀ y, y ∈ l → is_Some (Edge.deref es y).

(** The far endpoint of the last edge of a path, when there is one. *)
Definition Path_lastE_adj (es : Edge.store) (p : Path.t) : option ptr :=
  y ← Path.lastE p; Edge.getAdj es y.

(** The two vector updates shared by [addVertex]/[addEdge] and by
    [removeVertex]/[removeEdge]:
    [if (k == size) vec.resize(size * 2, 0); vec[k] = x;] and
    [if (k < size / 2) vec.resize(size / 2, 0);] *)
Definition pushed {A} (null : A) (vec : list A) (k : Z) (x : A)
    : option (list A) :=
  vec_set (if bool_decide (to_unsigned k = vec_size vec)
           then vec_resize vec (vec_size vec * 2) null else vec) k x.

Definition popped {A} (null : A) (vec : list A) (k : Z) : list A :=
  if bool_decide (to_unsigned k < vec_size vec / 2)
  then vec_resize vec (vec_size vec / 2) null else vec.

(** ** The signature, in the words of the specification *)

(** The edge ordering relation on two records of the heap. *)
Definition Edge_ltb (es : Edge.store) (x y : ptr) : bool :=
  default false (Edge.lt es x y).

(** An edge is placed before the last edges it is less than. *)
Fixpoint place (ltb : ptr → ptr → bool) (x : ptr) (sorted : list ptr)
    : list ptr :=
  match sorted with
  | [] => [x]
  | y :: rest => if forallb (ltb x) sorted then x :: sorted
                 else y :: place ltb x rest
  end.

(** The edges sorted by the edge ordering relation, each one placed in turn. *)
Definition sorted_edges (es : Edge.store) (edges : list ptr) : list ptr :=
  foldl (λ acc x, place (Edge_ltb es) x acc) [] edges.

(** The labels of the edges of a path, in the sorted order of the edges. *)
Definition sorted_labels (es : Edge.store) (p : Path.t)
    : list (option string) :=
  map (λ y, lab ← Edge.getLabel es y; lab) (sorted_edges es (Path.getEdges p)).

(** The labels one after the other, each read as a C string; there must be
    no null label and none without terminator. *)
Definition concat_labels (labels : list (option string)) : option string :=
  foldl (λ s lab, s ← s; lb ← lab; lb ← c_str lb; Some (String.append s lb))
        (Some EmptyString) labels.

(** ** Graphs in the heap *)

(** [x] is the vertex object of slot [i] of the graph: the live vertex of
    id [i]. *)
Definition live_at (h : Heap.t) (g : Graph.t) (i : Z) (x : Vertex.t) : Prop :=
  ∃ p, vec_get (Graph.vertices g) i = Some p ∧ Heap.vertex h p = Some x.

(** Every slot in use points to a vertex object, whose id is the index of
    the slot. *)
Definition Graph_slots_ok (h : Heap.t) (g : Graph.t) : Prop :=
  ∀ i p, vec_get (Graph.vertices g) i = Some p → p ≠ NULL →
    ∃ x, Heap.vertex h p = Some x ∧ Vertex.id x = i.

(** The vertices an iteration selects: the live vertices of the part
    [part] (of any part for -1) and of the family [family] (of any family
    for -1). *)
Definition iter_match (h : Heap.t) (part family : Z) (p : ptr) : bool :=
  match Heap.vertex h p with
  | Some x => (bool_decide (part = -1) || bool_decide (part = Vertex.part x))
              && (bool_decide (family = -1)
                  || bool_decide (family = Vertex.family x))
  | None => false
  end.

(** *** Well-formed adjacency lists *)

(** The record [e] of the list of the vertex [v] is one of the two records
    of an edge between [v] and another vertex: it is live and has no
    sibling; its mirror record is another live record, which leads to [v],
    has [e] for mirror, and is in the list of the vertex at the other
    end. *)
Definition edge_ok (h : Heap.t) (v e : ptr) : Prop :=
  ∃ d d' y,
    Heap.edge h e = Some d ∧ Heap.edge h (Edge.adjRef d) = Some d'
    ∧ Edge.adjRef d ≠ e ∧ Edge.adjRef d' = e
    ∧ Edge.adj d' = v ∧ Edge.adj d ≠ v
    ∧ Heap.vertex h (Edge.adj d) = Some y ∧ Edge.adjRef d ∈ Vertex.edges y
    ∧ Edge.sibling d = NULL.

(** Every vertex object lists different records, all of them well formed,
    and its degree is their number (as an [unsigned short]). *)
Definition adjacency_ok (h : Heap.t) : Prop :=
  ∀ v x, Heap.vertex h v = Some x →
    NoDup (Vertex.edges x)
    ∧ Vertex.degree x = to_ushort (Z.of_nat (length (Vertex.edges x)))
    ∧ ∀ e, e ∈ Vertex.edges x → edge_ok h v e.

(** Two edge records with the same endpoints, mirror and sibling. *)
Definition same_links (d d' : Edge.t) : Prop :=
  Edge.adj d' = Edge.adj d ∧ Edge.adjRef d' = Edge.adjRef d
  ∧ Edge.sibling d' = Edge.sibling d.

(** From [es] to [es'], the records that are live and their endpoints,
    mirrors and siblings are the same. *)
Definition links_kept (es es' : Edge.store) : Prop :=
  (∀ q d, Edge.deref es q = Some d →
     ∃ d', Edge.deref es' q = Some d' ∧ same_links d d')
  ∧ (∀ q, Edge.deref es q = None → Edge.deref es' q = None).

(** Two vertex objects that differ by their edges and degree only. *)
Definition same_vertex (x x' : Vertex.t) : Prop :=
  ∃ d l, x' = Vertex.set_degree_edges x d l.

(** The records that [removeVertex] frees: the records of the list of
    the vertex and their mirror records. *)
Definition at_vertex (h : Heap.t) (x : Vertex.t) (p : ptr) : Prop :=
  p ∈ Vertex.edges x
  ∨ ∃ e d, e ∈ Vertex.edges x ∧ Heap.edge h e = Some d ∧ Edge.adjRef d = p.

(** From [h] to [h'], records among [F] were taken out of the lists and
    freed; nothing else changed. *)
Definition edges_removed (F : ptr → Prop) (h h' : Heap.t) : Prop :=
  (∀ u xu, Heap.vertex h u = Some xu →
     ∃ xu', Heap.vertex h' u = Some xu' ∧ same_vertex xu xu'
       ∧ Vertex.edges xu' `sublist_of` Vertex.edges xu
       ∧ ∀ t, t ∈ Vertex.edges xu → t ∉ Vertex.edges xu' →
           Heap.edge h' t = None)
  ∧ (∀ u, Heap.vertex h u = None → Heap.vertex h' u = None)
  ∧ (∀ p, Heap.edge h' p = Heap.edge h p ∨ (Heap.edge h' p = None ∧ F p)).

(** The test of [removeEdge(Extremity, Extremity)] on a record: its
    extremities are the two given ones, one way or the other. *)
Definition joins (ex1 ex2 : Extremity.t) (d : Edge.t) : bool :=
  (Extremity.eqb (Edge.ex1 d) ex1 && Extremity.eqb (Edge.ex2 d) ex2)
  || (Extremity.eqb (Edge.ex1 d) ex2 && Extremity.eqb (Edge.ex2 d) ex1).

(** The records of the edges of [h] between two extremities: a record
    that passes the test, or the mirror record of one. *)
Definition joining (h : Heap.t) (ex1 ex2 : Extremity.t) (p : ptr) : Prop :=
  ∃ e d, Heap.edge h e = Some d ∧ joins ex1 ex2 d = true
    ∧ (p = e ∨ p = Edge.adjRef d).

(** *** The copy of a graph *)

(** The vertex that the copy constructor makes for the vertex [x], before
    it adds the edges. *)
Definition copied (x : Vertex.t) : Vertex.t :=
  Vertex.mk (Vertex.id x) 0 (Vertex.direction x) (Vertex.part x)
    (Vertex.family x) (copy_label (Vertex.label x)) [] None
    (Vertex.ex1 x) (Vertex.ex2 x).

(** What a copy keeps of an edge record: the id of the vertex it leads
    to, the label (cut, as every label is) and the two extremities. *)
Definition edge_info (h : Heap.t) (e : ptr)
    : option (Z * option string * Extremity.t * Extremity.t) :=
  d ← Heap.edge h e; a ← Heap.vertex h (Edge.adj d);
  Some (Vertex.id a, copy_label (Edge.label d), Edge.ex1 d, Edge.ex2 d).

(** The record leads to a vertex of greater id than [x], the vertex that
    lists it. *)
Definition upward (h : Heap.t) (x : Vertex.t) (e : ptr) : bool :=
  match Heap.edge h e with
  | Some d => match Heap.vertex h (Edge.adj d) with
              | Some a => bool_decide (Vertex.id a > Vertex.id x)
              | None => false
              end
  | None => false
  end.

(** The heap [hc] holds the objects of [h] and, for every vertex of the
    graph [g], a vertex of the graph [this] in the same slot, whose
    records to vertices of greater ids are copies of the records of that
    kind among [seen v], the last one first. *)
Definition edges_copied (h : Heap.t) (g this : Graph.t)
    (seen : ptr → list ptr) (hc : Heap.t) : Prop :=
  adjacency_ok hc
  ∧ (∀ p y, Heap.vertex h p = Some y → Heap.vertex hc p = Some y)
  ∧ (∀ e d, Heap.edge h e = Some d → Heap.edge hc e = Some d)
  ∧ ∀ i v x, Graph.getVertex g i = Some v → Heap.vertex h v = Some x →
      ∃ v' x', Graph.getVertex this i = Some v' ∧ v' ≠ NULL
        ∧ Heap.vertex h v' = None ∧ Heap.vertex hc v' = Some x'
        ∧ same_vertex (copied x) x'
        ∧ map (edge_info hc) (filter (upward hc x') (Vertex.edges x'))
          = rev (map (edge_info h) (filter (upward h x) (seen v))).

(** The records of a vertex of [h]; those that lead to vertices of
    greater ids; and the latter for all the vertices of the graph [g], in
    the order of an iteration. *)
Definition edges_of (h : Heap.t) (v : ptr) : list ptr :=
  match Heap.vertex h v with Some x => Vertex.edges x | None => [] end.

Definition upward_of (h : Heap.t) (v : ptr) : list ptr :=
  match Heap.vertex h v with
  | Some x => filter (upward h x) (Vertex.edges x)
  | None => []
  end.

Definition upward_records (h : Heap.t) (g : Graph.t) : list ptr :=
  concat (map (upward_of h)
              (List.filter (iter_match h (-1) (-1)) (Graph.vertices g))).

(** *** The operations of a graph *)

(** The vertex behind the pointer is live and its part is [q]. *)
Definition in_part (h : Heap.t) (q : Z) (p : ptr) : bool :=
  match Heap.vertex h p with
  | Some x => bool_decide (Vertex.part x = q)
  | None => false
  end.

(** The number of live vertices of the graph whose part is [q]. *)
Definition count_part (h : Heap.t) (g : Graph.t) (q : Z) : Z :=
  Z.of_nat (length (List.filter (in_part h q) (Graph.vertices g))).

(** The operations on a graph and on its vertices and edges.
    [Vertex::setPart] is not one of them: it writes the part of a vertex
    without the graph. *)
Inductive GraphOp : Type :=
  | AddVertex (id : Z) (label : option string) (part family : Z)
  | AddVertexAuto (label : option string) (part family : Z)
  | AddEdge (v1 v2 : ptr) (label : option string)
  | AddEdgeId (id1 id2 : Z) (label : option string)
  | RemoveVertex (v : ptr)
  | RemoveVertexId (id : Z)
  | RemoveEdge (e : ptr)
  | RemoveEdgeExtremities (ex1 ex2 : Extremity.t)
  | SetLabel (label : option string)
  | SetFamilyName (family : Z) (name : string)
  | VertexSetDirection (v : ptr) (d : Z)
  | VertexSetExtremities (v : ptr) (id1 : Z) (t1 : Extremity.Kind)
                         (id2 : Z) (t2 : Extremity.Kind)
  | VertexSetLabel (v : ptr) (label : option string)
  | VertexSetData (v : ptr) (d : option Path.t)
  | EdgeSetExtremities (e : ptr) (id1 : Z) (t1 : Extremity.Kind)
                       (id2 : Z) (t2 : Extremity.Kind)
  | EdgeSetSibling (e s : ptr)
  | EdgeSetLabel (e : ptr) (label : option string).

(** The heap and the graph after an operation, and the pointer it returns
    (null for the operations that return nothing). *)
Definition run (op : GraphOp) (h : Heap.t) (g : Graph.t)
    : option (Heap.t * Graph.t * ptr) :=
  match op with
  | AddVertex id label part family => Graph.addVertex h g id label part family
  | AddVertexAuto label part family => Graph.addVertex_auto h g label part family
  | AddEdge v1 v2 label => Graph.addEdge h g v1 v2 label
  | AddEdgeId id1 id2 label => Graph.addEdge_id h g id1 id2 label
  | RemoveVertex v => '(h, g) ← Graph.removeVertex h g v; Some (h, g, NULL)
  | RemoveVertexId id => '(h, g) ← Graph.removeVertex_id h g id; Some (h, g, NULL)
  | RemoveEdge e => '(h, g) ← Graph.removeEdge h g e; Some (h, g, NULL)
  | RemoveEdgeExtremities ex1 ex2 =>
      '(h, g) ← Graph.removeEdge_extremities h g ex1 ex2; Some (h, g, NULL)
  | SetLabel label => Some (h, Graph.setLabel g label, NULL)
  | SetFamilyName family name =>
      g ← Graph.setFamilyName g family name; Some (h, g, NULL)
  | VertexSetDirection v d =>
      h ← Heap.update_vertex h v (λ x, Vertex.setDirection x d); Some (h, g, NULL)
  | VertexSetExtremities v id1 t1 id2 t2 =>
      h ← Heap.update_vertex h v (λ x, Vertex.setExtremities x id1 t1 id2 t2);
      Some (h, g, NULL)
  | VertexSetLabel v label =>
      h ← Heap.update_vertex h v (λ x, Vertex.setLabel x label); Some (h, g, NULL)
  | VertexSetData v d =>
      h ← Heap.update_vertex h v (λ x, Vertex.setData x d); Some (h, g, NULL)
  | EdgeSetExtremities e id1 t1 id2 t2 =>
      h ← Heap.Edge_setExtremities h e id1 t1 id2 t2; Some (h, g, NULL)
  | EdgeSetSibling e s => h ← Heap.Edge_setSibling h e s; Some (h, g, NULL)
  | EdgeSetLabel e label =>
      es ← Edge.update (Heap.es h) e (λ x, Edge.set_label x label);
      Some (Heap.mk (Heap.vs h) es, g, NULL)
  end.

(** The arguments of an operation are values of their C++ types, and a
    vertex passed by pointer is one of this graph. *)
Definition op_ok (g : Graph.t) (op : GraphOp) : Prop :=
  match op with
  | AddVertex _ _ part family | AddVertexAuto _ part family =>
      -128 ≤ part ≤ 127 ∧ 0 ≤ family < 2 ^ 32
  | AddEdge v1 v2 _ =>
      (v1 = NULL ∨ v1 ∈ Graph.vertices g) ∧ (v2 = NULL ∨ v2 ∈ Graph.vertices g)
  | RemoveVertex v => v = NULL ∨ v ∈ Graph.vertices g
  | _ => True
  end.

(** What an operation adds to the number of vertices of part [q]: one for
    a vertex added to that part, minus one for a vertex removed from it. *)
Definition part_delta (op : GraphOp) (h : Heap.t) (g : Graph.t) (result : ptr)
    (q : Z) : Z :=
  let removed v :=
    match Heap.vertex h v with
    | Some x => if bool_decide (Vertex.part x = q) then -1 else 0
    | None => 0
    end in
  match op with
  | AddVertex _ _ part _ | AddVertexAuto _ part _ =>
      if bool_decide (result ≠ NULL)
         && bool_decide (q = if bool_decide (part < 0) then 0 else part)
      then 1 else 0
  | RemoveVertex v => removed v
  | RemoveVertexId id => removed (default NULL (Graph.getVertex g id))
  | _ => 0
  end.

(** The graphs made by the constructor and the operations. *)
Inductive reachable : Heap.t → Graph.t → Prop :=
  | reachable_new h label maxvertices g :
      Graph.new label maxvertices = Some g → reachable h g
  | reachable_step h g op h' g' result :
      reachable h g → op_ok g op → run op h g = Some (h', g', result) →
      reachable h' g'.

(** The invariant behind the counts of the parts. *)
Definition parts_ok (h : Heap.t) (g : Graph.t) : Prop :=
  vec_size (Graph.npart g) = 128
  ∧ vec_size (Graph.vertices g) = Graph.maxn g
  ∧ Graph_slots_ok h g
  ∧ (∀ i x, live_at h g i x → 0 ≤ Vertex.part x ≤ 127)
  ∧ (∀ q, 0 ≤ q ≤ 127 → vec_get (Graph.npart g) q = Some (count_part h g q)).

(** Every vertex object keeps its id and its part (and stays live or not). *)
Definition vertex_key (x : Vertex.t) : Z * Z := (Vertex.id x, Vertex.part x).

Definition same_vertices (h h' : Heap.t) : Prop :=
  ∀ p, vertex_key <$> Heap.vertex h' p = vertex_key <$> Heap.vertex h p.

(** A step from [(h, g)] to [(h', g')] that leaves the vertices of the
    graph, their parts, the counts and the capacity as they are. *)
Definition keeps_parts (s s' : Heap.t * Graph.t) : Prop :=
  same_vertices s.1 s'.1
  ∧ Graph.vertices s'.2 = Graph.vertices s.2
  ∧ Graph.npart s'.2 = Graph.npart s.2
  ∧ Graph.maxn s'.2 = Graph.maxn s.2
  ∧ Graph.fsize s'.2 = Graph.fsize s.2.

(** *** The graph of the cycles *)

(** The vertices at the other end of the edge records of a vertex, in the
    order of its list. *)
Definition neighbours (h : Heap.t) (v : ptr) : option (list ptr) :=
  x ← Heap.vertex h v;
  mapM (λ e, Edge.adj <$> Heap.edge h e) (Vertex.edges x).

(** Both extremities of the edge are defined. *)
Definition defined_edge (ed : Edge.t) : bool :=
  negb (bool_decide (Extremity.ty (Edge.ex1 ed) = Extremity.UNDEF))
  && negb (bool_decide (Extremity.ty (Edge.ex2 ed) = Extremity.UNDEF)).

(** Some edge of [c] and some edge of [c'], both with defined extremities,
    are incompatible. *)
Definition conflicting (es : Edge.store) (c c' : Path.t) : Prop :=
  ∃ e e' ed ed',
    e ∈ Path.getEdges c ∧ e' ∈ Path.getEdges c'
    ∧ Edge.deref es e = Some ed ∧ Edge.deref es e' = Some ed'
    ∧ defined_edge ed = true ∧ defined_edge ed' = true
    ∧ Edge.incompatible ed ed' = true.

(** An edge with defined extremities that pairs the gene id [a] with the
    gene id [b]. *)
Definition edge_pairs (ed : Edge.t) (a b : Z) : Prop :=
  defined_edge ed = true
  ∧ ((Extremity.id (Edge.ex1 ed) = a ∧ Extremity.id (Edge.ex2 ed) = b)
     ∨ (Extremity.id (Edge.ex2 ed) = a ∧ Extremity.id (Edge.ex1 ed) = b)).

Definition pairs_in (es : Edge.store) (l : list ptr) (a b : Z) : Prop :=
  ∃ e ed, e ∈ l ∧ Edge.deref es e = Some ed ∧ edge_pairs ed a b.

(** An edge of [c] with defined extremities pairs the gene id [a] with the
    gene id [b]. *)
Definition pairs (es : Edge.store) (c : Path.t) (a b : Z) : Prop :=
  pairs_in es (Path.getEdges c) a b.

(** Two cycles have a gene id in common on edges with defined
    extremities. *)
Definition share_gene (es : Edge.store) (c c' : Path.t) : Prop :=
  ∃ a b b', pairs es c a b ∧ pairs es c' a b'.

(** [w] is in the list [associations[a][b]]. *)
Definition recorded (associations : gmap Z (list (Z * list ptr)))
    (a b : Z) (w : ptr) : Prop :=
  ∃ ws, (b, ws) ∈ CyclesGraph.tables_at associations a ∧ w ∈ ws.

(** An edge of the list [l] pairs a gene id with a partner, and [w] is
    recorded at this gene id with another partner. *)
Definition hits (es : Edge.store) (l : list ptr)
    (associations : gmap Z (list (Z * list ptr))) (w : ptr) : Prop :=
  ∃ a b key, pairs_in es l a b ∧ key ≠ b ∧ recorded associations a key w.

(** A cycle handed to the builder: a well-formed path over edge records
    of the heap whose labels are C strings, so that it has a signature. *)
Definition cycle_ok (es : Edge.store) (c : Path.t) : Prop :=
  Path_wf c ∧ edges_live es (Path.getEdges c)
  ∧ is_Some (Path.signature es c).

(** Every edge record of [es] is the same in [es']. *)
Definition es_extends (es es' : Edge.store) : Prop :=
  ∀ p ed, Edge.deref es p = Some ed → Edge.deref es' p = Some ed.

(** The graph of the cycles while it is built: the vertices of the cycles
    fill the first slots, in order. *)
Definition cycles_graph_shape (this : Graph.t) (verts : list ptr) : Prop :=
  (∃ r, Graph.vertices this = verts ++ replicate r NULL)
  ∧ Graph.lastVid this = Z.of_nat (length verts) - 1
  ∧ Graph.maxn this = vec_size (Graph.vertices this) ∧ 1 ≤ Graph.maxn this
  ∧ vec_size (Graph.npart this) = 128 ∧ 1 ≤ vec_size (Graph.fsize this)
  ∧ Forall (λ v, v ≠ NULL) verts.

(** The set [added] after the loops of [link]. *)
Definition add_one (w : ptr) (added : list ptr) : list ptr :=
  if bool_decide (w ∉ added) then w :: added else added.

Definition add_all (ws : list ptr) (added : list ptr) : list ptr :=
  foldl (λ added w, add_one w added) added ws.

Definition link_added (t : list (Z * list ptr)) (b : Z) (added : list ptr)
    : list ptr :=
  foldl (λ added '(key, ws), if bool_decide (key = b) then added
                             else add_all ws added) added t.

(** The heap while the edges of the vertex [v] of a new cycle are added,
    from the heap [h0] in which [v] was made: the vertices [verts] of the
    earlier cycles and [v] keep all but their edges; [v] has an edge to
    the vertices of [added] other than itself, and they have one more
    edge, to [v]. *)
Definition linked (h0 : Heap.t) (verts : list ptr) (v : ptr) (h : Heap.t)
    (added : list ptr) : Prop :=
  es_extends (Heap.es h0) (Heap.es h)
  ∧ (∀ w, w = v ∨ w ∈ verts →
       ∃ x0 x, Heap.vertex h0 w = Some x0 ∧ Heap.vertex h w = Some x
         ∧ ∃ d l, x = Vertex.set_degree_edges x0 d l)
  ∧ (∃ Lv, neighbours h v = Some Lv ∧ NoDup Lv
       ∧ ∀ w, w ∈ Lv ↔ w ∈ added ∧ w ≠ v)
  ∧ (∀ w, w ∈ verts →
       ∃ L, neighbours h0 w = Some L
         ∧ neighbours h w = Some (if bool_decide (w ∈ added) then v :: L else L)).

(** The vertex of the cycle of index [k]: the vertices of the cycles are
    the only vertex objects made by the builder, one after the other from
    the first free address of the heap [h0] it starts in. *)
Definition cycle_vertex (h0 : Heap.t) (k : nat) : ptr :=
  Some (length (Heap.vs h0) + k)%nat.

Definition cycle_vertices (h0 : Heap.t) (n : nat) : list ptr :=
  map (cycle_vertex h0) (seq 0 n).

(** In the heap [h], the cycle [c] of index [k] has its vertex: the id is
    the index, the label is the copy of the signature (the signature when
    it has at most [_GRAPH_MAX_LABEL] characters), the data is the path,
    and the edges go, once each, to the vertices of the cycles of [cycles]
    that are in conflict with [c]. *)
Definition represents (h0 : Heap.t) (cycles : list Path.t) (h : Heap.t)
    (k : nat) (c : Path.t) : Prop :=
  ∃ x sign L,
    Heap.vertex h (cycle_vertex h0 k) = Some x
    ∧ Vertex.id x = Z.of_nat k
    ∧ Path.signature (Heap.es h0) c = Some sign
    ∧ Vertex.label x = copy_label (Some sign)
    ∧ Vertex.data x = Some c
    ∧ neighbours h (cycle_vertex h0 k) = Some L ∧ NoDup L
    ∧ ∀ w, w ∈ L ↔ ∃ k' c', k' ≠ k ∧ cycles !! k' = Some c'
                     ∧ w = cycle_vertex h0 k'
                     ∧ conflicting (Heap.es h0) c c'.

(** The state of the loop over the cycles, after the cycles [done]. *)
Definition built (h0 : Heap.t) (done : list Path.t) (h : Heap.t)
    (this : Graph.t) (associations : gmap Z (list (Z * list ptr))) : Prop :=
  es_extends (Heap.es h0) (Heap.es h)
  ∧ length (Heap.vs h) = (length (Heap.vs h0) + length done)%nat
  ∧ cycles_graph_shape this (cycle_vertices h0 (length done))
  ∧ (∀ k c, done !! k = Some c → represents h0 done h k c)
  ∧ (∀ a b w, recorded associations a b w
       ↔ ∃ k c, done !! k = Some c ∧ w = cycle_vertex h0 k
                ∧ pairs (Heap.es h0) c a b).

(** ** The cycles of a given length *)

(** The vertices and the edges of a path. *)
Definition Path_abs (p : Path.t) : list ptr * list ptr :=
  (Path.getVertices p, Path.getEdges p).

(** What [Path::consistent()] tests on the edges at two positions of a
    path, the first one before the second: they are incompatible, or the
    same record, or the first is the mirror record of the second. *)
Definition clash (es : Edge.store) (x y : ptr) : bool :=
  match Edge.deref es x, Edge.deref es y with
  | Some dx, Some dy =>
      Edge.incompatible dx dy || bool_decide (x = y)
      || bool_decide (x = Edge.adjRef dy)
  | _, _ => true
  end.

Definition consistent_list (es : Edge.store) (l : list ptr) : Prop :=
  ∀ i j x y, (i < j)%nat → l !! i = Some x → l !! j = Some y →
    clash es x y = false.

(** In round [i] of the search for the cycles of length [len], the edge
    [e] extends the path of vertices [vs] and edges [eps] to the path [q]
    of the next round: the edges stay consistent, and either it is not
    the last round and [e] does not go back to the first vertex, or it is
    the last round, [e] goes back to the first vertex and is greater than
    the first edge. *)
Definition accepts (es : Edge.store) (len i : Z) (vs eps : list ptr)
    (e : ptr) (q : list ptr * list ptr) : Prop :=
  consistent_list es (eps ++ [e])
  ∧ ∃ de f0, Edge.deref es e = Some de ∧ head vs = Some f0
      ∧ ((i < len - 1 ∧ Edge.adj de ≠ f0
          ∧ q = (vs ++ [Edge.adj de], eps ++ [e]))
         ∨ (i = len - 1 ∧ Edge.adj de = f0
            ∧ ∃ f, head eps = Some f ∧ Edge.gt es e f = Some true
                   ∧ q = (vs, eps ++ [e]))).

(** The paths of round [i] from the vertex [v]. *)
Inductive reach (h : Heap.t) (len : Z) (v : ptr)
    : nat → list ptr * list ptr → Prop :=
  | reach_O : reach h len v 0 ([v], [])
  | reach_S i vs eps la x e q :
      reach h len v i (vs, eps) →
      last vs = Some la → Heap.vertex h la = Some x → e ∈ Vertex.edges x →
      accepts (Heap.es h) len (Z.of_nat i) vs eps e q →
      reach h len v (S i) q.

(** A closed walk of [len] edges from the vertex [v]: [len] vertices
    from [v] on, none of the others being [v]; the edge at each position
    is in the list of the vertex at that position and leads to the next
    vertex, the last one back to [v]; the edges are consistent, and the
    last edge is greater than the first. *)
Definition closed_walk (h : Heap.t) (len : Z) (v : ptr)
    (vs eps : list ptr) : Prop :=
  length vs = Z.to_nat len ∧ length eps = Z.to_nat len
  ∧ head vs = Some v
  ∧ (∀ i u, (0 < i)%nat → vs !! i = Some u → u ≠ v)
  ∧ (∀ i e, eps !! i = Some e →
       ∃ u x d, vs !! i = Some u ∧ Heap.vertex h u = Some x
         ∧ e ∈ Vertex.edges x ∧ Heap.edge h e = Some d
         ∧ Edge.adj d = default v (vs !! S i))
  ∧ consistent_list (Heap.es h) eps
  ∧ ∃ f e, head eps = Some f ∧ last eps = Some e
      ∧ Edge.gt (Heap.es h) e f = Some true.

(** The signature of a path with the edges [eps]. *)
Definition signature_of (es : Edge.store) (eps : list ptr) : option string :=
  concat_labels (map (λ y, lab ← Edge.getLabel es y; lab)
                     (sorted_edges es eps)).

(** The signatures and the cycles kept so far, when every cycle found has
    the signature [s]: none yet, or one cycle, a path of the last round
    from some vertex. *)
Definition kept (h : Heap.t) (len : Z) (s : string)
    (st : list string * list Path.t) : Prop :=
  st = ([], [])
  ∨ ∃ c v, st = ([s], [c]) ∧ Path_wf c
           ∧ reach h len v (Z.to_nat len) (Path_abs c).

(** The part in which the search starts: the part of the first vertex
    of the graph, as a [char]. *)
Definition first_part (h : Heap.t) (g : Graph.t) (p0 : Z) : Prop :=
  ∃ i v x, 0 ≤ i ∧ vec_get (Graph.vertices g) i = Some v ∧ v ≠ NULL
    ∧ Heap.vertex h v = Some x
    ∧ (∀ j, 0 ≤ j < i → vec_get (Graph.vertices g) j = Some NULL)
    ∧ p0 = to_char (Vertex.getPart x).

(** A vertex from which the search starts: a vertex of the graph in the
    part [p0] (any vertex, when [p0] is -1). *)
Definition start_vertex (h : Heap.t) (g : Graph.t) (p0 : Z) (v : ptr) : Prop :=
  ∃ i x, vec_get (Graph.vertices g) i = Some v ∧ v ≠ NULL
    ∧ Heap.vertex h v = Some x ∧ (p0 = -1 ∨ p0 = Vertex.part x).

(** Every edge record in the list of a vertex object is live, and so is
    the vertex at its other end. *)
Definition edges_closed (h : Heap.t) : Prop :=
  ∀ v x e, Heap.vertex h v = Some x → e ∈ Vertex.edges x →
    ∃ ed, Heap.edge h e = Some ed ∧ is_Some (Heap.vertex h (Edge.adj ed)).

(** The closed walk from [v] to [a] along [e1], to [b] along [e2] and
    back to [v] along [e3], that does not come back to [v] before its
    end, and whose edges are consistent. *)
Definition triangle (h : Heap.t) (v a b e1 e2 e3 : ptr) : Prop :=
  ∃ x xa xb d1 d2 d3,
    Heap.vertex h v = Some x ∧ Heap.vertex h a = Some xa
    ∧ Heap.vertex h b = Some xb
    ∧ e1 ∈ Vertex.edges x ∧ e2 ∈ Vertex.edges xa ∧ e3 ∈ Vertex.edges xb
    ∧ Heap.edge h e1 = Some d1 ∧ Heap.edge h e2 = Some d2
    ∧ Heap.edge h e3 = Some d3
    ∧ Edge.adj d1 = a ∧ Edge.adj d2 = b ∧ Edge.adj d3 = v
    ∧ a ≠ v ∧ b ≠ v
    ∧ consistent_list (Heap.es h) [e1; e2; e3].

(** The gene ids of the extremities of an edge, the smaller one first:
    what [operator<] compares first. *)
Definition ekey (d : Edge.t) : Z * Z :=
  let i1 := Extremity.id (Edge.ex1 d) in
  let i2 := Extremity.id (Edge.ex2 d) in
  if bool_decide (i1 > i2) then (i2, i1) else (i1, i2).

Definition key_of (es : Edge.store) (e : ptr) : Z * Z :=
  from_option ekey (0, 0) (Edge.deref es e).

Definition key_lt (a b : Z * Z) : Prop :=
  a.1 < b.1 ∨ (a.1 = b.1 ∧ a.2 < b.2).

(** The record of the same edge at its other end. *)
Definition mirror (es : Edge.store) (e : ptr) : ptr :=
  default NULL (Edge.getAdjRef es e).

(** The two records of an edge as [Graph::addEdge] and
    [Edge::setExtremities] leave them, with a label of at most
    [_GRAPH_MAX_LABEL] characters and defined extremities: each is the
    mirror of the other, with the same label and the extremities the other
    way round. *)
Definition two_way (es : Edge.store) (e : ptr) : Prop :=
  ∃ d d' lab,
    Edge.deref es e = Some d ∧ Edge.deref es (Edge.adjRef d) = Some d'
    ∧ Edge.adjRef d' = e
    ∧ Edge.label d = Some lab ∧ Edge.label d' = Some lab
    ∧ Edge.ex1 d' = Edge.ex2 d ∧ Edge.ex2 d' = Edge.ex1 d
    ∧ Extremity.ty (Edge.ex1 d) ≠ Extremity.UNDEF
    ∧ Extremity.ty (Edge.ex2 d) ≠ Extremity.UNDEF
    ∧ (String.length lab ≤ _GRAPH_MAX_LABEL)%nat.

(** The label stored in an edge record. *)
Definition label_at (es : Edge.store) (e : ptr) : option string :=
  d ← Edge.deref es e; Edge.label d.

(** The sorted pair of gene ids of an edge record, with its label. *)
Definition key_label (es : Edge.store) (e : ptr) : (Z * Z) * option string :=
  (key_of es e, label_at es e).

(** [e] is a record of one of the edges [F]. *)
Definition on_edges (es : Edge.store) (F : list ptr) (e : ptr) : Prop :=
  ∃ f, f ∈ F ∧ (e = f ∨ e = mirror es f).

(** ** Examples *)

Definition label_100 : string :=
  String.string_of_list_ascii (replicate 100 "a"%char).

(** A graph of capacity 2 with the vertices 0 and 1; the label of vertex 0
    has [_GRAPH_MAX_LABEL] characters, vertex 1 has none. *)
Definition example_two_vertices : option (Heap.t * Graph.t) :=
  g ← Graph.new None 2;
  '(h, g, _) ← Graph.addVertex Heap.empty g 0 (Some label_100) 0 0;
  '(h, g, _) ← Graph.addVertex h g 1 None 0 0;
  Some (h, g).

(** A graph of capacity 4 with the vertex 0 labelled "u" and the vertex 2
    labelled "w". *)
Definition example_labelled : option (Heap.t * Graph.t) :=
  g ← Graph.new None 4;
  '(h, g, _) ← Graph.addVertex Heap.empty g 0 (Some "u"%string) 0 0;
  '(h, g, _) ← Graph.addVertex h g 2 (Some "w"%string) 0 0;
  Some (h, g).

(** Two vertices joined by the edge 1t-2t and by its sibling 1h-2h. *)
Definition example_siblings : option (Heap.t * Graph.t) :=
  g ← Graph.new None 2;
  '(h, g, u) ← Graph.addVertex Heap.empty g 0 (Some "u"%string) 1 0;
  '(h, g, v) ← Graph.addVertex h g 1 (Some "v"%string) 2 0;
  '(h, g, e) ← Graph.addEdge h g u v (Some "1t2t"%string);
  h ← Heap.Edge_setExtremities h e 1 Extremity.TAIL 2 Extremity.TAIL;
  '(h, g, s) ← Graph.addEdge h g u v (Some "1h2h"%string);
  h ← Heap.Edge_setExtremities h s 1 Extremity.HEAD 2 Extremity.HEAD;
  h ← Heap.Edge_setSibling h e s;
  h ← Heap.Edge_setSibling h s e;
  Some (h, g).

(** Four edge records: "b" 3t-4t and "a" 1t-2t, then "a" 5t-6t and
    "b" 7t-8t. *)
Definition example_labelled_edges : Edge.store :=
  let rec lab a b := Some (Edge.mk NULL NULL (Some lab)
                       (Extremity.mk a Extremity.TAIL)
                       (Extremity.mk b Extremity.TAIL) NULL) in
  [rec "b"%string 3 4; rec "a"%string 1 2;
   rec "a"%string 5 6; rec "b"%string 7 8].

(** The records of two edges 0-1 and 1-2, both ways, and of an edge from
    vertex 2 to vertex 0; the path 0-1 along the first edge; the path
    0-1-2 closed by the edge back to 0. *)
Definition example_path_edges : Edge.store :=
  [Some (Edge.mk (Some 1%nat) (Some 1%nat) None Extremity.default
                 Extremity.default NULL);
   Some (Edge.mk (Some 0%nat) (Some 0%nat) None Extremity.default
                 Extremity.default NULL);
   Some (Edge.mk (Some 2%nat) (Some 3%nat) None Extremity.default
                 Extremity.default NULL);
   Some (Edge.mk (Some 1%nat) (Some 2%nat) None Extremity.default
                 Extremity.default NULL);
   Some (Edge.mk (Some 0%nat) NULL None Extremity.default
                 Extremity.default NULL)].

Definition example_open_path : Path.t :=
  Path.mk 2 1 [Some 0%nat; Some 1%nat; NULL; NULL]
          [Some 0%nat; NULL; NULL; NULL].

Definition example_closed_path : Path.t :=
  Path.mk 3 3 [Some 0%nat; Some 1%nat; Some 2%nat; NULL]
          [Some 0%nat; Some 2%nat; Some 4%nat; NULL].

(** Two paths over different vertices and different edges of
    [example_labelled_edges]. *)
Definition example_path_ba : Path.t :=
  Path.mk 2 2 [Some 0%nat; Some 1%nat; NULL; NULL]
          [Some 0%nat; Some 1%nat; NULL; NULL].

Definition example_path_ab : Path.t :=
  Path.mk 2 2 [Some 2%nat; Some 3%nat; NULL; NULL]
          [Some 2%nat; Some 3%nat; NULL; NULL].

(** The vertices 0 (part 1), 1 (part 2) and 3 (part 1), an edge 0-1, and
    then vertex 0 removed. *)
Definition example_parts : option (Heap.t * Graph.t) :=
  g ← Graph.new None 4;
  '(h, g, _) ← run (AddVertex 0 None 1 0) Heap.empty g;
  '(h, g, _) ← run (AddVertexAuto None 2 0) h g;
  '(h, g, _) ← run (AddVertex 3 None 1 0) h g;
  '(h, g, _) ← run (AddEdgeId 0 1 None) h g;
  '(h, g, _) ← run (RemoveVertexId 0) h g;
  Some (h, g).

(** An adjacency graph with the vertices u, v, w and z, five edges
    between u and v, "a" 1t-2t, "b" 3t-4t, "c" 5t-6t, "h" 1t-15t and
    "i" 16t-17t, and four edges between w and z, "d" 7t-8t, "e" 9t-10t,
    "f" 11t-12t and "g" 13t-14t.  The cycles A, along "a" and back along
    "b", and B, along "a" and back along "c", share the edge "a"; the
    cycles C, along "d" and "e", and D, along "f" and "g", share nothing
    with another cycle; the cycle E, along "h" and "i", has gene 1 in
    common with A and B, with another partner. *)
Definition example_edge (h : Heap.t) (g : Graph.t) (x y : ptr) (lab : string)
    (i j : Z) : option (Heap.t * Graph.t * ptr) :=
  '(h, g, e) ← Graph.addEdge h g x y (Some lab);
  h ← Heap.Edge_setExtremities h e i Extremity.TAIL j Extremity.TAIL;
  Some (h, g, e).

Definition example_two_cycle (h : Heap.t) (x y e f : ptr) : option Path.t :=
  p ← Path.of_vertex x;
  p ← Path.plus_vertex p y;
  p ← Path.plus_edge p e;
  r ← Edge.getAdjRef (Heap.es h) f;
  Path.plus_edge p r.

Definition example_cycles : option (Heap.t * Graph.t * list Path.t) :=
  g ← Graph.new None 4;
  '(h, g, u) ← Graph.addVertex_auto Heap.empty g (Some "u"%string) 0 0;
  '(h, g, v) ← Graph.addVertex_auto h g (Some "v"%string) 1 0;
  '(h, g, w) ← Graph.addVertex_auto h g (Some "w"%string) 0 0;
  '(h, g, z) ← Graph.addVertex_auto h g (Some "z"%string) 1 0;
  '(h, g, e1) ← example_edge h g u v "a" 1 2;
  '(h, g, e2) ← example_edge h g u v "b" 3 4;
  '(h, g, e3) ← example_edge h g u v "c" 5 6;
  '(h, g, e4) ← example_edge h g w z "d" 7 8;
  '(h, g, e5) ← example_edge h g w z "e" 9 10;
  '(h, g, e6) ← example_edge h g w z "f" 11 12;
  '(h, g, e7) ← example_edge h g w z "g" 13 14;
  '(h, g, e8) ← example_edge h g u v "h" 1 15;
  '(h, g, e9) ← example_edge h g u v "i" 16 17;
  A ← example_two_cycle h u v e1 e2;
  B ← example_two_cycle h u v e1 e3;
  C ← example_two_cycle h w z e4 e5;
  D ← example_two_cycle h w z e6 e7;
  E ← example_two_cycle h u v e8 e9;
  Some (h, g, [A; B; C; D; E]).

(** The cycles A and B of [example_cycles], with two cycles over w and z:
    C, along "d" 7t-8t and back along "e" 9t-10t, and D, along "f" 7h-11t
    and back along "g" 12t-13t.  A and B share the edge "a".  C and D have
    no extremity in common with another cycle: of the gene 7, C has the
    tail and D the head. *)
Definition example_cycles_kinds : option (Heap.t * Graph.t * list Path.t) :=
  g ← Graph.new None 4;
  '(h, g, u) ← Graph.addVertex_auto Heap.empty g (Some "u"%string) 0 0;
  '(h, g, v) ← Graph.addVertex_auto h g (Some "v"%string) 1 0;
  '(h, g, w) ← Graph.addVertex_auto h g (Some "w"%string) 0 0;
  '(h, g, z) ← Graph.addVertex_auto h g (Some "z"%string) 1 0;
  '(h, g, e1) ← example_edge h g u v "a" 1 2;
  '(h, g, e2) ← example_edge h g u v "b" 3 4;
  '(h, g, e3) ← example_edge h g u v "c" 5 6;
  '(h, g, e4) ← example_edge h g w z "d" 7 8;
  '(h, g, e5) ← example_edge h g w z "e" 9 10;
  '(h, g, e6) ← Graph.addEdge h g w z (Some "f"%string);
  h ← Heap.Edge_setExtremities h e6 7 Extremity.HEAD 11 Extremity.TAIL;
  '(h, g, e7) ← example_edge h g w z "g" 12 13;
  A ← example_two_cycle h u v e1 e2;
  B ← example_two_cycle h u v e1 e3;
  C ← example_two_cycle h w z e4 e5;
  D ← example_two_cycle h w z e6 e7;
  Some (h, g, [A; B; C; D]).

(** Four vertices u, v, w and z and six edges: "a" 1t-2t and "b" 3t-4t
    between u and v; "b" 3t-4t, "a" 1t-2t, "a" 7t-8t and "b" 5t-6t between
    w and z.  The path P goes from u along "a" and back along "b"; the
    path Q from w along "b" 3t-4t and back along "a" 1t-2t; the path R
    from w along "a" 7t-8t and back along "b" 5t-6t. *)
Definition example_signatures : option (Heap.t * list Path.t) :=
  g ← Graph.new None 4;
  '(h, g, u) ← Graph.addVertex_auto Heap.empty g (Some "u"%string) 0 0;
  '(h, g, v) ← Graph.addVertex_auto h g (Some "v"%string) 1 0;
  '(h, g, w) ← Graph.addVertex_auto h g (Some "w"%string) 0 0;
  '(h, g, z) ← Graph.addVertex_auto h g (Some "z"%string) 1 0;
  '(h, g, e1) ← example_edge h g u v "a" 1 2;
  '(h, g, e2) ← example_edge h g u v "b" 3 4;
  '(h, g, e3) ← example_edge h g w z "b" 3 4;
  '(h, g, e4) ← example_edge h g w z "a" 1 2;
  '(h, g, e5) ← example_edge h g w z "a" 7 8;
  '(h, g, e6) ← example_edge h g w z "b" 5 6;
  P ← example_two_cycle h u v e1 e2;
  Q ← example_two_cycle h w z e3 e4;
  R ← example_two_cycle h w z e5 e6;
  Some (h, [P; Q; R]).

(** The extremities of the edge records of a path, in the order of the
    path. *)
Definition Path_extremities (es : Edge.store) (p : Path.t)
    : list (option (Extremity.t * Extremity.t)) :=
  map (λ e, (λ d, (Edge.ex1 d, Edge.ex2 d)) <$> Edge.deref es e)
      (Path.getEdges p).

(** The path u - v - w: three vertices, the edge "a" between u and v and
    the edge "b" between v and w, with extremities. *)
Definition example_path_graph : option (Heap.t * Graph.t) :=
  g ← Graph.new None 4;
  '(h, g, u) ← Graph.addVertex_auto Heap.empty g (Some "u"%string) 0 0;
  '(h, g, v) ← Graph.addVertex_auto h g (Some "v"%string) 1 0;
  '(h, g, w) ← Graph.addVertex_auto h g (Some "w"%string) 0 0;
  '(h, g, _) ← example_edge h g u v "a" 1 2;
  '(h, g, _) ← example_edge h g v w "b" 3 4;
  Some (h, g).

(** The same path, where the vertex u carries the extremities of the
    gene 1. *)
Definition example_path_ends : option (Heap.t * Graph.t) :=
  '(h, g) ← example_path_graph;
  h ← Heap.update_vertex h (Some 0%nat)
         (λ y, Vertex.setExtremities y 1 Extremity.TAIL 1 Extremity.HEAD);
  Some (h, g).

(** A triangle on the vertices u, v and w, all in part 0: the edges "a"
    between u and v, "b" between v and w, and "c" between w and u, with
    tail extremities of the given gene ids. *)
Definition example_triangle (a1 a2 b1 b2 c1 c2 : Z)
    : option (Heap.t * Graph.t) :=
  g ← Graph.new None 3;
  '(h, g, u) ← Graph.addVertex_auto Heap.empty g (Some "u"%string) 0 0;
  '(h, g, v) ← Graph.addVertex_auto h g (Some "v"%string) 0 0;
  '(h, g, w) ← Graph.addVertex_auto h g (Some "w"%string) 0 0;
  '(h, g, _) ← example_edge h g u v "a" a1 a2;
  '(h, g, _) ← example_edge h g v w "b" b1 b2;
  '(h, g, _) ← example_edge h g w u "c" c1 c2;
  Some (h, g).
(** * Properties *)

(** ** Vectors and loops *)

Lemma to_unsigned_small x : 0 ≤ x < 2 ^ 32 → to_unsigned x = x.
Proof. intros. unfold to_unsigned. by apply Z.mod_small. Qed.

Lemma vec_get_lookup {A} (v : list A) i :
  0 ≤ i → vec_get v i = v !! Z.to_nat i.
Proof. intros. unfold vec_get. by rewrite bool_decide_eq_true_2. Qed.

Lemma vec_get_nat {A} (v : list A) (k : nat) : vec_get v (Z.of_nat k) = v !! k.
Proof. rewrite vec_get_lookup by lia. by rewrite Nat2Z.id. Qed.

Lemma vec_get_is_Some {A} (v : list A) i :
  0 ≤ i < vec_size v → is_Some (vec_get v i).
Proof.
  intros. rewrite vec_get_lookup by lia. apply lookup_lt_is_Some.
  unfold vec_size in *. lia.
Qed.

Lemma vec_get_Some {A} (v : list A) i x :
  vec_get v i = Some x → 0 ≤ i < vec_size v ∧ v !! Z.to_nat i = Some x.
Proof.
  unfold vec_get, vec_size. case_bool_decide; [|done]. intros Hx.
  split; [|done]. apply lookup_lt_Some in Hx. lia.
Qed.

Lemma vec_set_Some {A} (v : list A) i x :
  0 ≤ i < vec_size v → vec_set v i x = Some (<[Z.to_nat i := x]> v).
Proof. intros. unfold vec_set. by rewrite bool_decide_eq_true_2. Qed.

Lemma vec_resize_take {A} (v : list A) n x :
  0 ≤ n ≤ vec_size v → vec_resize v n x = take (Z.to_nat n) v.
Proof. intros. unfold vec_resize, vec_size in *. apply resize_le. lia. Qed.

Lemma vec_size_resize {A} (v : list A) n x :
  0 ≤ n → vec_size (vec_resize v n x) = n.
Proof. intros. unfold vec_size, vec_resize. rewrite length_resize. lia. Qed.

Lemma any_from_total f i n :
  (∀ k, i ≤ k < i + Z.of_nat n → is_Some (f k)) → is_Some (any_from f i n).
Proof.
  revert i. induction n as [|n IH]; intros i Hf; simpl; [by eexists|].
  destruct (Hf i) as [b Hb]; [lia|]. rewrite Hb. simpl.
  destruct b; [by eexists|]. apply IH. intros k Hk. apply Hf. lia.
Qed.

Lemma any_from_true f i n :
  any_from f i n = Some true →
  ∃ k, i ≤ k < i + Z.of_nat n ∧ f k = Some true.
Proof.
  revert i. induction n as [|n IH]; intros i; simpl; [done|].
  destruct (f i) as [[]|] eqn:Hb; simpl; [|intros Hx|done].
  - intros _. exists i. split; [lia|done].
  - apply IH in Hx as (k & Hk & Hfk). exists k. split; [lia|done].
Qed.

Lemma any_from_false f i n :
  any_from f i n = Some false →
  ∀ k, i ≤ k < i + Z.of_nat n → f k = Some false.
Proof.
  revert i. induction n as [|n IH]; intros i; simpl; [intros; lia|].
  destruct (f i) as [[]|] eqn:Hb; simpl; [done| |done].
  intros Hx k Hk. destruct (decide (k = i)) as [->|]; [done|].
  apply (IH _ Hx). lia.
Qed.

Lemma any_from_ext f g i n :
  (∀ k, i ≤ k < i + Z.of_nat n → f k = g k) → any_from f i n = any_from g i n.
Proof.
  revert i. induction n as [|n IH]; intros i Hfg; simpl; [done|].
  rewrite Hfg by lia. destruct (g i) as [[]|]; simpl; [done| |done].
  apply IH. intros. apply Hfg. lia.
Qed.

(** A loop invariant for [for_range]. *)
Lemma for_range_inv {St} (P : Z → St → Prop) (body : Z → St → option St) i n s :
  P i s →
  (∀ k s, i ≤ k < i + Z.of_nat n → P k s → ∃ s', body k s = Some s' ∧ P (k + 1) s') →
  ∃ s', for_range body i n s = Some s' ∧ P (i + Z.of_nat n) s'.
Proof.
  revert i s. induction n as [|n IH]; intros i s HP Hstep; simpl.
  - exists s. split; [done|]. by replace (i + Z.of_nat 0) with i by lia.
  - destruct (Hstep i s) as (s1 & -> & HP1); [lia|done|]. simpl.
    destruct (IH (i + 1) s1 HP1) as (s' & Hs' & HP').
    { intros k s2 Hk. apply Hstep. lia. }
    exists s'. split; [done|].
    by replace (i + Z.of_nat (S n)) with (i + 1 + Z.of_nat n) by lia.
Qed.

(** A loop invariant for [for_each]: [P done s] after the elements [done]. *)
Lemma for_each_inv {A St} (P : list A → St → Prop) (body : A → St → option St)
    xs s :
  P [] s →
  (∀ done x rest s, xs = done ++ x :: rest → P done s →
     ∃ s', body x s = Some s' ∧ P (done ++ [x]) s') →
  ∃ s', for_each body xs s = Some s' ∧ P xs s'.
Proof.
  intros HP Hstep.
  cut (∀ rest done s, xs = done ++ rest → P done s →
         ∃ s', for_each body rest s = Some s' ∧ P xs s').
  { intros Hcut. by apply (Hcut xs [] s). }
  induction rest as [|x rest IH]; intros done s1 Hxs HP1; simpl.
  - exists s1. split; [done|]. by rewrite Hxs, app_nil_r.
  - destruct (Hstep done x rest s1) as (s2 & -> & HP2); [done..|]. simpl.
    apply (IH (done ++ [x])); [|done]. by rewrite <-app_assoc.
Qed.

(** What every step of a loop preserves, the loop preserves. *)
Lemma for_each_rel {A St} (R : St → St → Prop) (body : A → St → option St)
    xs s s' :
  (∀ s, R s s) → (∀ a b c, R a b → R b c → R a c) →
  (∀ x s s', x ∈ xs → body x s = Some s' → R s s') →
  for_each body xs s = Some s' → R s s'.
Proof.
  intros Hrefl Htrans. revert s.
  induction xs as [|x xs IH]; intros s Hbody Hrun; simpl in Hrun.
  - injection Hrun as <-. apply Hrefl.
  - apply bind_Some in Hrun as (s1 & Hs1 & Hrun).
    eapply Htrans; [eapply Hbody; [left|done]|].
    apply IH; [|done]. intros y s2 s3 Hy. apply Hbody. by right.
Qed.

Lemma for_range_rel {St} (R : St → St → Prop) (body : Z → St → option St)
    i n s s' :
  (∀ s, R s s) → (∀ a b c, R a b → R b c → R a c) →
  (∀ k s s', i ≤ k < i + Z.of_nat n → body k s = Some s' → R s s') →
  for_range body i n s = Some s' → R s s'.
Proof.
  intros Hrefl Htrans. revert i s.
  induction n as [|n IH]; intros i s Hbody Hrun; simpl in Hrun.
  - injection Hrun as <-. apply Hrefl.
  - apply bind_Some in Hrun as (s1 & Hs1 & Hrun).
    eapply Htrans; [eapply Hbody; [|done]; lia|].
    eapply IH; [|done]. intros k s2 s3 Hk. apply Hbody. lia.
Qed.

(** ** Growing and shrinking the vectors of a path *)

Section push_pop.
Context {A : Type} (null : A).

Lemma pushed_spec (vec : list A) k x :
  0 ≤ k ≤ vec_size vec → 1 ≤ vec_size vec → k < 2 ^ 31 →
  ∃ vec', pushed null vec k x = Some vec'
    ∧ k + 1 ≤ vec_size vec'
    ∧ vec_resize vec' (k + 1) null = vec_resize vec k null ++ [x].
Proof.
  intros Hk Hsz Hint. unfold pushed.
  rewrite to_unsigned_small by lia.
  assert (Hlen : (Z.to_nat k ≤ length vec)%nat) by (unfold vec_size in *; lia).
  case_bool_decide as Hfull.
  - set (vec2 := vec_resize vec (vec_size vec * 2) null).
    assert (Hsz2 : vec_size vec2 = vec_size vec * 2)
      by (apply vec_size_resize; lia).
    rewrite vec_set_Some by lia. eexists. split; [done|].
    unfold vec_size in *. rewrite length_insert. split; [lia|].
    rewrite !vec_resize_take
      by (unfold vec_size; rewrite ?length_insert; lia).
    replace (Z.to_nat (k + 1)) with (S (Z.to_nat k)) by lia.
    erewrite take_S_r; last first.
    { apply list_lookup_insert_eq. lia. }
    rewrite take_insert_ge by lia. f_equal.
    unfold vec2, vec_resize. rewrite resize_ge by lia.
    rewrite take_app_le by lia. done.
  - rewrite vec_set_Some by lia. eexists. split; [done|].
    unfold vec_size in *. rewrite length_insert. split; [lia|].
    rewrite !vec_resize_take
      by (unfold vec_size; rewrite ?length_insert; lia).
    replace (Z.to_nat (k + 1)) with (S (Z.to_nat k)) by lia.
    erewrite take_S_r; last first.
    { apply list_lookup_insert_eq. lia. }
    by rewrite take_insert_ge by lia.
Qed.

Lemma popped_spec (vec : list A) k :
  1 ≤ k ≤ vec_size vec → k < 2 ^ 32 →
  k - 1 ≤ vec_size (popped null vec k) ∧ 1 ≤ vec_size (popped null vec k)
  ∧ vec_resize (popped null vec k) (k - 1) null
    = take (Z.to_nat (k - 1)) (vec_resize vec k null).
Proof.
  intros Hk Hint. unfold popped. rewrite to_unsigned_small by lia.
  case_bool_decide as Hhalf.
  - rewrite vec_size_resize by (apply Z.div_pos; lia).
    split; [lia|]. split; [lia|].
    rewrite (vec_resize_take vec k) by lia.
    rewrite vec_resize_take
      by (rewrite vec_size_resize by (apply Z.div_pos; lia); lia).
    rewrite vec_resize_take; last first.
    { split; [apply Z.div_pos; lia|]. apply Z.div_le_upper_bound; lia. }
    rewrite !take_take. f_equal. lia.
  - split; [lia|]. split; [lia|].
    rewrite !vec_resize_take by lia. rewrite take_take. f_equal. lia.
Qed.

End push_pop.

(** ** Paths *)

Lemma Path_addEdge_spec p x :
  Path_wf p →
  ∃ p', Path.addEdge p x = Some p'
    ∧ Path.getEdges p' = Path.getEdges p ++ [x]
    ∧ Path.le p' = Path.le p + 1 ∧ Path.le p' ≤ vec_size (Path.e p')
    ∧ Path.l p' = Path.l p ∧ Path.v p' = Path.v p.
Proof.
  intros [_ (Hle & Hsz & Hint)].
  destruct (pushed_spec NULL (Path.e p) (Path.le p) x) as (ee & Hee & Hsz' & Heq);
    [done..|].
  unfold Path.addEdge. unfold pushed in Hee. rewrite Hee. simpl.
  eexists. split; [done|]. simpl. unfold Path.getEdges. simpl. by rewrite Heq.
Qed.

Lemma Path_addVertex_spec p x :
  Path_wf p →
  ∃ p', Path.addVertex p x = Some p'
    ∧ Path.getVertices p' = Path.getVertices p ++ [x]
    ∧ Path.l p' = Path.l p + 1 ∧ Path.l p' ≤ vec_size (Path.v p')
    ∧ Path.le p' = Path.le p ∧ Path.e p' = Path.e p.
Proof.
  intros [(Hl & Hsz & Hint) _].
  destruct (pushed_spec NULL (Path.v p) (Path.l p) x) as (vv & Hvv & Hsz' & Heq);
    [done..|].
  unfold Path.addVertex. unfold pushed in Hvv. rewrite Hvv. simpl.
  eexists. split; [done|]. simpl. unfold Path.getVertices. simpl.
  by rewrite Heq.
Qed.

Lemma Path_removeEdge_spec p :
  1 ≤ Path.le p ≤ vec_size (Path.e p) → Path.le p < 2 ^ 32 →
  let p' := Path.removeEdge p in
  Path.getEdges p' = take (Z.to_nat (Path.le p - 1)) (Path.getEdges p)
  ∧ Path.le p' = Path.le p - 1
  ∧ Path.le p' ≤ vec_size (Path.e p') ∧ 1 ≤ vec_size (Path.e p')
  ∧ Path.l p' = Path.l p ∧ Path.v p' = Path.v p.
Proof.
  intros Hle Hint.
  destruct (popped_spec NULL (Path.e p) (Path.le p)) as (H1 & H2 & H3);
    [done..|].
  simpl. unfold Path.getEdges. simpl. unfold popped in *. by rewrite H3.
Qed.

Lemma Path_removeVertex_spec p :
  1 ≤ Path.l p ≤ vec_size (Path.v p) → Path.l p < 2 ^ 32 →
  let p' := Path.removeVertex p in
  Path.getVertices p' = take (Z.to_nat (Path.l p - 1)) (Path.getVertices p)
  ∧ Path.l p' = Path.l p - 1
  ∧ Path.l p' ≤ vec_size (Path.v p') ∧ 1 ≤ vec_size (Path.v p')
  ∧ Path.le p' = Path.le p ∧ Path.e p' = Path.e p.
Proof.
  intros Hl Hint.
  destruct (popped_spec NULL (Path.v p) (Path.l p)) as (H1 & H2 & H3);
    [done..|].
  simpl. unfold Path.getVertices. simpl. unfold popped in *. by rewrite H3.
Qed.

Lemma Path_getEdges_length p :
  0 ≤ Path.le p → length (Path.getEdges p) = Z.to_nat (Path.le p).
Proof. intros. unfold Path.getEdges, vec_resize. apply length_resize. Qed.

Lemma Path_getVertices_length p :
  0 ≤ Path.l p → length (Path.getVertices p) = Z.to_nat (Path.l p).
Proof. intros. unfold Path.getVertices, vec_resize. apply length_resize. Qed.

(** Within the length in use, the vector and [getEdges] agree. *)
Lemma Path_nthE_getEdges p i :
  Path.le p ≤ vec_size (Path.e p) → 0 ≤ i < Path.le p →
  Path.nthE p i = Path.getEdges p !! Z.to_nat i.
Proof.
  intros Hle Hi. unfold Path.nthE, Path.getEdges.
  rewrite vec_get_lookup by lia. rewrite vec_resize_take by lia.
  rewrite lookup_take_lt by lia. done.
Qed.

Lemma Path_nth_getVertices p i :
  Path.l p ≤ vec_size (Path.v p) → 0 ≤ i < Path.l p →
  Path.nth p i = Path.getVertices p !! Z.to_nat i.
Proof.
  intros Hl Hi. unfold Path.nth, Path.getVertices.
  rewrite vec_get_lookup by lia. rewrite vec_resize_take by lia.
  rewrite lookup_take_lt by lia. done.
Qed.

Lemma Path_inPath_total es p ed :
  0 ≤ Path.le p ≤ vec_size (Path.e p) → is_Some (Edge.deref es ed) →
  is_Some (Path.inPath es p ed).
Proof.
  intros Hle [x Hx]. apply any_from_total. intros k Hk.
  destruct (vec_get_is_Some (Path.e p) k) as [y Hy]; [lia|].
  rewrite Hy. simpl. case_bool_decide; [by eexists|].
  unfold Edge.getAdjRef. rewrite Hx. by eexists.
Qed.

Lemma Path_inPath_true es p ed x :
  0 ≤ Path.le p ≤ vec_size (Path.e p) → Edge.deref es ed = Some x →
  (ed ∈ Path.getEdges p ∨ Edge.adjRef x ∈ Path.getEdges p) →
  Path.inPath es p ed = Some true.
Proof.
  intros Hle Hx Hin.
  destruct (Path_inPath_total es p ed) as [[] Hb]; [done|by eexists|done|].
  exfalso.
  assert (∃ y, y ∈ Path.getEdges p ∧ (y = ed ∨ y = Edge.adjRef x))
    as (y & Hy & Hcase) by (destruct Hin; eauto).
  apply list_elem_of_lookup in Hy as [k Hk].
  assert (Hlt : (k < Z.to_nat (Path.le p))%nat).
  { apply lookup_lt_Some in Hk. by rewrite Path_getEdges_length in Hk by lia. }
  pose proof (any_from_false _ _ _ Hb (Z.of_nat k)) as Hf. simpl in Hf.
  rewrite <-(Nat2Z.id k) in Hk.
  rewrite <-Path_nthE_getEdges in Hk by lia. unfold Path.nthE in Hk.
  rewrite Hk in Hf. simpl in Hf. unfold Edge.getAdjRef in Hf.
  rewrite Hx in Hf. simpl in Hf.
  specialize (Hf ltac:(lia)).
  case_bool_decide; [done|]. destruct Hcase; [done|].
  case_bool_decide; done.
Qed.

Lemma Path_consistent_total es p :
  0 ≤ Path.le p ≤ vec_size (Path.e p) → edges_live es (Path.getEdges p) →
  is_Some (Path.consistent es p).
Proof.
  intros Hle Hlive. unfold Path.consistent.
  assert (Hget : ∀ k, 0 ≤ k < Path.le p →
            ∃ y x, vec_get (Path.e p) k = Some y ∧ Edge.deref es y = Some x).
  { intros k Hk. destruct (vec_get_is_Some (Path.e p) k) as [y Hy]; [lia|].
    destruct (Hlive y) as [x Hx]; [|by eauto].
    pose proof Hy as Hy'. change (Path.nthE p k = Some y) in Hy'.
    rewrite Path_nthE_getEdges in Hy' by lia.
    by eapply list_elem_of_lookup_2. }
  destruct (any_from_total
    (λ i, any_from (λ j,
       if bool_decide (j > i)
       then ei ← vec_get (Path.e p) i; ej ← vec_get (Path.e p) j;
            inc ← Edge.incompatible_at es ei ej;
            if inc : bool then Some true else Edge.same es ei ej
       else Some false) 0 (Z.to_nat (Path.le p))) 0 (Z.to_nat (Path.le p)))
    as [b Hb]; [|rewrite Hb; by eexists].
  intros i Hi. apply any_from_total. intros j Hj.
  case_bool_decide; [|by eexists].
  destruct (Hget i) as (yi & xi & -> & Hxi); [lia|].
  destruct (Hget j) as (yj & xj & -> & Hxj); [lia|]. simpl.
  unfold Edge.incompatible_at, Edge.same. rewrite Hxi, Hxj. simpl.
  destruct (Edge.incompatible xi xj); by eexists.
Qed.

(** ** C5: [isCycle] *)

(** C5, as stated, asks for a cycle whenever the path has one vertex more
    than edges and starts and ends at the same vertex.  The path made of a
    single vertex is such a path, and [isCycle] answers false. *)
Lemma isCycle_single_vertex :
  ∃ p, Path.of_vertex (Some 0%nat) = Some p
    ∧ Path.len p = Path.lenE p + 1 ∧ Path.first p = Path.last p
    ∧ Path.isCycle [] p = Some false.
Proof. eexists. split; [vm_compute; reflexivity|]. repeat split. Qed.

(** C5, amended: [isCycle] holds exactly when the path has more than one
    vertex, one vertex more than edges, and its first and last vertices are
    the same, or when it has more than one edge, as many vertices as edges,
    and the far endpoint of its last edge is its first vertex. *)
Theorem isCycle_iff es p :
  Path_wf p → edges_live es (Path.getEdges p) →
  ∃ b, Path.isCycle es p = Some b
    ∧ (b = true ↔
         (Path.len p > 1 ∧ Path.len p = Path.lenE p + 1
          ∧ Path.first p = Path.last p)
         ∨ (Path.lenE p > 1 ∧ Path.len p = Path.lenE p
            ∧ Path_lastE_adj es p = Path.first p)).
Proof.
  intros [(Hl & Hsz & _) (Hle & Hsze & _)] Hlive.
  unfold Path.isCycle, Path.len, Path.lenE, Path_lastE_adj.
  destruct (vec_get_is_Some (Path.v p) 0) as [f Hf]; [lia|].
  unfold Path.first. rewrite Hf.
  assert (Hlast : Path.l p > 1 → ∃ la, Path.last p = Some la).
  { intros. apply (vec_get_is_Some (Path.v p) (Path.l p - 1)). lia. }
  assert (HlastE : Path.le p > 1 →
            ∃ y x, Path.lastE p = Some y ∧ Edge.deref es y = Some x).
  { intros. destruct (vec_get_is_Some (Path.e p) (Path.le p - 1)) as [y Hy]; [lia|].
    destruct (Hlive y) as [x Hx]; [|by eauto].
    change (Path.nthE p (Path.le p - 1) = Some y) in Hy.
    rewrite Path_nthE_getEdges in Hy by lia.
    by eapply list_elem_of_lookup_2. }
  destruct (bool_decide (Path.l p > 1)) eqn:E1;
    destruct (bool_decide (Path.l p = Path.le p + 1)) eqn:E2;
    destruct (bool_decide (Path.le p > 1)) eqn:E3;
    destruct (bool_decide (Path.l p = Path.le p)) eqn:E4;
    try apply bool_decide_eq_true_1 in E1; try apply bool_decide_eq_false_1 in E1;
    try apply bool_decide_eq_true_1 in E2; try apply bool_decide_eq_false_1 in E2;
    try apply bool_decide_eq_true_1 in E3; try apply bool_decide_eq_false_1 in E3;
    try apply bool_decide_eq_true_1 in E4; try apply bool_decide_eq_false_1 in E4;
    try lia; simpl;
    try (destruct (Hlast E1) as [la ->]; simpl);
    try (destruct (HlastE E3) as (y & x & -> & Hx); simpl;
         unfold Edge.getAdj; rewrite ?Hx; simpl);
    repeat (case_bool_decide; simpl);
    (eexists; split; [done|]); split; try done;
    try (intros _; subst; tauto);
    try (intros [(? & ? & ?)|(? & ? & ?)]; first [lia|congruence]).
Qed.

(** The path 0-1-2 closed by its third edge. *)
Lemma isCycle_iff_witness :
  ∃ b, Path.isCycle example_path_edges example_closed_path = Some b
    ∧ (b = true ↔
         (Path.len example_closed_path > 1
          ∧ Path.len example_closed_path = Path.lenE example_closed_path + 1
          ∧ Path.first example_closed_path = Path.last example_closed_path)
         ∨ (Path.lenE example_closed_path > 1
            ∧ Path.len example_closed_path = Path.lenE example_closed_path
            ∧ Path_lastE_adj example_path_edges example_closed_path
              = Path.first example_closed_path)).
Proof.
  apply (isCycle_iff example_path_edges example_closed_path).
  - unfold Path_wf, vec_size. simpl. lia.
  - intros y Hy. vm_compute in Hy.
    repeat (apply elem_of_cons in Hy as [->|Hy]; [by eexists|]).
    by apply elem_of_nil in Hy.
Defined.

(** ** C6: the speculative check leaves the path as it was *)

(** C6: [consistent(edge)] returns, leaves the vertices and the edges of
    the path and their numbers as they were, and returns false when the
    edge or its mirror record is already in the path. *)
Theorem consistent_edge_leaves_path es p edge :
  Path_wf p → edges_live es (Path.getEdges p) →
  is_Some (Edge.deref es edge) →
  ∃ b p', Path.consistent_edge es p edge = Some (b, p')
    ∧ Path.getVertices p' = Path.getVertices p
    ∧ Path.getEdges p' = Path.getEdges p
    ∧ Path.len p' = Path.len p ∧ Path.lenE p' = Path.lenE p
    ∧ (∀ x, Edge.deref es edge = Some x →
         edge ∈ Path.getEdges p ∨ Edge.adjRef x ∈ Path.getEdges p →
         b = false).
Proof.
  intros Hwf Hlive [x Hx]. pose proof Hwf as [(Hl & Hsz & Hint) (Hle & Hsze & Hinte)].
  unfold Path.consistent_edge.
  destruct (Path_inPath_total es p edge) as [inp Hinp]; [lia|by eexists|].
  rewrite Hinp. simpl. destruct inp.
  { exists false, p. repeat split; done. }
  destruct (Path_addEdge_spec p edge Hwf)
    as (p1 & -> & Hedges1 & Hle1 & Hsz1 & Hl1 & Hv1). simpl.
  unfold Edge.getAdj. rewrite Hx. simpl.
  assert (Hwf1 : Path_wf (Path.mk (Path.l p1) (Path.le p) (Path.v p1) (Path.e p))).
  { unfold Path_wf. simpl. rewrite Hl1, Hv1. done. }
  destruct (Path_addVertex_spec _ (Edge.adj x) Hwf1)
    as (p2 & Hadd & Hverts2 & Hl2 & Hsz2 & _ & _).
  assert (Hadd2 : ∃ p2', Path.addVertex p1 (Edge.adj x) = Some p2'
            ∧ Path.getVertices p2' = Path.getVertices p ++ [Edge.adj x]
            ∧ Path.l p2' = Path.l p + 1 ∧ Path.l p2' ≤ vec_size (Path.v p2')
            ∧ Path.le p2' = Path.le p1 ∧ Path.e p2' = Path.e p1).
  { unfold Path.addVertex in *. simpl in Hadd.
    destruct (vec_set _ (Path.l p1) (Edge.adj x)) as [vv|] eqn:Hvv; [|done].
    simpl in *. injection Hadd as <-. eexists. split; [done|].
    unfold Path.getVertices in *. simpl in *.
    rewrite Hverts2, Hl1, Hv1. repeat split; try done; lia. }
  clear p2 Hadd Hverts2 Hl2 Hsz2.
  destruct Hadd2 as (p2 & -> & Hverts2 & Hl2 & Hsz2 & Hle2 & He2). simpl.
  assert (Hedges2 : Path.getEdges p2 = Path.getEdges p ++ [edge]).
  { unfold Path.getEdges in *. by rewrite Hle2, He2. }
  destruct (Path_consistent_total es p2) as [r Hr].
  { rewrite Hle2, He2. lia. }
  { rewrite Hedges2. intros y [Hy| ->%list_elem_of_singleton]%elem_of_app;
      [by apply Hlive|by eexists]. }
  rewrite Hr. simpl.
  destruct (Path_removeEdge_spec p2) as (Hedges3 & Hle3 & Hsz3 & Hsz3' & Hl3 & Hv3).
  { rewrite Hle2, He2. lia. }
  { lia. }
  destruct (Path_removeVertex_spec (Path.removeEdge p2))
    as (Hverts4 & Hl4 & Hsz4 & Hsz4' & Hle4 & He4).
  { rewrite Hl3, Hv3. lia. }
  { rewrite Hl3. lia. }
  eexists _, _. split; [done|].
  assert (Hlen : length (Path.getEdges p) = Z.to_nat (Path.le p))
    by (apply Path_getEdges_length; lia).
  assert (Hlenv : length (Path.getVertices p) = Z.to_nat (Path.l p))
    by (apply Path_getVertices_length; lia).
  split; [|split; [|split; [|split]]].
  - rewrite Hverts4, Hl3.
    replace (Path.getVertices (Path.removeEdge p2)) with (Path.getVertices p2)
      by (unfold Path.getVertices; by rewrite Hl3, Hv3).
    rewrite Hverts2, Hl2. rewrite take_app_le by lia.
    apply take_ge. lia.
  - replace (Path.getEdges (Path.removeVertex (Path.removeEdge p2)))
      with (Path.getEdges (Path.removeEdge p2))
      by (unfold Path.getEdges; by rewrite Hle4, He4).
    rewrite Hedges3, Hedges2, Hle2, Hle1. rewrite take_app_le by lia.
    apply take_ge. lia.
  - unfold Path.len. lia.
  - unfold Path.lenE. lia.
  - intros x' Hx' Hin. assert (x' = x) as -> by congruence.
    rewrite (Path_inPath_true es p edge x) in Hinp; [done|lia|done|done].
Qed.

(** The check of the mirror record of the edge of the path 0-1. *)
Lemma consistent_edge_leaves_path_witness :
  ∃ b p', Path.consistent_edge example_path_edges example_open_path (Some 1%nat)
          = Some (b, p')
    ∧ Path.getVertices p' = Path.getVertices example_open_path
    ∧ Path.getEdges p' = Path.getEdges example_open_path
    ∧ Path.len p' = Path.len example_open_path
    ∧ Path.lenE p' = Path.lenE example_open_path
    ∧ (∀ x, Edge.deref example_path_edges (Some 1%nat) = Some x →
         Some 1%nat ∈ Path.getEdges example_open_path
         ∨ Edge.adjRef x ∈ Path.getEdges example_open_path →
         b = false).
Proof.
  apply (consistent_edge_leaves_path example_path_edges example_open_path).
  - unfold Path_wf, vec_size. simpl. lia.
  - intros y Hy. vm_compute in Hy.
    apply elem_of_cons in Hy as [->|Hy]; [by eexists|].
    by apply elem_of_nil in Hy.
  - by eexists.
Defined.

(** ** The loops of [signature] *)

Lemma Edge_lt_total es x y :
  is_Some (Edge.deref es x) → is_Some (Edge.deref es y) →
  Edge.lt es x y = Some (Edge_ltb es x y).
Proof.
  intros [ex Hx] [ey Hy].
  assert (is_Some (Edge.lt es x y)) as [b Hb].
  { unfold Edge.lt. rewrite Hx, Hy. simpl.
    repeat (case_bool_decide; simpl; try by eexists);
      destruct (bool_decide (x = y) || bool_decide (x = Edge.adjRef ey));
      by eexists. }
  unfold Edge_ltb. by rewrite Hb.
Qed.

Lemma place_length ltb x l : length (place ltb x l) = S (length l).
Proof.
  induction l as [|y l IH]; [done|]. simpl.
  destruct (ltb x y && forallb (ltb x) l); simpl; by rewrite ?IH.
Qed.

Lemma place_elem ltb x l y : y ∈ place ltb x l ↔ y = x ∨ y ∈ l.
Proof.
  induction l as [|z l IH]; simpl.
  - rewrite list_elem_of_singleton, elem_of_nil. tauto.
  - destruct (ltb x z && forallb (ltb x) l).
    + rewrite !elem_of_cons. tauto.
    + rewrite !elem_of_cons, IH. tauto.
Qed.

Lemma place_split ltb x A1 A2 :
  forallb (ltb x) A2 = true →
  (A1 = [] ∨ ∃ A0 y, A1 = A0 ++ [y] ∧ ltb x y = false) →
  place ltb x (A1 ++ A2) = A1 ++ x :: A2.
Proof.
  intros HA2 Hlast. induction A1 as [|a A1 IH]; simpl.
  - destruct A2 as [|z A2]; [done|]. simpl in *. by rewrite HA2.
  - assert (Hnot : ltb x a && forallb (ltb x) (A1 ++ A2) = false).
    { destruct Hlast as [|(A0 & y & HA & Hy)]; [done|].
      apply andb_false_iff.
      destruct A0 as [|a0 A0]; simpl in HA; injection HA as -> ->; [by left|].
      right. rewrite !forallb_app. simpl. rewrite Hy.
      by rewrite andb_false_r. }
    rewrite Hnot. f_equal. apply IH.
    destruct Hlast as [|(A0 & y & HA & Hy)]; [done|].
    destruct A0 as [|a0 A0]; simpl in HA; injection HA as -> ->; [by left|].
    right. eauto.
Qed.

Lemma sorted_edges_snoc es l x :
  sorted_edges es (l ++ [x]) = place (Edge_ltb es) x (sorted_edges es l).
Proof. unfold sorted_edges. by rewrite foldl_app. Qed.

Lemma sorted_edges_length es l : length (sorted_edges es l) = length l.
Proof.
  induction l as [|x l IH] using rev_ind; [done|].
  rewrite sorted_edges_snoc, place_length, length_app. simpl. lia.
Qed.

Lemma sorted_edges_elem es l y : y ∈ sorted_edges es l ↔ y ∈ l.
Proof.
  induction l as [|x l IH] using rev_ind; [done|].
  rewrite sorted_edges_snoc, place_elem, elem_of_app, list_elem_of_singleton.
  tauto.
Qed.

Lemma vec_get_middle {A} (l1 l2 : list A) x :
  vec_get (l1 ++ x :: l2) (Z.of_nat (length l1)) = Some x.
Proof. rewrite vec_get_nat. apply list_lookup_middle. done. Qed.

Lemma vec_set_middle {A} (l1 l2 : list A) x y :
  vec_set (l1 ++ x :: l2) (Z.of_nat (length l1)) y = Some (l1 ++ y :: l2).
Proof.
  rewrite vec_set_Some.
  - rewrite Nat2Z.id. f_equal.
    replace (length l1) with (length l1 + 0)%nat at 1 by lia.
    by rewrite insert_app_r.
  - unfold vec_size. rewrite length_app. simpl. lia.
Qed.

Lemma vec_get_at {A} (l1 l2 : list A) x i :
  i = Z.of_nat (length l1) → vec_get (l1 ++ x :: l2) i = Some x.
Proof. intros ->. apply vec_get_middle. Qed.

Lemma vec_set_at {A} (l1 l2 : list A) x y i :
  i = Z.of_nat (length l1) → vec_set (l1 ++ x :: l2) i y = Some (l1 ++ y :: l2).
Proof. intros ->. apply vec_set_middle. Qed.

(** The inner loop of the sort: the cell after position [j] is free, the
    edges [A2] behind it are all greater than [x]. *)
Lemma Path_shift_spec es x B :
  is_Some (Edge.deref es x) →
  ∀ A1 g A2 fuel,
    edges_live es A1 → (length A1 ≤ fuel)%nat →
    forallb (Edge_ltb es x) A2 = true →
    ∃ A1' g' A2',
      Path.shift es x (A1 ++ g :: A2 ++ B) (Z.of_nat (length A1) - 1) fuel
      = Some (A1' ++ g' :: A2' ++ B, Z.of_nat (length A1') - 1)
      ∧ A1' ++ A2' = A1 ++ A2
      ∧ forallb (Edge_ltb es x) A2' = true
      ∧ (A1' = [] ∨ ∃ A0 y, A1' = A0 ++ [y] ∧ Edge_ltb es x y = false).
Proof.
  intros Hx. induction A1 as [|y A0 IH] using rev_ind;
    intros g A2 fuel Hlive Hfuel HA2.
  - exists [], g, A2. simpl. destruct fuel; simpl; eauto 10.
  - rewrite length_app in *. simpl in *.
    assert (Hy : is_Some (Edge.deref es y)).
    { apply Hlive. apply elem_of_app. right. by left. }
    assert (Hlive0 : edges_live es A0).
    { intros z Hz. apply Hlive. apply elem_of_app. by left. }
    replace (Z.of_nat (length A0 + 1) - 1) with (Z.of_nat (length A0)) by lia.
    destruct fuel as [|fuel]; [lia|].
    cbn [Path.shift]. rewrite bool_decide_eq_true_2 by lia.
    rewrite <-app_assoc. cbn [app]. rewrite vec_get_middle. cbn [mbind option_bind].
    rewrite Edge_lt_total by done. cbn [mbind option_bind].
    destruct (Edge_ltb es x y) eqn:Hlt.
    + replace (Z.of_nat (length A0) + 1) with (Z.of_nat (length (A0 ++ [y])))
        by (rewrite length_app; simpl; lia).
      replace (A0 ++ y :: g :: A2 ++ B) with ((A0 ++ [y]) ++ g :: A2 ++ B)
        by (by rewrite <-app_assoc).
      rewrite vec_set_middle. cbn [mbind option_bind].
      rewrite <-app_assoc. cbn [app].
      destruct (IH y (y :: A2) fuel) as (A1' & g' & A2' & Heq & Happ & Hall & Hlast);
        [done|lia|by simpl; rewrite Hlt|].
      exists A1', g', A2'. split; [|split; [|done]].
      * rewrite <-Heq. f_equal.
      * rewrite Happ. by rewrite <-app_assoc.
    + exists (A0 ++ [y]), g, A2. rewrite length_app. simpl.
      split; [|split; [done|split; [done|right; eauto]]].
      rewrite <-app_assoc. cbn [app]. do 3 f_equal. lia.
Qed.

Lemma concat_labels_None labels :
  foldl (λ s lab, s ← s; lb ← lab; lb ← c_str lb; Some (String.append s lb))
        None labels = None.
Proof. induction labels as [|lab labels IH]; [done|]. simpl. apply IH. Qed.

(** The last loop of [signature] *)
Lemma signature_labels_loop es (edges : list ptr) n i s :
  edges_live es edges → (i + n ≤ length edges)%nat →
  for_range (λ i s, y ← vec_get edges i; lab ← Edge.getLabel es y;
                    lb ← lab; lb ← c_str lb; Some (String.append s lb))
            (Z.of_nat i) n s
  = foldl (λ s lab, s ← s; lb ← lab; lb ← c_str lb;
                    Some (String.append s lb)) (Some s)
      (map (λ y, lab ← Edge.getLabel es y; lab) (take n (drop i edges))).
Proof.
  intros Hlive. revert i s. induction n as [|n IH]; intros i s Hlen; simpl.
  - done.
  - rewrite vec_get_nat.
    destruct (lookup_lt_is_Some_2 edges i) as [y Hy]; [lia|].
    rewrite Hy. simpl.
    erewrite drop_S by done. simpl.
    destruct (Hlive y) as [x Hx]; [by eapply list_elem_of_lookup_2|].
    unfold Edge.getLabel. rewrite Hx. simpl.
    destruct (Edge.label x) as [lb|]; simpl; [|by rewrite concat_labels_None].
    destruct (c_str lb) as [lb'|]; simpl; [|by rewrite concat_labels_None].
    replace (Z.of_nat i + 1) with (Z.of_nat (S i)) by lia.
    apply IH. lia.
Qed.

(** The first loop of [signature] copies the edges in use. *)
Lemma signature_copy_loop p :
  0 ≤ Path.le p ≤ vec_size (Path.e p) →
  for_range (λ i edges, y ← vec_get (Path.e p) i; vec_set edges i y)
            0 (Z.to_nat (Path.le p)) (vec_resize [] (Path.le p) NULL)
  = Some (Path.getEdges p).
Proof.
  intros Hle. set (E := Path.getEdges p). set (n := Z.to_nat (Path.le p)).
  assert (HlenE : length E = n) by (apply Path_getEdges_length; lia).
  destruct (for_range_inv
    (λ k edges, edges = take (Z.to_nat k) E ++ replicate (n - Z.to_nat k) NULL)
    (λ i edges, y ← vec_get (Path.e p) i; vec_set edges i y) 0 n
    (vec_resize [] (Path.le p) NULL)) as (edges & -> & Hedges).
  - unfold vec_resize. rewrite resize_nil. simpl. fold n. f_equal. lia.
  - intros k edges Hk ->.
    destruct (lookup_lt_is_Some_2 E (Z.to_nat k)) as [y Hy]; [lia|].
    change (vec_get (Path.e p) k) with (Path.nthE p k).
    rewrite Path_nthE_getEdges by lia. fold E. rewrite Hy. simpl.
    replace (n - Z.to_nat k)%nat with (S (n - Z.to_nat (k + 1))) by lia.
    simpl. exists (take (Z.to_nat k) E ++ y :: replicate (n - Z.to_nat (k + 1)) NULL).
    split.
    + apply vec_set_at. rewrite length_take. lia.
    + replace (Z.to_nat (k + 1)) with (S (Z.to_nat k)) by lia.
      erewrite take_S_r by done. by rewrite <-app_assoc.
  - f_equal. rewrite Hedges. replace (Z.to_nat (0 + Z.of_nat n)) with n by lia.
    rewrite Nat.sub_diag. simpl. rewrite app_nil_r. apply take_ge. lia.
Qed.

(** The second loop of [signature] sorts them. *)
Lemma signature_sort_loop es (E : list ptr) :
  edges_live es E →
  for_range (λ i edges,
      x ← vec_get edges i;
      '(edges, j) ← Path.shift es x edges (i - 1) (Z.to_nat i);
      vec_set edges (j + 1) x)
    1 (Z.to_nat (Z.of_nat (length E) - 1)) E
  = Some (sorted_edges es E).
Proof.
  intros Hlive. destruct E as [|x0 E0]; [done|].
  remember (x0 :: E0) as E eqn:HE.
  set (n := length E).
  assert (Hn : (1 ≤ n)%nat) by (unfold n; rewrite HE; simpl; lia).
  destruct (for_range_inv
    (λ k edges, edges = sorted_edges es (take (Z.to_nat k) E) ++ drop (Z.to_nat k) E)
    (λ i edges,
      x ← vec_get edges i;
      '(edges, j) ← Path.shift es x edges (i - 1) (Z.to_nat i);
      vec_set edges (j + 1) x)
    1 (Z.to_nat (Z.of_nat n - 1)) E) as (edges & -> & Hedges).
  - rewrite HE. done.
  - intros k edges Hk ->.
    set (S_k := sorted_edges es (take (Z.to_nat k) E)).
    assert (HlenS : length S_k = Z.to_nat k).
    { unfold S_k. rewrite sorted_edges_length, length_take. lia. }
    destruct (lookup_lt_is_Some_2 E (Z.to_nat k)) as [x Hx]; [lia|].
    erewrite drop_S by done.
    rewrite vec_get_at by lia. simpl.
    destruct (Path_shift_spec es x (drop (S (Z.to_nat k)) E)) with
      (A1 := S_k) (g := x) (A2 := @nil ptr) (fuel := Z.to_nat k)
      as (A1' & g' & A2' & Heq & Happ & Hall & Hlast).
    { apply Hlive. by eapply list_elem_of_lookup_2. }
    { intros y Hy. apply Hlive. apply sorted_edges_elem in Hy.
      by eapply subseteq_take. }
    { lia. }
    { done. }
    simpl in Heq. replace (k - 1) with (Z.of_nat (length S_k) - 1) by lia.
    rewrite Heq. simpl.
    rewrite vec_set_at by lia. eexists. split; [done|].
    replace (Z.to_nat (k + 1)) with (S (Z.to_nat k)) by lia.
    erewrite take_S_r by done. rewrite sorted_edges_snoc. fold S_k.
    rewrite app_nil_r in Happ. rewrite <-Happ.
    rewrite place_split by done. by rewrite <-app_assoc.
  - f_equal. rewrite Hedges.
    replace (Z.to_nat (1 + Z.of_nat (Z.to_nat (Z.of_nat n - 1)))) with n by lia.
    unfold n. by rewrite take_ge, drop_ge, app_nil_r by lia.
Qed.

(** [signature] puts the labels of the edges of the path one after the
    other, in the sorted order of the edges. *)
Lemma Path_signature_refines es p :
  Path_wf p → edges_live es (Path.getEdges p) →
  Path.signature es p = concat_labels (sorted_labels es p).
Proof.
  intros [_ (Hle & Hsz & Hint)] Hlive. unfold Path.signature.
  rewrite bool_decide_eq_false_2 by lia.
  rewrite signature_copy_loop by lia. simpl.
  assert (Hlen : length (Path.getEdges p) = Z.to_nat (Path.le p))
    by (apply Path_getEdges_length; lia).
  replace (Path.le p - 1) with (Z.of_nat (length (Path.getEdges p)) - 1) by lia.
  rewrite signature_sort_loop by done. simpl.
  change 0 with (Z.of_nat 0).
  rewrite signature_labels_loop.
  - unfold concat_labels, sorted_labels. do 2 f_equal. simpl.
    apply take_ge. rewrite sorted_edges_length. lia.
  - intros y Hy. apply Hlive. by apply sorted_edges_elem in Hy.
  - rewrite sorted_edges_length. lia.
Qed.

(** ** C8: looking up a vertex that is not there *)

(** C8, as stated, fails on both lookups.  With a capacity of 2,
    [getVertex(2)] reads the vector out of its range and has no defined
    result.  And the label of vertex 0 followed by one more character is
    the label of no vertex, yet [getVertex] finds vertex 0: it compares
    the first [_GRAPH_MAX_LABEL] characters. *)
Lemma getVertex_not_null :
  ∃ h g v, example_two_vertices = Some (h, g)
    ∧ Graph.maxn g = 2
    ∧ Graph.getVertex g 2 = None
    ∧ (∀ i x, live_at h g i x →
         Vertex.label x ≠ Some (String.append label_100 "b"))
    ∧ Graph.getVertex_label h g (String.append label_100 "b") = Some (Some v).
Proof.
  eexists _, _, _. split; [vm_compute; reflexivity|].
  split; [vm_compute; reflexivity|]. split; [vm_compute; reflexivity|].
  split; [|vm_compute; reflexivity].
  intros i x (p & Hp & Hx).
  apply vec_get_Some in Hp as [_ Hp].
  destruct (Z.to_nat i) as [|[|k]]; simpl in Hp; simplify_eq;
    vm_compute in Hx; by simplify_eq.
Qed.

Lemma getVertex_label_from_absent h g label :
  ∀ count i,
    0 ≤ i → i + Z.of_nat count ≤ vec_size (Graph.vertices g) →
    (∀ k x, i ≤ k < i + Z.of_nat count → live_at h g k x →
       ∃ lb, Vertex.label x = Some lb ∧ strncmp_eq lb label = false) →
    Graph_slots_ok h g →
    Graph.getVertex_label_from h g label i count = Some NULL.
Proof.
  induction count as [|count IH]; intros i Hi Hsz Hlab Hok; simpl; [done|].
  destruct (vec_get_is_Some (Graph.vertices g) i) as [p Hp]; [lia|].
  rewrite Hp. simpl. case_bool_decide as Hnull.
  - destruct (Hok i p Hp Hnull) as (x & Hx & _). rewrite Hx. simpl.
    destruct (Hlab i x) as (lb & Hlb & Hcmp); [lia|by exists p|].
    rewrite Hlb. simpl. rewrite Hcmp.
    apply IH; [lia|lia| |done]. intros k y Hk. apply Hlab. lia.
  - simpl. apply IH; [lia|lia| |done]. intros k y Hk. apply Hlab. lia.
Qed.

(** C8, amended: for an id within the capacity that is the id of no live
    vertex, [getVertex(id)] is null; when every live vertex has a label and
    none agrees with the given one on its first [_GRAPH_MAX_LABEL]
    characters, [getVertex(label)] is null. *)
Theorem getVertex_absent h g :
  Graph_slots_ok h g →
  (∀ id, 0 ≤ id < vec_size (Graph.vertices g) →
     (∀ i x, live_at h g i x → Vertex.id x ≠ id) →
     Graph.getVertex g id = Some NULL)
  ∧ (∀ label, Graph.lastVid g < vec_size (Graph.vertices g) →
       (∀ i x, live_at h g i x →
          ∃ lb, Vertex.label x = Some lb ∧ strncmp_eq lb label = false) →
       Graph.getVertex_label h g label = Some NULL).
Proof.
  intros Hok. split.
  - intros id Hid Hfree. unfold Graph.getVertex.
    destruct (vec_get_is_Some (Graph.vertices g) id) as [p Hp]; [done|].
    rewrite Hp. f_equal. destruct (decide (p = NULL)) as [|Hnull]; [done|].
    destruct (Hok id p Hp Hnull) as (x & Hx & Hidx).
    destruct (Hfree id x); [by exists p|done].
  - intros label Hlast Hlab. unfold Graph.getVertex_label.
    destruct (decide (0 ≤ Graph.lastVid g + 1)).
    + apply getVertex_label_from_absent; [lia|lia| |done].
      intros k x _. apply Hlab.
    + by replace (Z.to_nat (Graph.lastVid g + 1)) with 0%nat by lia.
Qed.

Lemma getVertex_absent_witness :
  ∃ h g, example_labelled = Some (h, g)
    ∧ Graph.getVertex g 1 = Some NULL
    ∧ Graph.getVertex_label h g "v" = Some NULL.
Proof.
  eexists _, _. split; [vm_compute; reflexivity|].
  match goal with |- Graph.getVertex ?g _ = _ ∧ Graph.getVertex_label ?h _ _ = _ =>
    assert (Hlive : ∀ i x, live_at h g i x →
              (i = 0 ∧ Vertex.id x = 0 ∧ Vertex.label x = Some "u"%string)
              ∨ (i = 2 ∧ Vertex.id x = 2 ∧ Vertex.label x = Some "w"%string));
    [|destruct (getVertex_absent h g) as [Hid Hlabel]]
  end.
  - intros i x (p & Hp & Hx). apply vec_get_Some in Hp as [Hi Hp].
    assert (i = Z.of_nat (Z.to_nat i)) as -> by lia.
    destruct (Z.to_nat i) as [|[|[|[|k]]]]; simpl in Hp; simplify_eq;
      vm_compute in Hx; simplify_eq; auto.
  - intros i p Hp Hnull. apply vec_get_Some in Hp as [Hi Hp].
    assert (i = Z.of_nat (Z.to_nat i)) as -> by lia.
    destruct (Z.to_nat i) as [|[|[|[|k]]]]; simpl in Hp; simplify_eq;
      by eexists.
  - split.
    + apply Hid; [unfold vec_size; simpl; lia|].
      intros i x [(_ & -> & _)|(_ & -> & _)]%Hlive; done.
    + apply Hlabel; [unfold vec_size; simpl; lia|].
      intros i x [(_ & _ & ->)|(_ & _ & ->)]%Hlive; by eexists.
Defined.

(** ** C9: the guard of [addEdge(int, int)] *)

(** With a capacity of 2 and the vertices 0 and 1, the guard sends the
    pair (2, 0) back with a null result, and lets the pair (0, 2) and a
    negative id through to the vector, read out of its range. *)
Lemma addEdge_id_reads_out_of_range :
  ∃ h g, example_two_vertices = Some (h, g)
    ∧ Graph.maxn g = 2 ∧ vec_size (Graph.vertices g) = 2
    ∧ Graph.addEdge_id h g 2 0 None = Some (h, g, NULL)
    ∧ Graph.getVertex g 2 = None
    ∧ Graph.addEdge_id h g 0 2 None = None
    ∧ Graph.addEdge_id h g (-1) 0 None = None.
Proof. eexists _, _. repeat (split; [vm_compute; reflexivity|]). vm_compute. reflexivity. Qed.

(** ** C4: the copy of a graph *)

(** The copy of the graph with an edge 1t-2t and its sibling 1h-2h: the
    copy of the sibling carries the extremities 1t-2t of the edge. *)
Lemma copy_sibling_extremities :
  ∃ h g h' g' s s',
    example_siblings = Some (h, g) ∧ Graph.copy h g = Some (h', g')
    ∧ Heap.edge h (Some 2%nat) = Some s
    ∧ Edge.label s = Some "1h2h"%string
    ∧ Edge.ex1 s = Extremity.mk 1 Extremity.HEAD
    ∧ Edge.ex2 s = Extremity.mk 2 Extremity.HEAD
    ∧ Heap.edge h' (Some 6%nat) = Some s'
    ∧ Edge.label s' = Some "1h2h"%string
    ∧ Edge.ex1 s' = Extremity.mk 1 Extremity.TAIL
    ∧ Edge.ex2 s' = Extremity.mk 2 Extremity.TAIL
    ∧ (∀ a x, Heap.edge h' (Some a) = Some x → (4 ≤ a)%nat →
         Extremity.ty (Edge.ex1 x) = Extremity.TAIL).
Proof.
  eexists _, _, _, _, _, _.
  split; [vm_compute; reflexivity|]. split; [vm_compute; reflexivity|].
  repeat (split; [vm_compute; reflexivity|]).
  intros a x Hx Ha.
  do 4 (destruct a as [|a]; [lia|]).
  do 4 (destruct a as [|a]; [vm_compute in Hx; by simplify_eq|]).
  vm_compute in Hx. destruct a; done.
Qed.

(** ** The parts of the vertices *)

(** Taking apart the equations [c = Some r] on sequences of steps. *)
Ltac inv_opt :=
  repeat
    (match goal with
     | H : _ ≫= _ = Some _ |- _ => apply bind_Some in H as (? & ? & H)
     | H : _ <$> _ = Some _ |- _ => apply fmap_Some in H as (? & H & ?)
     | H : (let '(_, _) := ?x in _) = _ |- _ => destruct x
     | H : Some _ = Some _ |- _ => injection H as H
     | H : None = Some _ |- _ => discriminate H
     | H : (_, _) = (_, _) |- _ => injection H as H
     end; cbn beta iota in *; subst).

Lemma same_vertices_refl h : same_vertices h h.
Proof. by intros p. Qed.

Lemma same_vertices_trans h1 h2 h3 :
  same_vertices h1 h2 → same_vertices h2 h3 → same_vertices h1 h3.
Proof. intros H12 H23 p. by rewrite H23, H12. Qed.

Lemma same_vertices_es h es' : same_vertices h (Heap.mk (Heap.vs h) es').
Proof. by intros p. Qed.

Lemma same_vertices_insert h a x x' es' :
  Heap.vertex h (Some a) = Some x → vertex_key x' = vertex_key x →
  same_vertices h (Heap.mk (<[a := Some x']> (Heap.vs h)) es').
Proof.
  intros Hx Hkey [b|]; [|done]. unfold Heap.vertex, Vertex.deref in *. simpl in *.
  destruct (decide (a = b)) as [->|Hne].
  - destruct (Heap.vs h !! b) as [o|] eqn:Hb; [|done]. simpl in Hx. subst o.
    rewrite list_lookup_insert_eq by (by eapply lookup_lt_Some). simpl.
    by rewrite Hkey.
  - by rewrite list_lookup_insert_ne.
Qed.

Lemma same_vertices_update h h' v f :
  (∀ x, vertex_key (f x) = vertex_key x) →
  Heap.update_vertex h v f = Some h' → same_vertices h h'.
Proof.
  intros Hf Hupd. unfold Heap.update_vertex, Vertex.update in Hupd.
  inv_opt. by eapply same_vertices_insert.
Qed.

Lemma same_vertices_Vertex_addEdge h v adj label h' e :
  Heap.Vertex_addEdge h v adj label = Some (h', e) → same_vertices h h'.
Proof.
  intros Hadd. unfold Heap.Vertex_addEdge, Vertex.addEdge in Hadd.
  simpl in Hadd. inv_opt. by eapply same_vertices_insert.
Qed.

Lemma same_vertices_Vertex_removeEdge h v e h' :
  Heap.Vertex_removeEdge h v e = Some h' → same_vertices h h'.
Proof.
  intros Hrem. unfold Heap.Vertex_removeEdge, Vertex.removeEdge in Hrem.
  inv_opt. case_bool_decide; [|done]. inv_opt.
  by eapply same_vertices_insert.
Qed.

Lemma same_vertices_Edge_setSibling h e s h' :
  Heap.Edge_setSibling h e s = Some h' → same_vertices h h'.
Proof.
  intros Hs. unfold Heap.Edge_setSibling in Hs. inv_opt.
  apply same_vertices_es.
Qed.

Lemma same_vertices_Edge_setExtremities h e id1 t1 id2 t2 h' :
  Heap.Edge_setExtremities h e id1 t1 id2 t2 = Some h' → same_vertices h h'.
Proof.
  intros Hs. unfold Heap.Edge_setExtremities in Hs. inv_opt.
  apply same_vertices_es.
Qed.

Lemma keeps_parts_refl s : keeps_parts s s.
Proof. split; [apply same_vertices_refl|done]. Qed.

Lemma keeps_parts_trans a b c :
  keeps_parts a b → keeps_parts b c → keeps_parts a c.
Proof.
  intros (H1 & H2 & H3 & H4 & H5) (H1' & H2' & H3' & H4' & H5'). split.
  - by eapply same_vertices_trans.
  - split; [congruence|]. split; [congruence|]. split; congruence.
Qed.

Lemma Graph_addEdge_keeps h g v1 v2 label h' g' e :
  Graph.addEdge h g v1 v2 label = Some (h', g', e) →
  keeps_parts (h, g) (h', g').
Proof.
  intros Hadd. unfold Graph.addEdge in Hadd.
  destruct (_ || _) in Hadd.
  { inv_opt. apply keeps_parts_refl. }
  inv_opt. split; [|done]. simpl.
  eapply same_vertices_trans; [by eapply same_vertices_Vertex_addEdge|].
  eapply same_vertices_trans; [by eapply same_vertices_Vertex_addEdge|].
  apply same_vertices_es.
Qed.

Lemma Graph_addEdge_id_keeps h g id1 id2 label h' g' e :
  Graph.addEdge_id h g id1 id2 label = Some (h', g', e) →
  keeps_parts (h, g) (h', g').
Proof.
  intros Hadd. unfold Graph.addEdge_id in Hadd.
  destruct (_ || _) in Hadd.
  { inv_opt. apply keeps_parts_refl. }
  inv_opt. by eapply Graph_addEdge_keeps.
Qed.

Lemma Graph_removeEdge_keeps h g e h' g' :
  Graph.removeEdge h g e = Some (h', g') → keeps_parts (h, g) (h', g').
Proof.
  intros Hrem. unfold Graph.removeEdge in Hrem.
  case_bool_decide.
  { inv_opt. apply keeps_parts_refl. }
  inv_opt. split; [|done]. simpl.
  match goal with
  | Ha : Heap.Vertex_removeEdge ?a _ _ = Some ?b,
    Hb : Heap.Vertex_removeEdge ?b _ _ = Some h' |- _ =>
      apply (same_vertices_trans h a h');
        [|apply (same_vertices_trans a b h');
          by eapply same_vertices_Vertex_removeEdge]
  end.
  case_bool_decide; inv_opt; [|apply same_vertices_refl].
  by eapply same_vertices_Edge_setSibling.
Qed.

Lemma Graph_removeEdges_keeps fuel h g v h' g' :
  Graph.removeEdges h g v fuel = Some (h', g') → keeps_parts (h, g) (h', g').
Proof.
  revert h g. induction fuel as [|fuel IH]; intros h g Hrem; simpl in Hrem;
    inv_opt; destruct (Vertex.edges _) as [|e rest]; inv_opt;
    try apply keeps_parts_refl.
  eapply keeps_parts_trans; [by eapply Graph_removeEdge_keeps|by apply IH].
Qed.

Lemma Graph_removeEdge_extremities_keeps h g ex1 ex2 h' g' :
  Graph.removeEdge_extremities h g ex1 ex2 = Some (h', g') →
  keeps_parts (h, g) (h', g').
Proof.
  intros Hrem. unfold Graph.removeEdge_extremities in Hrem. inv_opt.
  eapply (for_each_rel keeps_parts); [apply keeps_parts_refl
    |apply keeps_parts_trans| |done].
  intros v [h1 g1] [h2 g2] _ Hbody. inv_opt.
  destruct (_ || _) in Hbody; [|inv_opt; apply keeps_parts_refl].
  eapply (for_each_rel keeps_parts); [apply keeps_parts_refl
    |apply keeps_parts_trans| |done].
  intros e [h3 g3] [h4 g4] _ Hbody'. inv_opt.
  destruct (_ || _) in Hbody'; [|inv_opt; apply keeps_parts_refl].
  by eapply Graph_removeEdge_keeps.
Qed.

Lemma in_part_same h h' q p :
  same_vertices h h' → in_part h' q p = in_part h q p.
Proof.
  intros Hsame. unfold in_part. specialize (Hsame p).
  destruct (Heap.vertex h' p) as [x'|], (Heap.vertex h p) as [x|];
    simpl in Hsame; try done.
  injection Hsame as _ Hpart. by rewrite Hpart.
Qed.

Lemma in_part_NULL h q : in_part h q NULL = false.
Proof. done. Qed.

Lemma filter_length_insert {A} (f : A → bool) (l : list A) i a b :
  l !! i = Some a →
  Z.of_nat (length (List.filter f (<[i:=b]> l)))
  = Z.of_nat (length (List.filter f l))
    - (if f a then 1 else 0) + (if f b then 1 else 0).
Proof.
  intros Hi. rewrite insert_take_drop by (by eapply lookup_lt_Some).
  rewrite <-(take_drop_middle l i a Hi) at 3.
  rewrite !List.filter_app, !length_app. simpl.
  destruct (f a), (f b); simpl; lia.
Qed.

Lemma filter_length_resize {A} (f : A → bool) (l : list A) n x :
  f x = false → (length l ≤ n)%nat →
  length (List.filter f (resize n x l)) = length (List.filter f l).
Proof.
  intros Hx Hn. rewrite resize_ge by done. rewrite List.filter_app, length_app.
  replace (List.filter f (replicate (n - length l) x)) with (@nil A); [simpl; lia|].
  induction (n - length l)%nat as [|k IH]; [done|]. simpl. by rewrite Hx.
Qed.

Lemma grow_result size bound fuel mx :
  0 ≤ size → grow size bound fuel = Some mx → size ≤ mx ∧ bound < mx.
Proof.
  revert size. induction fuel as [|fuel IH]; intros size Hsize Hgrow;
    simpl in Hgrow; case_bool_decide; simplify_eq; try lia.
  apply IH in Hgrow; lia.
Qed.

Lemma grow_int_grow size bound fuel mx :
  grow_int size bound fuel = Some mx → grow size bound fuel = Some mx.
Proof.
  revert size. induction fuel as [|fuel IH]; intros size Hgrow;
    simpl in *; case_bool_decide; try done.
  case_bool_decide; [|done]. by apply IH.
Qed.

Lemma grow_int_result size bound fuel mx :
  0 ≤ size < 2 ^ 31 → grow_int size bound fuel = Some mx →
  size ≤ mx < 2 ^ 31 ∧ bound < mx.
Proof.
  revert size. induction fuel as [|fuel IH]; intros size Hsize Hgrow;
    simpl in Hgrow; case_bool_decide; simplify_eq; try lia.
  case_bool_decide; [|done]. apply IH in Hgrow; lia.
Qed.

Lemma grow_int_none size bound fuel :
  bound < size → grow_int size bound fuel = Some size.
Proof. intros. destruct fuel; simpl; by rewrite bool_decide_eq_false_2 by lia. Qed.

Lemma grow_int_once size fuel :
  1 ≤ size < 2 ^ 30 → grow_int size size (S fuel) = Some (size * 2).
Proof.
  intros. simpl. rewrite bool_decide_eq_true_2 by lia.
  rewrite bool_decide_eq_true_2 by lia. apply grow_int_none. lia.
Qed.

Lemma grow_int_some size bound : ∀ fuel,
  1 ≤ size → bound < 2 ^ 30 → bound - size + 1 ≤ Z.of_nat fuel →
  ∃ mx, grow_int size bound fuel = Some mx.
Proof.
  intros fuel. revert size.
  induction fuel as [|fuel IH]; intros size Hsize Hbound Hfuel; simpl.
  - rewrite bool_decide_eq_false_2 by lia. by eexists.
  - case_bool_decide; [|by eexists].
    rewrite bool_decide_eq_true_2 by lia. apply IH; lia.
Qed.

Lemma same_vertices_live h h' p x :
  same_vertices h h' → Heap.vertex h p = Some x →
  ∃ x', Heap.vertex h' p = Some x' ∧ vertex_key x' = vertex_key x.
Proof.
  intros Hsame Hx. specialize (Hsame p). rewrite Hx in Hsame.
  destruct (Heap.vertex h' p) as [x'|]; [|done].
  exists x'. split; [done|]. simpl in Hsame. congruence.
Qed.

Lemma same_vertices_sym h h' : same_vertices h h' → same_vertices h' h.
Proof. intros Hsame p. by rewrite Hsame. Qed.

(** A step that keeps the parts keeps the invariant and the counts. *)
Lemma parts_ok_keeps h g h' g' :
  parts_ok h g → keeps_parts (h, g) (h', g') →
  parts_ok h' g' ∧ ∀ q, count_part h' g' q = count_part h g q.
Proof.
  intros (Hnp & Hsz & Hslots & Hrange & Hcount) (Hsame & Hv & Hn & Hm & _).
  simpl in *.
  assert (Hc : ∀ q, count_part h' g' q = count_part h g q).
  { intros q. unfold count_part. rewrite Hv. do 2 f_equal.
    apply List.filter_ext. intros p. by apply in_part_same. }
  split; [|done]. unfold parts_ok. rewrite Hn, Hv, Hm.
  split; [done|]. split; [done|]. split; [|split].
  - intros i p Hp Hnull. unfold Graph_slots_ok in Hslots. rewrite Hv in Hp.
    destruct (Hslots i p Hp Hnull) as (x & Hx & Hid).
    destruct (same_vertices_live h h' p x Hsame Hx) as (x' & Hx' & Hkey).
    exists x'. split; [done|]. injection Hkey as Hid' _. congruence.
  - intros i x' (p & Hp & Hx'). rewrite Hv in Hp.
    destruct (same_vertices_live h' h p x' (same_vertices_sym _ _ Hsame) Hx')
      as (x & Hx & Hkey).
    injection Hkey as _ Hpart. rewrite <-Hpart. apply (Hrange i x). by exists p.
  - intros q Hq. rewrite Hc. by apply Hcount.
Qed.

Lemma vec_size_nonneg {A} (v : list A) : 0 ≤ vec_size v.
Proof. unfold vec_size. lia. Qed.

Lemma parts_ok_resize h g mx :
  parts_ok h g → Graph.maxn g ≤ mx →
  let g1 := Graph.set_vertices g mx (vec_resize (Graph.vertices g) mx NULL) in
  parts_ok h g1 ∧ ∀ q, count_part h g1 q = count_part h g q.
Proof.
  intros (Hnp & Hsz & Hslots & Hrange & Hcount) Hmx g1.
  pose proof (vec_size_nonneg (Graph.vertices g)).
  assert (Hlen : (length (Graph.vertices g) ≤ Z.to_nat mx)%nat)
    by (unfold vec_size in *; lia).
  assert (Hc : ∀ q, count_part h g1 q = count_part h g q).
  { intros q. unfold count_part, g1, vec_resize. simpl. f_equal.
    by apply filter_length_resize. }
  split; [|done]. unfold parts_ok, g1. simpl.
  split; [done|]. split; [apply vec_size_resize; lia|].
  assert (Hget : ∀ i p, vec_get (vec_resize (Graph.vertices g) mx NULL) i = Some p →
            p ≠ NULL → vec_get (Graph.vertices g) i = Some p).
  { intros i p Hp Hnull. apply vec_get_Some in Hp as [Hi Hp].
    rewrite vec_get_lookup by lia. unfold vec_resize in Hp.
    rewrite resize_ge in Hp by done.
    apply lookup_app_Some in Hp as [Hp|[_ Hp]]; [done|].
    apply lookup_replicate in Hp as [-> _]. done. }
  split; [|split].
  - intros i p Hp Hnull. apply Hslots; [by apply Hget|done].
  - intros i y (p & Hp & Hy). apply (Hrange i y). exists p.
    split; [|done]. apply Hget; [done|]. by intros ->.
  - intros q Hq. rewrite Hc. by apply Hcount.
Qed.

Lemma Graph_addVertex_resized h g id label part family mx :
  id >= Graph.maxn g → grow_int (Graph.maxn g) id (Z.to_nat id + 1) = Some mx →
  id < mx →
  Graph.addVertex h g id label part family
  = Graph.addVertex h (Graph.set_vertices g mx (vec_resize (Graph.vertices g) mx NULL))
                    id label part family.
Proof.
  intros Hid Hgrow Hmx. unfold Graph.addVertex.
  rewrite (bool_decide_eq_true_2 (id >= Graph.maxn g)) by done.
  rewrite Hgrow. simpl.
  rewrite (bool_decide_eq_false_2 (id >= mx)) by lia. done.
Qed.

Lemma Graph_addVertex_parts_fits h g id label part family h' g' v :
  parts_ok h g → 0 ≤ part ≤ 127 → id < Graph.maxn g →
  Graph.addVertex h g id label part family = Some (h', g', v) →
  parts_ok h' g'
  ∧ ∀ q, count_part h' g' q
         = count_part h g q
           + (if bool_decide (v ≠ NULL) && bool_decide (q = part)
              then 1 else 0).
Proof.
  intros Hok Hpart Hid Hadd. unfold Graph.addVertex in Hadd.
  rewrite (bool_decide_eq_false_2 (part < 0)) in Hadd by lia.
  rewrite (bool_decide_eq_false_2 (id >= Graph.maxn g)) in Hadd by lia.
  simpl in Hadd.
  apply bind_Some in Hadd as (slot & Hslot & Hadd).
  case_bool_decide as Hfree.
  { injection Hadd as <- <- <-. split; [done|]. intros q.
    rewrite (bool_decide_eq_false_2 (NULL ≠ NULL)) by (by intros []). simpl. lia. }
  subst slot.
  inv_opt.
  match goal with
  | H : context [if bool_decide (id > Graph.lastVid g) then ?A else ?B] |- _ =>
      set (gl := if bool_decide (id > Graph.lastVid g) then A else B) in *
  end.
  assert (Hgl : Graph.npart gl = Graph.npart g ∧ Graph.vertices gl = Graph.vertices g
                ∧ Graph.maxn gl = Graph.maxn g)
    by (unfold gl; by case_bool_decide).
  destruct Hgl as (Hgl1 & Hgl2 & Hgl3). rewrite ?Hgl1, ?Hgl2, ?Hgl3 in *.
  rewrite to_unsigned_small in * by lia.
  match goal with H : (_ ++ [_]) !! _ = Some (Some ?y) |- _ =>
    rewrite list_lookup_middle in H by done; injection H as <- end.
  destruct Hok as (Hnp & Hsz & Hslots & Hrange & Hcount).
  set (a := length (Heap.vs h)) in *.
  set (nv := Vertex.setLabel (Vertex.set_family
               (Vertex.setPart (Vertex.new id 0 0) part) family) label).
  set (h' := Heap.mk (<[a:=Some nv]> (Heap.vs h ++ [Some (Vertex.new id 0 0)]))
                     (Heap.es h)).
  assert (Hnv : Vertex.id nv = id ∧ Vertex.part nv = part).
  { split; [done|]. unfold nv. simpl. apply Z.mod_small. lia. }
  assert (Hold : ∀ p x, Heap.vertex h p = Some x → Heap.vertex h' p = Some x).
  { intros [b|] xo Hx; [|done]. unfold Heap.vertex, Vertex.deref in *. simpl in *.
    destruct (Heap.vs h !! b) as [o|] eqn:Hb; [|done].
    pose proof (lookup_lt_Some _ _ _ Hb).
    rewrite list_lookup_insert_ne by (unfold a; lia).
    by rewrite lookup_app_l, Hb by done. }
  assert (Hnew : Heap.vertex h' (Some a) = Some nv).
  { unfold Heap.vertex, Vertex.deref, h'. simpl.
    rewrite list_lookup_insert_eq by (rewrite length_app; simpl; unfold a; lia).
    done. }
  assert (Hslot' : ∀ p, p ∈ Graph.vertices g → in_part h' part p = in_part h part p
                        ∧ ∀ q, in_part h' q p = in_part h q p).
  { intros p Hp. cut (∀ q, in_part h' q p = in_part h q p); [by auto|].
    intros q. destruct (decide (p = NULL)) as [->|Hnull]; [done|].
    apply list_elem_of_lookup in Hp as [i Hp].
    destruct (Hslots (Z.of_nat i) p) as (xo & Hx & _);
      [by rewrite vec_get_nat|done|].
    unfold in_part. by rewrite (Hold _ _ Hx), Hx. }
  apply vec_get_Some in Hslot as [Hidr Hslot].
  match goal with H : vec_set (Graph.vertices g) id _ = Some ?vv |- _ =>
    rewrite vec_set_Some in H by lia; injection H as <- end.
  match goal with H : vec_get (Graph.npart g) part = Some ?c |- _ =>
    rewrite Hcount in H by lia; injection H as <- end.
  match goal with H : vec_set (Graph.npart g) part _ = Some ?np |- _ =>
    rewrite vec_set_Some in H by lia; injection H as <- end.
  assert (Hc : ∀ g2 q,
      Graph.vertices g2 = <[Z.to_nat id:=Some a]> (Graph.vertices g) →
      count_part h' g2 q
      = count_part h g q + (if bool_decide (q = part) then 1 else 0)).
  { intros g2 q Hg2. unfold count_part. rewrite Hg2.
    rewrite (filter_length_insert _ _ _ NULL) by done.
    replace (in_part h' q NULL) with false by done.
    unfold in_part at 2. rewrite Hnew. destruct Hnv as [_ ->].
    rewrite (List.filter_ext_in (in_part h' q) (in_part h q)); last first.
    { intros p Hp. apply Hslot'. by apply list_elem_of_In. }
    rewrite (bool_decide_ext (part = q) (q = part)) by done.
    case_bool_decide; lia. }
  split; [|intros q; rewrite Hc by done;
           by rewrite (bool_decide_eq_true_2 (Some a ≠ NULL)) by done].
  unfold parts_ok. simpl.
  split; [unfold vec_size in *; by rewrite length_insert|].
  split; [unfold vec_size in *; by rewrite length_insert|].
  assert (Hget : ∀ i p, vec_get (<[Z.to_nat id:=Some a]> (Graph.vertices g)) i = Some p →
            (i = id ∧ p = Some a) ∨ (i ≠ id ∧ vec_get (Graph.vertices g) i = Some p)).
  { intros i p Hp. apply vec_get_Some in Hp as [Hi Hp].
    destruct (decide (i = id)) as [->|Hne].
    - rewrite list_lookup_insert_eq in Hp by (unfold vec_size in *; lia).
      left. by injection Hp as <-.
    - rewrite list_lookup_insert_ne in Hp by lia. right. split; [done|].
      by rewrite vec_get_lookup by lia. }
  split; [|split].
  - intros i p [[-> ->]|[Hne Hp]]%Hget Hnull.
    + exists nv. by destruct Hnv.
    + destruct (Hslots i p Hp Hnull) as (xo & Hx & Hidx).
      exists xo. split; [by apply Hold|done].
  - intros i y (p & [[-> ->]|[Hne Hp]]%Hget & Hy).
    + rewrite Hnew in Hy. injection Hy as <-. destruct Hnv as [_ ->]. done.
    + destruct (decide (p = NULL)) as [->|Hnull]; [done|].
      destruct (Hslots i p Hp Hnull) as (xo & Hx & Hidx).
      rewrite (Hold _ _ Hx) in Hy. injection Hy as <-.
      apply (Hrange i xo). by exists p.
  - intros q Hq. rewrite Hc by done. rewrite vec_get_lookup by lia.
    destruct (decide (q = part)) as [->|Hne].
    + rewrite list_lookup_insert_eq by (unfold vec_size in *; lia).
      by rewrite bool_decide_eq_true_2.
    + rewrite list_lookup_insert_ne by lia.
      rewrite bool_decide_eq_false_2 by done.
      rewrite <-vec_get_lookup by lia. rewrite Hcount by done.
      f_equal. lia.
Qed.

Lemma Graph_addVertex_parts h g id label part family h' g' v :
  parts_ok h g → -128 ≤ part ≤ 127 →
  Graph.addVertex h g id label part family = Some (h', g', v) →
  parts_ok h' g'
  ∧ ∀ q, count_part h' g' q
         = count_part h g q
           + (if bool_decide (v ≠ NULL)
                 && bool_decide (q = if bool_decide (part < 0) then 0 else part)
              then 1 else 0).
Proof.
  intros Hok Hpart Hadd.
  assert (Hpart' : 0 ≤ (if bool_decide (part < 0) then 0 else part) ≤ 127)
    by (case_bool_decide; lia).
  set (part' := if bool_decide (part < 0) then 0 else part) in *.
  assert (Hclamp : ∀ g0, Graph.addVertex h g0 id label part family
                         = Graph.addVertex h g0 id label part' family).
  { intros g0. unfold Graph.addVertex. fold part'.
    by rewrite (bool_decide_eq_false_2 (part' < 0)) by lia. }
  rewrite Hclamp in Hadd.
  destruct (decide (id >= Graph.maxn g)) as [Hbig|Hfits].
  - pose proof Hadd as Hadd'. unfold Graph.addVertex in Hadd'.
    rewrite (bool_decide_eq_true_2 (id >= Graph.maxn g)) in Hadd' by done.
    apply bind_Some in Hadd' as (g1 & Hg1 & _).
    apply bind_Some in Hg1 as (mx & Hgrow & Hg1). injection Hg1 as <-.
    destruct Hok as (Hnp & Hsz & Hrest).
    pose proof (vec_size_nonneg (Graph.vertices g)).
    assert (Hmaxn : 0 ≤ Graph.maxn g) by lia.
    destruct (grow_result _ _ _ _ Hmaxn (grow_int_grow _ _ _ _ Hgrow))
      as [Hmx1 Hmx2].
    rewrite (Graph_addVertex_resized _ _ _ _ _ _ mx) in Hadd by done.
    destruct (parts_ok_resize h g mx) as [Hok1 Hc1]; [done|done|].
    destruct (Graph_addVertex_parts_fits _ _ _ _ _ _ _ _ _ Hok1 Hpart' Hmx2 Hadd)
      as [Hok' Hc'].
    split; [done|]. intros q. by rewrite Hc', Hc1.
  - eapply Graph_addVertex_parts_fits; [done|done| |done]. lia.
Qed.

Lemma Graph_addVertex_auto_parts h g label part family h' g' v :
  parts_ok h g → -128 ≤ part ≤ 127 →
  Graph.addVertex_auto h g label part family = Some (h', g', v) →
  parts_ok h' g'
  ∧ ∀ q, count_part h' g' q
         = count_part h g q
           + (if bool_decide (v ≠ NULL)
                 && bool_decide (q = if bool_decide (part < 0) then 0 else part)
              then 1 else 0).
Proof.
  intros Hok Hpart Hadd. unfold Graph.addVertex_auto in Hadd.
  apply bind_Some in Hadd as (id & _ & Hadd).
  by eapply Graph_addVertex_parts.
Qed.

Lemma Graph_removeVertex_parts h g v h' g' :
  parts_ok h g → v = NULL ∨ v ∈ Graph.vertices g →
  Graph.removeVertex h g v = Some (h', g') →
  parts_ok h' g'
  ∧ ∀ q, count_part h' g' q
         = count_part h g q
           + match Heap.vertex h v with
             | Some x => if bool_decide (Vertex.part x = q) then -1 else 0
             | None => 0
             end.
Proof.
  intros Hok Hv Hrem. unfold Graph.removeVertex in Hrem.
  case_bool_decide as Hnull.
  { subst v. injection Hrem as <- <-. split; [done|]. intros q. simpl. lia. }
  destruct Hv as [|Hv]; [done|].
  apply bind_Some in Hrem as (x & Hx & Hrem).
  apply bind_Some in Hrem as ([h1 g1] & Hedges & Hrem).
  apply Graph_removeEdges_keeps in Hedges.
  destruct (parts_ok_keeps _ _ _ _ Hok Hedges) as [Hok1 Hc1].
  destruct Hedges as (Hsame & Hv1 & _). simpl in Hsame, Hv1.
  rewrite Hx. rewrite <-Hv1 in Hv.
  apply bind_Some in Hrem as (x0 & Hx0 & Hrem).
  assert (Hkey : Vertex.part x0 = Vertex.part x).
  { destruct (same_vertices_live _ _ _ _ Hsame Hx) as (x' & Hx' & Hkey).
    rewrite Hx0 in Hx'. injection Hx' as <-. by injection Hkey. }
  rewrite <-Hkey. setoid_rewrite <-Hc1.
  clear dependent h. clear dependent x. clear Hv1.
  destruct Hok1 as (Hnp & Hsz & Hslots & Hrange & Hcount).
  apply list_elem_of_lookup in Hv as [i Hi].
  destruct (Hslots (Z.of_nat i) v) as (xo & Hxo & Hid);
    [by rewrite vec_get_nat|done|].
  rewrite Hx0 in Hxo. injection Hxo as <-.
  assert (Hpart : 0 ≤ Vertex.part x0 ≤ 127).
  { apply (Hrange (Z.of_nat i)). exists v. by rewrite vec_get_nat. }
  rewrite Hid in Hrem. simpl in Hrem.
  rewrite to_unsigned_small in Hrem by lia.
  pose proof (lookup_lt_Some _ _ _ Hi) as Hlt.
  rewrite vec_set_Some in Hrem by (unfold vec_size; lia). simpl in Hrem.
  rewrite Hcount in Hrem by lia. simpl in Hrem.
  rewrite vec_set_Some in Hrem by lia. simpl in Hrem.
  rewrite Nat2Z.id in Hrem.
  apply bind_Some in Hrem as (c & _ & Hrem).
  apply bind_Some in Hrem as (fs & _ & Hrem).
  apply bind_Some in Hrem as (vs' & Hfree & Hrem). injection Hrem as <- <-.
  destruct v as [a|]; [|done]. unfold Vertex.free in Hfree. simpl in Hfree.
  apply bind_Some in Hfree as (? & _ & Hfree). injection Hfree as <-.
  set (h2 := Heap.mk (<[a:=None]> (Heap.vs h1)) (Heap.es h1)).
  assert (Hother : ∀ p, p ≠ Some a → Heap.vertex h2 p = Heap.vertex h1 p).
  { intros [b|] Hne; [|done]. unfold Heap.vertex, Vertex.deref, h2. simpl.
    rewrite list_lookup_insert_ne by congruence. done. }
  assert (Hdistinct : ∀ j, Graph.vertices g1 !! j = Some (Some a) → j = i).
  { intros j Hj. destruct (Hslots (Z.of_nat j) (Some a)) as (xo & Hxo & Hidj);
      [by rewrite vec_get_nat|done|].
    rewrite Hx0 in Hxo. injection Hxo as <-. lia. }
  assert (Hslots' : ∀ j p, <[i:=NULL]> (Graph.vertices g1) !! j = Some p →
            p ≠ NULL → j ≠ i ∧ Graph.vertices g1 !! j = Some p ∧ p ≠ Some a).
  { intros j p Hp Hnn. apply list_lookup_insert_Some in Hp
      as [(-> & <- & _)|[Hne Hp]]; [done|].
    split; [done|]. split; [done|]. intros ->. by apply Hdistinct in Hp. }
  assert (Hc : ∀ g2 q, Graph.vertices g2 = <[i:=NULL]> (Graph.vertices g1) →
            count_part h2 g2 q
            = count_part h1 g1 q
              + (if bool_decide (Vertex.part x0 = q) then -1 else 0)).
  { intros g2 q Hg2. unfold count_part. rewrite Hg2.
    rewrite (List.filter_ext_in (in_part h2 q) (in_part h1 q)); last first.
    { intros p Hp. apply list_elem_of_In, list_elem_of_lookup in Hp as [j Hj].
      destruct (decide (p = NULL)) as [->|Hnn]; [done|].
      destruct (Hslots' j p Hj Hnn) as (_ & _ & Hne).
      unfold in_part. by rewrite Hother. }
    rewrite (filter_length_insert _ _ _ (Some a)) by done.
    replace (in_part h1 q NULL) with false by done.
    replace (in_part h1 q (Some a)) with (bool_decide (Vertex.part x0 = q))
      by (unfold in_part; by rewrite Hx0).
    unfold count_part. repeat case_bool_decide; lia. }
  split; [|intros q; by apply Hc].
  unfold parts_ok. simpl.
  split; [unfold vec_size in *; by rewrite length_insert|].
  split; [unfold vec_size in *; by rewrite length_insert|].
  split; [|split].
  - intros j p Hp Hnn. apply vec_get_Some in Hp as [Hj Hp].
    destruct (Hslots' _ _ Hp Hnn) as (_ & Hp' & Hne).
    destruct (Hslots j p) as (xo & Hxo & Hidj);
      [by rewrite vec_get_lookup by lia|done|].
    exists xo. split; [|done]. by rewrite Hother.
  - intros j y (p & Hp & Hy). apply vec_get_Some in Hp as [Hj Hp].
    destruct (decide (p = NULL)) as [->|Hnn]; [done|].
    destruct (Hslots' _ _ Hp Hnn) as (_ & Hp' & Hne).
    rewrite Hother in Hy by done. apply (Hrange j y). exists p.
    by rewrite vec_get_lookup by lia.
  - intros q Hq. rewrite Hc by done. rewrite vec_get_lookup by lia.
    destruct (decide (Vertex.part x0 = q)) as [<-|Hne].
    + rewrite list_lookup_insert_eq by (unfold vec_size in *; lia).
      rewrite bool_decide_eq_true_2 by done. f_equal; lia.
    + rewrite list_lookup_insert_ne by lia.
      rewrite bool_decide_eq_false_2 by done.
      rewrite <-vec_get_lookup by lia. rewrite Hcount by done.
      f_equal; lia.
Qed.

Lemma count_part_replicate h n q :
  List.filter (in_part h q) (replicate n NULL) = [].
Proof. induction n as [|n IH]; [done|]. exact IH. Qed.

Lemma parts_ok_empty h g n :
  Graph.vertices g = replicate n NULL → Z.of_nat n = Graph.maxn g →
  Graph.npart g = replicate 128 0 → parts_ok h g.
Proof.
  intros Hv Hn Hnp.
  unfold parts_ok, Graph_slots_ok, live_at, count_part. rewrite Hv, Hnp.
  split; [done|].
  split; [unfold vec_size; by rewrite length_replicate|].
  split; [|split].
  - intros i p Hp Hnull. apply vec_get_Some in Hp as [_ Hp].
    apply lookup_replicate in Hp as [-> _]. done.
  - intros i x (p & Hp & Hx). apply vec_get_Some in Hp as [_ Hp].
    apply lookup_replicate in Hp as [-> _]. done.
  - intros q Hq. rewrite count_part_replicate.
    rewrite vec_get_lookup by lia.
    apply lookup_replicate. split; [done|lia].
Qed.

Lemma parts_ok_new h label maxvertices g :
  Graph.new label maxvertices = Some g → parts_ok h g.
Proof.
  intros Hnew. unfold Graph.new in Hnew.
  case_bool_decide as Hneg; [done|]. injection Hnew as <-.
  simpl. case_bool_decide.
  - apply (parts_ok_empty _ _ 128); [|done|done]. simpl.
    unfold vec_resize. rewrite resize_nil. by rewrite resize_replicate.
  - apply (parts_ok_empty _ _ (Z.to_nat maxvertices)); [|simpl; lia|done].
    simpl. unfold vec_resize. by rewrite resize_nil.
Qed.

Lemma count_part_out_of_range h g q :
  parts_ok h g → ¬ 0 ≤ q ≤ 127 → count_part h g q = 0.
Proof.
  intros (_ & _ & Hslots & Hrange & _) Hq. unfold count_part.
  rewrite (List.filter_ext_in (in_part h q) (λ _, false)).
  - by induction (Graph.vertices g).
  - intros p Hp. apply list_elem_of_In, list_elem_of_lookup in Hp as [i Hi].
    unfold in_part. destruct (Heap.vertex h p) as [x|] eqn:Hx; [|done].
    apply bool_decide_eq_false_2. intros <-. apply Hq.
    apply (Hrange (Z.of_nat i)). exists p. by rewrite vec_get_nat.
Qed.

Lemma partSize_count h g q :
  parts_ok h g → Graph.partSize g q = Some (count_part h g q).
Proof.
  intros Hok. unfold Graph.partSize.
  destruct (decide (0 ≤ q ≤ 127)) as [Hq|Hq].
  - rewrite !bool_decide_eq_false_2 by lia. simpl.
    rewrite to_unsigned_small by lia. by apply Hok.
  - rewrite (count_part_out_of_range h g q) by done.
    destruct (decide (q < 0)).
    + by rewrite bool_decide_eq_true_2.
    + rewrite (bool_decide_eq_true_2 (q > 127)) by lia.
      by rewrite orb_true_r.
Qed.

Lemma step_parts op h g h' g' r :
  parts_ok h g → op_ok g op → run op h g = Some (h', g', r) →
  parts_ok h' g'
  ∧ ∀ q, count_part h' g' q = count_part h g q + part_delta op h g r q.
Proof.
  intros Hok Hop Hrun.
  assert (Hkeep : keeps_parts (h, g) (h', g') →
            part_delta op h g r = (λ _, 0) →
            parts_ok h' g'
            ∧ ∀ q, count_part h' g' q = count_part h g q + part_delta op h g r q).
  { intros Hk ->. destruct (parts_ok_keeps h g h' g' Hok Hk) as [Hok' Hc].
    split; [done|]. intros q. rewrite Hc. lia. }
  destruct op; simpl in Hrun, Hop.
  - destruct Hop as [Hpart _]. unfold part_delta.
    by eapply Graph_addVertex_parts.
  - destruct Hop as [Hpart _]. unfold part_delta.
    by eapply Graph_addVertex_auto_parts.
  - apply Hkeep; [by eapply Graph_addEdge_keeps|done].
  - apply Hkeep; [by eapply Graph_addEdge_id_keeps|done].
  - apply bind_Some in Hrun as ([h1 g1] & Hrem & Hrun).
    injection Hrun as <- <- <-. unfold part_delta.
    by eapply Graph_removeVertex_parts.
  - apply bind_Some in Hrun as ([h1 g1] & Hrem & Hrun).
    injection Hrun as <- <- <-. unfold Graph.removeVertex_id in Hrem.
    apply bind_Some in Hrem as (v & Hv & Hrem). unfold part_delta. rewrite Hv.
    simpl. eapply Graph_removeVertex_parts; [done| |done].
    destruct v as [a|]; [right|by left].
    apply vec_get_Some in Hv as [_ Hv]. by eapply list_elem_of_lookup_2.
  - apply bind_Some in Hrun as ([h1 g1] & Hrem & Hrun).
    injection Hrun as <- <- <-.
    apply Hkeep; [by eapply Graph_removeEdge_keeps|done].
  - apply bind_Some in Hrun as ([h1 g1] & Hrem & Hrun).
    injection Hrun as <- <- <-.
    apply Hkeep; [by eapply Graph_removeEdge_extremities_keeps|done].
  - injection Hrun as <- <- <-. apply Hkeep; [|done].
    split; [apply same_vertices_refl|done].
  - apply bind_Some in Hrun as (g1 & Hset & Hrun). injection Hrun as <- <- <-.
    apply Hkeep; [|done]. unfold Graph.setFamilyName in Hset.
    apply bind_Some in Hset as (? & _ & Hset).
    apply bind_Some in Hset as (? & _ & Hset). injection Hset as <-.
    split; [apply same_vertices_refl|done].
  - apply bind_Some in Hrun as (h1 & Hupd & Hrun). injection Hrun as <- <- <-.
    apply Hkeep; [|done]. split; [|done].
    by eapply same_vertices_update; [|done].
  - apply bind_Some in Hrun as (h1 & Hupd & Hrun). injection Hrun as <- <- <-.
    apply Hkeep; [|done]. split; [|done].
    by eapply same_vertices_update; [|done].
  - apply bind_Some in Hrun as (h1 & Hupd & Hrun). injection Hrun as <- <- <-.
    apply Hkeep; [|done]. split; [|done].
    by eapply same_vertices_update; [|done].
  - apply bind_Some in Hrun as (h1 & Hupd & Hrun). injection Hrun as <- <- <-.
    apply Hkeep; [|done]. split; [|done].
    by eapply same_vertices_update; [|done].
  - apply bind_Some in Hrun as (h1 & Hupd & Hrun). injection Hrun as <- <- <-.
    apply Hkeep; [|done]. split; [|done].
    by eapply same_vertices_Edge_setExtremities.
  - apply bind_Some in Hrun as (h1 & Hupd & Hrun). injection Hrun as <- <- <-.
    apply Hkeep; [|done]. split; [|done].
    by eapply same_vertices_Edge_setSibling.
  - apply bind_Some in Hrun as (es1 & Hupd & Hrun). injection Hrun as <- <- <-.
    apply Hkeep; [|done]. split; [|done]. apply same_vertices_es.
Qed.

Lemma reachable_parts_ok h g : reachable h g → parts_ok h g.
Proof.
  induction 1 as [h label maxv g Hnew|h g op h' g' r _ IH Hop Hrun].
  - by eapply parts_ok_new.
  - by eapply step_parts.
Qed.

(** The test of [Edge::incompatible], on the gene ids. *)
Lemma incompatible_ids (e e' : Edge.t) :
  let a := Extremity.id (Edge.ex1 e) in
  let b := Extremity.id (Edge.ex2 e) in
  let c := Extremity.id (Edge.ex1 e') in
  let d := Extremity.id (Edge.ex2 e') in
  Edge.incompatible e e' = true
  ↔ ((a = c ∧ b ≠ d) ∨ (a ≠ c ∧ b = d)) ∨ ((a = d ∧ b ≠ c) ∨ (a ≠ d ∧ b = c)).
Proof.
  cbv zeta. unfold Edge.incompatible.
  repeat case_bool_decide; simpl; split; intros Hx; try done; try tauto.
Qed.

(** ** C2: the edges of the graph of the cycles *)

Lemma es_extends_refl es : es_extends es es.
Proof. by intros p ed. Qed.

Lemma es_extends_trans es1 es2 es3 :
  es_extends es1 es2 → es_extends es2 es3 → es_extends es1 es3.
Proof. intros H12 H23 p ed Hp. by apply H23, H12. Qed.

Lemma es_extends_alloc es ed : es_extends es (Edge.alloc es ed).1.
Proof.
  intros [a|] x Hx; [|done]. unfold Edge.deref in *. simpl in *.
  destruct (es !! a) as [o|] eqn:Ha; [|done].
  by rewrite lookup_app_l, Ha by (by eapply lookup_lt_Some).
Qed.

Lemma es_extends_update_new es a f es' :
  Edge.update es (Some a) f = Some es' →
  (∀ p ed, Edge.deref es p = Some ed → p ≠ Some a → Edge.deref es' p = Some ed).
Proof.
  intros Hupd [b|] ed Hed Hne; [|done]. unfold Edge.update in Hupd.
  simpl in Hupd. inv_opt. unfold Edge.deref in *. simpl in *.
  by rewrite list_lookup_insert_ne by congruence.
Qed.

Lemma mapM_ext_in {A B} (f g : A → option B) l :
  (∀ x, x ∈ l → f x = g x) → mapM f l = mapM g l.
Proof.
  induction l as [|x l IH]; intros Hfg; [done|]. simpl.
  rewrite Hfg by left. destruct (g x); [|done]. simpl.
  rewrite IH; [done|]. intros y Hy. apply Hfg. by right.
Qed.

(** The edge records of a vertex whose neighbours are known are records of
    the heap. *)
Lemma neighbours_edges_live h v x L :
  Heap.vertex h v = Some x → neighbours h v = Some L →
  ∀ e, e ∈ Vertex.edges x → ∃ ed, Heap.edge h e = Some ed.
Proof.
  intros Hx Hn e He. unfold neighbours in Hn. rewrite Hx in Hn. simpl in Hn.
  apply mapM_Some_1 in Hn.
  apply list_elem_of_lookup in He as [i Hi].
  destruct (Forall2_lookup_l _ _ _ _ _ Hn Hi) as (w & _ & Hw).
  apply fmap_Some in Hw as (ed & Hed & _). by exists ed.
Qed.

(** The neighbours of a vertex whose object and edge records are kept. *)
Lemma neighbours_kept h h' v L :
  Heap.vertex h' v = Heap.vertex h v →
  es_extends (Heap.es h) (Heap.es h') →
  neighbours h v = Some L → neighbours h' v = Some L.
Proof.
  intros Hv Hes Hn. pose proof Hn as Hn'. unfold neighbours in *.
  rewrite Hv. destruct (Heap.vertex h v) as [x|] eqn:Hx; [|done]. simpl in *.
  rewrite <-Hn. apply mapM_ext_in. intros e He.
  destruct (neighbours_edges_live h v x L Hx) with (e := e) as [ed Hed];
    [by unfold neighbours; rewrite Hx|done|].
  unfold Heap.edge in *. by rewrite Hed, (Hes _ _ Hed).
Qed.

Lemma Vertex_deref_insert_eq (vs : list (option Vertex.t)) a x y :
  Vertex.deref vs (Some a) = Some x →
  Vertex.deref (<[a:=Some y]> vs) (Some a) = Some y.
Proof.
  unfold Vertex.deref. simpl. intros Hx.
  destruct (vs !! a) eqn:Ha; [|done].
  by rewrite list_lookup_insert_eq by (by eapply lookup_lt_Some).
Qed.

Lemma Vertex_deref_insert_ne (vs : list (option Vertex.t)) a p y :
  p ≠ Some a → Vertex.deref (<[a:=Some y]> vs) p = Vertex.deref vs p.
Proof.
  intros Hne. destruct p as [b|]; [|done]. unfold Vertex.deref. simpl.
  by rewrite list_lookup_insert_ne by congruence.
Qed.

Lemma Edge_deref_alloc es ed : Edge.deref (Edge.alloc es ed).1 (Edge.alloc es ed).2 = Some ed.
Proof. unfold Edge.deref. simpl. by rewrite list_lookup_middle. Qed.

Lemma Heap_Vertex_addEdge_eq h a x adj label :
  Heap.vertex h (Some a) = Some x →
  Heap.Vertex_addEdge h (Some a) adj label
  = Some (Heap.mk (<[a:=Some (Vertex.set_degree_edges x
                                (to_ushort (Vertex.degree x + 1))
                                (Some (length (Heap.es h)) :: Vertex.edges x))]>
                     (Heap.vs h))
                  (Heap.es h ++ [Some (Edge.new adj label)]),
          Some (length (Heap.es h))).
Proof. intros Hx. unfold Heap.Vertex_addEdge. rewrite Hx. done. Qed.

Lemma Edge_update_eq es a ed f :
  Edge.deref es (Some a) = Some ed →
  Edge.update es (Some a) f = Some (<[a:=Some (f ed)]> es).
Proof. intros Hed. unfold Edge.update. rewrite Hed. done. Qed.

Lemma Edge_deref_insert_eq (es : list (option Edge.t)) a ed y :
  Edge.deref es (Some a) = Some ed →
  Edge.deref (<[a:=Some y]> es) (Some a) = Some y.
Proof.
  unfold Edge.deref. simpl. intros Hx.
  destruct (es !! a) eqn:Ha; [|done].
  by rewrite list_lookup_insert_eq by (by eapply lookup_lt_Some).
Qed.

Lemma Edge_deref_insert_ne (es : list (option Edge.t)) a p y :
  p ≠ Some a → Edge.deref (<[a:=Some y]> es) p = Edge.deref es p.
Proof.
  intros Hne. destruct p as [b|]; [|done]. unfold Edge.deref. simpl.
  by rewrite list_lookup_insert_ne by congruence.
Qed.

Lemma Edge_deref_app_new (es : list (option Edge.t)) ed :
  Edge.deref (es ++ [Some ed]) (Some (length es)) = Some ed.
Proof. unfold Edge.deref. simpl. by rewrite list_lookup_middle. Qed.

Lemma Edge_deref_app_old (es l : list (option Edge.t)) p ed :
  Edge.deref es p = Some ed → Edge.deref (es ++ l) p = Some ed.
Proof.
  destruct p as [a|]; [|done]. unfold Edge.deref. simpl. intros Hed.
  destruct (es !! a) as [o|] eqn:Ha; [|done].
  by rewrite lookup_app_l, Ha by (by eapply lookup_lt_Some).
Qed.

Lemma Edge_deref_lt (es : list (option Edge.t)) a ed :
  Edge.deref es (Some a) = Some ed → (a < length es)%nat.
Proof.
  unfold Edge.deref. simpl. intros Hed.
  destruct (es !! a) as [o|] eqn:Ha; [|done]. by eapply lookup_lt_Some.
Qed.

Lemma Graph_addEdge_spec h g v1 v2 label x1 x2 :
  v1 ≠ v2 → Heap.vertex h v1 = Some x1 → Heap.vertex h v2 = Some x2 →
  ∃ h' e x1' x2',
    Graph.addEdge h g v1 v2 label = Some (h', Graph.set_m g (Graph.m g + 1), e)
    ∧ es_extends (Heap.es h) (Heap.es h')
    ∧ length (Heap.vs h') = length (Heap.vs h)
    ∧ (∀ p, p ≠ v1 → p ≠ v2 → Heap.vertex h' p = Heap.vertex h p)
    ∧ Heap.vertex h' v1 = Some x1' ∧ Heap.vertex h' v2 = Some x2'
    ∧ (∃ d l, x1' = Vertex.set_degree_edges x1 d l)
    ∧ (∃ d l, x2' = Vertex.set_degree_edges x2 d l)
    ∧ (∀ L, neighbours h v1 = Some L → neighbours h' v1 = Some (v2 :: L))
    ∧ (∀ L, neighbours h v2 = Some L → neighbours h' v2 = Some (v1 :: L)).
Proof.
  intros Hne Hx1 Hx2.
  destruct v1 as [a1|]; [|done]. destruct v2 as [a2|]; [|done].
  assert (Ha : a1 ≠ a2) by congruence.
  set (n := length (Heap.es h)).
  set (x1' := Vertex.set_degree_edges x1 (to_ushort (Vertex.degree x1 + 1))
                (Some n :: Vertex.edges x1)).
  set (x2' := Vertex.set_degree_edges x2 (to_ushort (Vertex.degree x2 + 1))
                (Some (S n) :: Vertex.edges x2)).
  set (r1 := Edge.set_adjRef (Edge.new (Some a2) label) (Some (S n))).
  set (r2 := Edge.set_adjRef (Edge.new (Some a1) label) (Some n)).
  set (vs' := <[a2:=Some x2']> (<[a1:=Some x1']> (Heap.vs h))).
  set (es' := <[S n:=Some r2]> (<[n:=Some r1]>
                ((Heap.es h ++ [Some (Edge.new (Some a2) label)])
                 ++ [Some (Edge.new (Some a1) label)]))).
  assert (Hrun : Graph.addEdge h g (Some a1) (Some a2) label
                 = Some (Heap.mk vs' es', Graph.set_m g (Graph.m g + 1), Some n)).
  { unfold Graph.addEdge.
    rewrite (bool_decide_eq_false_2 (Some a1 = Some a2)) by done.
    rewrite !(bool_decide_eq_false_2 (Some _ = None)) by done.
    cbn [orb]. rewrite (Heap_Vertex_addEdge_eq h a1 x1) by done.
    cbn [mbind option_bind].
    erewrite (Heap_Vertex_addEdge_eq _ a2 x2); last first.
    { unfold Heap.vertex. cbn [Heap.vs].
      by rewrite Vertex_deref_insert_ne by congruence. }
    cbn [mbind option_bind Heap.es Heap.vs].
    rewrite length_app. cbn [length]. replace (length (Heap.es h) + 1)%nat with (S n) by (unfold n; lia).
    erewrite Edge_update_eq; last first.
    { apply Edge_deref_app_old. apply Edge_deref_app_new. }
    cbn [mbind option_bind].
    erewrite Edge_update_eq; last first.
    { rewrite Edge_deref_insert_ne by (intros [=]; unfold n in *; lia).
      replace (S n) with (length (Heap.es h ++ [Some (Edge.new (Some a2) label)]))
        by (rewrite length_app; simpl; unfold n; lia).
      apply Edge_deref_app_new. }
    done. }
  assert (Hold : ∀ p ed, Edge.deref (Heap.es h) p = Some ed →
            Edge.deref es' p = Some ed).
  { intros [b|] ed Hed; [|done]. pose proof (Edge_deref_lt _ _ _ Hed).
    unfold es'. rewrite !Edge_deref_insert_ne by (unfold n; intros [=]; lia).
    by do 2 apply Edge_deref_app_old. }
  assert (Hr1 : Edge.deref es' (Some n) = Some r1).
  { unfold es'. rewrite Edge_deref_insert_ne by (intros [=]; lia).
    eapply Edge_deref_insert_eq. apply Edge_deref_app_old, Edge_deref_app_new. }
  assert (Hr2 : Edge.deref es' (Some (S n)) = Some r2).
  { unfold es'. eapply Edge_deref_insert_eq.
    rewrite Edge_deref_insert_ne by (intros [=]; lia).
    replace (S n) with (length (Heap.es h ++ [Some (Edge.new (Some a2) label)]))
      by (rewrite length_app; simpl; unfold n; lia).
    apply Edge_deref_app_new. }
  assert (Hv1 : Vertex.deref vs' (Some a1) = Some x1').
  { unfold vs'. rewrite Vertex_deref_insert_ne by congruence.
    by eapply Vertex_deref_insert_eq. }
  assert (Hv2 : Vertex.deref vs' (Some a2) = Some x2').
  { unfold vs'. eapply Vertex_deref_insert_eq.
    by rewrite Vertex_deref_insert_ne by congruence. }
  exists (Heap.mk vs' es'), (Some n), x1', x2'.
  split; [done|]. split; [done|].
  split; [unfold vs'; simpl; by rewrite !length_insert|].
  split.
  { intros p Hp1 Hp2. unfold Heap.vertex, vs'. simpl.
    by rewrite !Vertex_deref_insert_ne by done. }
  split; [done|]. split; [done|].
  split; [by eexists _, _|]. split; [by eexists _, _|].
  assert (Hnb : ∀ x L, mapM (λ e, Edge.adj <$> Edge.deref (Heap.es h) e)
                    (Vertex.edges x) = Some L →
            mapM (λ e, Edge.adj <$> Edge.deref es' e) (Vertex.edges x) = Some L).
  { intros x L HL. rewrite <-HL. apply mapM_ext_in. intros e He.
    apply mapM_Some_1 in HL. apply list_elem_of_lookup in He as [i Hi].
    destruct (Forall2_lookup_l _ _ _ _ _ HL Hi) as (w & _ & Hw).
    apply fmap_Some in Hw as (ed & Hed & _).
    by rewrite Hed, (Hold _ _ Hed). }
  split.
  - intros L HL. unfold neighbours, Heap.vertex, Heap.edge in *.
    cbn [Heap.vs Heap.es] in *. rewrite Hv1. rewrite Hx1 in HL.
    cbn [mbind option_bind] in *. unfold x1' at 1. cbn [Vertex.edges Vertex.set_degree_edges mapM].
    rewrite Hr1. cbn [fmap option_fmap option_map mbind option_bind].
    fold (mapM (λ e, Edge.adj <$> Edge.deref es' e) (Vertex.edges x1)).
    by rewrite (Hnb _ _ HL).
  - intros L HL. unfold neighbours, Heap.vertex, Heap.edge in *.
    cbn [Heap.vs Heap.es] in *. rewrite Hv2. rewrite Hx2 in HL.
    cbn [mbind option_bind] in *. unfold x2' at 1. cbn [Vertex.edges Vertex.set_degree_edges mapM].
    rewrite Hr2. cbn [fmap option_fmap option_map mbind option_bind].
    fold (mapM (λ e, Edge.adj <$> Edge.deref es' e) (Vertex.edges x2)).
    by rewrite (Hnb _ _ HL).
Qed.

Lemma grow_none size bound fuel : bound < size → grow size bound fuel = Some size.
Proof. intros. destruct fuel; simpl; by rewrite bool_decide_eq_false_2 by lia. Qed.

Lemma grow_once size fuel : 1 ≤ size → grow size size (S fuel) = Some (size * 2).
Proof.
  intros. simpl. rewrite bool_decide_eq_true_2 by lia. apply grow_none. lia.
Qed.

Lemma free_slot_full g count id :
  0 ≤ id →
  (∀ k, id ≤ k < id + Z.of_nat count →
     ∃ p, vec_get (Graph.vertices g) k = Some p ∧ p ≠ NULL) →
  Graph.free_slot g id count = Some (id + Z.of_nat count).
Proof.
  revert id. induction count as [|count IH]; intros id Hid Hfull; simpl.
  - f_equal. lia.
  - destruct (Hfull id) as (p & -> & Hp); [lia|]. simpl.
    rewrite bool_decide_eq_true_2 by done. rewrite IH; [f_equal; lia|lia|].
    intros k Hk. apply Hfull. lia.
Qed.

(** Adding a vertex of part 0 and family 0 in a free slot within the
    capacity. *)
Lemma Graph_addVertex_fresh h g id label :
  0 ≤ id < Graph.maxn g → Graph.lastVid g < id →
  vec_get (Graph.vertices g) id = Some NULL →
  vec_size (Graph.npart g) = 128 → 1 ≤ vec_size (Graph.fsize g) →
  ∃ g' x,
    Graph.addVertex h g id label 0 0
    = Some (Heap.mk (Heap.vs h ++ [Some x]) (Heap.es h), g',
            Some (length (Heap.vs h)))
    ∧ Graph.vertices g' = <[Z.to_nat id:=Some (length (Heap.vs h))]> (Graph.vertices g)
    ∧ Graph.lastVid g' = id ∧ Graph.maxn g' = Graph.maxn g
    ∧ vec_size (Graph.npart g') = 128
    ∧ vec_size (Graph.fsize g') = vec_size (Graph.fsize g)
    ∧ Vertex.id x = id ∧ Vertex.label x = copy_label label
    ∧ Vertex.edges x = [] ∧ Vertex.data x = None.
Proof.
  intros Hid Hlast Hslot Hnp Hfs. unfold Graph.addVertex.
  rewrite (bool_decide_eq_false_2 (0 < 0)) by lia.
  rewrite (bool_decide_eq_false_2 (id >= Graph.maxn g)) by lia.
  cbn [mbind option_bind]. rewrite Hslot. cbn [mbind option_bind].
  rewrite (bool_decide_eq_false_2 (NULL ≠ NULL)) by (by intros []).
  rewrite grow_none by lia. cbn [mbind option_bind].
  assert (Hrs : vec_resize (Graph.fsize g) (vec_size (Graph.fsize g)) 0
                = Graph.fsize g).
  { unfold vec_resize, vec_size. rewrite Nat2Z.id. apply resize_all_alt. done. }
  rewrite Hrs.
  destruct (vec_get_is_Some (Graph.fsize g) 0) as [c Hc]; [lia|].
  rewrite Hc. cbn [mbind option_bind].
  rewrite vec_set_Some by lia. cbn [mbind option_bind].
  rewrite (bool_decide_eq_true_2 (id > Graph.lastVid g)) by lia.
  cbn [Graph.npart Graph.set_n Graph.set_lastVid Graph.set_fsize Graph.vertices
       Graph.set_npart Graph.set_vertices Graph.maxn].
  rewrite to_unsigned_small by lia.
  destruct (vec_get_is_Some (Graph.npart g) 0) as [c' Hc']; [lia|].
  rewrite Hc'. cbn [mbind option_bind].
  rewrite vec_set_Some by lia. cbn [mbind option_bind Vertex.alloc].
  rewrite vec_set_Some by (apply vec_get_Some in Hslot; lia).
  cbn [mbind option_bind].
  unfold Vertex.update. cbn [mbind option_bind].
  assert (Hd : Vertex.deref (Heap.vs h ++ [Some (Vertex.new id 0 0)])
                 (Some (length (Heap.vs h))) = Some (Vertex.new id 0 0)).
  { unfold Vertex.deref. simpl. by rewrite list_lookup_middle. }
  rewrite Hd. cbn [mbind option_bind].
  replace (<[length (Heap.vs h):=_]> (Heap.vs h ++ [Some (Vertex.new id 0 0)]))
    with (Heap.vs h ++ [Some (Vertex.setLabel (Vertex.set_family
            (Vertex.setPart (Vertex.new id 0 0) 0) 0) label)]); last first.
  { replace (length (Heap.vs h)) with (length (Heap.vs h) + 0)%nat at 1 by lia.
    by rewrite insert_app_r. }
  eexists _, _. split; [done|]. cbn.
  unfold vec_size in *. rewrite !length_insert. done.
Qed.

Lemma insert_first_null (verts : list (option nat)) r (a : nat) :
  <[length verts:=Some a]> (verts ++ replicate (S r) NULL)
  = (verts ++ [Some a]) ++ replicate r NULL.
Proof.
  replace (length verts) with (length verts + 0)%nat at 1 by lia.
  rewrite insert_app_r. simpl. by rewrite <-app_assoc.
Qed.

Lemma Graph_addVertex_auto_shape h this verts label :
  cycles_graph_shape this verts → Z.of_nat (length verts) < 2 ^ 30 →
  ∃ this' x,
    Graph.addVertex_auto h this label 0 0
    = Some (Heap.mk (Heap.vs h ++ [Some x]) (Heap.es h), this',
            Some (length (Heap.vs h)))
    ∧ cycles_graph_shape this' (verts ++ [Some (length (Heap.vs h))])
    ∧ Vertex.id x = Z.of_nat (length verts) ∧ Vertex.label x = copy_label label
    ∧ Vertex.edges x = [] ∧ Vertex.data x = None.
Proof.
  intros ([r Hv] & Hlast & Hmaxn & Hmax1 & Hnp & Hfs & Hnn) Hint.
  remember (length verts) as k eqn:Hk.
  assert (Hsz : vec_size (Graph.vertices this) = Z.of_nat (k + r)).
  { unfold vec_size. rewrite Hv, length_app, length_replicate. lia. }
  (* the graph with room for one more vertex *)
  assert (Hroom : ∃ g1 r1,
            Graph.addVertex_auto h this label 0 0
            = Graph.addVertex h g1 (Z.of_nat k) label 0 0
            ∧ Graph.vertices g1 = verts ++ replicate (S r1) NULL
            ∧ Graph.lastVid g1 = Z.of_nat k - 1
            ∧ Graph.maxn g1 = vec_size (Graph.vertices g1)
            ∧ vec_size (Graph.npart g1) = 128 ∧ 1 ≤ vec_size (Graph.fsize g1)).
  { unfold Graph.addVertex_auto. destruct r as [|r].
    - rewrite (bool_decide_eq_false_2 (Graph.lastVid this < Graph.maxn this - 1))
        by lia.
      rewrite (free_slot_full this (Z.to_nat (Graph.maxn this)) 0); [|lia|].
      2:{ intros i Hi. rewrite vec_get_lookup by lia.
          destruct (lookup_lt_is_Some_2 (Graph.vertices this) (Z.to_nat i))
            as [p Hp]; [unfold vec_size in *; lia|].
          exists p. split; [done|]. rewrite Hv, app_nil_r in Hp.
          rewrite Forall_forall in Hnn. apply Hnn.
          by eapply list_elem_of_lookup_2. }
      cbn [mbind option_bind].
      replace (0 + Z.of_nat (Z.to_nat (Graph.maxn this))) with (Z.of_nat k) by lia.
      exists (Graph.set_vertices this (Z.of_nat k * 2)
                (vec_resize (Graph.vertices this) (Z.of_nat k * 2) NULL)),
             (k - 1)%nat.
      split.
      { apply Graph_addVertex_resized; [lia| |lia].
        replace (Graph.maxn this) with (Z.of_nat k) by lia.
        rewrite Nat2Z.id. replace (k + 1)%nat with (S k) by lia.
        apply grow_int_once. lia. }
      cbn. split.
      { unfold vec_resize. rewrite resize_ge by (unfold vec_size in *; lia).
        rewrite Hv, app_nil_r. f_equal.
        by replace (Z.to_nat (Z.of_nat k * 2) - length verts)%nat
          with (S (k - 1)) by lia. }
      split; [done|]. split; [|done].
      rewrite vec_size_resize; lia.
    - rewrite (bool_decide_eq_true_2 (Graph.lastVid this < Graph.maxn this - 1))
        by lia.
      cbn [mbind option_bind]. rewrite Hlast.
      replace (Z.of_nat k - 1 + 1) with (Z.of_nat k) by lia.
      exists this, r. done. }
  destruct Hroom as (g1 & r1 & -> & Hv1 & Hlast1 & Hmaxn1 & Hnp1 & Hfs1).
  assert (Hsz1 : vec_size (Graph.vertices g1) = Z.of_nat (k + S r1)).
  { unfold vec_size. rewrite Hv1, length_app, length_replicate. lia. }
  destruct (Graph_addVertex_fresh h g1 (Z.of_nat k) label)
    as (g' & x & Hrun & Hv' & Hlast' & Hmaxn' & Hnp' & Hfs' & Hid & Hlab & Hed & Hdat);
    [lia|lia| |done|done|].
  { rewrite vec_get_nat, Hv1. by apply list_lookup_middle. }
  exists g', x. split; [done|]. split; [|done].
  rewrite Nat2Z.id in Hv'. rewrite Hv1 in Hv'. rewrite Hk in Hv'.
  rewrite insert_first_null in Hv'.
  unfold cycles_graph_shape.
  split; [by exists r1|].
  split; [rewrite length_app; simpl; lia|].
  split.
  { rewrite Hmaxn', Hmaxn1. unfold vec_size.
    rewrite Hv1, Hv', !length_app, !length_replicate. simpl. lia. }
  split; [lia|]. split; [done|]. split; [lia|].
  apply Forall_app. split; [done|]. by apply Forall_singleton.
Qed.

Lemma table_push_elem k w (t : list (Z * list (option nat))) k' w' :
  (∃ ws, (k', ws) ∈ CyclesGraph.table_push k w t ∧ w' ∈ ws)
  ↔ (∃ ws, (k', ws) ∈ t ∧ w' ∈ ws) ∨ (k' = k ∧ w' = w).
Proof.
  induction t as [|[k0 ws0] t IH]; simpl.
  - split.
    + intros (ws & Hin & Hw). apply list_elem_of_singleton in Hin.
      injection Hin as -> ->. apply list_elem_of_singleton in Hw. by right.
    + intros [(ws & Hin & _)|[-> ->]]; [by apply elem_of_nil in Hin|].
      exists [w]. split; by apply list_elem_of_singleton.
  - case_bool_decide as Hk; [subst k0|case_bool_decide as Hlt].
    + split.
      * intros (ws & [Hin|Hin]%elem_of_cons & Hw).
        -- injection Hin as -> ->. apply elem_of_cons in Hw as [->|Hw];
             [by right|]. left. exists ws0. split; [by left|done].
        -- left. exists ws. split; [by right|done].
      * intros [(ws & [Hin|Hin]%elem_of_cons & Hw)|[-> ->]].
        -- injection Hin as -> ->. exists (w :: ws0).
           split; [by left|by right].
        -- exists ws. split; [by right|done].
        -- exists (w :: ws0). split; by left.
    + split.
      * intros (ws & [Hin|Hin]%elem_of_cons & Hw).
        -- injection Hin as -> ->. apply list_elem_of_singleton in Hw. by right.
        -- left. by exists ws.
      * intros [(ws & Hin & Hw)|[-> ->]].
        -- exists ws. split; [by right|done].
        -- exists [w]. split; [by left|by apply list_elem_of_singleton].
    + split.
      * intros (ws & [Hin|Hin]%elem_of_cons & Hw).
        -- injection Hin as -> ->. left. exists ws0. split; [by left|done].
        -- destruct (proj1 IH) as [(ws1 & Hin1 & Hw1)|Hnew]; [by exists ws| |by right].
           left. exists ws1. split; [by right|done].
      * intros [(ws & [Hin|Hin]%elem_of_cons & Hw)|Hnew].
        -- injection Hin as -> ->. exists ws0. split; [by left|done].
        -- destruct (proj2 IH) as (ws1 & Hin1 & Hw1); [left; by exists ws|].
           exists ws1. split; [by right|done].
        -- destruct (proj2 IH) as (ws1 & Hin1 & Hw1); [by right|].
           exists ws1. split; [by right|done].
Qed.

Lemma recorded_push (m : gmap Z (list (Z * list (option nat)))) a b w a' b' w' :
  recorded (CyclesGraph.tables_push m a b w) a' b' w'
  ↔ recorded m a' b' w' ∨ (a' = a ∧ b' = b ∧ w' = w).
Proof.
  unfold recorded, CyclesGraph.tables_push, CyclesGraph.tables_at.
  destruct (decide (a' = a)) as [->|Hne].
  - rewrite lookup_insert_eq. simpl. rewrite table_push_elem. tauto.
  - rewrite lookup_insert_ne by done. tauto.
Qed.

Lemma recorded_empty a b w : ¬ recorded ∅ a b w.
Proof.
  unfold recorded, CyclesGraph.tables_at. rewrite lookup_empty. simpl.
  intros (ws & Hin & _). by apply elem_of_nil in Hin.
Qed.

Lemma add_one_elem w added w' : w' ∈ add_one w added ↔ w' = w ∨ w' ∈ added.
Proof.
  unfold add_one. case_bool_decide as Hw.
  - by rewrite elem_of_cons.
  - split; [by right|]. by intros [->|].
Qed.

Lemma add_all_elem ws added w' : w' ∈ add_all ws added ↔ w' ∈ ws ∨ w' ∈ added.
Proof.
  unfold add_all. revert added. induction ws as [|w ws IH]; intros added; simpl.
  - rewrite elem_of_nil. tauto.
  - rewrite IH, add_one_elem, elem_of_cons. tauto.
Qed.

Lemma link_added_elem t b added w' :
  w' ∈ link_added t b added
  ↔ w' ∈ added ∨ ∃ key ws, (key, ws) ∈ t ∧ key ≠ b ∧ w' ∈ ws.
Proof.
  unfold link_added. revert added.
  induction t as [|[key ws] t IH]; intros added; simpl.
  - split; [by left|]. intros [|(? & ? & Hin & _)]; [done|].
    by apply elem_of_nil in Hin.
  - rewrite IH. case_bool_decide as Hkey.
    + subst key. split.
      * intros [|(k & l & Hin & Hk & Hw)]; [by left|].
        right. exists k, l. split; [by right|done].
      * intros [|(k & l & [Hin|Hin]%elem_of_cons & Hk & Hw)]; [by left| |].
        -- by injection Hin as -> ->.
        -- right. by exists k, l.
    + rewrite add_all_elem. split.
      * intros [[Hw|Hw]|(k & l & Hin & Hk & Hw)]; [|by left|].
        -- right. exists key, ws. split; [by left|done].
        -- right. exists k, l. split; [by right|done].
      * intros [|(k & l & [Hin|Hin]%elem_of_cons & Hk & Hw)]; [left; by right| |].
        -- injection Hin as -> ->. left. by left.
        -- right. by exists k, l.
Qed.

Lemma linked_connect h0 verts v h this added w :
  v ∉ verts → linked h0 verts v h added → w = v ∨ w ∈ verts →
  ∃ h' m',
    CyclesGraph.connect v w (h, this, added)
    = Some (h', Graph.set_m this m', add_one w added)
    ∧ linked h0 verts v h' (add_one w added)
    ∧ length (Heap.vs h') = length (Heap.vs h).
Proof.
  intros Hv Hl Hw.
  pose proof Hl as (Hes & Hlive & (Lv & HLv & Hnd & HLv_in) & Hnb).
  unfold CyclesGraph.connect, add_one. case_bool_decide as Hin.
  - destruct (decide (w = v)) as [->|Hne].
    + unfold Graph.addEdge. rewrite (bool_decide_eq_true_2 (v = v)) by done.
      simpl. exists h, (Graph.m this). split; [by destruct this|].
      split; [|done]. split; [done|]. split; [done|]. split.
      * exists Lv. split; [done|]. split; [done|].
        intros u. rewrite HLv_in, elem_of_cons. tauto.
      * intros u Hu. destruct (Hnb u Hu) as (L & HL0 & HL).
        exists L. split; [done|]. rewrite HL.
        replace (bool_decide (u ∈ v :: added))
          with (bool_decide (u ∈ added)); [done|].
        apply bool_decide_ext. rewrite elem_of_cons.
        split; [by right|]. intros [->|]; done.
    + destruct Hw as [|Hw]; [done|].
      destruct (Hlive v) as (xv0 & xv & Hxv0 & Hxv & dv & lv & Hxv');
        [by left|].
      destruct (Hlive w) as (xw0 & xw & Hxw0 & Hxw & dw & lw & Hxw');
        [by right|].
      destruct (Graph_addEdge_spec h this v w None xv xw)
        as (h' & e & xv' & xw' & Hrun & Hes' & Hlen & Hframe & Hv' & Hw'
            & (d1 & l1 & Hd1) & (d2 & l2 & Hd2) & Hnv & Hnw); [done..|].
      rewrite Hrun. simpl. exists h', (Graph.m this + 1).
      split; [done|]. split; [|done].
      split; [by eapply es_extends_trans|]. split; [|split].
      * intros u Hu.
        destruct (decide (u = v)) as [->|Huv];
          [|destruct (decide (u = w)) as [->|Huw]].
        -- exists xv0, xv'. split; [done|]. split; [done|]. subst.
           by eexists _, _.
        -- exists xw0, xw'. split; [done|]. split; [done|]. subst.
           by eexists _, _.
        -- destruct (Hlive u Hu) as (x0 & x & ? & ? & ?). exists x0, x.
           by rewrite Hframe.
      * exists (w :: Lv). split; [by apply Hnv|]. split.
        -- apply NoDup_cons. split; [|done]. rewrite HLv_in. tauto.
        -- intros u. rewrite !elem_of_cons, HLv_in. split.
           ++ intros [->|[? ?]]; by auto.
           ++ intros [[->|?] ?]; by auto.
      * intros u Hu. destruct (Hnb u Hu) as (L & HL0 & HL).
        exists L. split; [done|].
        destruct (decide (u = w)) as [->|Huw].
        -- rewrite bool_decide_eq_true_2 by left.
           rewrite bool_decide_eq_false_2 in HL by done. by apply Hnw.
        -- assert (u ≠ v) by (intros ->; done).
           replace (bool_decide (u ∈ w :: added))
             with (bool_decide (u ∈ added)).
           ++ apply (neighbours_kept h); [apply Hframe; assumption|exact Hes'|done].
           ++ apply bool_decide_ext. rewrite elem_of_cons. tauto.
  - exists h, (Graph.m this). split; [by destruct this|]. done.
Qed.

Lemma linked_add_all h0 verts v ws : ∀ h this added,
  v ∉ verts → linked h0 verts v h added →
  (∀ w, w ∈ ws → w = v ∨ w ∈ verts) →
  ∃ h' m',
    for_each (CyclesGraph.connect v) ws (h, this, added)
    = Some (h', Graph.set_m this m', add_all ws added)
    ∧ linked h0 verts v h' (add_all ws added)
    ∧ length (Heap.vs h') = length (Heap.vs h).
Proof.
  induction ws as [|w ws IH]; intros h this added Hv Hl Hws.
  - exists h, (Graph.m this). split; [by destruct this|]. done.
  - destruct (linked_connect h0 verts v h this added w)
      as (h1 & m1 & Hrun & Hl1 & Hlen1); [done|done|apply Hws; by left|].
    destruct (IH h1 (Graph.set_m this m1) (add_one w added))
      as (h2 & m2 & Hrun2 & Hl2 & Hlen2);
      [done|done|intros u Hu; apply Hws; by right|].
    exists h2, m2. cbn [for_each]. rewrite Hrun. cbn [mbind option_bind].
    rewrite Hrun2. split; [done|]. split; [done|]. congruence.
Qed.

Lemma linked_link h0 verts v associations a b h this added :
  v ∉ verts → linked h0 verts v h added →
  (∀ key w, recorded associations a key w → w = v ∨ w ∈ verts) →
  ∃ h' m',
    CyclesGraph.link associations v a b (h, this, added)
    = Some (h', Graph.set_m this m',
            link_added (CyclesGraph.tables_at associations a) b added)
    ∧ linked h0 verts v h'
        (link_added (CyclesGraph.tables_at associations a) b added)
    ∧ length (Heap.vs h') = length (Heap.vs h).
Proof.
  intros Hv Hl Hrec. unfold CyclesGraph.link, recorded in *.
  revert h this added Hl Hrec.
  induction (CyclesGraph.tables_at associations a) as [|[key ws] t IH];
    intros h this added Hl Hrec.
  - exists h, (Graph.m this). split; [by destruct this|]. done.
  - cbn [for_each link_added foldl]. unfold link_added in *.
    cbn [foldl]. case_bool_decide as Hkey.
    + cbn [mbind option_bind]. apply IH; [done|].
      intros k u (l & Hin & Hu). apply (Hrec k). exists l.
      split; [by right|done].
    + destruct (linked_add_all h0 verts v ws h this added)
        as (h1 & m1 & Hrun & Hl1 & Hlen1); [done|done| |].
      { intros u Hu. apply (Hrec key). exists ws. split; [by left|done]. }
      rewrite Hrun. cbn [mbind option_bind].
      destruct (IH h1 (Graph.set_m this m1) (add_all ws added))
        as (h2 & m2 & Hrun2 & Hl2 & Hlen2); [done| |].
      { intros k u (l & Hin & Hu). apply (Hrec k). exists l.
        split; [by right|done]. }
      exists h2, m2. rewrite Hrun2. split; [done|]. split; [done|].
      congruence.
Qed.

Lemma for_range_mono {St} (f g : Z → St → option St) i n s r :
  (∀ k s s', f k s = Some s' → g k s = Some s') →
  for_range f i n s = Some r → for_range g i n s = Some r.
Proof.
  intros Hfg. revert i s. induction n as [|n IH]; intros i s Hrun; [done|].
  simpl in *. apply bind_Some in Hrun as (s1 & Hs1 & Hrun).
  rewrite (Hfg _ _ _ Hs1). simpl. by apply IH.
Qed.

Lemma Edge_lt_mono es es' x y b :
  es_extends es es' → Edge.lt es x y = Some b → Edge.lt es' x y = Some b.
Proof.
  intros Hes H. unfold Edge.lt in *.
  apply bind_Some in H as (ex & Hx & H). apply bind_Some in H as (ey & Hy & H).
  rewrite (Hes _ _ Hx). cbn [mbind option_bind].
  rewrite (Hes _ _ Hy). cbn [mbind option_bind]. exact H.
Qed.

Lemma Path_shift_mono es es' x fuel : ∀ edges j r,
  es_extends es es' →
  Path.shift es x edges j fuel = Some r → Path.shift es' x edges j fuel = Some r.
Proof.
  induction fuel as [|fuel IH]; intros edges j r Hes H; simpl in *;
    (case_bool_decide; [|done]);
    apply bind_Some in H as (ej & Hej & H); rewrite Hej;
    cbn [mbind option_bind];
    apply bind_Some in H as (b & Hb & H); rewrite (Edge_lt_mono _ _ _ _ _ Hes Hb);
    cbn [mbind option_bind]; destruct b; try done.
  apply bind_Some in H as (edges' & He & H). rewrite He.
  cbn [mbind option_bind]. by apply IH.
Qed.

Lemma Path_signature_mono es es' p s :
  es_extends es es' →
  Path.signature es p = Some s → Path.signature es' p = Some s.
Proof.
  intros Hes H. unfold Path.signature in *. case_bool_decide; [done|].
  apply bind_Some in H as (e1 & H1 & H). rewrite H1. cbn [mbind option_bind].
  apply bind_Some in H as (e2 & H2 & H).
  erewrite for_range_mono; [| |exact H2].
  - cbn [mbind option_bind]. eapply for_range_mono; [|exact H].
    intros k s1 s2 Hk. apply bind_Some in Hk as (y & Hy & Hk). rewrite Hy.
    cbn [mbind option_bind]. apply bind_Some in Hk as (lab & Hlab & Hk).
    unfold Edge.getLabel in *. apply fmap_Some in Hlab as (ed & Hed & ->).
    rewrite (Hes _ _ Hed). exact Hk.
  - intros k s1 s2 Hk. apply bind_Some in Hk as (y & Hy & Hk). rewrite Hy.
    cbn [mbind option_bind]. apply bind_Some in Hk as ([ed j] & Hsh & Hk).
    rewrite (Path_shift_mono _ _ _ _ _ _ _ Hes Hsh). exact Hk.
Qed.

Lemma link_added_recorded associations a b added w :
  w ∈ link_added (CyclesGraph.tables_at associations a) b added
  ↔ w ∈ added ∨ ∃ key, key ≠ b ∧ recorded associations a key w.
Proof.
  rewrite link_added_elem. unfold recorded. split.
  - intros [?|(key & ws & ? & ? & ?)]; [by left|]. right. exists key.
    split; [done|]. by exists ws.
  - intros [?|(key & ? & ws & ? & ?)]; [by left|]. right. by exists key, ws.
Qed.

Lemma linked_record_edge es0 h0 verts v c i e ed h this added associations :
  v ∉ verts → es_extends es0 (Heap.es h0) → linked h0 verts v h added →
  Path.nthE c i = Some e → Edge.deref es0 e = Some ed →
  (∀ a key w, recorded associations a key w → w = v ∨ w ∈ verts) →
  ∃ h' m' added' associations',
    CyclesGraph.record_edge c v i (h, this, added, associations)
    = Some (h', Graph.set_m this m', added', associations')
    ∧ linked h0 verts v h' added'
    ∧ length (Heap.vs h') = length (Heap.vs h)
    ∧ (∀ a key w, recorded associations' a key w
         ↔ recorded associations a key w ∨ (w = v ∧ edge_pairs ed a key))
    ∧ (∀ w, w ≠ v →
         w ∈ added' ↔ w ∈ added ∨ ∃ a b key, edge_pairs ed a b ∧ key ≠ b
                                   ∧ recorded associations a key w).
Proof.
  intros Hv Hes0 Hl He Hed Hrec. unfold CyclesGraph.record_edge.
  rewrite He. cbn [mbind option_bind].
  assert (Hh : Heap.edge h e = Some ed).
  { destruct Hl as (Hes & _). by apply Hes, Hes0. }
  rewrite Hh. cbn [mbind option_bind].
  unfold Edge.getExtremityFrom, Edge.getExtremityTo, Extremity.getType,
    Extremity.getId.
  assert (Hcond : bool_decide (Extremity.ty (Edge.ex1 ed) = Extremity.UNDEF)
                  || bool_decide (Extremity.ty (Edge.ex2 ed) = Extremity.UNDEF)
                  = negb (defined_edge ed)).
  { unfold defined_edge. by repeat case_bool_decide. }
  rewrite Hcond. destruct (defined_edge ed) eqn:Hdef; cbn [negb].
  - set (a := Extremity.id (Edge.ex1 ed)). set (b := Extremity.id (Edge.ex2 ed)).
    destruct (linked_link h0 verts v associations a b h this added)
      as (h1 & m1 & Hrun1 & Hl1 & Hlen1); [done|done|apply Hrec|].
    rewrite Hrun1. cbn [mbind option_bind].
    destruct (linked_link h0 verts v (CyclesGraph.tables_push associations a b v)
                b a h1 (Graph.set_m this m1)
                (link_added (CyclesGraph.tables_at associations a) b added))
      as (h2 & m2 & Hrun2 & Hl2 & Hlen2); [done|done| |].
    { intros key w Hr. apply recorded_push in Hr as [Hr|(_ & _ & ->)];
        [by eapply Hrec|by left]. }
    rewrite Hrun2. cbn [mbind option_bind].
    eexists h2, m2, _, _. split; [reflexivity|]. split; [done|].
    split; [congruence|]. split.
    + intros a' key w. rewrite !recorded_push. unfold edge_pairs.
      rewrite Hdef. fold a b. intuition (subst; auto).
    + intros w Hw. rewrite !link_added_recorded. unfold edge_pairs.
      rewrite Hdef. fold a b. split.
      * intros [[Hin|(key & Hk & Hr)]|(key & Hk & Hr)]; [by left| |].
        -- right. exists a, b, key. by intuition.
        -- apply recorded_push in Hr as [Hr|(_ & _ & ->)]; [|done].
           right. exists b, a, key. by intuition.
      * intros [Hin|(a' & b' & key & (_ & [[<- <-]|[<- <-]]) & Hk & Hr)].
        -- by left; left.
        -- left; right. by exists key.
        -- right. exists key. split; [done|]. apply recorded_push. by left.
  - exists h, (Graph.m this), added, associations.
    split; [by destruct this|]. split; [done|]. split; [done|].
    unfold edge_pairs. rewrite Hdef. split.
    { intros a key w. split; [by left|]. by intros [?|(_ & ? & _)]. }
    intros w _. split; [by left|]. by intros [|(?&?&?&[? _]&_)].
Qed.

Lemma pairs_in_snoc es l e ed a b :
  Edge.deref es e = Some ed →
  pairs_in es (l ++ [e]) a b ↔ pairs_in es l a b ∨ edge_pairs ed a b.
Proof.
  intros Hed. unfold pairs_in. split.
  - intros (e' & ed' & [Hin|Hin]%elem_of_app & Hd & Hp).
    + left. by exists e', ed'.
    + apply list_elem_of_singleton in Hin as ->. right. congruence.
  - intros [(e' & ed' & Hin & Hd & Hp)|Hp].
    + exists e', ed'. split; [apply elem_of_app; by left|done].
    + exists e, ed. split; [|done]. apply elem_of_app. right.
      by apply list_elem_of_singleton.
Qed.

Lemma pairs_in_nil es a b : ¬ pairs_in es [] a b.
Proof. intros (e & ed & Hin & _). by apply elem_of_nil in Hin. Qed.

Lemma linked_record_edges es0 h0 verts v c h this associations :
  v ∉ verts → es_extends es0 (Heap.es h0) → linked h0 verts v h [] →
  Path_wf c → edges_live es0 (Path.getEdges c) →
  (∀ a key w, recorded associations a key w → w ∈ verts) →
  ∃ h' m' added' associations',
    for_range (CyclesGraph.record_edge c v) 0 (Z.to_nat (Path.lenE c))
              (h, this, [], associations)
    = Some (h', Graph.set_m this m', added', associations')
    ∧ linked h0 verts v h' added'
    ∧ length (Heap.vs h') = length (Heap.vs h)
    ∧ (∀ a key w, recorded associations' a key w
         ↔ recorded associations a key w ∨ (w = v ∧ pairs es0 c a key))
    ∧ (∀ w, w ≠ v → w ∈ added' ↔ hits es0 (Path.getEdges c) associations w).
Proof.
  intros Hv Hes0 Hl [_ (Hle & Hsz & Hint)] Hlive Hrec.
  assert (Hlen : length (Path.getEdges c) = Z.to_nat (Path.le c))
    by (apply Path_getEdges_length; lia).
  pose (P := λ (k : Z) (s : Heap.t * Graph.t * list (option nat)
                          * gmap Z (list (Z * list (option nat)))),
    ∃ h' m' added' associations',
      s = (h', Graph.set_m this m', added', associations')
      ∧ linked h0 verts v h' added'
      ∧ length (Heap.vs h') = length (Heap.vs h)
      ∧ (∀ a key w, recorded associations' a key w
           ↔ recorded associations a key w
             ∨ (w = v ∧ pairs_in es0 (take (Z.to_nat k) (Path.getEdges c)) a key))
      ∧ (∀ w, w ≠ v →
           w ∈ added' ↔ hits es0 (take (Z.to_nat k) (Path.getEdges c))
                              associations w)).
  destruct (for_range_inv P (CyclesGraph.record_edge c v) 0
              (Z.to_nat (Path.lenE c)) (h, this, [], associations))
    as (s' & Hrun & (h' & m' & added' & associations' & -> & Hl' & Hlen' & Hr' & Ha')).
  - exists h, (Graph.m this), [], associations.
    split; [by destruct this|]. split; [done|]. split; [done|].
    change (Z.to_nat 0) with 0%nat. rewrite take_0. split.
    + intros a key w. split; [by left|]. intros [|[_ Hp]]; [done|].
      by apply pairs_in_nil in Hp.
    + intros w _. split; [by intros ?%elem_of_nil|].
      intros (a & b & key & Hp & _). by apply pairs_in_nil in Hp.
  - intros k s Hk (h1 & m1 & added1 & assoc1 & -> & Hl1 & Hlen1 & Hr1 & Ha1).
    unfold Path.lenE in Hk.
    destruct (lookup_lt_is_Some_2 (Path.getEdges c) (Z.to_nat k)) as [e He];
      [lia|].
    destruct (Hlive e) as [ed Hed]; [by eapply list_elem_of_lookup_2|].
    destruct (linked_record_edge es0 h0 verts v c k e ed h1
                (Graph.set_m this m1) added1 assoc1)
      as (h2 & m2 & added2 & assoc2 & Hrun2 & Hl2 & Hlen2 & Hr2 & Ha2);
      [done|done|done| |done| |].
    { rewrite Path_nthE_getEdges by lia. done. }
    { intros a key w Hr. apply Hr1 in Hr as [Hr|[-> _]]; [|by left].
      right. by eapply Hrec. }
    exists (h2, Graph.set_m this m2, added2, assoc2). split; [done|].
    exists h2, m2, added2, assoc2. split; [done|]. split; [done|].
    split; [congruence|].
    replace (Z.to_nat (k + 1)) with (S (Z.to_nat k)) by lia.
    rewrite (take_S_r _ _ _ He). split.
    + intros a key w. rewrite Hr2, Hr1, (pairs_in_snoc _ _ _ _ _ _ Hed).
      tauto.
    + intros w Hw. rewrite (Ha2 w Hw), (Ha1 w Hw). unfold hits. split.
      * intros [(a & b & key & Hp & Hkey & Hr)|(a & b & key & Hp & Hkey & Hr)].
        -- exists a, b, key. split; [|done].
           apply (pairs_in_snoc _ _ _ _ _ _ Hed). by left.
        -- apply Hr1 in Hr as [Hr|[-> _]]; [|done]. exists a, b, key.
           split; [|done]. apply (pairs_in_snoc _ _ _ _ _ _ Hed). by right.
      * intros (a & b & key & Hp & Hkey & Hr).
        apply (pairs_in_snoc _ _ _ _ _ _ Hed) in Hp as [Hp|Hp].
        -- left. by exists a, b, key.
        -- right. exists a, b, key. split; [done|]. split; [done|].
           apply Hr1. by left.
  - exists h', m', added', associations'. split; [done|]. split; [done|].
    split; [done|]. unfold Path.lenE in *.
    replace (0 + Z.of_nat (Z.to_nat (Path.le c))) with (Path.le c) in * by lia.
    rewrite take_ge in * by lia. done.
Qed.

Lemma incompatible_sym e e' : Edge.incompatible e e' = Edge.incompatible e' e.
Proof.
  apply Bool.eq_true_iff_eq. rewrite !incompatible_ids. cbv zeta.
  split; intros H; lia.
Qed.

Lemma conflicting_sym es c c' : conflicting es c c' → conflicting es c' c.
Proof.
  intros (e & e' & ed & ed' & He & He' & Hd & Hd' & Hdef & Hdef' & Hinc).
  exists e', e, ed', ed. rewrite incompatible_sym. by repeat split.
Qed.

Lemma conflicting_pairs es c c' :
  conflicting es c c'
  ↔ ∃ a b key, pairs es c a b ∧ key ≠ b ∧ pairs es c' a key.
Proof.
  unfold conflicting, pairs, pairs_in, edge_pairs. split.
  - intros (e & e' & ed & ed' & He & He' & Hd & Hd' & Hdef & Hdef' & Hinc).
    apply incompatible_ids in Hinc. cbv zeta in Hinc.
    destruct Hinc as [[[H1 H2]|[H1 H2]]|[[H1 H2]|[H1 H2]]].
    + exists (Extremity.id (Edge.ex1 ed)), (Extremity.id (Edge.ex2 ed)),
        (Extremity.id (Edge.ex2 ed')).
      split; [exists e, ed; by auto 10|]. split; [done|].
      exists e', ed'. by auto 10.
    + exists (Extremity.id (Edge.ex2 ed)), (Extremity.id (Edge.ex1 ed)),
        (Extremity.id (Edge.ex1 ed')).
      split; [exists e, ed; by auto 10|]. split; [done|].
      exists e', ed'. by auto 10.
    + exists (Extremity.id (Edge.ex1 ed)), (Extremity.id (Edge.ex2 ed)),
        (Extremity.id (Edge.ex1 ed')).
      split; [exists e, ed; by auto 10|]. split; [done|].
      exists e', ed'. by auto 10.
    + exists (Extremity.id (Edge.ex2 ed)), (Extremity.id (Edge.ex1 ed)),
        (Extremity.id (Edge.ex2 ed')).
      split; [exists e, ed; by auto 10|]. split; [done|].
      exists e', ed'. by auto 10.
  - intros (a & b & key & (e & ed & He & Hd & Hdef & Hab) & Hkey
            & (e' & ed' & He' & Hd' & Hdef' & Hak)).
    exists e, e', ed, ed'. repeat (split; [done|]).
    apply incompatible_ids. cbv zeta. lia.
Qed.

Lemma hits_conflicting es c c' associations w :
  (∀ a key, recorded associations a key w ↔ pairs es c' a key) →
  hits es (Path.getEdges c) associations w ↔ conflicting es c c'.
Proof.
  intros Hr. rewrite conflicting_pairs. unfold hits, pairs.
  split; intros (a & b & key & Hp & Hkey & Hw); exists a, b, key;
    (split; [done|]); (split; [done|]); by apply Hr.
Qed.

Lemma length_cycle_vertices h0 n : length (cycle_vertices h0 n) = n.
Proof. unfold cycle_vertices. by rewrite length_map, length_seq. Qed.

Lemma cycle_vertices_S h0 n :
  cycle_vertices h0 (S n) = cycle_vertices h0 n ++ [cycle_vertex h0 n].
Proof. unfold cycle_vertices. by rewrite seq_S, map_app. Qed.

Lemma elem_of_cycle_vertices h0 n w :
  w ∈ cycle_vertices h0 n ↔ ∃ k, (k < n)%nat ∧ w = cycle_vertex h0 k.
Proof.
  unfold cycle_vertices. rewrite list_elem_of_fmap. split.
  - intros (k & -> & Hk%elem_of_seq). exists k. split; [lia|done].
  - intros (k & Hk & ->). exists k. split; [done|]. apply elem_of_seq. lia.
Qed.

Lemma cycle_vertex_inj h0 k k' :
  cycle_vertex h0 k = cycle_vertex h0 k' → k = k'.
Proof. unfold cycle_vertex. intros [=]. lia. Qed.

Lemma Heap_update_vertex_last vs es x f :
  Heap.update_vertex (Heap.mk (vs ++ [Some x]) es) (Some (length vs)) f
  = Some (Heap.mk (vs ++ [Some (f x)]) es).
Proof.
  unfold Heap.update_vertex, Vertex.update, Vertex.deref.
  cbn [Heap.vs Heap.es mbind option_bind].
  rewrite list_lookup_middle by done. cbn [mbind option_bind].
  by rewrite insert_app_r_alt, Nat.sub_diag by lia.
Qed.

Lemma cycles_graph_shape_set_m this verts m :
  cycles_graph_shape this verts → cycles_graph_shape (Graph.set_m this m) verts.
Proof. intros H. exact H. Qed.

Lemma Graph_new_shape label n this :
  Graph.new label n = Some this → cycles_graph_shape this [].
Proof.
  unfold Graph.new. case_bool_decide as Hn; [done|]. intros [= <-].
  unfold cycles_graph_shape, vec_resize, vec_size.
  cbn [Graph.maxn Graph.setLabel]. case_bool_decide as Hm;
    cbn [Graph.vertices Graph.lastVid Graph.maxn Graph.npart Graph.fsize
         Graph.set_fname Graph.set_fsize Graph.set_vertices Graph.setLabel
         length app];
    rewrite !length_resize.
  - split; [|repeat split; lia || done].
    assert (Z.to_nat n = 0%nat) as -> by lia.
    exists (Z.to_nat 128). rewrite (resize_nil 0%nat). cbn [replicate].
    by rewrite resize_nil.
  - split; [|repeat split; lia || done].
    exists (Z.to_nat n). by rewrite resize_nil.
Qed.

Lemma built_add_cycle h0 cs c h this associations :
  built h0 cs h this associations → cycle_ok (Heap.es h0) c →
  Z.of_nat (length cs) < 2 ^ 30 →
  ∃ h' this' associations',
    CyclesGraph.add_cycle c (h, this, associations)
    = Some (h', this', associations')
    ∧ built h0 (cs ++ [c]) h' this' associations'.
Proof.
  intros (Hes & Hlen & Hshape & Hrep & Hassoc) (Hwf & Hlive & [sign Hsign])
    Hint.
  set (verts := cycle_vertices h0 (length cs)) in *.
  set (v := cycle_vertex h0 (length cs)).
  unfold CyclesGraph.add_cycle.
  rewrite (Path_signature_mono _ _ _ _ Hes Hsign). cbn [mbind option_bind].
  destruct (Graph_addVertex_auto_shape h this verts (Some sign) Hshape)
    as (this1 & x & Hrun & Hshape1 & Hid & Hlab & Hedges & Hdata).
  { unfold verts, cycle_vertices. by rewrite length_map, length_seq. }
  rewrite Hrun. cbn [mbind option_bind].
  rewrite Heap_update_vertex_last.  cbn [mbind option_bind].
  assert (Hv : Some (length (Heap.vs h)) = v)
    by (unfold v, cycle_vertex; by rewrite Hlen).
  rewrite Hv in *.
  set (x' := Vertex.setData x (Some c)).
  set (h1 := Heap.mk (Heap.vs h ++ [Some x']) (Heap.es h)).
  assert (Hvnot : v ∉ verts).
  { intros (k & Hk & Heq%cycle_vertex_inj)%elem_of_cycle_vertices. lia. }
  assert (Hold : ∀ w, w ∈ verts → Heap.vertex h1 w = Heap.vertex h w).
  { intros w (k & Hk & ->)%elem_of_cycle_vertices.
    unfold Heap.vertex, Vertex.deref, cycle_vertex, h1.
    cbn [Heap.vs mbind option_bind]. by rewrite lookup_app_l by lia. }
  assert (Hnew : Heap.vertex h1 v = Some x').
  { rewrite <-Hv. unfold Heap.vertex, Vertex.deref, h1.
    cbn [Heap.vs mbind option_bind]. by rewrite list_lookup_middle. }
  assert (Hnold : ∀ w L, w ∈ verts → neighbours h w = Some L →
            neighbours h1 w = Some L).
  { intros w L Hw HL. apply (neighbours_kept h); [by apply Hold| |done].
    apply es_extends_refl. }
  assert (Hvk : ∀ k ck, cs !! k = Some ck → cycle_vertex h0 k ∈ verts).
  { intros k ck Hk. apply elem_of_cycle_vertices. exists k.
    split; [by eapply lookup_lt_Some|done]. }
  assert (Hl1 : linked h1 verts v h1 []).
  { split; [apply es_extends_refl|]. split; [|split].
    - intros w Hw.
      assert (∃ x0, Heap.vertex h1 w = Some x0) as [x0 Hx0].
      { destruct Hw as [->|Hw]; [by exists x'|]. rewrite Hold by done.
        apply elem_of_cycle_vertices in Hw as (k & Hk & ->).
        destruct (lookup_lt_is_Some_2 cs k Hk) as [ck Hck].
        destruct (Hrep k ck Hck) as (xk & _ & _ & Hxk & _). by exists xk. }
      exists x0, x0. split; [done|]. split; [done|].
      exists (Vertex.degree x0), (Vertex.edges x0). by destruct x0.
    - exists []. split.
      + unfold neighbours. rewrite Hnew. cbn [mbind option_bind].
        unfold x'. cbn [Vertex.edges Vertex.setData]. by rewrite Hedges.
      + split; [constructor|]. intros w. rewrite elem_of_nil. tauto.
    - intros w Hw. pose proof Hw as (k & Hk & ->)%elem_of_cycle_vertices.
      destruct (lookup_lt_is_Some_2 cs k Hk) as [ck Hck].
      destruct (Hrep k ck Hck) as (xk & sk & Lk & _ & _ & _ & _ & _ & HLk & _).
      exists Lk. rewrite bool_decide_eq_false_2 by apply not_elem_of_nil.
      split; by apply Hnold. }
  assert (Hrec1 : ∀ a key w, recorded associations a key w → w ∈ verts).
  { intros a key w (k & ck & Hk & -> & _)%Hassoc. by eapply Hvk. }
  destruct (linked_record_edges (Heap.es h0) h1 verts v c h1 this1 associations)
    as (h2 & m2 & added & assoc2 & Hrun2 & Hl2 & Hlen2 & Hr2 & Ha2);
    [done|exact Hes|done|done|done|done|].
  fold x' h1. rewrite Hrun2. cbn [mbind option_bind].
  exists h2, (Graph.set_m this1 m2), assoc2. split; [done|].
  destruct Hl2 as (Hes2 & Hlive2 & (Lv & HLv & HndLv & HLv_in) & Hnb2).
  split; [exact (es_extends_trans _ _ _ Hes Hes2)|].
  split.
  { rewrite Hlen2. unfold h1. cbn [Heap.vs]. rewrite !length_app, Hlen.
    simpl. lia. }
  split.
  { rewrite length_app. cbn [length].
    replace (length cs + 1)%nat with (S (length cs)) by lia.
    rewrite cycle_vertices_S. exact Hshape1. }
  split.
  - intros k ck Hk. destruct (decide (k < length cs)%nat) as [Hlt|Hge].
    + rewrite lookup_app_l in Hk by done.
      destruct (Hrep k ck Hk)
        as (xk & sk & Lk & Hxk & Hidk & Hsk & Hlabk & Hdatak & HLk & HndLk
            & HLk_in).
      pose proof (Hvk k ck Hk) as Hin.
      assert (Hne : cycle_vertex h0 k ≠ v) by (intros Heq; by rewrite Heq in Hin).
      destruct (Hlive2 (cycle_vertex h0 k)) as (x0 & x2 & Hx0 & Hx2 & d & l & ->);
        [by right|].
      rewrite Hold in Hx0 by done. assert (x0 = xk) as -> by congruence.
      destruct (Hnb2 _ Hin) as (L & HL1 & HL2).
      rewrite (Hnold _ _ Hin HLk) in HL1. injection HL1 as <-.
      assert (Hadd : cycle_vertex h0 k ∈ added ↔ conflicting (Heap.es h0) ck c).
      { rewrite (Ha2 _ Hne). rewrite (hits_conflicting _ c ck).
        - split; apply conflicting_sym.
        - intros a key. rewrite Hassoc. split.
          + intros (k2 & c2 & Hk2 & Heq%cycle_vertex_inj & Hp). subst k2.
            congruence.
          + intros Hp. by exists k, ck. }
      exists (Vertex.set_degree_edges xk d l), sk,
        (if bool_decide (cycle_vertex h0 k ∈ added) then v :: Lk else Lk).
      split; [done|]. split; [done|]. split; [done|]. split; [done|].
      split; [done|]. split; [done|]. split.
      * case_bool_decide; [|done]. apply NoDup_cons. split; [|done].
        intros (k' & c' & _ & Hk' & Heq%cycle_vertex_inj & _)%HLk_in.
        apply lookup_lt_Some in Hk'. lia.
      * intros w. split.
        -- intros Hw.
           assert (w ∈ Lk ∨ (w = v ∧ cycle_vertex h0 k ∈ added)) as [Hw'|[-> Hc]].
           { case_bool_decide; [|by left].
             apply elem_of_cons in Hw as [->|Hw]; [by right|by left]. }
           ++ apply HLk_in in Hw' as (k' & c' & ? & ? & ? & ?).
              exists k', c'. split; [done|].
              split; [by apply lookup_app_l_Some|done].
           ++ exists (length cs), c. split; [lia|].
              split; [by apply list_lookup_middle|]. split; [done|].
              by apply Hadd.
        -- intros (k' & c' & Hne' & Hk' & -> & Hconf).
           apply lookup_app_Some in Hk' as [Hk'|[Hge Hk']].
           ++ assert (cycle_vertex h0 k' ∈ Lk)
                by (apply HLk_in; exists k', c'; done).
              case_bool_decide; [by apply elem_of_cons; right|done].
           ++ apply list_lookup_singleton_Some in Hk' as [Hz ->].
              assert (k' = length cs) as -> by lia.
              rewrite bool_decide_eq_true_2 by (by apply Hadd).
              apply elem_of_cons. by left.
    + assert (k = length cs) as ->.
      { apply lookup_lt_Some in Hk. rewrite length_app in Hk. simpl in Hk. lia. }
      rewrite list_lookup_middle in Hk by done. injection Hk as <-.
      destruct (Hlive2 v) as (x0 & x2 & Hx0 & Hx2 & d & l & ->); [by left|].
      assert (x0 = x') as -> by congruence.
      exists (Vertex.set_degree_edges x' d l), sign, Lv.
      split; [done|]. split.
      { cbn. rewrite Hid. unfold verts. by rewrite length_cycle_vertices. }
      split; [done|]. split; [exact Hlab|]. split; [done|].
      split; [done|]. split; [done|].
      intros w. rewrite HLv_in. split.
      * intros [Hw Hne]. apply Ha2 in Hw; [|done].
        destruct Hw as (a & b & key & Hp & Hkey & Hr).
        apply Hassoc in Hr as (k' & c' & Hk' & -> & Hp').
        exists k', c'. split; [apply lookup_lt_Some in Hk'; lia|].
        split; [by apply lookup_app_l_Some|]. split; [done|].
        apply conflicting_pairs. by exists a, b, key.
      * intros (k' & c' & Hne & Hk' & -> & Hconf).
        apply lookup_app_Some in Hk' as [Hk'|[Hge' Hk']].
        -- assert (cycle_vertex h0 k' ≠ v)
             by (intros Heq%cycle_vertex_inj; done).
           split; [|done]. apply Ha2; [done|].
           apply conflicting_pairs in Hconf as (a & b & key & Hp & Hkey & Hp').
           exists a, b, key. split; [done|]. split; [done|].
           apply Hassoc. by exists k', c'.
        -- apply list_lookup_singleton_Some in Hk' as [Hz ->]. lia.
  - intros a b w. rewrite Hr2, Hassoc. split.
    + intros [(k & ck & Hk & -> & Hp)|[-> Hp]].
      * exists k, ck. split; [by apply lookup_app_l_Some|done].
      * exists (length cs), c. split; [by apply list_lookup_middle|done].
    + intros (k & ck & Hk & -> & Hp).
      apply lookup_app_Some in Hk as [Hk|[Hge Hk]].
      * left. by exists k, ck.
      * apply list_lookup_singleton_Some in Hk as [Hz ->]. right.
        split; [|done]. unfold v. f_equal. lia.
Qed.

Lemma conflicting_share_gene es c c' :
  conflicting es c c' → share_gene es c c'.
Proof.
  intros (a & b & key & Hp & _ & Hp')%conflicting_pairs. by exists a, b, key.
Qed.

Lemma built_cycles h this cycles :
  cycles_graph_shape this [] → Forall (cycle_ok (Heap.es h)) cycles →
  Z.of_nat (length cycles) ≤ 2 ^ 30 →
  ∃ h' this' associations,
    for_each CyclesGraph.add_cycle cycles (h, this, ∅)
    = Some (h', this', associations)
    ∧ built h cycles h' this' associations.
Proof.
  intros Hshape Hok Hint.
  destruct (for_each_inv
              (λ cs s, ∃ h' this' associations,
                 s = (h', this', associations)
                 ∧ built h cs h' this' associations)
              CyclesGraph.add_cycle cycles (h, this, ∅))
    as (s & Hrun & (h' & this' & associations & -> & Hb)).
  - exists h, this, ∅. split; [done|]. split; [apply es_extends_refl|].
    split; [simpl; lia|]. split; [done|]. split.
    + intros k c Hk. by rewrite lookup_nil in Hk.
    + intros a b w. split.
      * intros Hr. by apply recorded_empty in Hr.
      * intros (k & c & Hk & _). by rewrite lookup_nil in Hk.
  - intros cs c rest s -> (h1 & this1 & assoc1 & -> & Hb).
    destruct (built_add_cycle h cs c h1 this1 assoc1)
      as (h2 & this2 & assoc2 & Hrun & Hb2); [done| | |].
    { rewrite Forall_forall in Hok. apply Hok. set_solver. }
    { rewrite length_app in Hint. simpl in Hint. lia. }
    exists (h2, this2, assoc2). split; [done|]. by exists h2, this2, assoc2.
  - by exists h', this', associations.
Qed.


(** C2, as stated, fails on both halves.  In [example_cycles_kinds] the
    cycles A and B, of signatures "ab" and "ac", have the edge record 0 in
    common, and the builder adds no edge between their vertices, at the
    addresses 4 and 5: an edge paired with itself is not incompatible.
    The cycles C and D, of signatures "de" and "fg", have no extremity in
    common with another cycle (C has the tail of the gene 7, D its head),
    and the builder adds an edge between their vertices, at the addresses
    6 and 7: it looks at the gene ids only, and the gene 7 is paired with 8
    in C and with 11 in D.  This is the one edge of the graph. *)
Lemma shared_edge_unlinked_gene_linked :
  ∃ h ag cs this h' this',
    example_cycles_kinds = Some (h, ag, cs)
    ∧ map Path.getEdges cs
      = [[Some 0; Some 3]; [Some 0; Some 5]; [Some 6; Some 9];
         [Some 10; Some 13]]%nat
    ∧ map (Path_extremities (Heap.es h)) cs
      = [[Some (Extremity.mk 1 Extremity.TAIL, Extremity.mk 2 Extremity.TAIL);
          Some (Extremity.mk 4 Extremity.TAIL, Extremity.mk 3 Extremity.TAIL)];
         [Some (Extremity.mk 1 Extremity.TAIL, Extremity.mk 2 Extremity.TAIL);
          Some (Extremity.mk 6 Extremity.TAIL, Extremity.mk 5 Extremity.TAIL)];
         [Some (Extremity.mk 7 Extremity.TAIL, Extremity.mk 8 Extremity.TAIL);
          Some (Extremity.mk 10 Extremity.TAIL, Extremity.mk 9 Extremity.TAIL)];
         [Some (Extremity.mk 7 Extremity.HEAD, Extremity.mk 11 Extremity.TAIL);
          Some (Extremity.mk 13 Extremity.TAIL,
                Extremity.mk 12 Extremity.TAIL)]]
    ∧ map (Path.signature (Heap.es h)) cs
      = [Some "ab"; Some "ac"; Some "de"; Some "fg"]%string
    ∧ Graph.new None (Graph.getN ag) = Some this
    ∧ CyclesGraph.buildCyclesGraph_list h this ag cs = Some (h', this')
    ∧ map (λ k, neighbours h' (cycle_vertex h k)) [0; 1; 2; 3]%nat
      = [Some []; Some []; Some [Some 7]; Some [Some 6]]%nat
    ∧ Graph.getM this' = 1.
Proof.
  eexists _, _, _, _, _, _.
  split; [vm_compute; reflexivity|].
  split; [vm_compute; reflexivity|].
  split; [vm_compute; reflexivity|].
  split; [vm_compute; reflexivity|].
  split; [vm_compute; reflexivity|].
  split; [vm_compute; reflexivity|].
  split; vm_compute; reflexivity.
Qed.

Lemma substring_short n s :
  (String.length s ≤ n)%nat → String.substring 0 n s = s.
Proof.
  revert n. induction s as [|c s IH]; intros [|n] Hlen; simpl in *;
    try done; try lia.
  f_equal. apply IH. lia.
Qed.

Lemma copy_label_short s :
  (String.length s ≤ _GRAPH_MAX_LABEL)%nat → copy_label (Some s) = Some s.
Proof.
  intros Hlen. unfold copy_label. cbn [fmap option_fmap option_map]. f_equal.
  apply substring_short. lia.
Qed.

(** C2, amended: from a new graph and a list of at most 2^30 cycles, the
    builder gives every cycle of the list a vertex, the k-th cycle the
    vertex of id k, holding its path and labelled with the copy of the
    signature of the cycle, which is the signature when it has at most 100
    characters; there is an edge between the vertices of two cycles
    exactly when an edge of one and an edge of the other, both with
    defined extremities, are incompatible, and then there is one edge
    only.  Two cycles are not joined for sharing an edge; and the vertex
    of a cycle that has no gene id in common with another cycle has no
    edge. *)
Theorem conflict_graph_edges h ag label n this cycles :
  Graph.new label n = Some this →
  Forall (cycle_ok (Heap.es h)) cycles →
  Z.of_nat (length cycles) ≤ 2 ^ 30 →
  ∃ h' this',
    CyclesGraph.buildCyclesGraph_list h this ag cycles = Some (h', this')
    ∧ ∀ k c, cycles !! k = Some c →
        Graph.getVertex this' (Z.of_nat k) = Some (cycle_vertex h k)
        ∧ represents h cycles h' k c
        ∧ (∀ sign, Path.signature (Heap.es h) c = Some sign →
             (String.length sign ≤ _GRAPH_MAX_LABEL)%nat →
             Vertex.getLabel <$> Heap.vertex h' (cycle_vertex h k)
             = Some (Some sign))
        ∧ ((∀ k' c', k' ≠ k → cycles !! k' = Some c' →
              ¬ share_gene (Heap.es h) c c') →
           neighbours h' (cycle_vertex h k) = Some []).
Proof.
  intros Hnew Hok Hint.
  destruct (built_cycles h this cycles (Graph_new_shape _ _ _ Hnew) Hok Hint)
    as (h' & this' & associations & Hrun & Hb).
  exists h', this'. unfold CyclesGraph.buildCyclesGraph_list.
  rewrite Hrun. split; [done|]. intros k c Hk.
  destruct Hb as (_ & _ & ((r & Hvs) & _) & Hrep & _).
  split; [|split; [by apply Hrep|split]].
  - unfold Graph.getVertex. rewrite vec_get_nat, Hvs.
    pose proof (lookup_lt_Some _ _ _ Hk) as Hlt.
    rewrite lookup_app_l by (by rewrite length_cycle_vertices).
    unfold cycle_vertices. rewrite list_lookup_fmap, lookup_seq_lt by done.
    done.
  - intros sign Hsign Hlen.
    destruct (Hrep k c Hk) as (x & sign' & L & Hx & _ & Hsign' & Hlab & _).
    rewrite Hx. cbn [fmap option_fmap option_map]. f_equal.
    unfold Vertex.getLabel. rewrite Hlab.
    assert (sign' = sign) as -> by congruence.
    by apply copy_label_short.
  - intros Hfree.
    destruct (Hrep k c Hk) as (x & sign & L & _ & _ & _ & _ & _ & HL & _ & HL_in).
    rewrite HL. do 2 f_equal. destruct L as [|w L]; [done|].
    destruct (proj1 (HL_in w)) as (k' & c' & Hne & Hk' & _ & Hconf);
      [by left|].
    destruct (Hfree k' c' Hne Hk'). by apply conflicting_share_gene.
Qed.

(** The cycles of [example_cycles]: the vertex of E is joined to those of
    A and B, the vertices of C and D to none. *)
Lemma conflict_graph_edges_witness :
  ∃ h ag cs this,
    example_cycles = Some (h, ag, cs)
    ∧ Graph.new None (Graph.getN ag) = Some this
    ∧ ∃ h' this',
        CyclesGraph.buildCyclesGraph_list h this ag cs = Some (h', this')
        ∧ ∀ k c, cs !! k = Some c →
            Graph.getVertex this' (Z.of_nat k) = Some (cycle_vertex h k)
            ∧ represents h cs h' k c
            ∧ (∀ sign, Path.signature (Heap.es h) c = Some sign →
                 (String.length sign ≤ _GRAPH_MAX_LABEL)%nat →
                 Vertex.getLabel <$> Heap.vertex h' (cycle_vertex h k)
                 = Some (Some sign))
            ∧ ((∀ k' c', k' ≠ k → cs !! k' = Some c' →
                  ¬ share_gene (Heap.es h) c c') →
               neighbours h' (cycle_vertex h k) = Some []).
Proof.
  eexists _, _, _, _.
  split; [vm_compute; reflexivity|].
  split; [vm_compute; reflexivity|].
  apply (conflict_graph_edges _ _ None 4); [vm_compute; reflexivity| |].
  - repeat apply Forall_cons_2; [..|apply Forall_nil_2];
      (split; [unfold Path_wf, vec_size; simpl; lia|]);
      (split; [|vm_compute; by eexists]);
      intros y Hy; vm_compute in Hy;
      repeat (apply elem_of_cons in Hy as [->|Hy]; [by eexists|]);
      by apply elem_of_nil in Hy.
  - vm_compute. intros Hgt. discriminate Hgt.
Defined.

(** ** C3: the cycles of length 3 *)

Lemma any_from_spec f i n :
  (∀ k, i ≤ k < i + Z.of_nat n → is_Some (f k)) →
  ∃ b, any_from f i n = Some b
    ∧ (b = true ↔ ∃ k, i ≤ k < i + Z.of_nat n ∧ f k = Some true).
Proof.
  intros Hf. destruct (any_from_total f i n Hf) as [b Hb]. exists b.
  split; [done|]. destruct b.
  - split; [|done]. intros _. by apply any_from_true.
  - split; [done|]. intros (k & Hk & Hfk).
    rewrite (any_from_false _ _ _ Hb k Hk) in Hfk. done.
Qed.

Lemma clash_spec es x y dx dy :
  Edge.deref es x = Some dx → Edge.deref es y = Some dy →
  (inc ← Edge.incompatible_at es x y;
   if inc : bool then Some true else Edge.same es x y)
  = Some (clash es x y).
Proof.
  intros Hx Hy. unfold Edge.incompatible_at, Edge.same, clash.
  rewrite Hx, Hy. cbn [mbind option_bind].
  by destruct (Edge.incompatible dx dy).
Qed.

Lemma Path_edge_at es p k :
  0 ≤ Path.le p ≤ vec_size (Path.e p) → edges_live es (Path.getEdges p) →
  0 ≤ k < Path.le p →
  ∃ y x, vec_get (Path.e p) k = Some y ∧ Edge.deref es y = Some x
         ∧ Path.getEdges p !! Z.to_nat k = Some y.
Proof.
  intros Hle Hlive Hk.
  destruct (vec_get_is_Some (Path.e p) k) as [y Hy]; [lia|].
  pose proof Hy as Hy'. change (Path.nthE p k = Some y) in Hy'.
  rewrite Path_nthE_getEdges in Hy' by lia.
  destruct (Hlive y) as [x Hx]; [by eapply list_elem_of_lookup_2|].
  by exists y, x.
Qed.

Lemma Path_consistent_spec es p :
  0 ≤ Path.le p ≤ vec_size (Path.e p) → edges_live es (Path.getEdges p) →
  ∃ b, Path.consistent es p = Some b
    ∧ (b = true ↔ consistent_list es (Path.getEdges p)).
Proof.
  intros Hle Hlive. unfold Path.consistent.
  assert (Hlen : length (Path.getEdges p) = Z.to_nat (Path.le p))
    by (apply Path_getEdges_length; lia).
  set (inner := λ i j : Z,
         if bool_decide (j > i)
         then ei ← vec_get (Path.e p) i; ej ← vec_get (Path.e p) j;
              inc ← Edge.incompatible_at es ei ej;
              if inc : bool then Some true else Edge.same es ei ej
         else Some false).
  assert (Hinner : ∀ i j, 0 ≤ i < Path.le p → 0 ≤ j < Path.le p →
            ∃ c, inner i j = Some c
              ∧ (c = true ↔ i < j ∧ ∃ x y,
                   Path.getEdges p !! Z.to_nat i = Some x
                   ∧ Path.getEdges p !! Z.to_nat j = Some y
                   ∧ clash es x y = true)).
  { intros i j Hi Hj. unfold inner.
    destruct (Path_edge_at es p i) as (yi & xi & Hyi & Hxi & Hli); [done..|].
    destruct (Path_edge_at es p j) as (yj & xj & Hyj & Hxj & Hlj); [done..|].
    case_bool_decide as Hij.
    - rewrite Hyi, Hyj. cbn [mbind option_bind].
      rewrite (clash_spec es yi yj xi xj) by done. eexists. split; [done|].
      split.
      + intros Hc. split; [lia|]. by exists yi, yj.
      + intros (_ & x & y & Hx & Hy & Hc). congruence.
    - exists false. split; [done|]. split; [done|]. intros [? _]. lia. }
  destruct (any_from_spec
              (λ i, any_from (inner i) 0 (Z.to_nat (Path.le p)))
              0 (Z.to_nat (Path.le p))) as (b & Hb & Hbs).
  { intros i Hi. apply any_from_total. intros j Hj.
    destruct (Hinner i j) as (c & Hc & _); [lia..|]. by eexists. }
  change (∃ b0, negb <$> any_from (λ i, any_from (inner i) 0
                                      (Z.to_nat (Path.le p)))
                              0 (Z.to_nat (Path.le p)) = Some b0
            ∧ (b0 = true ↔ consistent_list es (Path.getEdges p))).
  rewrite Hb. exists (negb b). split; [done|].
  split.
  - intros Hnb i j x y Hij Hx Hy.
    destruct (clash es x y) eqn:Hc; [|done]. exfalso.
    assert (b = true); [|by subst].
    apply Hbs. pose proof (lookup_lt_Some _ _ _ Hx). pose proof (lookup_lt_Some _ _ _ Hy).
    exists (Z.of_nat i). split; [lia|].
    destruct (any_from_spec (inner (Z.of_nat i)) 0 (Z.to_nat (Path.le p)))
      as (c & Hc' & Hcs).
    { intros k Hk. destruct (Hinner (Z.of_nat i) k) as (c & Hc' & _); [lia..|].
      by eexists. }
    rewrite Hc'. f_equal. apply Hcs. exists (Z.of_nat j). split; [lia|].
    destruct (Hinner (Z.of_nat i) (Z.of_nat j)) as (c' & Hc'' & Hcs'); [lia..|].
    rewrite Hc''. f_equal. apply Hcs'. split; [lia|]. exists x, y.
    by rewrite !Nat2Z.id.
  - intros Hcons. destruct b; [|done]. exfalso.
    destruct (proj1 Hbs eq_refl) as (i & Hi & Hrow).
    apply any_from_true in Hrow as (j & Hj & Hij).
    destruct (Hinner i j) as (c & Hc & Hcs); [lia..|].
    rewrite Hc in Hij. injection Hij as ->.
    destruct (proj1 Hcs eq_refl) as (Hlt & x & y & Hx & Hy & Hclash).
    rewrite (Hcons (Z.to_nat i) (Z.to_nat j) x y) in Hclash; [done|lia|done..].
Qed.

Lemma Path_inPath_spec es p ed x :
  0 ≤ Path.le p ≤ vec_size (Path.e p) → Edge.deref es ed = Some x →
  ∃ b, Path.inPath es p ed = Some b
    ∧ (b = true ↔ ∃ y, y ∈ Path.getEdges p ∧ (y = ed ∨ y = Edge.adjRef x)).
Proof.
  intros Hle Hx.
  destruct (Path_inPath_total es p ed) as [b Hb]; [done|by eexists|].
  exists b. split; [done|]. split.
  - intros ->. apply any_from_true in Hb as (k & Hk & Hfk). simpl in Hfk.
    apply bind_Some in Hfk as (y & Hy & Hfk).
    change (Path.nthE p k = Some y) in Hy.
    rewrite Path_nthE_getEdges in Hy by lia.
    exists y. split; [by eapply list_elem_of_lookup_2|].
    case_bool_decide; [by left|]. unfold Edge.getAdjRef in Hfk.
    rewrite Hx in Hfk. simpl in Hfk. injection Hfk as Hfk.
    apply bool_decide_eq_true in Hfk. by right.
  - intros (y & Hy & Hcase).
    rewrite (Path_inPath_true es p ed x) in Hb; [congruence|done|done|].
    destruct Hcase as [->| ->]; [by left|by right].
Qed.

Lemma Path_consistent_edge_spec es p edge x :
  Path_wf p → edges_live es (Path.getEdges p) →
  Edge.deref es edge = Some x →
  ∃ b p', Path.consistent_edge es p edge = Some (b, p')
    ∧ Path_wf p' ∧ Path_abs p' = Path_abs p
    ∧ (b = true ↔ consistent_list es (Path.getEdges p ++ [edge])).
Proof.
  intros Hwf Hlive Hx.
  pose proof Hwf as [(Hl & Hsz & Hint) (Hle & Hsze & Hinte)].
  assert (Hlen : length (Path.getEdges p) = Z.to_nat (Path.le p))
    by (apply Path_getEdges_length; lia).
  assert (Hlenv : length (Path.getVertices p) = Z.to_nat (Path.l p))
    by (apply Path_getVertices_length; lia).
  unfold Path.consistent_edge.
  destruct (Path_inPath_spec es p edge x) as (inp & Hinp & Hinps); [lia|done|].
  rewrite Hinp. cbn [mbind option_bind]. destruct inp.
  { exists false, p. split; [done|]. split; [done|]. split; [done|].
    split; [done|]. intros Hcons. exfalso.
    destruct (proj1 Hinps eq_refl) as (y & Hy & Hcase).
    apply list_elem_of_lookup in Hy as [i Hi].
    destruct (Hlive y) as [dy Hdy]; [by eapply list_elem_of_lookup_2|].
    pose proof (lookup_lt_Some _ _ _ Hi) as Hlt.
    specialize (Hcons i (length (Path.getEdges p)) y edge Hlt).
    rewrite lookup_app_l in Hcons by done.
    rewrite list_lookup_middle in Hcons by done.
    specialize (Hcons Hi eq_refl). unfold clash in Hcons.
    rewrite Hdy, Hx in Hcons.
    destruct Hcase as [->| ->].
    - rewrite (bool_decide_eq_true_2 (edge = edge)) in Hcons by done.
      by rewrite orb_true_r in Hcons.
    - rewrite (bool_decide_eq_true_2 (Edge.adjRef x = Edge.adjRef x)) in Hcons
        by done.
      by rewrite orb_true_r in Hcons. }
  destruct (Path_addEdge_spec p edge Hwf)
    as (p1 & -> & Hedges1 & Hle1 & Hsz1 & Hl1 & Hv1). cbn [mbind option_bind].
  unfold Edge.getAdj. rewrite Hx. cbn [fmap option_fmap option_map mbind option_bind].
  assert (Hwf1 : Path_wf (Path.mk (Path.l p1) (Path.le p) (Path.v p1) (Path.e p))).
  { unfold Path_wf. simpl. rewrite Hl1, Hv1. done. }
  destruct (Path_addVertex_spec _ (Edge.adj x) Hwf1)
    as (p2 & Hadd & Hverts2 & Hl2 & Hsz2 & _ & _).
  assert (Hadd2 : ∃ p2', Path.addVertex p1 (Edge.adj x) = Some p2'
            ∧ Path.getVertices p2' = Path.getVertices p ++ [Edge.adj x]
            ∧ Path.l p2' = Path.l p + 1 ∧ Path.l p2' ≤ vec_size (Path.v p2')
            ∧ Path.le p2' = Path.le p1 ∧ Path.e p2' = Path.e p1).
  { unfold Path.addVertex in *. simpl in Hadd.
    destruct (vec_set _ (Path.l p1) (Edge.adj x)) as [vv|] eqn:Hvv; [|done].
    simpl in *. injection Hadd as <-. eexists. split; [done|].
    unfold Path.getVertices in *. simpl in *.
    rewrite Hverts2, Hl1, Hv1. repeat split; try done; lia. }
  clear p2 Hadd Hverts2 Hl2 Hsz2.
  destruct Hadd2 as (p2 & -> & Hverts2 & Hl2 & Hsz2 & Hle2 & He2).
  cbn [mbind option_bind].
  assert (Hedges2 : Path.getEdges p2 = Path.getEdges p ++ [edge]).
  { unfold Path.getEdges in *. by rewrite Hle2, He2. }
  destruct (Path_consistent_spec es p2) as (r & Hr & Hrs).
  { rewrite Hle2, He2. lia. }
  { rewrite Hedges2. intros y [Hy| ->%list_elem_of_singleton]%elem_of_app;
      [by apply Hlive|by eexists]. }
  rewrite Hr. cbn [mbind option_bind].
  destruct (Path_removeEdge_spec p2) as (Hedges3 & Hle3 & Hsz3 & Hsz3' & Hl3 & Hv3).
  { rewrite Hle2, He2. lia. }
  { lia. }
  destruct (Path_removeVertex_spec (Path.removeEdge p2))
    as (Hverts4 & Hl4 & Hsz4 & Hsz4' & Hle4 & He4).
  { rewrite Hl3, Hv3. lia. }
  { rewrite Hl3. lia. }
  eexists _, _. split; [done|]. split; [|split].
  - unfold Path_wf. rewrite Hle4, He4. lia.
  - unfold Path_abs. f_equal.
    + rewrite Hverts4, Hl3.
      replace (Path.getVertices (Path.removeEdge p2)) with (Path.getVertices p2)
        by (unfold Path.getVertices; by rewrite Hl3, Hv3).
      rewrite Hverts2, Hl2. rewrite take_app_le by lia.
      apply take_ge. lia.
    + replace (Path.getEdges (Path.removeVertex (Path.removeEdge p2)))
        with (Path.getEdges (Path.removeEdge p2))
        by (unfold Path.getEdges; by rewrite Hle4, He4).
      rewrite Hedges3, Hedges2, Hle2, Hle1. rewrite take_app_le by lia.
      apply take_ge. lia.
  - by rewrite <-Hedges2.
Qed.

Lemma Path_of_vertex_spec v :
  ∃ p, Path.of_vertex v = Some p ∧ Path_wf p ∧ Path_abs p = ([v], []).
Proof.
  eexists. split; [reflexivity|]. split; [|reflexivity].
  unfold Path_wf, vec_size. simpl. lia.
Qed.

Lemma Path_plus_vertex_spec p a :
  Path_wf p → Path.l p + 1 < 2 ^ 31 →
  ∃ q, Path.plus_vertex p a = Some q ∧ Path_wf q
    ∧ Path_abs q = ((Path_abs p).1 ++ [a], (Path_abs p).2).
Proof.
  intros Hwf Hint. pose proof Hwf as [(Hl & Hsz & _) He].
  destruct (Path_addVertex_spec p a Hwf) as (q & Hq & Hverts & Hl' & Hsz' & Hle' & He').
  exists q. split; [done|]. split.
  - unfold Path_wf. rewrite Hle', He'. split; [|done]. lia.
  - unfold Path_abs. simpl. rewrite Hverts. f_equal.
    unfold Path.getEdges. by rewrite Hle', He'.
Qed.

Lemma Path_plus_edge_spec p e :
  Path_wf p → Path.le p + 1 < 2 ^ 31 →
  ∃ q, Path.plus_edge p e = Some q ∧ Path_wf q
    ∧ Path_abs q = ((Path_abs p).1, (Path_abs p).2 ++ [e]).
Proof.
  intros Hwf Hint. pose proof Hwf as [Hv (Hle & Hsz & _)].
  destruct (Path_addEdge_spec p e Hwf) as (q & Hq & Hedges & Hle' & Hsz' & Hl' & Hv').
  exists q. split; [done|]. split.
  - unfold Path_wf. rewrite Hl', Hv'. split; [done|]. lia.
  - unfold Path_abs. simpl. rewrite Hedges. f_equal.
    unfold Path.getVertices. by rewrite Hl', Hv'.
Qed.

Lemma Path_last_abs p :
  Path_wf p → 1 ≤ Path.l p → Path.last p = last (Path.getVertices p).
Proof.
  intros [(Hl & Hsz & _) _] H1. rewrite last_lookup.
  rewrite Path_getVertices_length by lia.
  change (Path.last p) with (Path.nth p (Path.l p - 1)).
  rewrite Path_nth_getVertices by lia. f_equal. lia.
Qed.

Lemma Path_first_abs p :
  Path_wf p → 1 ≤ Path.l p → Path.first p = head (Path.getVertices p).
Proof.
  intros [(Hl & Hsz & _) _] H1. rewrite head_lookup.
  change (Path.first p) with (Path.nth p 0).
  by rewrite Path_nth_getVertices by lia.
Qed.

Lemma Path_firstE_abs p :
  Path_wf p → 1 ≤ Path.le p → Path.firstE p = head (Path.getEdges p).
Proof.
  intros [_ (Hl & Hsz & _)] H1. rewrite head_lookup.
  change (Path.firstE p) with (Path.nthE p 0).
  by rewrite Path_nthE_getEdges by lia.
Qed.

Lemma Edge_gt_total es x y :
  is_Some (Edge.deref es x) → is_Some (Edge.deref es y) →
  is_Some (Edge.gt es x y).
Proof.
  intros Hx Hy. unfold Edge.gt, Edge.le. destruct Hy as [dy Hdy].
  rewrite Hdy. cbn [mbind option_bind].
  destruct (bool_decide (x = y) || bool_decide (x = Edge.adjRef dy));
    [by eexists|].
  rewrite Edge_lt_total by (done || by eexists). by eexists.
Qed.

Lemma try_edge_spec es len i e de p newlist vs eps :
  Path_wf p → Path_abs p = (vs, eps) →
  length vs = S (length eps) → (length vs < 1000)%nat →
  edges_live es eps → Edge.deref es e = Some de →
  (i = len - 1 → eps ≠ []) →
  Forall Path_wf newlist →
  ∃ p' newlist',
    CyclesGraph.try_edge es len i e (p, newlist) = Some (p', newlist')
    ∧ Path_wf p' ∧ Path_abs p' = (vs, eps) ∧ Forall Path_wf newlist'
    ∧ (∀ q, q ∈ map Path_abs newlist'
         ↔ q ∈ map Path_abs newlist ∨ accepts es len i vs eps e q).
Proof.
  intros Hwf Habs Hlen Hsmall Hlive Hde Hlast Hnew.
  injection Habs as Hvs Heps.
  unfold CyclesGraph.try_edge.
  destruct (Path_consistent_edge_spec es p e de) as (b & p' & Hrun & Hwf' & Habs' & Hb);
    [done|by rewrite Heps|done|].
  rewrite Hrun. cbn [mbind option_bind]. rewrite Heps in Hb.
  injection Habs' as Hvs' Heps'. rewrite Hvs in Hvs'. rewrite Heps in Heps'.
  pose proof Hwf' as [(Hl & Hsz & Hint) (Hle & Hsze & Hinte)].
  assert (Hl' : Path.l p' = Z.of_nat (length vs)).
  { rewrite <-Hvs', Path_getVertices_length by lia. lia. }
  assert (Hle' : Path.le p' = Z.of_nat (length eps)).
  { rewrite <-Heps', Path_getEdges_length by lia. lia. }
  destruct b; cbn [negb].
  2: { exists p', newlist. split; [done|]. split; [done|].
       split; [by rewrite <-Hvs', <-Heps'|]. split; [done|].
       intros q. split; [by left|]. intros [|[Hc _]]; [done|].
       by apply Hb in Hc. }
  assert (Hcons : consistent_list es (eps ++ [e])) by (by apply Hb).
  destruct vs as [|f0 vs0] eqn:Hvs0; [done|]. rewrite <-Hvs0 in *.
  assert (Hhead : head vs = Some f0) by (by rewrite Hvs0).
  unfold Path.isCycle_with, Path.len, Path.lenE, Edge.getAdj.
  rewrite (bool_decide_eq_true_2 (Path.l p' = Path.le p' + 1)) by lia.
  rewrite Hde. cbn [fmap option_fmap option_map mbind option_bind].
  rewrite Path_first_abs by (done || lia). rewrite Hvs', Hhead.
  cbn [mbind option_bind].
  assert (Hcyc : (if bool_decide (Edge.adj de = f0) then Some true else Some false)
                 = Some (bool_decide (Edge.adj de = f0)))
    by (by case_bool_decide).
  rewrite Hcyc. cbn [mbind option_bind].
  destruct (bool_decide (i < len - 1) && negb (bool_decide (Edge.adj de = f0)))
    eqn:Hfirst.
  - apply andb_true_iff in Hfirst as [Hi%bool_decide_eq_true Hnc%negb_true_iff].
    apply bool_decide_eq_false in Hnc.
    destruct (Path_plus_vertex_spec p' (Edge.adj de)) as (q1 & Hq1 & Hwf1 & Habs1);
      [done|lia|].
    rewrite Hq1. cbn [mbind option_bind].
    destruct (Path_plus_edge_spec q1 e) as (q2 & Hq2 & Hwf2 & Habs2); [done| |].
    { assert (Path.getEdges q1 = eps) as Hq1e
        by (injection Habs1 as _ Hq1e; by rewrite Hq1e).
      destruct Hwf1 as [_ (? & ? & ?)].
      assert (length (Path.getEdges q1) = Z.to_nat (Path.le q1))
        by (apply Path_getEdges_length; lia).
      rewrite Hq1e in *. lia. }
    rewrite Hq2. cbn [mbind option_bind].
    exists p', (q2 :: newlist). split; [done|]. split; [done|].
    split; [by rewrite <-Hvs', <-Heps'|]. split; [by constructor|].
    assert (Hq2abs : Path_abs q2 = (vs ++ [Edge.adj de], eps ++ [e])).
    { rewrite Habs2, Habs1. unfold Path_abs. simpl. by rewrite Hvs', Heps'. }
    intros q. rewrite fmap_cons, elem_of_cons, Hq2abs. split.
    + intros [->|Hq]; [|by left]. right. split; [done|].
      exists de, f0. split; [done|]. split; [done|]. left. done.
    + intros [Hq|[_ (de' & f0' & Hde' & Hf0' & Hcase)]]; [by right|].
      assert (de' = de) as -> by congruence.
      assert (f0' = f0) as -> by congruence.
      destruct Hcase as [(_ & _ & ->)|(Hi' & _)]; [by left|lia].
  - destruct (bool_decide (i = len - 1) && bool_decide (Edge.adj de = f0))
      eqn:Hsecond.
    + apply andb_true_iff in Hsecond as [Hi%bool_decide_eq_true Hc%bool_decide_eq_true].
      destruct eps as [|f eps0] eqn:Heps0; [by destruct (Hlast Hi)|].
      rewrite <-Heps0 in *.
      assert (Hheade : head eps = Some f) by (by rewrite Heps0).
      rewrite Path_firstE_abs by (done || (rewrite Hle', Heps0; simpl; lia)).
      rewrite Heps', Hheade. cbn [mbind option_bind].
      destruct (Edge_gt_total es e f) as [above Habove]; [by eexists| |].
      { apply Hlive. rewrite Heps0. by left. }
      rewrite Habove. cbn [mbind option_bind]. destruct above.
      * destruct (Path_plus_edge_spec p' e) as (q2 & Hq2 & Hwf2 & Habs2);
          [done|lia|].
        rewrite Hq2. cbn [mbind option_bind].
        exists p', (q2 :: newlist). split; [done|]. split; [done|].
        split; [by rewrite <-Hvs', <-Heps'|]. split; [by constructor|].
        assert (Hq2abs : Path_abs q2 = (vs, eps ++ [e])).
        { rewrite Habs2. unfold Path_abs. simpl. by rewrite Hvs', Heps'. }
        intros q. rewrite fmap_cons, elem_of_cons, Hq2abs. split.
        -- intros [->|Hq]; [|by left]. right. split; [done|].
           exists de, f0. split; [done|]. split; [done|]. right.
           split; [done|]. split; [done|]. by exists f.
        -- intros [Hq|[_ (de' & f0' & Hde' & Hf0' & Hcase)]]; [by right|].
           assert (de' = de) as -> by congruence.
           assert (f0' = f0) as -> by congruence.
           destruct Hcase as [(Hi' & _)|(_ & _ & f' & _ & _ & ->)];
             [lia|by left].
      * exists p', newlist. split; [done|]. split; [done|].
        split; [by rewrite <-Hvs', <-Heps'|]. split; [done|].
        intros q. split; [by left|].
        intros [Hq|[_ (de' & f0' & Hde' & Hf0' & Hcase)]]; [done|].
        assert (de' = de) as -> by congruence.
        assert (f0' = f0) as -> by congruence.
        destruct Hcase as [(Hi' & _)|(_ & _ & f' & Hf' & Hgt & _)]; [lia|].
        congruence.
    + exists p', newlist. split; [done|]. split; [done|].
      split; [by rewrite <-Hvs', <-Heps'|]. split; [done|].
      intros q. split; [by left|].
      intros [Hq|[_ (de' & f0' & Hde' & Hf0' & Hcase)]]; [done|].
      assert (de' = de) as -> by congruence.
      assert (f0' = f0) as -> by congruence.
      apply andb_false_iff in Hfirst. apply andb_false_iff in Hsecond.
      destruct Hcase as [(Hi' & Hne & _)|(Hi' & Heq & _)].
      * destruct Hfirst as [Hf|Hf].
        -- apply bool_decide_eq_false in Hf. lia.
        -- apply negb_false_iff, bool_decide_eq_true in Hf. done.
      * destruct Hsecond as [Hf|Hf]; apply bool_decide_eq_false in Hf; done.
Qed.

Lemma extend_spec h len i p newlist vs eps la x :
  edges_closed h → Path_wf p → Path_abs p = (vs, eps) →
  length vs = S (length eps) → (length vs < 1000)%nat →
  edges_live (Heap.es h) eps → last vs = Some la → Heap.vertex h la = Some x →
  (i = len - 1 → eps ≠ []) → Forall Path_wf newlist →
  ∃ newlist',
    CyclesGraph.extend h len i p newlist = Some newlist'
    ∧ Forall Path_wf newlist'
    ∧ (∀ q, q ∈ map Path_abs newlist'
         ↔ q ∈ map Path_abs newlist
           ∨ ∃ e, e ∈ Vertex.edges x ∧ accepts (Heap.es h) len i vs eps e q).
Proof.
  intros Hclosed Hwf Habs Hlen Hsmall Hlive Hla Hx Hlast Hnew.
  unfold CyclesGraph.extend.
  pose proof Habs as Habs'. injection Habs' as Hvs Heps.
  assert (Hl : 1 ≤ Path.l p).
  { destruct Hwf as [(? & ? & ?) _].
    assert (length (Path.getVertices p) = Z.to_nat (Path.l p))
      by (apply Path_getVertices_length; lia).
    rewrite Hvs in *. lia. }
  rewrite Path_last_abs by done. rewrite Hvs, Hla. cbn [mbind option_bind].
  rewrite Hx. cbn [mbind option_bind].
  destruct (for_each_inv
              (λ done (s : Path.t * list Path.t),
                 Path_wf s.1 ∧ Path_abs s.1 = (vs, eps) ∧ Forall Path_wf s.2
                 ∧ ∀ q, q ∈ map Path_abs s.2
                     ↔ q ∈ map Path_abs newlist
                       ∨ ∃ e, e ∈ done ∧ accepts (Heap.es h) len i vs eps e q)
              (CyclesGraph.try_edge (Heap.es h) len i) (Vertex.edges x)
              (p, newlist))
    as ([p' newlist'] & Hrun & Hwf' & Habs'' & Hnew' & Hq).
  - split; [done|]. split; [done|]. split; [done|]. intros q.
    split; [by left|]. intros [|(e & He & _)]; [done|].
    by apply elem_of_nil in He.
  - intros done e rest [p1 nl1] Hxs (Hwf1 & Habs1 & Hnl1 & Hq1). simpl in *.
    destruct (Hclosed la x e Hx) as (de & Hde & _).
    { rewrite Hxs. apply elem_of_app. right. by left. }
    destruct (try_edge_spec (Heap.es h) len i e de p1 nl1 vs eps)
      as (p2 & nl2 & Hrun2 & Hwf2 & Habs2 & Hnl2 & Hq2); [done..|].
    exists (p2, nl2). split; [done|]. simpl.
    split; [done|]. split; [done|]. split; [done|].
    intros q. rewrite Hq2, Hq1. split.
    + intros [[Hq|(e' & He' & Ha)]|Ha]; [by left| |].
      * right. exists e'. split; [|done]. apply elem_of_app. by left.
      * right. exists e. split; [|done]. apply elem_of_app. right.
        by apply list_elem_of_singleton.
    + intros [Hq|(e' & [He'|He']%elem_of_app & Ha)]; [by left; left| |].
      * left. right. by exists e'.
      * apply list_elem_of_singleton in He' as ->. by right.
  - rewrite Hrun. cbn [mbind option_bind]. exists newlist'.
    split; [done|]. split; [done|]. done.
Qed.

Lemma reach_ok h len v k vs eps :
  edges_closed h → is_Some (Heap.vertex h v) →
  reach h len v k (vs, eps) → Z.of_nat k ≤ len - 1 →
  length vs = S k ∧ length eps = k ∧ edges_live (Heap.es h) eps
  ∧ head vs = Some v
  ∧ ∃ la x, last vs = Some la ∧ Heap.vertex h la = Some x.
Proof.
  intros Hclosed [x0 Hx0] Hreach. remember (vs, eps) as q eqn:Hq.
  revert vs eps Hq. induction Hreach as [|i vs0 eps0 la x e q Hreach IH Hla Hx He Hacc];
    intros vs eps Hq Hk.
  - injection Hq as <- <-. split; [done|]. split; [done|].
    split; [by intros y ?%elem_of_nil|]. split; [done|]. by exists v, x0.
  - destruct (IH vs0 eps0 eq_refl) as (Hlv & Hle & Hlive & Hhd & _); [lia|].
    destruct Hacc as (_ & de & f0 & Hde & Hf0 & [(Hi & Hne & ->)|(Hi & _)]);
      [|lia].
    injection Hq as <- <-. rewrite !length_app. simpl.
    split; [lia|]. split; [lia|]. split.
    + intros y [Hy| ->%list_elem_of_singleton]%elem_of_app;
        [by apply Hlive|by eexists].
    + split; [by destruct vs0|].
      destruct (Hclosed la x e Hx He) as (de' & Hde' & [xa Hxa]).
      assert (de' = de) as -> by (unfold Heap.edge in Hde'; congruence).
      exists (Edge.adj de), xa. by rewrite last_snoc.
Qed.

Lemma round_spec h len v k paths :
  edges_closed h → is_Some (Heap.vertex h v) → 2 ≤ len < 1000 →
  Z.of_nat k ≤ len - 1 → Forall Path_wf paths →
  (∀ q, q ∈ map Path_abs paths ↔ reach h len v k q) →
  ∃ paths',
    CyclesGraph.round h len (Z.of_nat k) paths = Some paths'
    ∧ Forall Path_wf paths'
    ∧ (∀ q, q ∈ map Path_abs paths' ↔ reach h len v (S k) q).
Proof.
  intros Hclosed Hv Hlen Hk Hwf Hreach. unfold CyclesGraph.round.
  destruct (for_each_inv
              (λ done (nl : list Path.t),
                 Forall Path_wf nl
                 ∧ ∀ q, q ∈ map Path_abs nl
                     ↔ ∃ p la x e, p ∈ done
                         ∧ last (Path_abs p).1 = Some la
                         ∧ Heap.vertex h la = Some x ∧ e ∈ Vertex.edges x
                         ∧ accepts (Heap.es h) len (Z.of_nat k)
                                   (Path_abs p).1 (Path_abs p).2 e q)
              (CyclesGraph.extend h len (Z.of_nat k)) paths [])
    as (paths' & Hrun & Hwf' & Hq).
  - split; [done|]. intros q. split; [by intros ?%elem_of_nil|].
    intros (p & ? & ? & ? & Hp & _). by apply elem_of_nil in Hp.
  - intros done p rest nl Hpaths (Hnl & Hq).
    assert (Hp : p ∈ paths).
    { rewrite Hpaths. apply elem_of_app. right. by left. }
    assert (Hr : reach h len v k (Path_abs p)).
    { apply Hreach. by apply list_elem_of_fmap_2. }
    destruct (Path_abs p) as [vs eps] eqn:Habs.
    destruct (reach_ok h len v k vs eps Hclosed Hv Hr Hk)
      as (Hlv & Hle & Hlive & Hhd & la & x & Hla & Hx).
    destruct (extend_spec h len (Z.of_nat k) p nl vs eps la x)
      as (nl' & Hrun & Hnl' & Hq');
      [done|by rewrite Forall_forall in Hwf; apply Hwf|done|lia|lia|done
      |done|done| |done|].
    { intros Hlast ->. simpl in Hle. lia. }
    exists nl'. split; [done|]. split; [done|].
    intros q. rewrite Hq', Hq. split.
    + intros [(p1 & la1 & x1 & e1 & Hp1 & Hrest)|(e & He & Hacc)].
      * exists p1, la1, x1, e1. split; [|done]. apply elem_of_app. by left.
      * exists p, la, x, e. rewrite Habs. simpl. split; [|done].
        apply elem_of_app. right. by apply list_elem_of_singleton.
    + intros (p1 & la1 & x1 & e1 & [Hp1|Hp1]%elem_of_app & Hla1 & Hx1 & He1 & Hacc).
      * left. by exists p1, la1, x1, e1.
      * apply list_elem_of_singleton in Hp1 as ->. rewrite Habs in *.
        simpl in *. right. exists e1. split; [|done].
        assert (la1 = la) as -> by congruence.
        assert (x1 = x) as -> by congruence. done.
  - exists paths'. split; [done|]. split; [done|]. intros q. rewrite Hq.
    split.
    + intros (p & la & x & e & Hp & Hla & Hx & He & Hacc).
      apply (reach_S h len v k (Path_abs p).1 (Path_abs p).2 la x e q);
        try done.
      apply Hreach. rewrite <-surjective_pairing.
      by apply list_elem_of_fmap_2.
    + intros Hr. inversion Hr as [|i vs eps la x e q' Hr' Hla Hx He Hacc]; subst.
      apply Hreach in Hr'. apply list_elem_of_fmap in Hr' as (p & Habs & Hp).
      exists p, la, x, e. rewrite <-Habs. simpl. done.
Qed.

Lemma reach_live h len v k vs eps :
  reach h len v k (vs, eps) → edges_live (Heap.es h) eps.
Proof.
  intros Hreach. remember (vs, eps) as q eqn:Hq. revert vs eps Hq.
  induction Hreach as [|i vs0 eps0 la x e q Hreach IH Hla Hx He Hacc];
    intros vs eps Hq.
  - injection Hq as <- <-. by intros y ?%elem_of_nil.
  - specialize (IH vs0 eps0 eq_refl).
    assert (∃ de, Edge.deref (Heap.es h) e = Some de ∧ eps = eps0 ++ [e])
      as (de & Hde & ->).
    { destruct Hacc as (_ & de & f0 & Hde & Hf0 & [(_ & _ & ->)|(_ & _ & f & _ & _ & ->)]);
        injection Hq as <- <-; by exists de. }
    intros y [Hy| ->%list_elem_of_singleton]%elem_of_app;
      [by apply IH|by eexists].
Qed.

Lemma rounds_spec h len v p0 :
  edges_closed h → is_Some (Heap.vertex h v) → 2 ≤ len < 1000 →
  Path_wf p0 → Path_abs p0 = ([v], []) →
  ∃ paths,
    for_range (CyclesGraph.round h len) 0 (Z.to_nat len) [p0] = Some paths
    ∧ Forall Path_wf paths
    ∧ (∀ q, q ∈ map Path_abs paths ↔ reach h len v (Z.to_nat len) q).
Proof.
  intros Hclosed Hv Hlen Hwf Habs.
  destruct (for_range_inv
              (λ k (paths : list Path.t),
                 0 ≤ k ∧ Forall Path_wf paths
                 ∧ ∀ q, q ∈ map Path_abs paths ↔ reach h len v (Z.to_nat k) q)
              (CyclesGraph.round h len) 0 (Z.to_nat len) [p0])
    as (paths & Hrun & _ & Hwf' & Hq).
  - split; [done|]. split; [by constructor|]. intros q. simpl. rewrite Habs.
    rewrite list_elem_of_singleton. split; [intros ->; constructor|].
    by inversion 1.
  - intros k paths Hk (_ & Hwfk & Hqk).
    destruct (round_spec h len v (Z.to_nat k) paths)
      as (paths' & Hrun & Hwf' & Hq'); [done|done|done|lia|done|done|].
    rewrite Z2Nat.id in Hrun by lia. exists paths'. split; [done|].
    split; [lia|]. split; [done|].
    by replace (Z.to_nat (k + 1)) with (S (Z.to_nat k)) by lia.
  - exists paths. split; [done|]. split; [done|].
    by replace (0 + Z.of_nat (Z.to_nat len)) with len in Hq by lia.
Qed.

Lemma keep_new_eq es c sigs cycles s :
  Path.signature es c = Some s →
  CyclesGraph.keep_new es c (sigs, cycles)
  = if bool_decide (s ∈ sigs) then Some (sigs, cycles)
    else Some (s :: sigs, c :: cycles).
Proof. unfold CyclesGraph.keep_new. by intros ->. Qed.

Lemma keep_new_loop h len s v paths : ∀ st,
  Forall Path_wf paths →
  (∀ c, c ∈ paths → reach h len v (Z.to_nat len) (Path_abs c)) →
  (∀ c, c ∈ paths → Path.signature (Heap.es h) c = Some s) →
  kept h len s st →
  ∃ st', for_each (CyclesGraph.keep_new (Heap.es h)) paths st = Some st'
    ∧ kept h len s st'
    ∧ (st ≠ ([], []) ∨ paths ≠ [] → st' ≠ ([], [])).
Proof.
  induction paths as [|c paths IH]; intros st Hwf Hreach Hsig Hst.
  - exists st. split; [done|]. split; [done|]. by intros [|].
  - cbn [for_each]. destruct st as [sigs cycles].
    rewrite (keep_new_eq _ _ _ _ s) by (apply Hsig; by left).
    assert (∃ st1, (if bool_decide (s ∈ sigs) then Some (sigs, cycles)
                    else Some (s :: sigs, c :: cycles)) = Some st1
              ∧ kept h len s st1 ∧ st1 ≠ ([], [])) as (st1 & -> & Hst1 & Hne).
    { destruct Hst as [[= -> ->]|(c0 & v0 & [= -> ->] & Hc0)].
      - rewrite bool_decide_eq_false_2 by apply not_elem_of_nil.
        eexists. split; [done|]. split; [|done]. right. exists c, v.
        split; [done|]. split; [by eapply Forall_inv|]. apply Hreach. by left.
      - rewrite bool_decide_eq_true_2 by (by left).
        eexists. split; [done|]. split; [|done]. right. by exists c0, v0. }
    cbn [mbind option_bind].
    destruct (IH st1) as (st' & Hrun & Hst' & Hne');
      [by eapply Forall_inv_tail| | |done|].
    { intros c' Hc'. apply Hreach. by right. }
    { intros c' Hc'. apply Hsig. by right. }
    exists st'. split; [done|]. split; [done|]. intros _. apply Hne'.
    by left.
Qed.

Lemma from_vertex_spec h len s v st :
  edges_closed h → is_Some (Heap.vertex h v) → 2 ≤ len < 1000 →
  (∀ vs eps, reach h len v (Z.to_nat len) (vs, eps) →
     signature_of (Heap.es h) eps = Some s) →
  kept h len s st →
  ∃ st', CyclesGraph.from_vertex h len v st = Some st'
    ∧ kept h len s st'
    ∧ (st ≠ ([], []) ∨ (∃ q, reach h len v (Z.to_nat len) q) →
       st' ≠ ([], [])).
Proof.
  intros Hclosed Hv Hlen Hsig Hst. unfold CyclesGraph.from_vertex.
  destruct (Path_of_vertex_spec v) as (p0 & -> & Hwf0 & Habs0).
  cbn [mbind option_bind].
  destruct (rounds_spec h len v p0) as (paths & -> & Hwf & Hq); [done..|].
  cbn [mbind option_bind].
  destruct (keep_new_loop h len s v paths st) as (st' & Hrun & Hst' & Hne);
    [done| | |done|].
  { intros c Hc. apply Hq. by apply list_elem_of_fmap_2. }
  { intros c Hc.
    assert (Hr : reach h len v (Z.to_nat len) (Path_abs c))
      by (apply Hq; by apply list_elem_of_fmap_2).
    rewrite Path_signature_refines.
    - apply (Hsig (Path.getVertices c)). exact Hr.
    - rewrite Forall_forall in Hwf. by apply Hwf.
    - by eapply reach_live. }
  exists st'. split; [done|]. split; [done|].
  intros [Hst0|(q & Hr)]; apply Hne; [by left|]. right. apply Hq in Hr.
  apply list_elem_of_fmap in Hr as (c & _ & Hc). intros ->.
  by apply elem_of_nil in Hc.
Qed.

Section iteration.
Variables (h : Heap.t) (g : Graph.t).
Hypothesis Hsize : vec_size (Graph.vertices g) = Graph.maxn g.
Hypothesis Hslots : Graph_slots_ok h g.

Lemma selected_spec part id :
  0 ≤ id < Graph.maxn g →
  ∃ b, Graph.selected h g part (-1) id = Some b
    ∧ (b = true ↔ ∃ v x, vec_get (Graph.vertices g) id = Some v ∧ v ≠ NULL
                     ∧ Heap.vertex h v = Some x
                     ∧ (part = -1 ∨ part = Vertex.part x)).
Proof.
  intros Hid. unfold Graph.selected.
  destruct (vec_get_is_Some (Graph.vertices g) id) as [v Hv]; [lia|].
  rewrite Hv. cbn [mbind option_bind].
  rewrite (bool_decide_eq_true_2 (-1 = -1)) by done.
  case_bool_decide as Hnull.
  - destruct (Hslots id v Hv Hnull) as (x & Hx & _). rewrite Hx.
    cbn [mbind option_bind]. case_bool_decide as Hpart.
    + exists true. split; [done|]. split; [|done]. intros _.
      exists v, x. by auto.
    + cbn [mbind option_bind]. exists (bool_decide (part = Vertex.part x)).
      split; [by case_bool_decide|].
      case_bool_decide as Hp; split; try done.
      * intros _. exists v, x. by auto.
      * intros (v' & x' & Hv' & _ & Hx' & [?|Hp']); [done|].
        assert (v' = v) as -> by congruence.
        assert (x' = x) as -> by congruence. done.
  - exists false. split; [done|]. split; [done|].
    intros (v' & x' & Hv' & Hne & _). congruence.
Qed.

Lemma scan_spec part fuel : ∀ id,
  0 ≤ id → Graph.maxn g - id ≤ Z.of_nat fuel →
  ∃ id', Graph.scan h g part (-1) id fuel = Some id'
    ∧ id ≤ id' ∧ (id ≤ Graph.maxn g → id' ≤ Graph.maxn g)
    ∧ (∀ j, id ≤ j < id' → Graph.selected h g part (-1) j = Some false)
    ∧ (id' < Graph.maxn g → Graph.selected h g part (-1) id' = Some true).
Proof.
  induction fuel as [|fuel IH]; intros id Hid Hfuel.
  - simpl. rewrite bool_decide_eq_false_2 by lia. exists id.
    split; [done|]. split; [lia|]. split; [lia|]. split; [intros; lia|lia].
  - simpl. case_bool_decide as Hlt.
    + destruct (selected_spec part id) as (b & Hb & _); [lia|].
      rewrite Hb. cbn [mbind option_bind]. destruct b.
      * exists id. split; [done|]. split; [lia|]. split; [lia|].
        split; [intros; lia|done].
      * destruct (IH (id + 1)) as (id' & Hrun & Hle & Hmax & Hfalse & Htrue);
          [lia|lia|].
        exists id'. split; [done|]. split; [lia|]. split; [lia|].
        split; [|done]. intros j Hj.
        destruct (decide (j = id)) as [->|]; [done|]. apply Hfalse. lia.
    + exists id. split; [done|]. split; [lia|]. split; [lia|].
      split; [intros; lia|lia].
Qed.

Lemma visited_spec part fuel : ∀ id,
  0 ≤ id ≤ Graph.maxn g →
  (id < Graph.maxn g → Graph.selected h g part (-1) id = Some true) →
  Graph.maxn g - id + 1 ≤ Z.of_nat fuel →
  ∃ L, Graph.visited h g (Graph.mk_iterator id part (-1)) fuel = Some L
    ∧ ∀ v, v ∈ L ↔ ∃ j, id ≤ j < Graph.maxn g
                    ∧ Graph.selected h g part (-1) j = Some true
                    ∧ vec_get (Graph.vertices g) j = Some v.
Proof.
  induction fuel as [|fuel IH]; intros id Hid Hsel Hfuel; [lia|].
  cbn [Graph.visited]. unfold Graph.differ, Graph.end_.
  cbn [Graph.cur]. case_bool_decide as Hend.
  - unfold Graph.get, Graph.next. cbn [Graph.cur Graph.it_part Graph.it_family].
    destruct (vec_get_is_Some (Graph.vertices g) id) as [v Hv]; [lia|].
    rewrite Hv. cbn [mbind option_bind].
    destruct (scan_spec part (Z.to_nat (Graph.maxn g - (id + 1))) (id + 1))
      as (id' & Hrun & Hle & Hmax & Hfalse & Htrue); [lia|lia|].
    rewrite Hrun. cbn [mbind option_bind].
    destruct (IH id') as (L & HL & HLs); [lia|done|lia|].
    rewrite HL. cbn [mbind option_bind]. exists (v :: L). split; [done|].
    intros w. rewrite elem_of_cons, HLs. split.
    + intros [->|(j & Hj & Hsj & Hvj)].
      * exists id. split; [lia|]. split; [apply Hsel; lia|done].
      * exists j. split; [lia|done].
    + intros (j & Hj & Hsj & Hvj).
      destruct (decide (j = id)) as [->|Hne]; [left; congruence|].
      right. exists j. split; [|done].
      destruct (decide (j < id')) as [Hlt|]; [|lia].
      rewrite Hfalse in Hsj by lia. done.
  - exists []. split; [done|]. intros w. split; [by intros ?%elem_of_nil|].
    intros (j & Hj & _). lia.
Qed.

Lemma starts_spec p0 :
  first_part h g p0 →
  ∃ it v x starts,
    Graph.begin_ h g = Some it ∧ Graph.get g it = Some v
    ∧ Heap.vertex h v = Some x ∧ p0 = to_char (Vertex.getPart x)
    ∧ ∃ it', Graph.begin_part h g p0 = Some it'
        ∧ Graph.range h g it' = Some starts
        ∧ ∀ w, w ∈ starts ↔ start_vertex h g p0 w.
Proof.
  intros (i & v & x & Hi & Hv & Hnull & Hx & Hbefore & Hp0).
  pose proof (vec_get_Some _ _ _ Hv) as [Hrange _]. rewrite Hsize in Hrange.
  pose proof (vec_size_nonneg (Graph.vertices g)) as Hnn.
  unfold Graph.begin_, Graph._begin.
  destruct (scan_spec (-1) (Z.to_nat (Graph.maxn g - 0)) 0)
    as (i0 & Hrun & Hle & Hmax & Hfalse & Htrue); [lia|lia|].
  assert (i0 = i) as ->.
  { destruct (decide (i0 < i)) as [Hlt|Hge].
    - exfalso. specialize (Htrue ltac:(lia)). unfold Graph.selected in Htrue.
      rewrite Hbefore in Htrue by lia. cbn [mbind option_bind] in Htrue.
      by rewrite bool_decide_eq_false_2 in Htrue by (by intros []).
    - destruct (decide (i < i0)) as [Hlt|]; [|lia]. exfalso.
      specialize (Hfalse i ltac:(lia)). unfold Graph.selected in Hfalse.
      rewrite Hv in Hfalse. cbn [mbind option_bind] in Hfalse.
      rewrite bool_decide_eq_true_2 in Hfalse by done.
      by rewrite !bool_decide_eq_true_2 in Hfalse by done. }
  rewrite Hrun. cbn [mbind option_bind].
  destruct (scan_spec p0 (Z.to_nat (Graph.maxn g - 0)) 0)
    as (i1 & Hrun1 & Hle1 & Hmax1 & Hfalse1 & Htrue1); [lia|lia|].
  destruct (visited_spec p0 (Z.to_nat (Graph.maxn g) + 1) i1)
    as (L & HL & HLs); [lia|done|lia|].
  exists (Graph.mk_iterator i (-1) (-1)), v, x, L.
  split; [done|]. split; [exact Hv|]. split; [done|]. split; [done|].
  unfold Graph.begin_part, Graph._begin.
  rewrite Hrun1. cbn [mbind option_bind]. eexists. split; [done|].
  unfold Graph.range.
  rewrite HL. split; [done|]. intros w. rewrite HLs. split.
  - intros (j & Hj & Hsj & Hvj).
    destruct (selected_spec p0 j) as (b & Hb & Hbs); [lia|].
    assert (b = true) as -> by congruence.
    destruct (proj1 Hbs eq_refl) as (v' & x' & Hv' & Hne & Hx' & Hp).
    assert (v' = w) as -> by congruence. by exists j, x'.
  - intros (j & x' & Hvj & Hne & Hx' & Hp).
    pose proof (vec_get_Some _ _ _ Hvj) as [Hj _]. rewrite Hsize in Hj.
    exists j. split.
    + split; [|lia]. destruct (decide (i1 ≤ j)) as [|Hgt]; [done|]. exfalso.
      destruct (selected_spec p0 j) as (b & Hb & Hbs); [lia|].
      rewrite Hfalse1 in Hb by lia. injection Hb as <-.
      assert (false = true); [|done]. apply Hbs. by exists w, x'.
    + split; [|done].
      destruct (selected_spec p0 j) as (b & Hb & Hbs); [lia|].
      rewrite Hb. f_equal. apply Hbs. by exists w, x'.
Qed.

End iteration.

Lemma cycles_spec h ag s p0 t0 :
  (Graph.getN ag ÷ 2) * (Graph.getN ag ÷ 2) < 2 ^ 31 →
  vec_size (Graph.vertices ag) = Graph.maxn ag → Graph_slots_ok h ag →
  edges_closed h → first_part h ag p0 → start_vertex h ag p0 t0 →
  (∀ v vs eps, start_vertex h ag p0 v → reach h 3 v 3 (vs, eps) →
     signature_of (Heap.es h) eps = Some s) →
  (∃ q, reach h 3 t0 3 q) →
  ∃ c v, CyclesGraph.cycles h ag 3 = Some [c] ∧ Path_wf c
    ∧ reach h 3 v 3 (Path_abs c).
Proof.
  intros Hn Hsize Hslots Hclosed Hfirst Ht0 Hsig Hreach.
  destruct (starts_spec h ag Hsize Hslots p0 Hfirst)
    as (it & v0 & x0 & starts & Hit & Hv0 & Hx0 & Hp0 & it' & Hit' & Hstarts & Hs).
  unfold CyclesGraph.cycles. rewrite bool_decide_eq_false_2 by lia.
  rewrite Hit. cbn [mbind option_bind].
  rewrite Hv0. cbn [mbind option_bind]. rewrite Hx0. cbn [mbind option_bind].
  rewrite <-Hp0, Hit'. cbn [mbind option_bind]. rewrite Hstarts.
  cbn [mbind option_bind].
  destruct (for_each_inv
              (λ done (st : list string * list Path.t),
                 kept h 3 s st ∧ (t0 ∈ done → st ≠ ([], [])))
              (CyclesGraph.from_vertex h 3) starts ([], []))
    as ([sigs cycles] & Hrun & Hkept & Hne).
  - split; [by left|]. by intros ?%elem_of_nil.
  - intros done v rest st Hxs (Hst & Hne).
    assert (Hv : start_vertex h ag p0 v).
    { apply Hs. rewrite Hxs. apply elem_of_app. right. by left. }
    assert (Hlive : is_Some (Heap.vertex h v)).
    { destruct Hv as (i & x & _ & _ & Hx & _). by eexists. }
    destruct (from_vertex_spec h 3 s v st) as (st' & Hrun & Hst' & Hne');
      [done|done|lia| |done|].
    { intros vs eps. by apply Hsig. }
    exists st'. split; [done|]. split; [done|].
    intros [Hin| ->%list_elem_of_singleton]%elem_of_app; apply Hne'.
    + left. by apply Hne.
    + by right.
  - rewrite Hrun. cbn [mbind option_bind].
    destruct Hkept as [[= -> ->]|(c & v & [= -> ->] & Hc & Hr)].
    + destruct Hne; [|done]. by apply Hs.
    + by exists c, v.
Qed.

Lemma consistent_list_prefix es l l' :
  consistent_list es (l ++ l') → consistent_list es l.
Proof.
  intros Hc i j x y Hij Hx Hy. apply (Hc i j); [done|..];
    by apply lookup_app_l_Some.
Qed.

Lemma reach3_triangle h v q :
  reach h 3 v 3 q
  ↔ ∃ a b e1 e2 e3, q = ([v; a; b], [e1; e2; e3])
      ∧ triangle h v a b e1 e2 e3
      ∧ Edge.gt (Heap.es h) e3 e1 = Some true.
Proof.
  split.
  - intros Hr.
    inversion Hr as [|i2 vs2 eps2 la2 x2 e3 q' Hr2 Hla2 Hx2 He3 Hacc3]; subst.
    inversion Hr2 as [|i1 vs1 eps1 la1 x1 e2 q' Hr1 Hla1 Hx1 He2 Hacc2]; subst.
    inversion Hr1 as [|i0 vs0 eps0 la0 x0 e1 q' Hr0 Hla0 Hx0 He1 Hacc1]; subst.
    inversion Hr0; subst.
    destruct Hacc1 as (_ & d1 & f0 & Hd1 & Hf0 & [(_ & Hne1 & Heq1)|(Hi & _)]);
      [|lia].
    injection Hf0 as <-. injection Heq1 as -> ->.
    destruct Hacc2 as (_ & d2 & f0 & Hd2 & Hf0 & [(_ & Hne2 & Heq2)|(Hi & _)]);
      [|lia].
    injection Hf0 as <-. injection Heq2 as -> ->.
    destruct Hacc3 as (Hc3 & d3 & f0 & Hd3 & Hf0 & [(Hi & _)|(_ & Hadj3 & f & Hf & Hgt & Heq3)]);
      [lia|].
    injection Hf0 as <-. injection Hf as <-. subst q.
    simpl in *. injection Hla0 as <-. injection Hla1 as <-. injection Hla2 as <-.
    exists (Edge.adj d1), (Edge.adj d2), e1, e2, e3.
    split; [done|]. split; [|done].
    exists x0, x1, x2, d1, d2, d3. by repeat split.
  - intros (a & b & e1 & e2 & e3 & -> & Ht & Hgt).
    destruct Ht as (x & xa & xb & d1 & d2 & d3 & Hx & Hxa & Hxb & He1 & He2 & He3
                    & Hd1 & Hd2 & Hd3 & Ha & Hb & Hv & Hnea & Hneb & Hc).
    assert (Hc2 : consistent_list (Heap.es h) [e1; e2])
      by (by apply (consistent_list_prefix _ [e1; e2] [e3])).
    assert (Hc1 : consistent_list (Heap.es h) [e1])
      by (by apply (consistent_list_prefix _ [e1] [e2; e3])).
    eapply (reach_S h 3 v 2 [v; a; b] [e1; e2] b xb e3); [|done|done|done|].
    + eapply (reach_S h 3 v 1 [v; a] [e1] a xa e2); [|done|done|done|].
      * eapply (reach_S h 3 v 0 [v] [] v x e1); [constructor|done|done|done|].
        split; [done|]. exists d1, v. split; [done|]. split; [done|].
        left. split; [lia|]. split; [by rewrite Ha|]. by rewrite Ha.
      * split; [done|]. exists d2, v. split; [done|]. split; [done|].
        left. split; [lia|]. split; [by rewrite Hb|]. by rewrite Hb.
    + split; [done|]. exists d3, v. split; [done|]. split; [done|].
      right. split; [lia|]. split; [done|]. by exists e1.
Qed.

Lemma key_lt_trans a b c : key_lt a b → key_lt b c → key_lt a c.
Proof. unfold key_lt. lia. Qed.

Lemma key_lt_irrefl a : ¬ key_lt a a.
Proof. unfold key_lt. lia. Qed.

Lemma key_lt_total (a b : Z * Z) : a ≠ b → key_lt a b ∨ key_lt b a.
Proof.
  destruct a as [a1 a2], b as [b1 b2]. unfold key_lt. simpl. intros Hne.
  destruct (decide (a1 = b1)) as [->|]; [|lia].
  destruct (decide (a2 = b2)) as [->|]; [done|lia].
Qed.

Section sorting.
Variables (ltb : ptr → ptr → bool) (key : ptr → Z * Z) (S0 : ptr → Prop).
Hypothesis Hltb : ∀ x y, S0 x → S0 y → key x ≠ key y →
  (ltb x y = true ↔ key_lt (key x) (key y)).

Lemma place_sorted x acc :
  S0 x → Forall S0 acc → NoDup (key <$> x :: acc) →
  StronglySorted key_lt (key <$> acc) →
  StronglySorted key_lt (key <$> place ltb x acc) ∧ place ltb x acc ≡ₚ x :: acc.
Proof.
  intros Hx. induction acc as [|y rest IH]; intros HS Hnd Hsorted.
  - simpl. split; [|done]. repeat constructor.
  - cbn [place]. destruct (forallb (ltb x) (y :: rest)) eqn:Hall.
    + split; [|done]. rewrite fmap_cons. constructor; [done|].
      rewrite Forall_fmap, Forall_forall. intros z Hz. simpl.
      rewrite forallb_forall in Hall. apply Hltb; [done| | |].
      * rewrite Forall_forall in HS. by apply HS.
      * rewrite fmap_cons in Hnd. apply NoDup_cons in Hnd as [Hnot _].
        intros Heq. apply Hnot. rewrite Heq. by apply list_elem_of_fmap_2.
      * apply Hall. by apply list_elem_of_In.
    + apply Forall_cons in HS as [Hy HS].
      rewrite !fmap_cons in Hnd. rewrite fmap_cons in Hsorted.
      apply NoDup_cons in Hnd as [Hxnot Hnd].
      pose proof Hnd as Hnd'. apply NoDup_cons in Hnd' as [Hynot Hnd'].
      apply StronglySorted_inv in Hsorted as [Hsorted Hylt].
      assert (Hyx : key_lt (key y) (key x)).
      { assert (∃ z, z ∈ y :: rest ∧ ltb x z = false) as (z & Hz & Hxz).
        { apply not_true_iff_false in Hall.
          destruct (decide (Exists (λ z, ltb x z = false) (y :: rest)))
            as [Hex|Hnex].
          - apply Exists_exists in Hex. done.
          - exfalso. apply Hall, forallb_forall. intros z Hz%list_elem_of_In.
            destruct (ltb x z) eqn:Hxz; [done|]. exfalso. apply Hnex.
            apply Exists_exists. by exists z. }
        assert (Hzx : key_lt (key z) (key x)).
        { assert (S0 z) by (rewrite Forall_forall in HS;
            apply elem_of_cons in Hz as [->|Hz]; [done|by apply HS]).
          assert (key x ≠ key z).
          { intros Heq. apply Hxnot. rewrite Heq. rewrite <-fmap_cons.
            by apply list_elem_of_fmap_2. }
          destruct (key_lt_total (key x) (key z)) as [Hlt|Hlt]; [done| |done].
          apply Hltb in Hlt; [congruence|done..]. }
        apply elem_of_cons in Hz as [->|Hz]; [done|].
        eapply key_lt_trans; [|exact Hzx].
        rewrite Forall_forall in Hylt. apply Hylt.
        by apply list_elem_of_fmap_2. }
      destruct IH as [IHs IHp]; [done| |done|].
      { rewrite fmap_cons. apply NoDup_cons. split; [|done].
        intros Hin. apply Hxnot. by right. }
      split.
      * rewrite fmap_cons. constructor; [done|].
        rewrite IHp. rewrite fmap_cons. by constructor.
      * rewrite IHp. apply perm_swap.
Qed.

Lemma foldl_place_sorted l :
  Forall S0 l → NoDup (key <$> l) →
  StronglySorted key_lt (key <$> foldl (λ acc x, place ltb x acc) [] l)
  ∧ foldl (λ acc x, place ltb x acc) [] l ≡ₚ l.
Proof.
  induction l as [|x l IH] using rev_ind; intros HS Hnd.
  - simpl. split; [constructor|done].
  - rewrite foldl_app. cbn [foldl].
    apply Forall_app in HS as [HS Hx%Forall_inv].
    rewrite fmap_app in Hnd. apply NoDup_app in Hnd as (Hnd & Hdisj & _).
    destruct IH as [IHs IHp]; [done..|].
    destruct (place_sorted x (foldl (λ acc x, place ltb x acc) [] l))
      as [Hs Hp]; [done| | |done|].
    + by rewrite IHp.
    + rewrite fmap_cons. apply NoDup_cons. split; [|by rewrite IHp].
      rewrite IHp. intros Hin. apply (Hdisj _ Hin). by left.
    + split; [done|]. rewrite Hp, IHp. by rewrite Permutation_app_comm.
Qed.

End sorting.

Lemma ekey_swap d d' :
  Edge.ex1 d' = Edge.ex2 d → Edge.ex2 d' = Edge.ex1 d → ekey d' = ekey d.
Proof.
  intros H1 H2. unfold ekey. rewrite H1, H2.
  repeat case_bool_decide; f_equal; lia.
Qed.

Lemma two_way_mirror es e :
  two_way es e →
  two_way es (mirror es e) ∧ key_of es (mirror es e) = key_of es e
  ∧ mirror es (mirror es e) = e.
Proof.
  intros (d & d' & lab & Hd & Hd' & Hback & Hlab & Hlab' & Hex1 & Hex2 & Ht1
          & Ht2 & Hlen).
  assert (Hm : mirror es e = Edge.adjRef d).
  { unfold mirror, Edge.getAdjRef. by rewrite Hd. }
  rewrite Hm. split; [|split].
  - exists d', d, lab. rewrite Hback, Hex1, Hex2. by repeat split.
  - unfold key_of. rewrite Hd, Hd'. simpl. by apply ekey_swap.
  - unfold mirror, Edge.getAdjRef. by rewrite Hd'.
Qed.

Lemma Edge_ltb_key es x y :
  two_way es x → two_way es y → key_of es x ≠ key_of es y →
  Edge_ltb es x y = true ↔ key_lt (key_of es x) (key_of es y).
Proof.
  intros Hx Hy Hne.
  destruct (two_way_mirror es y Hy) as (_ & Hkm & _).
  destruct Hx as (dx & _ & _ & Hdx & _ & _ & _ & _ & _ & _ & Htx & _).
  destruct Hy as (dy & dy' & _ & Hdy & Hdy' & _ & _ & _ & _ & _ & Hty & _).
  assert (Hm : mirror es y = Edge.adjRef dy).
  { unfold mirror, Edge.getAdjRef. by rewrite Hdy. }
  assert (Hxy : x ≠ y) by (by intros ->).
  assert (Hxm : x ≠ Edge.adjRef dy).
  { intros ->. apply Hne. by rewrite <-Hm, Hkm. }
  unfold Edge_ltb, Edge.lt, key_of in *. rewrite Hdx, Hdy in *.
  cbn [mbind option_bind from_option] in *.
  rewrite (bool_decide_eq_false_2 (x = y)) by done.
  rewrite (bool_decide_eq_false_2 (x = Edge.adjRef dy)) by done.
  cbn [orb]. unfold ekey, key_lt in *.
  rewrite (bool_decide_eq_false_2 (_ = Extremity.UNDEF)) by done.
  rewrite (bool_decide_eq_false_2 (Extremity.ty (Edge.ex1 dy) = _)) by done.
  destruct (bool_decide (Extremity.id (Edge.ex1 dx) > Extremity.id (Edge.ex2 dx)));
    destruct (bool_decide (Extremity.id (Edge.ex1 dy) > Extremity.id (Edge.ex2 dy)));
    cbn [fst snd default] in *;
    repeat case_bool_decide; cbn [default]; split; intros Hgoal;
    try done; try lia; exfalso; apply Hne; f_equal; lia.
Qed.

Lemma Edge_gt_key es x y :
  two_way es x → two_way es y → key_of es x ≠ key_of es y →
  Edge.gt es x y = Some true ↔ key_lt (key_of es y) (key_of es x).
Proof.
  intros Hx Hy Hne.
  pose proof (Edge_ltb_key es x y Hx Hy Hne) as Hlt.
  destruct (two_way_mirror es y Hy) as (_ & Hkm & _).
  assert (Hlive : is_Some (Edge.deref es x) ∧ is_Some (Edge.deref es y)).
  { destruct Hx as (dx & _ & _ & Hdx & _). destruct Hy as (dy & _ & _ & Hdy & _).
    split; by eexists. }
  destruct Hlive as [Hlx Hly].
  pose proof Hy as (dy & _ & _ & Hdy & _).
  assert (Hm : mirror es y = Edge.adjRef dy).
  { unfold mirror, Edge.getAdjRef. by rewrite Hdy. }
  assert (Hxy : x ≠ y) by (by intros ->).
  assert (Hxm : x ≠ Edge.adjRef dy).
  { intros ->. apply Hne. by rewrite <-Hm, Hkm. }
  unfold Edge.gt, Edge.le. rewrite Hdy. cbn [mbind option_bind].
  rewrite (bool_decide_eq_false_2 (x = y)) by done.
  rewrite (bool_decide_eq_false_2 (x = Edge.adjRef dy)) by done.
  cbn [orb]. rewrite Edge_lt_total by done.
  cbn [fmap option_fmap option_map].
  destruct (Edge_ltb es x y) eqn:Hb; cbn [negb]; split; intros H; try done.
  - exfalso. eapply key_lt_irrefl, key_lt_trans; [exact H|]. by apply Hlt.
  - destruct (key_lt_total _ _ Hne) as [Hc|Hc]; [|done].
    apply Hlt in Hc. congruence.
Qed.

Lemma c_str_short s :
  (String.length s ≤ _GRAPH_MAX_LABEL)%nat → c_str s = Some s.
Proof. intros Hlen. unfold c_str. by rewrite bool_decide_eq_true_2. Qed.

Lemma foldl_labels_Some (labels : list (option string)) :
  Forall (λ o, ∃ lb, o = Some lb ∧ (String.length lb ≤ _GRAPH_MAX_LABEL)%nat)
         labels →
  ∀ acc, is_Some acc →
  is_Some (foldl (λ s lab, s ← s; lb ← lab; lb ← c_str lb;
                           Some (String.append s lb))
                 acc labels).
Proof.
  induction 1 as [|o labels (lb & -> & Hlen) _ IH]; intros acc [a ->];
    [by eexists|].
  simpl. rewrite c_str_short by done. apply IH. by eexists.
Qed.

Section one_triangle.
Variables (es : Edge.store) (F : list ptr).
Hypothesis Htwo : Forall (two_way es) F.
Hypothesis Hkeys : NoDup (key_of es <$> F).

Lemma on_edges_two_way e :
  on_edges es F e → two_way es e ∧ ∃ f, f ∈ F ∧ key_of es e = key_of es f.
Proof.
  intros (f & Hf & Hcase).
  assert (Hft : two_way es f) by (rewrite Forall_forall in Htwo; by apply Htwo).
  destruct (two_way_mirror es f Hft) as (Hmt & Hmk & _).
  destruct Hcase as [->| ->]; (split; [done|]); by exists f.
Qed.

Lemma on_edges_same_key e e' :
  on_edges es F e → on_edges es F e' → key_of es e = key_of es e' →
  clash es e e' = true
  ∧ (lab ← Edge.getLabel es e; lab) = (lab ← Edge.getLabel es e'; lab).
Proof.
  intros (f & Hf & Hcase) (f' & Hf' & Hcase') Hk.
  assert (Hft : two_way es f) by (rewrite Forall_forall in Htwo; by apply Htwo).
  assert (Hft' : two_way es f') by (rewrite Forall_forall in Htwo; by apply Htwo).
  destruct (two_way_mirror es f Hft) as (Hmt & Hmk & Hmm).
  destruct (two_way_mirror es f' Hft') as (Hmt' & Hmk' & Hmm').
  assert (f' = f) as ->.
  { assert (Hkf : key_of es f' = key_of es f).
    { destruct Hcase as [->| ->], Hcase' as [->| ->]; congruence. }
    apply list_elem_of_lookup in Hf as [i Hi].
    apply list_elem_of_lookup in Hf' as [j Hj].
    assert (i = j) as ->; [|congruence].
    apply (NoDup_lookup _ i j (key_of es f) Hkeys);
      rewrite list_lookup_fmap; [by rewrite Hi|rewrite Hj; simpl; by f_equal]. }
  destruct Hft as (d & d' & lab & Hd & Hd' & Hback & Hlab & Hlab' & _).
  assert (Hm : mirror es f = Edge.adjRef d).
  { unfold mirror, Edge.getAdjRef. by rewrite Hd. }
  assert (Hlf : (lab0 ← Edge.getLabel es f; lab0) = Some lab).
  { unfold Edge.getLabel. rewrite Hd. simpl. done. }
  assert (Hlm : (lab0 ← Edge.getLabel es (mirror es f); lab0) = Some lab).
  { unfold Edge.getLabel. rewrite Hm, Hd'. simpl. done. }
  assert (Hdm : Edge.deref es (mirror es f) = Some d') by (by rewrite Hm).
  destruct Hcase as [->| ->], Hcase' as [->| ->]; unfold clash;
    rewrite ?Hd, ?Hdm, ?Hlf, ?Hlm; (split; [|done]).
  - rewrite (bool_decide_eq_true_2 (f = f)) by done. by rewrite orb_true_r.
  - rewrite (bool_decide_eq_true_2 (f = Edge.adjRef d')) by done.
    by rewrite orb_true_r.
  - rewrite (bool_decide_eq_true_2 (mirror es f = Edge.adjRef d)) by done.
    by rewrite orb_true_r.
  - rewrite (bool_decide_eq_true_2 (mirror es f = mirror es f)) by done.
    by rewrite orb_true_r.
Qed.

Lemma fmap_by_key {B} (L : ptr → B) (l1 l2 : list ptr) :
  key_of es <$> l1 = key_of es <$> l2 →
  (∀ x y, x ∈ l1 → y ∈ l2 → key_of es x = key_of es y → L x = L y) →
  map L l1 = map L l2.
Proof.
  revert l2. induction l1 as [|x l1 IH]; intros [|y l2] Hk HL; try done.
  rewrite !fmap_cons in Hk. injection Hk as Hxy Hk. simpl. f_equal.
  - apply HL; [by left|by left|done].
  - apply IH; [done|]. intros x' y' Hx' Hy'. apply HL; by right.
Qed.

Lemma signature_on_edges l :
  Forall (on_edges es F) l → consistent_list es l → length l = length F →
  signature_of es l = signature_of es F.
Proof.
  intros Hon Hcons Hlen.
  assert (HonF : Forall (on_edges es F) F).
  { rewrite Forall_forall. intros f Hf. exists f. by auto. }
  assert (Htl : Forall (two_way es) l).
  { rewrite Forall_forall in Hon. rewrite Forall_forall. intros e He.
    by apply on_edges_two_way, Hon. }
  assert (Hnd : NoDup (key_of es <$> l)).
  { apply NoDup_alt. intros i j k Hi Hj.
    rewrite list_lookup_fmap in Hi, Hj.
    destruct (l !! i) as [x|] eqn:Hx; [|done].
    destruct (l !! j) as [y|] eqn:Hy; [|done].
    simpl in *. injection Hi as Hi. injection Hj as Hj.
    destruct (decide (i = j)) as [|Hne]; [done|]. exfalso.
    rewrite Forall_forall in Hon.
    assert (Hox : on_edges es F x) by (by eapply Hon, list_elem_of_lookup_2).
    assert (Hoy : on_edges es F y) by (by eapply Hon, list_elem_of_lookup_2).
    destruct (decide (i < j)%nat).
    - destruct (on_edges_same_key x y) as [Hc _]; [done|done|congruence|].
      rewrite (Hcons i j x y) in Hc; done || lia.
    - destruct (on_edges_same_key y x) as [Hc _]; [done|done|congruence|].
      rewrite (Hcons j i y x) in Hc; done || lia. }
  assert (Hperm : key_of es <$> l ≡ₚ key_of es <$> F).
  { apply submseteq_length_Permutation; [|by rewrite !length_fmap, Hlen].
    apply NoDup_submseteq; [done|]. intros k (e & -> & He)%list_elem_of_fmap.
    rewrite Forall_forall in Hon.
    destruct (on_edges_two_way e (Hon e He)) as (_ & f & Hf & ->).
    by apply list_elem_of_fmap_2. }
  destruct (foldl_place_sorted (Edge_ltb es) (key_of es) (two_way es)
              (Edge_ltb_key es) l Htl Hnd) as [Hsl Hpl].
  destruct (foldl_place_sorted (Edge_ltb es) (key_of es) (two_way es)
              (Edge_ltb_key es) F Htwo Hkeys) as [HsF HpF].
  fold (sorted_edges es l) in *. fold (sorted_edges es F) in *.
  assert (Heq : key_of es <$> sorted_edges es l = key_of es <$> sorted_edges es F).
  { apply (StronglySorted_unique_strong key_lt); [|done|done|].
    - intros a b _ _ Hab Hba. exfalso.
      eapply key_lt_irrefl, key_lt_trans; [exact Hab|exact Hba].
    - by rewrite Hpl, HpF. }
  unfold signature_of. f_equal. apply fmap_by_key; [done|].
  intros x y Hx Hy Hk. apply on_edges_same_key; [| |done].
  - rewrite Forall_forall in Hon. apply Hon. by rewrite <-Hpl.
  - rewrite Forall_forall in HonF. apply HonF. by rewrite <-HpF.
Qed.

Lemma signature_of_two_way : is_Some (signature_of es F).
Proof.
  unfold signature_of.
  assert (Hall : Forall (λ o : option string,
              ∃ lb, o = Some lb ∧ (String.length lb ≤ _GRAPH_MAX_LABEL)%nat)
            (map (λ y, lab ← Edge.getLabel es y; lab) (sorted_edges es F))).
  { rewrite Forall_forall. intros o (y & -> & Hy%sorted_edges_elem)%list_elem_of_fmap.
    rewrite Forall_forall in Htwo.
    destruct (Htwo y Hy)
      as (d & _ & lab & Hd & _ & _ & Hlab & _ & _ & _ & _ & _ & Hlen).
    exists lab. unfold Edge.getLabel. rewrite Hd. simpl. by rewrite Hlab. }
  unfold concat_labels. apply foldl_labels_Some; [done|by eexists].
Qed.

End one_triangle.

(** C3: the search returns one triangle twice when two of its edges pair
    the same gene ids, against the comment of [buildCyclesGraph] (the
    signatures are there so that the same cycle is not added two times).
    In the triangle with the edges "a" 1t-2t, "b" 1t-2t and "c" 3t-4t,
    the one valid simple cycle of length 3 of the graph, the search
    returns two cycles, the walk from w and the walk from u around this
    triangle, with the signatures "abc" and "bac": the edges "a" and "b"
    compare as equal, so the sort of the signature leaves them in the
    order of the walk, and the second walk is taken for a new cycle. *)
Theorem triangle_found_twice :
  ∃ h ag c c',
    example_triangle 1 2 1 2 3 4 = Some (h, ag)
    ∧ CyclesGraph.cycles h ag 3 = Some [c; c']
    ∧ Path_abs c = ([Some 2; Some 1; Some 0], [Some 3; Some 1; Some 5])%nat
    ∧ Path_abs c' = ([Some 0; Some 1; Some 2], [Some 0; Some 2; Some 4])%nat
    ∧ Path.signature (Heap.es h) c = Some "abc"%string
    ∧ Path.signature (Heap.es h) c' = Some "bac"%string.
Proof.
  eexists _, _, _, _.
  split; [vm_compute; reflexivity|].
  split; [vm_compute; reflexivity|].
  repeat split; vm_compute; reflexivity.
Qed.

(** When the three edges of the triangle pair three different pairs of
    gene ids, the search finds it once.  In a graph of fewer than 92682
    vertices whose vertex objects list live edge records to live vertices,
    take a triangle from a vertex [t0] of the part in which the search
    starts, that can be walked both ways, whose three edges have a label,
    defined extremities and three different pairs of gene ids; if every
    triangle of the graph runs along these three edges, the search for
    the cycles of length 3 returns exactly one cycle, and it is a walk
    around this triangle. *)
Lemma one_triangle_one_cycle h ag p0 t0 t1 t2 f1 f2 f3 :
  (Graph.getN ag ÷ 2) * (Graph.getN ag ÷ 2) < 2 ^ 31 →
  vec_size (Graph.vertices ag) = Graph.maxn ag → Graph_slots_ok h ag →
  edges_closed h → first_part h ag p0 → start_vertex h ag p0 t0 →
  triangle h t0 t1 t2 f1 f2 f3 →
  triangle h t0 t2 t1 (mirror (Heap.es h) f3) (mirror (Heap.es h) f2)
           (mirror (Heap.es h) f1) →
  Forall (two_way (Heap.es h)) [f1; f2; f3] →
  NoDup (key_of (Heap.es h) <$> [f1; f2; f3]) →
  (∀ v a b e1 e2 e3, triangle h v a b e1 e2 e3 →
     Forall (on_edges (Heap.es h) [f1; f2; f3]) [e1; e2; e3]) →
  ∃ c v a b e1 e2 e3,
    CyclesGraph.cycles h ag 3 = Some [c]
    ∧ Path_abs c = ([v; a; b], [e1; e2; e3])
    ∧ triangle h v a b e1 e2 e3
    ∧ Forall (on_edges (Heap.es h) [f1; f2; f3]) [e1; e2; e3].
Proof.
  intros Hn Hsize Hslots Hclosed Hfirst Hstart Ht1 Ht2 Htwo Hkeys HU.
  destruct (signature_of_two_way (Heap.es h) [f1; f2; f3] Htwo) as [s Hs].
  destruct (cycles_spec h ag s p0 t0) as (c & v & Hrun & Hwf & Hr);
    [done..| | |].
  - intros v vs eps Hv Hr.
    apply reach3_triangle in Hr as (a & b & e1 & e2 & e3 & [= -> ->] & Ht & _).
    rewrite <-Hs. apply signature_on_edges; [done|done|by eapply HU| |done].
    by destruct Ht as (? & ? & ? & ? & ? & ? & ? & ? & ? & ? & ? & ? & ? & ? & ?
                       & ? & ? & ? & ? & ? & ?).
  - pose proof Htwo as Htwo'.
    apply Forall_cons in Htwo' as [H1 Htwo']. apply Forall_cons in Htwo' as [H2 Htwo'].
    apply Forall_cons in Htwo' as [H3 _].
    destruct (two_way_mirror _ _ H1) as (Hm1 & Hk1 & _).
    destruct (two_way_mirror _ _ H3) as (Hm3 & Hk3 & _).
    assert (Hne : key_of (Heap.es h) f1 ≠ key_of (Heap.es h) f3).
    { rewrite !fmap_cons in Hkeys. apply NoDup_cons in Hkeys as [Hnot _].
      intros Heq. apply Hnot. rewrite Heq. right. by left. }
    destruct (key_lt_total _ _ Hne) as [Hlt|Hlt].
    + exists ([t0; t1; t2], [f1; f2; f3]). apply reach3_triangle.
      exists t1, t2, f1, f2, f3. split; [done|]. split; [done|].
      apply Edge_gt_key; [done|done|by apply not_eq_sym|done].
    + exists ([t0; t2; t1], [mirror (Heap.es h) f3; mirror (Heap.es h) f2;
                             mirror (Heap.es h) f1]).
      apply reach3_triangle. eexists _, _, _, _, _. split; [done|].
      split; [done|]. apply Edge_gt_key; [done|done|congruence|].
      by rewrite Hk1, Hk3.
  - apply reach3_triangle in Hr as (a & b & e1 & e2 & e3 & Habs & Ht & _).
    exists c, v, a, b, e1, e2, e3. split; [done|]. split; [done|].
    split; [done|]. by eapply HU.
Qed.

Lemma consistent_list_three es e1 e2 e3 :
  clash es e1 e2 = false → clash es e1 e3 = false → clash es e2 e3 = false →
  consistent_list es [e1; e2; e3].
Proof.
  intros H12 H13 H23 i j x y Hij Hx Hy.
  destruct i as [|[|[|i]]], j as [|[|[|j]]]; simpl in *; simplify_eq; try done;
    lia.
Qed.

(** The triangle with the edges "a" 1t-2t, "b" 3t-4t and "c" 5t-6t: the
    one cycle is the walk from u through v and w. *)
Lemma example_triangle_one_cycle :
  ∃ h ag,
    example_triangle 1 2 3 4 5 6 = Some (h, ag)
    ∧ ∃ c v a b e1 e2 e3,
        CyclesGraph.cycles h ag 3 = Some [c]
        ∧ Path_abs c = ([v; a; b], [e1; e2; e3])
        ∧ triangle h v a b e1 e2 e3
        ∧ Forall (on_edges (Heap.es h) [Some 0; Some 2; Some 4]%nat)
                 [e1; e2; e3].
Proof.
  eexists _, _. split; [vm_compute; reflexivity|].
  match goal with |- ∃ c v a b e1 e2 e3, CyclesGraph.cycles ?h ?g 3 = _ ∧ _ =>
    assert (Hrecords : ∀ v x e, Heap.vertex h v = Some x → e ∈ Vertex.edges x →
              on_edges (Heap.es h) [Some 0; Some 2; Some 4]%nat e
              ∧ ∃ ed, Heap.edge h e = Some ed
                      ∧ is_Some (Heap.vertex h (Edge.adj ed)))
  end.
  { intros [[|[|[|n]]]|] x e Hx He; vm_compute in Hx; simplify_eq;
      vm_compute in He;
      repeat (apply elem_of_cons in He as [->|He];
              [split; [|eexists; split; [vm_compute; reflexivity|by eexists]]|]);
      try (by apply elem_of_nil in He).
    - exists (Some 4%nat). split; [set_solver|]. right. vm_compute. reflexivity.
    - exists (Some 0%nat). split; [set_solver|]. by left.
    - exists (Some 2%nat). split; [set_solver|]. by left.
    - exists (Some 0%nat). split; [set_solver|]. right. vm_compute. reflexivity.
    - exists (Some 4%nat). split; [set_solver|]. by left.
    - exists (Some 2%nat). split; [set_solver|]. right. vm_compute. reflexivity. }
  apply (one_triangle_one_cycle _ _ 0 (Some 0%nat) (Some 1%nat) (Some 2%nat)
           (Some 0%nat) (Some 2%nat) (Some 4%nat)).
  - vm_compute. reflexivity.
  - vm_compute. reflexivity.
  - intros i p Hp Hnull. apply vec_get_Some in Hp as [Hi Hp].
    assert (i = Z.of_nat (Z.to_nat i)) as -> by lia.
    destruct (Z.to_nat i) as [|[|[|k]]]; simpl in Hp; simplify_eq;
      by eexists.
  - intros v x e Hx He. by destruct (Hrecords v x e Hx He).
  - eexists 0, (Some 0%nat), _. split; [done|].
    split; [vm_compute; reflexivity|]. split; [done|].
    split; [vm_compute; reflexivity|]. split; [intros; lia|].
    vm_compute. reflexivity.
  - eexists 0, _. split; [vm_compute; reflexivity|]. split; [done|].
    split; [vm_compute; reflexivity|]. right. vm_compute. reflexivity.
  - eexists _, _, _, _, _, _.
    repeat (split; [vm_compute; reflexivity|]).
    split; [vm_compute; by repeat constructor|].
    split; [vm_compute; by repeat constructor|].
    split; [vm_compute; by repeat constructor|].
    repeat (split; [vm_compute; reflexivity|]).
    split; [done|]. split; [done|].
    apply consistent_list_three; vm_compute; reflexivity.
  - eexists _, _, _, _, _, _.
    repeat (split; [vm_compute; reflexivity|]).
    split; [vm_compute; by repeat constructor|].
    split; [vm_compute; by repeat constructor|].
    split; [vm_compute; by repeat constructor|].
    repeat (split; [vm_compute; reflexivity|]).
    split; [done|]. split; [done|].
    apply consistent_list_three; vm_compute; reflexivity.
  - repeat apply Forall_cons_2; [..|apply Forall_nil_2];
      eexists _, _, _;
      (split; [vm_compute; reflexivity|]);
      (split; [vm_compute; reflexivity|]);
      repeat (split; [vm_compute; reflexivity|]);
      (split; [done|]); (split; [done|]); unfold _GRAPH_MAX_LABEL; simpl; lia.
  - apply (bool_decide_unpack _). vm_compute. reflexivity.
  - intros v a b e1 e2 e3
      (x & xa & xb & d1 & d2 & d3 & Hx & Hxa & Hxb & He1 & He2 & He3 & _).
    repeat apply Forall_cons_2; [..|apply Forall_nil_2].
    + by destruct (Hrecords v x e1 Hx He1).
    + by destruct (Hrecords a xa e2 Hxa He2).
    + by destruct (Hrecords b xb e3 Hxb He3).
Qed.

(** ** C1: the test of incompatibility *)

(** C1, as stated: [incompatible] agrees with the exclusive-or tests taken
    with the equality of extremities.  It does not: two edges 1t-2t and
    1h-3t share no extremity, yet share gene 1. *)
Lemma incompatible_ignores_kind :
  let e := Edge.mk NULL NULL None (Extremity.mk 1 Extremity.TAIL)
                   (Extremity.mk 2 Extremity.TAIL) NULL in
  let e' := Edge.mk NULL NULL None (Extremity.mk 1 Extremity.HEAD)
                    (Extremity.mk 3 Extremity.TAIL) NULL in
  Edge.incompatible e e' = true
  ∧ incompatible_by_extremity (Edge.ex1 e) (Edge.ex2 e)
                              (Edge.ex1 e') (Edge.ex2 e') = false.
Proof. split; reflexivity. Qed.

(** C1, amended: [incompatible] holds exactly when one of the two
    exclusive-or tests on the gene ids of the extremities holds. *)
Theorem incompatible_iff_xor_ids (e e' : Edge.t) :
  let a := Extremity.id (Edge.ex1 e) in
  let b := Extremity.id (Edge.ex2 e) in
  let c := Extremity.id (Edge.ex1 e') in
  let d := Extremity.id (Edge.ex2 e') in
  Edge.incompatible e e' = true
  ↔ ((a = c ∧ b ≠ d) ∨ (a ≠ c ∧ b = d)) ∨ ((a = d ∧ b ≠ c) ∨ (a ≠ d ∧ b = c)).
Proof.
  cbv zeta. unfold Edge.incompatible.
  repeat case_bool_decide; simpl; split; intros Hx; try done; try tauto.
Qed.

(** * Further properties of the code *)

(** ** Extremities and the order of the edges *)

(** X1: [Extremity::operator==] is an equivalence relation: two
    extremities are equal when they have the same id and the same kind, or
    when both are undefined, whatever their ids. *)
Theorem Extremity_eqb_equivalence :
  (∀ x, Extremity.eqb x x = true)
  ∧ (∀ x y, Extremity.eqb x y = Extremity.eqb y x)
  ∧ (∀ x y z, Extremity.eqb x y = true → Extremity.eqb y z = true →
       Extremity.eqb x z = true)
  ∧ (∀ x y, Extremity.eqb x y = true
       ↔ x = y ∨ (Extremity.ty x = Extremity.UNDEF
                  ∧ Extremity.ty y = Extremity.UNDEF)).
Proof.
  assert (Hchar : ∀ x y, Extremity.eqb x y = true
            ↔ x = y ∨ (Extremity.ty x = Extremity.UNDEF
                       ∧ Extremity.ty y = Extremity.UNDEF)).
  { intros [i k] [j k']. unfold Extremity.eqb. cbn [Extremity.id Extremity.ty].
    rewrite orb_true_iff, !andb_true_iff, !bool_decide_eq_true. split.
    - intros [[-> ->]|[-> ->]]; [by left|by right].
    - intros [[= -> ->]|[-> ->]]; [by left|by right]. }
  split; [|split; [|split]]; [| | |exact Hchar].
  - intros x. apply Hchar. by left.
  - intros x y. apply eq_true_iff_eq. rewrite !Hchar.
    split; (intros [->|[? ?]]; [by left|by right]).
  - intros x y z Hxy Hyz. apply Hchar. apply Hchar in Hxy. apply Hchar in Hyz.
    destruct Hxy as [->|[Hx Hy]]; [done|].
    destruct Hyz as [<-|[_ Hz]]; [by right|by right].
Qed.

(** The order of two different edges whose sorted pairs of ids differ. *)
Lemma Edge_lt_by_key es x y dx dy :
  Edge.deref es x = Some dx → Edge.deref es y = Some dy →
  x ≠ y → x ≠ Edge.adjRef dy →
  Extremity.ty (Edge.ex1 dx) ≠ Extremity.UNDEF →
  Extremity.ty (Edge.ex1 dy) ≠ Extremity.UNDEF →
  ekey dx ≠ ekey dy →
  Edge.lt es x y = Some (bool_decide (key_lt (ekey dx) (ekey dy))).
Proof.
  intros Hx Hy Hne Hmir Hdx Hdy Hkey. unfold Edge.lt. rewrite Hx, Hy.
  cbn [mbind option_bind].
  rewrite (bool_decide_eq_false_2 (x = y)) by done.
  rewrite (bool_decide_eq_false_2 (x = Edge.adjRef dy)) by done.
  cbn [orb]. revert Hkey. unfold ekey, key_lt.
  destruct (bool_decide (Extremity.id (Edge.ex1 dx) > Extremity.id (Edge.ex2 dx)));
    destruct (bool_decide (Extremity.id (Edge.ex1 dy) > Extremity.id (Edge.ex2 dy)));
    cbn [fst snd]; intros Hkey;
    rewrite (bool_decide_eq_false_2 (Extremity.ty (Edge.ex1 dx) = _)) by done;
    rewrite (bool_decide_eq_false_2 (Extremity.ty (Edge.ex1 dy) = _)) by done;
    repeat case_bool_decide; try done; try lia;
    exfalso; apply Hkey; f_equal; lia.
Qed.

(** X2: on two different edges whose first extremities are defined and
    whose sorted pairs of ids differ, [operator<] compares the sorted pairs
    of ids: exactly one of [x < y] and [y < x] holds, and [operator>] is the
    converse of [operator<]. *)
Theorem Edge_lt_orders_by_ids es x y dx dy :
  Edge.deref es x = Some dx → Edge.deref es y = Some dy →
  x ≠ y → x ≠ Edge.adjRef dy → y ≠ Edge.adjRef dx →
  Extremity.ty (Edge.ex1 dx) ≠ Extremity.UNDEF →
  Extremity.ty (Edge.ex1 dy) ≠ Extremity.UNDEF →
  ekey dx ≠ ekey dy →
  Edge.lt es x y = Some (bool_decide (key_lt (ekey dx) (ekey dy)))
  ∧ Edge.lt es y x = negb <$> Edge.lt es x y
  ∧ Edge.gt es x y = Edge.lt es y x
  ∧ Edge.le es x y = Edge.lt es x y
  ∧ Edge.ge es x y = Edge.gt es x y.
Proof.
  intros Hx Hy Hne Hmir Hmir' Hdx Hdy Hkey.
  pose proof (Edge_lt_by_key es x y dx dy Hx Hy Hne Hmir Hdx Hdy Hkey) as Hxy.
  assert (Hyx : Edge.lt es y x
                = Some (bool_decide (key_lt (ekey dy) (ekey dx)))).
  { apply Edge_lt_by_key; try done. }
  assert (Hflip : bool_decide (key_lt (ekey dy) (ekey dx))
                  = negb (bool_decide (key_lt (ekey dx) (ekey dy)))).
  { destruct (key_lt_total _ _ Hkey) as [Hlt|Hlt].
    - rewrite (bool_decide_eq_true_2 _ Hlt).
      apply bool_decide_eq_false_2. intros Hgt.
      exact (key_lt_irrefl _ (key_lt_trans _ _ _ Hlt Hgt)).
    - rewrite (bool_decide_eq_true_2 _ Hlt). symmetry.
      apply negb_true_iff, bool_decide_eq_false_2. intros Hgt.
      exact (key_lt_irrefl _ (key_lt_trans _ _ _ Hlt Hgt)). }
  assert (Hle : Edge.le es x y = Edge.lt es x y).
  { unfold Edge.le. rewrite Hy. cbn [mbind option_bind].
    rewrite (bool_decide_eq_false_2 (x = y)) by done.
    by rewrite (bool_decide_eq_false_2 (x = Edge.adjRef dy)) by done. }
  assert (Hgt : Edge.gt es x y = Edge.lt es y x).
  { unfold Edge.gt. rewrite Hle, Hxy, Hyx, Hflip. done. }
  split; [exact Hxy|]. split; [by rewrite Hxy, Hyx, Hflip|].
  split; [exact Hgt|]. split; [exact Hle|].
  unfold Edge.ge. rewrite Hy. cbn [mbind option_bind].
  rewrite (bool_decide_eq_false_2 (x = y)) by done.
  by rewrite (bool_decide_eq_false_2 (x = Edge.adjRef dy)) by done.
Qed.

Lemma Edge_lt_orders_by_ids_witness :
  let x := Some 0%nat in
  let y := Some 1%nat in
  Edge.lt example_labelled_edges x y = Some false
  ∧ Edge.lt example_labelled_edges y x = Some true
  ∧ Edge.gt example_labelled_edges x y = Some true.
Proof.
  intros x y.
  destruct (Edge_lt_orders_by_ids example_labelled_edges x y
              (Edge.mk NULL NULL (Some "b"%string)
                 (Extremity.mk 3 Extremity.TAIL)
                 (Extremity.mk 4 Extremity.TAIL) NULL)
              (Edge.mk NULL NULL (Some "a"%string)
                 (Extremity.mk 1 Extremity.TAIL)
                 (Extremity.mk 2 Extremity.TAIL) NULL))
    as (Hxy & Hyx & Hgt & _);
    [reflexivity|reflexivity|done|done|done|done|done|by vm_compute|].
  split; [exact Hxy|]. split; [by rewrite Hyx, Hxy|by rewrite Hgt, Hyx, Hxy].
Defined.

(** X3: [operator<] is not a strict order.  An edge is less than itself
    and than its mirror record; and on two different edges with defined
    first extremities and the same sorted pair of ids, [x < y] depends on
    [x] alone: it holds exactly when the first extremity of [x] is a tail,
    so that two such edges can each be less than the other. *)
Theorem Edge_lt_ties es x y dx dy :
  Edge.deref es x = Some dx → Edge.deref es y = Some dy →
  Extremity.ty (Edge.ex1 dx) ≠ Extremity.UNDEF →
  Extremity.ty (Edge.ex1 dy) ≠ Extremity.UNDEF →
  ekey dx = ekey dy →
  Edge.lt es x x = Some true
  ∧ Edge.gt es x x = Some false
  ∧ (x = Edge.adjRef dy → Edge.lt es x y = Some true)
  ∧ (x ≠ y → x ≠ Edge.adjRef dy →
     Edge.lt es x y
     = Some (bool_decide (Extremity.ty (Edge.ex1 dx) = Extremity.TAIL)))
  ∧ (x ≠ y → x ≠ Edge.adjRef dy → y ≠ Edge.adjRef dx →
     Extremity.ty (Edge.ex1 dx) = Extremity.TAIL →
     Extremity.ty (Edge.ex1 dy) = Extremity.TAIL →
     Edge.lt es x y = Some true ∧ Edge.lt es y x = Some true).
Proof.
  intros Hx Hy Hdx Hdy Hkey.
  assert (Hself : Edge.lt es x x = Some true).
  { unfold Edge.lt. rewrite Hx. cbn [mbind option_bind].
    by rewrite (bool_decide_eq_true_2 (x = x)) by done. }
  assert (Htie : ∀ a b da db,
            Edge.deref es a = Some da → Edge.deref es b = Some db →
            Extremity.ty (Edge.ex1 da) ≠ Extremity.UNDEF →
            Extremity.ty (Edge.ex1 db) ≠ Extremity.UNDEF →
            ekey da = ekey db → a ≠ b → a ≠ Edge.adjRef db →
            Edge.lt es a b
            = Some (bool_decide (Extremity.ty (Edge.ex1 da) = Extremity.TAIL))).
  { intros a b da db Ha Hb Hda Hdb Hk Hne Hmir. unfold Edge.lt.
    rewrite Ha, Hb. cbn [mbind option_bind].
    rewrite (bool_decide_eq_false_2 (a = b)) by done.
    rewrite (bool_decide_eq_false_2 (a = Edge.adjRef db)) by done.
    cbn [orb]. revert Hk. unfold ekey.
    destruct (bool_decide (Extremity.id (Edge.ex1 da) > Extremity.id (Edge.ex2 da)));
      destruct (bool_decide (Extremity.id (Edge.ex1 db) > Extremity.id (Edge.ex2 db)));
      intros [= H1 H2];
      rewrite (bool_decide_eq_false_2 (Extremity.ty (Edge.ex1 da) = _)) by done;
      rewrite (bool_decide_eq_false_2 (Extremity.ty (Edge.ex1 db) = _)) by done;
      repeat case_bool_decide; try done; lia. }
  split; [exact Hself|]. split.
  { unfold Edge.gt, Edge.le. rewrite Hx. cbn [mbind option_bind].
    by rewrite (bool_decide_eq_true_2 (x = x)) by done. }
  split.
  { intros Hmir. unfold Edge.lt. rewrite Hx, Hy. cbn [mbind option_bind].
    rewrite (bool_decide_eq_true_2 (x = Edge.adjRef dy)) by done.
    by rewrite orb_true_r. }
  split; [intros Hne Hmir; by apply (Htie x y dx dy)|].
  intros Hne Hmir Hmir' Htx Hty. split.
  - rewrite (Htie x y dx dy) by done. by rewrite bool_decide_eq_true_2.
  - rewrite (Htie y x dy dx) by done. by rewrite bool_decide_eq_true_2.
Qed.

Lemma Edge_lt_ties_witness :
  let rec := Some (Edge.mk NULL NULL (Some "a"%string)
                     (Extremity.mk 1 Extremity.TAIL)
                     (Extremity.mk 2 Extremity.TAIL) NULL) in
  Edge.lt [rec; rec] (Some 0%nat) (Some 1%nat) = Some true
  ∧ Edge.lt [rec; rec] (Some 1%nat) (Some 0%nat) = Some true.
Proof.
  intros rec.
  destruct (Edge_lt_ties [rec; rec] (Some 0%nat) (Some 1%nat)
              (Edge.mk NULL NULL (Some "a"%string)
                 (Extremity.mk 1 Extremity.TAIL)
                 (Extremity.mk 2 Extremity.TAIL) NULL)
              (Edge.mk NULL NULL (Some "a"%string)
                 (Extremity.mk 1 Extremity.TAIL)
                 (Extremity.mk 2 Extremity.TAIL) NULL))
    as (_ & _ & _ & _ & Hboth);
    [reflexivity|reflexivity|done|done|reflexivity|].
  by apply Hboth.
Defined.

(** [Edge::setExtremities] on a record with a live mirror record. *)
Lemma Edge_setExtremities_eq es e d d' id1 t1 id2 t2 :
  Edge.deref es e = Some d → Edge.deref es (Edge.adjRef d) = Some d' →
  Edge.adjRef d ≠ e →
  ∃ es', Edge.setExtremities es e id1 t1 id2 t2 = Some es'
    ∧ Edge.deref es' e
      = Some (Edge.set_ex d (Extremity.mk id1 t1) (Extremity.mk id2 t2))
    ∧ Edge.deref es' (Edge.adjRef d)
      = Some (Edge.set_ex d' (Extremity.mk id2 t2) (Extremity.mk id1 t1))
    ∧ (∀ p, p ≠ e → p ≠ Edge.adjRef d → Edge.deref es' p = Edge.deref es p)
    ∧ length es' = length es.
Proof.
  intros He Hr Hne. destruct e as [a|]; [|done].
  destruct (Edge.adjRef d) as [r|] eqn:Hadj; [|done].
  assert (Har : a ≠ r) by congruence.
  assert (Hstep : ∀ (s : list (option Edge.t)) k x f,
            Edge.deref s (Some k) = Some x →
            Edge.update s (Some k) f = Some (<[k:=Some (f x)]> s)).
  { intros s k x f Hs. by apply Edge_update_eq. }
  assert (Hsame : ∀ (s : list (option Edge.t)) k x y,
            Edge.deref s (Some k) = Some x →
            Edge.deref (<[k:=Some y]> s) (Some k) = Some y).
  { intros s k x y Hs. by eapply Edge_deref_insert_eq. }
  assert (Hother : ∀ (s : list (option Edge.t)) k p y,
            p ≠ Some k → Edge.deref (<[k:=Some y]> s) p = Edge.deref s p).
  { intros s k p y Hp. by apply Edge_deref_insert_ne. }
  unfold Edge.setExtremities, Edge.getAdjRef. rewrite He.
  cbn [fmap option_fmap option_map mbind option_bind]. rewrite Hadj.
  (* the eight assignments, one after the other *)
  set (s0 := es).
  set (r1 := Edge.set_ex2_id id1 d').
  set (s1 := <[r:=Some r1]> s0).
  set (e1 := Edge.set_ex1_id id1 d).
  set (s2 := <[a:=Some e1]> s1).
  set (r2 := Edge.set_ex2_ty t1 r1).
  set (s3 := <[r:=Some r2]> s2).
  set (e2 := Edge.set_ex1_ty t1 e1).
  set (s4 := <[a:=Some e2]> s3).
  set (r3 := Edge.set_ex1_id id2 r2).
  set (s5 := <[r:=Some r3]> s4).
  set (e3 := Edge.set_ex2_id id2 e2).
  set (s6 := <[a:=Some e3]> s5).
  set (r4 := Edge.set_ex1_ty t2 r3).
  set (s7 := <[r:=Some r4]> s6).
  set (e4 := Edge.set_ex2_ty t2 e3).
  set (s8 := <[a:=Some e4]> s7).
  assert (H0a : Edge.deref s0 (Some a) = Some d) by done.
  assert (H0r : Edge.deref s0 (Some r) = Some d') by done.
  assert (H1r : Edge.deref s1 (Some r) = Some r1) by (by eapply Hsame).
  assert (H1a : Edge.deref s1 (Some a) = Some d).
  { unfold s1. rewrite Hother by congruence. done. }
  assert (H2a : Edge.deref s2 (Some a) = Some e1) by (by eapply Hsame).
  assert (H2r : Edge.deref s2 (Some r) = Some r1).
  { unfold s2. rewrite Hother by congruence. done. }
  assert (H3r : Edge.deref s3 (Some r) = Some r2) by (by eapply Hsame).
  assert (H3a : Edge.deref s3 (Some a) = Some e1).
  { unfold s3. rewrite Hother by congruence. done. }
  assert (H4a : Edge.deref s4 (Some a) = Some e2) by (by eapply Hsame).
  assert (H4r : Edge.deref s4 (Some r) = Some r2).
  { unfold s4. rewrite Hother by congruence. done. }
  assert (H5r : Edge.deref s5 (Some r) = Some r3) by (by eapply Hsame).
  assert (H5a : Edge.deref s5 (Some a) = Some e2).
  { unfold s5. rewrite Hother by congruence. done. }
  assert (H6a : Edge.deref s6 (Some a) = Some e3) by (by eapply Hsame).
  assert (H6r : Edge.deref s6 (Some r) = Some r3).
  { unfold s6. rewrite Hother by congruence. done. }
  assert (H7r : Edge.deref s7 (Some r) = Some r4) by (by eapply Hsame).
  assert (H7a : Edge.deref s7 (Some a) = Some e3).
  { unfold s7. rewrite Hother by congruence. done. }
  assert (H8a : Edge.deref s8 (Some a) = Some e4) by (by eapply Hsame).
  assert (H8r : Edge.deref s8 (Some r) = Some r4).
  { unfold s8. rewrite Hother by congruence. done. }
  exists s8. split.
  { rewrite (Hstep s0 r d') by done. cbn [mbind option_bind]. fold r1 s1.
    rewrite (Hstep s1 a d) by done. cbn [mbind option_bind]. fold e1 s2.
    rewrite (Hstep s2 r r1) by done. cbn [mbind option_bind]. fold r2 s3.
    rewrite (Hstep s3 a e1) by done. cbn [mbind option_bind]. fold e2 s4.
    rewrite (Hstep s4 r r2) by done. cbn [mbind option_bind]. fold r3 s5.
    rewrite (Hstep s5 a e2) by done. cbn [mbind option_bind]. fold e3 s6.
    rewrite (Hstep s6 r r3) by done. cbn [mbind option_bind]. fold r4 s7.
    by rewrite (Hstep s7 a e3) by done. }
  split; [rewrite H8a; by destruct d as [? ? ? [] [] ?]|].
  split; [rewrite H8r; by destruct d' as [? ? ? [] [] ?]|].
  split.
  - intros p Hpa Hpr. unfold s8, s7, s6, s5, s4, s3, s2, s1, s0.
    by rewrite !Hother by done.
  - unfold s8, s7, s6, s5, s4, s3, s2, s1, s0.
    by rewrite !length_insert.
Qed.

(** X4: [Edge::setExtremities] writes the two extremities on the record
    and, the other way round, on its mirror record, and leaves every other
    field and every other record as they were. *)
Theorem Edge_setExtremities_both_records es e d d' id1 t1 id2 t2 :
  Edge.deref es e = Some d → Edge.deref es (Edge.adjRef d) = Some d' →
  Edge.adjRef d ≠ e →
  ∃ es', Edge.setExtremities es e id1 t1 id2 t2 = Some es'
    ∧ Edge.deref es' e
      = Some (Edge.set_ex d (Extremity.mk id1 t1) (Extremity.mk id2 t2))
    ∧ Edge.deref es' (Edge.adjRef d)
      = Some (Edge.set_ex d' (Extremity.mk id2 t2) (Extremity.mk id1 t1))
    ∧ (∀ p, p ≠ e → p ≠ Edge.adjRef d → Edge.deref es' p = Edge.deref es p)
    ∧ length es' = length es.
Proof.
  intros He Hr Hne.
  destruct (Edge_setExtremities_eq es e d d' id1 t1 id2 t2 He Hr Hne)
    as (es' & Hrun & Hrest).
  by exists es'.
Qed.

Lemma Edge_setExtremities_both_records_witness :
  ∃ es', Edge.setExtremities example_path_edges (Some 2%nat)
           1 Extremity.TAIL 2 Extremity.HEAD = Some es'
    ∧ (Edge.ex1 <$> Edge.deref es' (Some 2%nat))
      = Some (Extremity.mk 1 Extremity.TAIL)
    ∧ (Edge.ex1 <$> Edge.deref es' (Some 3%nat))
      = Some (Extremity.mk 2 Extremity.HEAD).
Proof.
  destruct (Edge_setExtremities_both_records example_path_edges (Some 2%nat)
              (Edge.mk (Some 2%nat) (Some 3%nat) None Extremity.default
                       Extremity.default NULL)
              (Edge.mk (Some 1%nat) (Some 2%nat) None Extremity.default
                       Extremity.default NULL)
              1 Extremity.TAIL 2 Extremity.HEAD)
    as (es' & Hrun & He & Hr & _); [done|done|done|].
  exists es'. split; [exact Hrun|]. split.
  - by rewrite He.
  - change (Some 3%nat) with (Edge.adjRef (Edge.mk (Some 2%nat) (Some 3%nat)
      None Extremity.default Extremity.default NULL)). by rewrite Hr.
Defined.

(** ** Paths *)

Lemma Path_lastE_abs p :
  Path_wf p → 1 ≤ Path.le p → Path.lastE p = last (Path.getEdges p).
Proof.
  intros [_ (Hle & Hsz & _)] H1. unfold Path.lastE.
  change (Path.nthE p (Path.le p - 1) = last (Path.getEdges p)).
  rewrite Path_nthE_getEdges by lia. rewrite last_lookup.
  rewrite Path_getEdges_length by lia. f_equal. lia.
Qed.

(** X5: [add(v, e)] appends the vertex and the edge to the path, which
    become its last ones; [removeEdge] and [removeVertex] after it give
    back a path with the vertices, the edges and the lengths it had. *)
Theorem Path_add_remove_round_trip p x ed :
  Path_wf p → Path.l p + 1 < 2 ^ 31 → Path.le p + 1 < 2 ^ 31 →
  ∃ q, Path.add p x ed = Some q
    ∧ Path_abs q = (Path.getVertices p ++ [x], Path.getEdges p ++ [ed])
    ∧ Path.len q = Path.len p + 1 ∧ Path.lenE q = Path.lenE p + 1
    ∧ Path.last q = Some x ∧ Path.lastE q = Some ed
    ∧ let r := Path.removeVertex (Path.removeEdge q) in
      Path_abs r = Path_abs p
      ∧ Path.len r = Path.len p ∧ Path.lenE r = Path.lenE p.
Proof.
  intros Hwf Hl Hle. unfold Path.add.
  destruct (Path_plus_edge_spec p ed Hwf Hle) as (q1 & Hq1 & Hwf1 & Habs1).
  destruct (Path_addEdge_spec p ed Hwf)
    as (q1' & Hq1' & _ & Hle1 & _ & Hl1 & _).
  unfold Path.plus_edge in Hq1. assert (q1' = q1) as -> by congruence.
  rewrite Hq1. cbn [mbind option_bind].
  destruct (Path_plus_vertex_spec q1 x Hwf1) as (q & Hq & Hwfq & Habsq);
    [lia|].
  destruct (Path_addVertex_spec q1 x Hwf1)
    as (q' & Hq' & _ & Hlq & _ & Hleq & _).
  unfold Path.plus_vertex in Hq. assert (q' = q) as -> by congruence.
  exists q. split; [exact Hq|].
  rewrite Habs1 in Habsq. cbn [fst snd] in Habsq. unfold Path_abs in Habsq.
  injection Habsq as Hvs Hes.
  pose proof Hwf as [(Hl0 & _) (Hle0 & _)].
  pose proof Hwfq as [(Hlq0 & Hsq & _) (Hleq0 & Hseq & _)].
  split; [unfold Path_abs; by rewrite Hvs, Hes|].
  unfold Path.len, Path.lenE.
  split; [lia|]. split; [lia|]. split.
  { rewrite Path_last_abs by (done || lia). rewrite Hvs. apply last_snoc. }
  split.
  { rewrite Path_lastE_abs by (done || lia). rewrite Hes. apply last_snoc. }
  cbv zeta.
  destruct (Path_removeEdge_spec q) as (Hes' & Hle' & Hcap' & Hsz' & Hl' & Hv');
    [lia|lia|].
  set (q2 := Path.removeEdge q) in *.
  destruct (Path_removeVertex_spec q2)
    as (Hvs'' & Hl'' & _ & _ & Hle'' & He''); [rewrite Hl', Hv'; lia|lia|].
  set (r := Path.removeVertex q2) in *.
  assert (Hgv : Path.getVertices q2 = Path.getVertices q).
  { unfold Path.getVertices. by rewrite Hl', Hv'. }
  assert (Hge : Path.getEdges r = Path.getEdges q2).
  { unfold Path.getEdges. by rewrite Hle'', He''. }
  split; [|lia]. unfold Path_abs. f_equal.
  - rewrite Hvs'', Hgv, Hvs.
    rewrite take_app_length'; [done|].
    rewrite Path_getVertices_length by lia. lia.
  - rewrite Hge, Hes', Hes.
    rewrite take_app_length'; [done|].
    rewrite Path_getEdges_length by lia. lia.
Qed.

Lemma Path_add_remove_round_trip_witness :
  ∃ q, Path.add example_open_path (Some 2%nat) (Some 2%nat) = Some q
    ∧ Path_abs q = ([Some 0%nat; Some 1%nat; Some 2%nat],
                    [Some 0%nat; Some 2%nat])
    ∧ Path_abs (Path.removeVertex (Path.removeEdge q))
      = Path_abs example_open_path.
Proof.
  destruct (Path_add_remove_round_trip example_open_path (Some 2%nat)
              (Some 2%nat)) as (q & Hq & Habs & _ & _ & _ & _ & Hback & _).
  - unfold Path_wf, vec_size. simpl. lia.
  - simpl. lia.
  - simpl. lia.
  - exists q. split; [exact Hq|]. split; [exact Habs|exact Hback].
Defined.

(** X6: [inPath(Vertex * )] holds exactly for the vertices of the path
    (the first [l] entries of its vector), and [inPath(Edge * )] exactly
    when the path holds this record of the edge or its mirror record. *)
Theorem Path_inPath_membership es p x ed d :
  Path_wf p → Edge.deref es ed = Some d →
  Path.inPath_vertex p x = Some (bool_decide (x ∈ Path.getVertices p))
  ∧ Path.inPath es p ed
    = Some (bool_decide (ed ∈ Path.getEdges p
                         ∨ Edge.adjRef d ∈ Path.getEdges p)).
Proof.
  intros [(Hl & Hsz & _) (Hle & Hsze & _)] Hd. split.
  - unfold Path.inPath_vertex.
    destruct (any_from_spec
                (λ i, y ← vec_get (Path.v p) i; Some (bool_decide (y = x)))
                0 (Z.to_nat (Path.l p))) as (b & Hb & Hbs).
    { intros k Hk. destruct (vec_get_is_Some (Path.v p) k) as [y Hy]; [lia|].
      rewrite Hy. by eexists. }
    rewrite Hb. f_equal. apply eq_true_iff_eq.
    rewrite Hbs, bool_decide_eq_true. split.
    + intros (k & Hk & Hfk). apply bind_Some in Hfk as (y & Hy & Hfk).
      injection Hfk as Hfk. apply bool_decide_eq_true in Hfk. subst y.
      change (Path.nth p k = Some x) in Hy.
      rewrite Path_nth_getVertices in Hy by lia.
      by eapply list_elem_of_lookup_2.
    + intros Hin. apply list_elem_of_lookup_1 in Hin as [k Hk].
      pose proof (lookup_lt_Some _ _ _ Hk) as Hlt.
      rewrite Path_getVertices_length in Hlt by lia.
      exists (Z.of_nat k). split; [lia|].
      change (vec_get (Path.v p) (Z.of_nat k)) with (Path.nth p (Z.of_nat k)).
      rewrite Path_nth_getVertices by lia. rewrite Nat2Z.id, Hk.
      cbn [mbind option_bind]. by rewrite bool_decide_eq_true_2.
  - destruct (Path_inPath_spec es p ed d) as (b & Hb & Hbs); [lia|done|].
    rewrite Hb. f_equal. apply eq_true_iff_eq.
    rewrite Hbs, bool_decide_eq_true. split.
    + intros (y & Hy & [->| ->]); [by left|by right].
    + intros [Hin|Hin]; eexists; (split; [exact Hin|]); [by left|by right].
Qed.

Lemma Path_inPath_membership_witness :
  Path.inPath_vertex example_open_path (Some 1%nat) = Some true
  ∧ Path.inPath example_path_edges example_open_path (Some 1%nat) = Some true.
Proof.
  destruct (Path_inPath_membership example_path_edges example_open_path
              (Some 1%nat) (Some 1%nat)
              (Edge.mk (Some 0%nat) (Some 0%nat) None Extremity.default
                       Extremity.default NULL)) as [Hv He].
  - unfold Path_wf, vec_size. simpl. lia.
  - reflexivity.
  - split; [exact Hv|exact He].
Defined.

(** X7: [inPath(Extremity, Extremity)] holds exactly when an edge of the
    path has these two extremities, in this order or the other way round,
    so that the order of the two arguments does not matter. *)
Theorem Path_inPath_extremities_iff es p x1 x2 :
  Path_wf p → edges_live es (Path.getEdges p) →
  ∃ b, Path.inPath_extremities es p x1 x2 = Some b
    ∧ Path.inPath_extremities es p x2 x1 = Some b
    ∧ (b = true
       ↔ ∃ y d, y ∈ Path.getEdges p ∧ Edge.deref es y = Some d
           ∧ ((Extremity.eqb (Edge.ex1 d) x1 = true
               ∧ Extremity.eqb (Edge.ex2 d) x2 = true)
              ∨ (Extremity.eqb (Edge.ex1 d) x2 = true
                 ∧ Extremity.eqb (Edge.ex2 d) x1 = true))).
Proof.
  intros [_ (Hle & Hsze & _)] Hlive.
  assert (Hone : ∀ a b, ∃ r, Path.inPath_extremities es p a b = Some r
            ∧ (r = true
               ↔ ∃ y d, y ∈ Path.getEdges p ∧ Edge.deref es y = Some d
                   ∧ ((Extremity.eqb (Edge.ex1 d) a = true
                       ∧ Extremity.eqb (Edge.ex2 d) b = true)
                      ∨ (Extremity.eqb (Edge.ex1 d) b = true
                         ∧ Extremity.eqb (Edge.ex2 d) a = true)))).
  { intros a b. unfold Path.inPath_extremities.
    match goal with
    | |- ∃ r, any_from ?g 0 _ = Some r ∧ _ => set (f := g)
    end.
    destruct (any_from_spec f 0 (Z.to_nat (Path.le p))) as (r & Hr & Hrs).
    { intros k Hk. unfold f.
      destruct (Path_edge_at es p k) as (y & d & Hy & Hd & _); [lia|done|lia|].
      rewrite Hy. cbn [mbind option_bind]. rewrite Hd. by eexists. }
    exists r. split; [exact Hr|]. rewrite Hrs. split.
    - intros (k & Hk & Hfk). unfold f in Hfk.
      destruct (Path_edge_at es p k) as (y & d & Hy & Hd & Hin);
        [lia|done|lia|].
      rewrite Hy in Hfk. cbn [mbind option_bind] in Hfk. rewrite Hd in Hfk.
      injection Hfk as Hfk. exists y, d.
      split; [by eapply list_elem_of_lookup_2|]. split; [done|].
      apply orb_true_iff in Hfk. by rewrite !andb_true_iff in Hfk.
    - intros (y & d & Hin & Hd & Hcase).
      apply list_elem_of_lookup_1 in Hin as [k Hk].
      pose proof (lookup_lt_Some _ _ _ Hk) as Hlt.
      rewrite Path_getEdges_length in Hlt by lia.
      exists (Z.of_nat k). split; [lia|]. unfold f.
      change (vec_get (Path.e p) (Z.of_nat k)) with (Path.nthE p (Z.of_nat k)).
      rewrite Path_nthE_getEdges by lia. rewrite Nat2Z.id, Hk.
      cbn [mbind option_bind]. rewrite Hd. cbn [mbind option_bind]. f_equal.
      apply orb_true_iff. by rewrite !andb_true_iff. }
  destruct (Hone x1 x2) as (b & Hb & Hbs).
  destruct (Hone x2 x1) as (b' & Hb' & Hbs').
  exists b. split; [exact Hb|]. split; [|exact Hbs].
  rewrite Hb'. f_equal. apply eq_true_iff_eq. rewrite Hbs, Hbs'.
  split; intros (y & d & Hin & Hd & Hcase); exists y, d;
    (split; [done|]); (split; [done|]); tauto.
Qed.

Lemma Path_inPath_extremities_iff_witness :
  Path.inPath_extremities example_labelled_edges example_path_ba
    (Extremity.mk 2 Extremity.TAIL) (Extremity.mk 1 Extremity.TAIL)
  = Some true.
Proof.
  destruct (Path_inPath_extremities_iff example_labelled_edges example_path_ba
              (Extremity.mk 2 Extremity.TAIL) (Extremity.mk 1 Extremity.TAIL))
    as (b & Hb & _ & Hbs).
  - unfold Path_wf, vec_size. simpl. lia.
  - intros y Hy. vm_compute in Hy.
    repeat (apply elem_of_cons in Hy as [->|Hy]; [by eexists|]).
    by apply elem_of_nil in Hy.
  - rewrite Hb. f_equal. apply Hbs.
    exists (Some 1%nat), (Edge.mk NULL NULL (Some "a"%string)
                            (Extremity.mk 1 Extremity.TAIL)
                            (Extremity.mk 2 Extremity.TAIL) NULL).
    split; [vm_compute; by repeat constructor|]. split; [reflexivity|].
    right. split; reflexivity.
Defined.

(** X8: [consistent()] answers false exactly when, of two edges of the
    path, the one at the earlier position is incompatible with the later
    one, is the same record, or is the mirror record of the later one. *)
Theorem Path_consistent_iff es p :
  Path_wf p → edges_live es (Path.getEdges p) →
  ∃ b, Path.consistent es p = Some b
    ∧ (b = false
       ↔ ∃ i j x y dx dy,
           (i < j)%nat ∧ Path.getEdges p !! i = Some x
           ∧ Path.getEdges p !! j = Some y
           ∧ Edge.deref es x = Some dx ∧ Edge.deref es y = Some dy
           ∧ (Edge.incompatible dx dy = true ∨ x = y ∨ x = Edge.adjRef dy)).
Proof.
  intros [_ (Hle & Hsze & _)] Hlive.
  destruct (Path_consistent_spec es p) as (b & Hb & Hbs); [lia|done|].
  exists b. split; [exact Hb|]. split.
  - intros ->.
    assert (Hnot : ¬ consistent_list es (Path.getEdges p)).
    { intros Hc. by apply Hbs in Hc. }
    (* a clash is looked for among the finitely many pairs *)
    set (test := λ ij : nat * nat,
           bool_decide (ij.1 < ij.2)%nat
           && match Path.getEdges p !! ij.1, Path.getEdges p !! ij.2 with
              | Some x, Some y => clash es x y
              | _, _ => false
              end).
    destruct (existsb test
                (list_prod (seq 0 (length (Path.getEdges p)))
                           (seq 0 (length (Path.getEdges p))))) eqn:Hex.
    + apply existsb_exists in Hex as ([i j] & _ & Hij). unfold test in Hij.
      cbn [fst snd] in Hij. apply andb_true_iff in Hij as [Hij Hc].
      apply bool_decide_eq_true in Hij.
      destruct (Path.getEdges p !! i) as [x|] eqn:Hx; [|done].
      destruct (Path.getEdges p !! j) as [y|] eqn:Hy; [|done].
      destruct (Hlive x) as [dx Hdx]; [by eapply list_elem_of_lookup_2|].
      destruct (Hlive y) as [dy Hdy]; [by eapply list_elem_of_lookup_2|].
      exists i, j, x, y, dx, dy. repeat (split; [done|]).
      unfold clash in Hc. rewrite Hdx, Hdy in Hc.
      apply orb_true_iff in Hc as [Hc|Hc];
        [apply orb_true_iff in Hc as [Hc|Hc]|].
      * by left.
      * right. left. by apply bool_decide_eq_true in Hc.
      * right. right. by apply bool_decide_eq_true in Hc.
    + exfalso. apply Hnot. intros i j x y Hij Hx Hy.
      destruct (clash es x y) eqn:Hc; [|done]. exfalso.
      assert (existsb test
                (list_prod (seq 0 (length (Path.getEdges p)))
                           (seq 0 (length (Path.getEdges p)))) = true)
        as Hyes; [|congruence].
      apply existsb_exists. exists (i, j). split.
      * apply in_prod; apply in_seq.
        -- pose proof (lookup_lt_Some _ _ _ Hx). lia.
        -- pose proof (lookup_lt_Some _ _ _ Hy). lia.
      * unfold test. cbn [fst snd]. rewrite Hx, Hy, Hc.
        by rewrite bool_decide_eq_true_2.
  - intros (i & j & x & y & dx & dy & Hij & Hx & Hy & Hdx & Hdy & Hcase).
    destruct b; [|done]. exfalso.
    pose proof (proj1 Hbs eq_refl i j x y Hij Hx Hy) as Hc.
    unfold clash in Hc. rewrite Hdx, Hdy in Hc.
    apply orb_false_iff in Hc as [Hc Hmir].
    apply orb_false_iff in Hc as [Hinc Hsame].
    apply bool_decide_eq_false in Hmir. apply bool_decide_eq_false in Hsame.
    destruct Hcase as [Hcase|[Hcase|Hcase]]; [congruence|done|done].
Qed.

Lemma Path_consistent_iff_witness :
  Path.consistent example_labelled_edges example_path_ba = Some true.
Proof.
  destruct (Path_consistent_iff example_labelled_edges example_path_ba)
    as (b & Hb & Hbs).
  - unfold Path_wf, vec_size. simpl. lia.
  - intros y Hy. vm_compute in Hy.
    repeat (apply elem_of_cons in Hy as [->|Hy]; [by eexists|]).
    by apply elem_of_nil in Hy.
  - rewrite Hb. f_equal. destruct b; [done|]. exfalso.
    vm_compute in Hb. done.
Defined.

(** X9: the result of [consistent(edge)] is the result of [consistent()]
    on the path with the edge appended. *)
Theorem Path_consistent_edge_as_extension es p edge d :
  Path_wf p → Path.le p + 1 < 2 ^ 31 →
  edges_live es (Path.getEdges p) → Edge.deref es edge = Some d →
  ∃ b p' q, Path.consistent_edge es p edge = Some (b, p')
    ∧ Path.addEdge p edge = Some q
    ∧ Path.consistent es q = Some b.
Proof.
  intros Hwf Hle Hlive Hd.
  destruct (Path_consistent_edge_spec es p edge d Hwf Hlive Hd)
    as (b & p' & Hrun & _ & _ & Hbs).
  destruct (Path_plus_edge_spec p edge Hwf Hle) as (q & Hq & Hwfq & Habs).
  unfold Path_abs in Habs. cbn [fst snd] in Habs. injection Habs as _ Hes.
  assert (Hliveq : edges_live es (Path.getEdges q)).
  { intros y Hy. rewrite Hes in Hy. apply elem_of_app in Hy as [Hy|Hy].
    - by apply Hlive.
    - apply list_elem_of_singleton in Hy as ->. by eexists. }
  destruct Hwfq as [_ (Hleq & _)].
  destruct (Path_consistent_spec es q) as (b' & Hb' & Hbs'); [lia|done|].
  exists b, p', q. split; [exact Hrun|]. split; [exact Hq|].
  rewrite Hb'. f_equal. apply eq_true_iff_eq. by rewrite Hbs, Hbs', Hes.
Qed.

Lemma Path_consistent_edge_as_extension_witness :
  ∃ b p' q,
    Path.consistent_edge example_labelled_edges example_path_ba (Some 2%nat)
    = Some (b, p')
    ∧ Path.addEdge example_path_ba (Some 2%nat) = Some q
    ∧ Path.consistent example_labelled_edges q = Some b.
Proof.
  apply (Path_consistent_edge_as_extension example_labelled_edges
           example_path_ba (Some 2%nat)
           (Edge.mk NULL NULL (Some "a"%string)
              (Extremity.mk 5 Extremity.TAIL)
              (Extremity.mk 6 Extremity.TAIL) NULL)).
  - unfold Path_wf, vec_size. simpl. lia.
  - simpl. lia.
  - intros y Hy. vm_compute in Hy.
    repeat (apply elem_of_cons in Hy as [->|Hy]; [by eexists|]).
    by apply elem_of_nil in Hy.
  - reflexivity.
Defined.

(** X10: [consistent(Path * )] answers false exactly when an edge of this
    path is incompatible with an edge of the other path; the answer is the
    same with the two paths exchanged. *)
Theorem Path_consistent_path_iff es p q :
  Path_wf p → Path_wf q →
  edges_live es (Path.getEdges p) → edges_live es (Path.getEdges q) →
  ∃ b, Path.consistent_path es p q = Some b
    ∧ Path.consistent_path es q p = Some b
    ∧ (b = false
       ↔ ∃ x y dx dy, x ∈ Path.getEdges p ∧ y ∈ Path.getEdges q
           ∧ Edge.deref es x = Some dx ∧ Edge.deref es y = Some dy
           ∧ Edge.incompatible dx dy = true).
Proof.
  assert (Hone : ∀ p q, Path_wf p → Path_wf q →
            edges_live es (Path.getEdges p) → edges_live es (Path.getEdges q) →
            ∃ b, Path.consistent_path es p q = Some b
              ∧ (b = false
                 ↔ ∃ x y dx dy, x ∈ Path.getEdges p ∧ y ∈ Path.getEdges q
                     ∧ Edge.deref es x = Some dx ∧ Edge.deref es y = Some dy
                     ∧ Edge.incompatible dx dy = true)).
  { clear p q. intros p q [_ (Hle & Hsze & _)] [_ (Hleq & Hszeq & _)] Hlp Hlq.
    unfold Path.consistent_path.
    set (inner := λ i j : Z,
           ei ← vec_get (Path.e p) i; ej ← vec_get (Path.e q) j;
           Edge.incompatible_at es ei ej).
    assert (Hinner : ∀ i j, 0 ≤ i < Path.le p → 0 ≤ j < Path.le q →
              ∃ x y dx dy, Path.getEdges p !! Z.to_nat i = Some x
                ∧ Path.getEdges q !! Z.to_nat j = Some y
                ∧ Edge.deref es x = Some dx ∧ Edge.deref es y = Some dy
                ∧ inner i j = Some (Edge.incompatible dx dy)).
    { intros i j Hi Hj. unfold inner.
      destruct (Path_edge_at es p i) as (x & dx & Hx & Hdx & Hlx); [done..|].
      destruct (Path_edge_at es q j) as (y & dy & Hy & Hdy & Hly); [done..|].
      exists x, y, dx, dy. repeat (split; [done|]).
      rewrite Hx, Hy. cbn [mbind option_bind]. unfold Edge.incompatible_at.
      by rewrite Hdx, Hdy. }
    destruct (any_from_spec
                (λ i, any_from (inner i) 0 (Z.to_nat (Path.le q)))
                0 (Z.to_nat (Path.le p))) as (b & Hb & Hbs).
    { intros i Hi. apply any_from_total. intros j Hj.
      destruct (Hinner i j) as (x & y & dx & dy & _ & _ & _ & _ & Hij);
        [lia..|]. by eexists. }
    change (∃ b0, negb <$> any_from (λ i, any_from (inner i) 0
                                        (Z.to_nat (Path.le q)))
                                0 (Z.to_nat (Path.le p)) = Some b0
              ∧ (b0 = false
                 ↔ ∃ x y dx dy, x ∈ Path.getEdges p ∧ y ∈ Path.getEdges q
                     ∧ Edge.deref es x = Some dx ∧ Edge.deref es y = Some dy
                     ∧ Edge.incompatible dx dy = true)).
    rewrite Hb. exists (negb b). split; [done|].
    rewrite negb_false_iff, Hbs. split.
    - intros (i & Hi & Hrow). apply any_from_true in Hrow as (j & Hj & Hij).
      destruct (Hinner i j) as (x & y & dx & dy & Hx & Hy & Hdx & Hdy & Hij');
        [lia..|].
      exists x, y, dx, dy.
      split; [by eapply list_elem_of_lookup_2|].
      split; [by eapply list_elem_of_lookup_2|].
      split; [done|]. split; [done|]. congruence.
    - intros (x & y & dx & dy & Hx & Hy & Hdx & Hdy & Hinc).
      apply list_elem_of_lookup_1 in Hx as [i Hi].
      apply list_elem_of_lookup_1 in Hy as [j Hj].
      pose proof (lookup_lt_Some _ _ _ Hi) as Hlti.
      pose proof (lookup_lt_Some _ _ _ Hj) as Hltj.
      rewrite Path_getEdges_length in Hlti by lia.
      rewrite Path_getEdges_length in Hltj by lia.
      exists (Z.of_nat i). split; [lia|].
      destruct (any_from_spec (inner (Z.of_nat i)) 0 (Z.to_nat (Path.le q)))
        as (c & Hc & Hcs).
      { intros k Hk.
        destruct (Hinner (Z.of_nat i) k)
          as (? & ? & ? & ? & _ & _ & _ & _ & Hik); [lia..|]. by eexists. }
      rewrite Hc. f_equal. apply Hcs. exists (Z.of_nat j). split; [lia|].
      destruct (Hinner (Z.of_nat i) (Z.of_nat j))
        as (x' & y' & dx' & dy' & Hx' & Hy' & Hdx' & Hdy' & Hij); [lia..|].
      rewrite !Nat2Z.id in *. rewrite Hij. f_equal.
      assert (x' = x) as -> by congruence.
      assert (y' = y) as -> by congruence.
      assert (dx' = dx) as -> by congruence.
      assert (dy' = dy) as -> by congruence. done. }
  intros Hwp Hwq Hlp Hlq.
  destruct (Hone p q Hwp Hwq Hlp Hlq) as (b & Hb & Hbs).
  destruct (Hone q p Hwq Hwp Hlq Hlp) as (b' & Hb' & Hbs').
  exists b. split; [exact Hb|]. split; [|exact Hbs].
  rewrite Hb'. f_equal.
  assert (Hiff : b' = false ↔ b = false).
  { rewrite Hbs, Hbs'. split.
    - intros (x & y & dx & dy & Hx & Hy & Hdx & Hdy & Hinc).
      exists y, x, dy, dx. repeat (split; [done|]).
      by rewrite incompatible_sym.
    - intros (x & y & dx & dy & Hx & Hy & Hdx & Hdy & Hinc).
      exists y, x, dy, dx. repeat (split; [done|]).
      by rewrite incompatible_sym. }
  destruct b, b'; try done.
  - exfalso. by pose proof (proj1 Hiff eq_refl).
  - exfalso. by pose proof (proj2 Hiff eq_refl).
Qed.

Lemma Path_consistent_path_iff_witness :
  Path.consistent_path example_labelled_edges example_path_ba example_path_ab
  = Some true
  ∧ Path.consistent_path example_labelled_edges example_path_ab
      example_path_ba = Some true.
Proof.
  destruct (Path_consistent_path_iff example_labelled_edges example_path_ba
              example_path_ab) as (b & Hb & Hb' & _).
  - unfold Path_wf, vec_size. simpl. lia.
  - unfold Path_wf, vec_size. simpl. lia.
  - intros y Hy. vm_compute in Hy.
    repeat (apply elem_of_cons in Hy as [->|Hy]; [by eexists|]).
    by apply elem_of_nil in Hy.
  - intros y Hy. vm_compute in Hy.
    repeat (apply elem_of_cons in Hy as [->|Hy]; [by eexists|]).
    by apply elem_of_nil in Hy.
  - assert (b = true) as ->.
    { vm_compute in Hb. congruence. }
    split; [exact Hb|exact Hb'].
Defined.

(** X11: when [isCycle(e)] holds on a path, the path has one vertex more
    than edges, and [e] leads to its first vertex; the path extended by
    [e] is then a cycle for [isCycle()] exactly when it had an edge
    already. *)
Theorem Path_isCycle_with_closes es p ed d :
  Path_wf p → Path.le p + 1 < 2 ^ 31 → Edge.deref es ed = Some d →
  Path.isCycle_with es p ed = Some true →
  Path.len p = Path.lenE p + 1 ∧ Path.first p = Some (Edge.adj d)
  ∧ ∃ q, Path.plus_edge p ed = Some q
      ∧ Path.isCycle es q = Some (bool_decide (1 ≤ Path.lenE p)).
Proof.
  intros Hwf Hle Hd Hcyc.
  pose proof Hwf as [(Hl & Hsz & _) (Hle0 & Hsze & _)].
  destruct (vec_get_is_Some (Path.v p) 0) as [f Hf]; [lia|].
  unfold Path.isCycle_with, Path.len, Path.lenE, Edge.getAdj, Path.first in Hcyc.
  rewrite Hd, Hf in Hcyc. cbn [fmap option_fmap option_map mbind option_bind] in Hcyc.
  case_bool_decide as Hlen; [|done]. case_bool_decide as Hadj; [|done].
  unfold Path.len, Path.lenE, Path.first.
  split; [done|]. split; [by rewrite Hf, Hadj|].
  destruct (Path_plus_edge_spec p ed Hwf Hle) as (q & Hq & Hwfq & Habs).
  destruct (Path_addEdge_spec p ed Hwf)
    as (q' & Hq' & _ & Hleq & _ & Hlq & Hvq).
  unfold Path.plus_edge in Hq |- *. assert (q' = q) as -> by congruence.
  exists q. split; [exact Hq|].
  unfold Path_abs in Habs. cbn [fst snd] in Habs. injection Habs as _ Hes.
  assert (HlastE : Path.lastE q = Some ed).
  { rewrite Path_lastE_abs by (done || lia). rewrite Hes. apply last_snoc. }
  unfold Path.isCycle, Path.len, Path.lenE, Path.first.
  rewrite HlastE, Hvq, Hf, Hlq, Hleq.
  rewrite (bool_decide_eq_false_2 (Path.l p = Path.le p + 1 + 1)) by lia.
  rewrite andb_false_r. cbn [mbind option_bind].
  rewrite (bool_decide_eq_true_2 (Path.l p = Path.le p + 1)) by lia.
  rewrite andb_true_r. unfold Edge.getAdj. rewrite Hd.
  cbn [fmap option_fmap option_map mbind option_bind].
  rewrite (bool_decide_eq_true_2 (Edge.adj d = f)) by done.
  repeat case_bool_decide; try done; lia.
Qed.

Lemma Path_isCycle_with_closes_witness :
  ∃ q, Path.plus_edge example_open_path (Some 1%nat) = Some q
    ∧ Path.isCycle example_path_edges q = Some true.
Proof.
  destruct (Path_isCycle_with_closes example_path_edges example_open_path
              (Some 1%nat)
              (Edge.mk (Some 0%nat) (Some 0%nat) None Extremity.default
                       Extremity.default NULL))
    as (_ & _ & q & Hq & Hcyc).
  - unfold Path_wf, vec_size. simpl. lia.
  - simpl. lia.
  - reflexivity.
  - vm_compute. reflexivity.
  - exists q. split; [exact Hq|exact Hcyc].
Defined.

(** ** Iteration over the vertices of a graph *)

Lemma iter_match_NULL h part family : iter_match h part family NULL = false.
Proof. done. Qed.

Lemma to_int_to_unsigned x : - 2 ^ 31 ≤ x < 2 ^ 31 → to_int (to_unsigned x) = x.
Proof.
  intros Hx. unfold to_int, to_unsigned.
  destruct (decide (0 ≤ x)) as [Hpos|Hneg].
  - rewrite Z.mod_small by lia. by rewrite bool_decide_eq_false_2 by lia.
  - replace (x mod 2 ^ 32) with (x + 2 ^ 32).
    + rewrite bool_decide_eq_true_2 by lia. lia.
    + apply Z.mod_unique with (q := -1); lia.
Qed.

Section iteration_in_order.
Variables (h : Heap.t) (g : Graph.t) (part family : Z).
Hypothesis Hsize : vec_size (Graph.vertices g) = Graph.maxn g.
Hypothesis Hslots : Graph_slots_ok h g.

Lemma selected_match id :
  0 ≤ id < Graph.maxn g →
  ∃ v, Graph.vertices g !! Z.to_nat id = Some v
    ∧ Graph.selected h g part family id = Some (iter_match h part family v).
Proof.
  intros Hid. unfold Graph.selected.
  destruct (vec_get_is_Some (Graph.vertices g) id) as [v Hv]; [lia|].
  rewrite Hv. cbn [mbind option_bind].
  exists v. split; [by apply vec_get_Some in Hv as [_ ?]|].
  case_bool_decide as Hnull.
  - destruct (Hslots id v Hv Hnull) as (x & Hx & _). unfold iter_match.
    rewrite Hx. cbn [mbind option_bind].
    repeat case_bool_decide; done.
  - by subst v.
Qed.

Lemma scan_first fuel : ∀ id,
  0 ≤ id ≤ Graph.maxn g → Graph.maxn g - id ≤ Z.of_nat fuel →
  ∃ id', Graph.scan h g part family id fuel = Some id'
    ∧ id ≤ id' ≤ Graph.maxn g
    ∧ List.filter (iter_match h part family)
                  (drop (Z.to_nat id) (Graph.vertices g))
      = List.filter (iter_match h part family)
                    (drop (Z.to_nat id') (Graph.vertices g))
    ∧ (id' < Graph.maxn g →
       ∃ v, Graph.vertices g !! Z.to_nat id' = Some v
            ∧ iter_match h part family v = true).
Proof.
  induction fuel as [|fuel IH]; intros id Hid Hfuel.
  - simpl. rewrite bool_decide_eq_false_2 by lia. exists id.
    split; [done|]. split; [lia|]. split; [done|]. lia.
  - simpl. case_bool_decide as Hlt.
    + destruct (selected_match id) as (v & Hv & Hsel); [lia|].
      rewrite Hsel. cbn [mbind option_bind].
      destruct (iter_match h part family v) eqn:Hm.
      * exists id. split; [done|]. split; [lia|]. split; [done|].
        intros _. by exists v.
      * destruct (IH (id + 1)) as (id' & Hrun & Hle & Hfil & Hhit); [lia|lia|].
        exists id'. split; [done|]. split; [lia|]. split; [|done].
        rewrite <- Hfil. rewrite (drop_S _ v (Z.to_nat id)) by done.
        cbn [List.filter]. rewrite Hm. do 2 f_equal. lia.
    + exists id. split; [done|]. split; [lia|]. split; [done|]. lia.
Qed.

Lemma visited_in_order fuel : ∀ id,
  0 ≤ id ≤ Graph.maxn g →
  (id < Graph.maxn g →
   ∃ v, Graph.vertices g !! Z.to_nat id = Some v
        ∧ iter_match h part family v = true) →
  Graph.maxn g - id + 1 ≤ Z.of_nat fuel →
  Graph.visited h g (Graph.mk_iterator id part family) fuel
  = Some (List.filter (iter_match h part family)
                      (drop (Z.to_nat id) (Graph.vertices g))).
Proof.
  induction fuel as [|fuel IH]; intros id Hid Hsel Hfuel; [lia|].
  cbn [Graph.visited]. unfold Graph.differ, Graph.end_.
  cbn [Graph.cur]. case_bool_decide as Hend.
  - destruct Hsel as (v & Hv & Hm); [lia|].
    unfold Graph.get, Graph.next.
    cbn [Graph.cur Graph.it_part Graph.it_family].
    rewrite vec_get_lookup by lia. rewrite Hv. cbn [mbind option_bind].
    destruct (scan_first (Z.to_nat (Graph.maxn g - (id + 1))) (id + 1))
      as (id' & Hrun & Hle & Hfil & Hhit); [lia|lia|].
    rewrite Hrun. cbn [mbind option_bind].
    rewrite (IH id') by (done || lia). cbn [mbind option_bind].
    rewrite (drop_S _ v (Z.to_nat id)) by done.
    cbn [List.filter]. rewrite Hm. do 2 f_equal. rewrite <- Hfil.
    do 2 f_equal. lia.
  - subst id.
    rewrite drop_ge; [done|]. unfold vec_size in Hsize. lia.
Qed.

Lemma count_from_in_order fuel : ∀ id size,
  0 ≤ id ≤ Graph.maxn g →
  Graph.maxn g - id + 1 ≤ Z.of_nat fuel →
  Graph.count_from h g (Graph.mk_iterator id part family) size fuel
  = (λ l : list ptr, size + Z.of_nat (length l))
      <$> Graph.visited h g (Graph.mk_iterator id part family) fuel.
Proof.
  induction fuel as [|fuel IH]; intros id size Hid Hfuel; [lia|].
  cbn [Graph.visited Graph.count_from]. unfold Graph.differ, Graph.end_.
  cbn [Graph.cur]. case_bool_decide as Hend.
  - unfold Graph.get, Graph.next.
    cbn [Graph.cur Graph.it_part Graph.it_family].
    destruct (vec_get_is_Some (Graph.vertices g) id) as [v Hv]; [lia|].
    rewrite Hv. cbn [mbind option_bind].
    destruct (scan_first (Z.to_nat (Graph.maxn g - (id + 1))) (id + 1))
      as (id' & Hrun & Hle & _); [lia|lia|].
    rewrite Hrun. cbn [mbind option_bind]. rewrite IH by lia.
    destruct (Graph.visited h g (Graph.mk_iterator id' part family) fuel)
      as [l|]; [|done].
    cbn [fmap option_fmap option_map mbind option_bind length]. f_equal. lia.
  - cbn [fmap option_fmap option_map length]. f_equal. lia.
Qed.

Lemma range_in_order id :
  0 ≤ id ≤ Graph.maxn g →
  ∃ it, Graph._begin h g part family id = Some it
    ∧ Graph.range h g it
      = Some (List.filter (iter_match h part family)
                          (drop (Z.to_nat id) (Graph.vertices g)))
    ∧ Graph.count_from h g it 0 (Z.to_nat (Graph.maxn g) + 1)
      = Some (Z.of_nat (length (List.filter (iter_match h part family)
                                  (drop (Z.to_nat id) (Graph.vertices g))))).
Proof.
  intros Hid. unfold Graph._begin.
  destruct (scan_first (Z.to_nat (Graph.maxn g - id)) id)
    as (id' & Hrun & Hle & Hfil & Hhit); [lia|lia|].
  rewrite Hrun. cbn [mbind option_bind]. eexists. split; [done|].
  assert (Hvis : Graph.visited h g (Graph.mk_iterator id' part family)
                   (Z.to_nat (Graph.maxn g) + 1)
                 = Some (List.filter (iter_match h part family)
                           (drop (Z.to_nat id) (Graph.vertices g)))).
  { rewrite Hfil. apply visited_in_order; [lia|done|lia]. }
  split; [exact Hvis|].
  rewrite count_from_in_order by lia. rewrite Hvis. done.
Qed.

End iteration_in_order.

(** X12: the iteration from [begin] to [end] visits the vertices of the
    graph of the given part and family (any part, any family for -1) and
    no other pointer, each once, by increasing ids: the entries of the
    vector of the vertices that are selected, in the order of the vector,
    from the given id on. *)
Theorem Graph_iteration_in_order h g part family id :
  vec_size (Graph.vertices g) = Graph.maxn g → Graph_slots_ok h g →
  0 ≤ id ≤ Graph.maxn g →
  ∃ it, Graph._begin h g part family id = Some it
    ∧ Graph.range h g it
      = Some (List.filter (iter_match h part family)
                          (drop (Z.to_nat id) (Graph.vertices g)))
    ∧ (id = 0 → family = -1 → part = -1 → Graph.begin_ h g = Some it)
    ∧ (id = 0 → family = -1 → Graph.begin_part h g part = Some it)
    ∧ (id = 0 → 0 ≤ family < 2 ^ 31 →
       Graph.begin_part_family h g part family = Some it).
Proof.
  intros Hsize Hslots Hid.
  destruct (range_in_order h g part family Hsize Hslots id Hid)
    as (it & Hbegin & Hrange & _).
  exists it. split; [exact Hbegin|]. split; [exact Hrange|].
  split; [intros -> -> ->; exact Hbegin|].
  split; [intros -> ->; exact Hbegin|].
  intros -> Hfam. unfold Graph.begin_part_family, to_int.
  by rewrite bool_decide_eq_false_2 by lia.
Qed.

Lemma Graph_iteration_in_order_witness :
  ∃ h g it, example_parts = Some (h, g)
    ∧ Graph.begin_part h g 1 = Some it
    ∧ Graph.range h g it = Some [Some 2%nat].
Proof.
  destruct example_parts as [[h g]|] eqn:Hex; [|by vm_compute in Hex].
  destruct (Graph_iteration_in_order h g 1 (-1) 0)
    as (it & Hbegin & Hrange & _ & Hpart & _).
  - vm_compute in Hex. injection Hex as <- <-. reflexivity.
  - vm_compute in Hex. injection Hex as <- <-. intros i p Hp Hnull.
    unfold vec_get in Hp. case_bool_decide as Hi; [|done].
    cbn [Graph.vertices] in Hp.
    destruct (Z.to_nat i) as [|[|[|[|k]]]] eqn:Hk; simpl in Hp;
      try (injection Hp as <-); try done;
      eexists; (split; [reflexivity|simpl; lia]).
  - vm_compute in Hex. injection Hex as <- <-. simpl. lia.
  - exists h, g, it. split; [done|]. split; [by apply Hpart|].
    rewrite Hrange. vm_compute in Hex. injection Hex as <- <-.
    vm_compute. reflexivity.
Defined.

(** X13: [familySize(family, part)] hands its two arguments to [begin]
    in the wrong order: it counts the vertices whose part is the family
    given, as a [char], and whose family is the part given (any family for
    the default -1).  With the default part and a family from 0 to 127 it
    is the number of vertices of the part of this number, the result of
    [partSize]. *)
Theorem familySize_exchanges_arguments h g family part :
  parts_ok h g → 0 ≤ family < 2 ^ 32 → -128 ≤ part ≤ 127 →
  Graph.familySize h g family part
  = Some (Z.of_nat (length (List.filter
                              (iter_match h (to_char (family mod 2 ^ 8)) part)
                              (Graph.vertices g))))
  ∧ (part = -1 → family ≤ 127 →
     Graph.familySize h g family part = Graph.partSize g family).
Proof.
  intros Hok Hfam Hpart.
  pose proof Hok as (Hnp & Hsize & Hslots & Hparts & Hcount).
  pose proof (vec_size_nonneg (Graph.vertices g)) as Hnn.
  assert (Hrun : Graph.familySize h g family part
            = Some (Z.of_nat (length (List.filter
                       (iter_match h (to_char (family mod 2 ^ 8)) part)
                       (Graph.vertices g))))).
  { unfold Graph.familySize, Graph.begin_part_family.
    rewrite to_int_to_unsigned by lia.
    destruct (range_in_order h g (to_char (family mod 2 ^ 8)) part
                Hsize Hslots 0) as (it & Hbegin & _ & Hcnt); [lia|].
    rewrite Hbegin. cbn [mbind option_bind]. by rewrite Hcnt. }
  split; [exact Hrun|]. intros -> Hsmall. rewrite Hrun.
  unfold Graph.partSize.
  rewrite (bool_decide_eq_false_2 (family < 0)) by lia.
  rewrite (bool_decide_eq_false_2 (family > 127)) by lia. cbn [orb].
  rewrite to_unsigned_small by lia. rewrite Hcount by lia.
  unfold count_part. do 3 f_equal.
  rewrite Z.mod_small by lia. unfold to_char.
  rewrite bool_decide_eq_false_2 by lia.
  apply List.filter_ext. intros p. unfold iter_match, in_part.
  destruct (Heap.vertex h p) as [x|]; [|done].
  rewrite (bool_decide_eq_false_2 (family = -1)) by lia.
  rewrite (bool_decide_eq_true_2 (-1 = -1)) by done.
  cbn [orb]. rewrite andb_true_r. apply bool_decide_ext. split; by intros ->.
Qed.

Lemma example_parts_reachable :
  ∃ h g, example_parts = Some (h, g) ∧ reachable h g.
Proof.
  eexists _, _. split; [vm_compute; reflexivity|].
  eapply (reachable_step _ _ (RemoveVertexId 0));
    [eapply (reachable_step _ _ (AddEdgeId 0 1 None));
     [eapply (reachable_step _ _ (AddVertex 3 None 1 0));
      [eapply (reachable_step _ _ (AddVertexAuto None 2 0));
       [eapply (reachable_step _ _ (AddVertex 0 None 1 0));
        [eapply (reachable_new Heap.empty None 4); vm_compute; reflexivity
        |simpl; lia|vm_compute; reflexivity]
       |simpl; lia|vm_compute; reflexivity]
      |simpl; lia|vm_compute; reflexivity]
     |done|vm_compute; reflexivity]
    |done|vm_compute; reflexivity].
Qed.

Lemma familySize_exchanges_arguments_witness :
  ∃ h g, example_parts = Some (h, g)
    ∧ Graph.familySize h g 0 (-1) = Some 0
    ∧ Graph.familySize h g 1 (-1) = Some 1
    ∧ vec_get (Graph.fsize g) 0 = Some 2.
Proof.
  destruct example_parts_reachable as (h & g & Hex & Hreach).
  pose proof (reachable_parts_ok h g Hreach) as Hok.
  destruct (familySize_exchanges_arguments h g 0 (-1) Hok) as [H0 _];
    [lia|lia|].
  destruct (familySize_exchanges_arguments h g 1 (-1) Hok) as [H1 _];
    [lia|lia|].
  exists h, g. split; [done|].
  vm_compute in Hex. injection Hex as <- <-.
  split; [rewrite H0; vm_compute; reflexivity|].
  split; [rewrite H1; vm_compute; reflexivity|vm_compute; reflexivity].
Defined.

(** ** Looking up vertices and family names *)

Lemma grow_some size bound : ∀ fuel,
  1 ≤ size → bound - size + 1 ≤ Z.of_nat fuel →
  ∃ mx, grow size bound fuel = Some mx.
Proof.
  intros fuel. revert size.
  induction fuel as [|fuel IH]; intros size Hsize Hfuel; simpl.
  - rewrite bool_decide_eq_false_2 by lia. by eexists.
  - case_bool_decide; [|by eexists]. apply IH; lia.
Qed.

Lemma getMaxVertexId_from_spec g : ∀ count i,
  -1 ≤ i < vec_size (Graph.vertices g) → i + 1 ≤ Z.of_nat count →
  ∃ r, Graph.getMaxVertexId_from g i count = Some r
    ∧ -1 ≤ r ≤ i
    ∧ (0 ≤ r → ∃ v, Graph.getVertex g r = Some v ∧ v ≠ NULL)
    ∧ (∀ j, r < j ≤ i → Graph.getVertex g j = Some NULL).
Proof.
  induction count as [|count IH]; intros i Hi Hcount.
  - simpl. rewrite bool_decide_eq_false_2 by lia. exists i.
    split; [done|]. split; [lia|]. split; [lia|]. intros j Hj. lia.
  - simpl. case_bool_decide as Hpos.
    + destruct (vec_get_is_Some (Graph.vertices g) i) as [p Hp]; [lia|].
      rewrite Hp. cbn [mbind option_bind]. case_bool_decide as Hnull.
      * destruct (IH (i - 1)) as (r & Hr & Hrange & Hhit & Habove); [lia|lia|].
        exists r. split; [done|]. split; [lia|]. split; [done|].
        intros j Hj. destruct (decide (j = i)) as [->|Hne].
        -- unfold Graph.getVertex. by rewrite Hp, Hnull.
        -- apply Habove. lia.
      * exists i. split; [done|]. split; [lia|]. split.
        -- intros _. by exists p.
        -- intros j Hj. lia.
    + exists i. split; [done|]. split; [lia|]. split; [lia|].
      intros j Hj. lia.
Qed.

(** X14: [getMaxVertexId] returns the greatest id, up to the last id that
    was used on adding a vertex, whose slot holds a vertex, and -1 when
    there is none. *)
Theorem getMaxVertexId_greatest g :
  -1 ≤ Graph.lastVid g < vec_size (Graph.vertices g) →
  ∃ r, Graph.getMaxVertexId g = Some r
    ∧ -1 ≤ r ≤ Graph.lastVid g
    ∧ (0 ≤ r → ∃ v, Graph.getVertex g r = Some v ∧ v ≠ NULL)
    ∧ (∀ j, r < j ≤ Graph.lastVid g → Graph.getVertex g j = Some NULL).
Proof.
  intros Hlast. unfold Graph.getMaxVertexId.
  apply getMaxVertexId_from_spec; lia.
Qed.

Lemma getMaxVertexId_greatest_witness :
  ∃ h g, example_parts = Some (h, g) ∧ Graph.getMaxVertexId g = Some 3.
Proof.
  destruct example_parts as [[h g]|] eqn:Hex; [|by vm_compute in Hex].
  exists h, g. split; [done|].
  destruct (getMaxVertexId_greatest g) as (r & Hr & Hrange & Hhit & Habove).
  - vm_compute in Hex. injection Hex as <- <-. unfold vec_size. simpl. lia.
  - rewrite Hr. vm_compute in Hex. injection Hex as <- <-.
    vm_compute in Hr. done.
Defined.

Lemma getVertex_label_from_found h g label i v x lb :
  Graph_slots_ok h g →
  vec_get (Graph.vertices g) i = Some v → v ≠ NULL →
  Heap.vertex h v = Some x → Vertex.label x = Some lb →
  strncmp_eq lb label = true →
  ∀ count i0,
    0 ≤ i0 ≤ i → i < i0 + Z.of_nat count →
    (∀ k y, i0 ≤ k < i → live_at h g k y →
       ∃ lb', Vertex.label y = Some lb' ∧ strncmp_eq lb' label = false) →
    Graph.getVertex_label_from h g label i0 count = Some v.
Proof.
  intros Hok Hv Hnull Hx Hlb Hcmp.
  induction count as [|count IH]; intros i0 Hi0 Hcount Hbefore; [lia|].
  simpl. destruct (decide (i0 = i)) as [->|Hne].
  - rewrite Hv. cbn [mbind option_bind].
    rewrite bool_decide_eq_true_2 by done. rewrite Hx.
    cbn [mbind option_bind]. rewrite Hlb. cbn [mbind option_bind].
    by rewrite Hcmp.
  - pose proof (vec_get_Some _ _ _ Hv) as [Hi _].
    destruct (vec_get_is_Some (Graph.vertices g) i0) as [p Hp]; [lia|].
    rewrite Hp. cbn [mbind option_bind]. case_bool_decide as Hpn.
    + destruct (Hok i0 p Hp Hpn) as (y & Hy & _). rewrite Hy.
      cbn [mbind option_bind].
      destruct (Hbefore i0 y) as (lb' & Hlb' & Hcmp'); [lia|by exists p|].
      rewrite Hlb'. cbn [mbind option_bind]. rewrite Hcmp'.
      apply IH; [lia|lia|]. intros k z Hk. apply Hbefore. lia.
    + cbn [mbind option_bind].
      apply IH; [lia|lia|]. intros k z Hk. apply Hbefore. lia.
Qed.

(** X15: [getVertex(label)] returns the vertex of the least id whose
    label agrees with the given one on the first [_GRAPH_MAX_LABEL]
    characters, when the vertices of smaller ids have labels. *)
Theorem getVertex_label_first_match h g label i v x lb :
  Graph_slots_ok h g →
  0 ≤ i ≤ Graph.lastVid g →
  Graph.getVertex g i = Some v → v ≠ NULL →
  Heap.vertex h v = Some x → Vertex.label x = Some lb →
  strncmp_eq lb label = true →
  (∀ k y, 0 ≤ k < i → live_at h g k y →
     ∃ lb', Vertex.label y = Some lb' ∧ strncmp_eq lb' label = false) →
  Graph.getVertex_label h g label = Some v.
Proof.
  intros Hok Hi Hv Hnull Hx Hlb Hcmp Hbefore. unfold Graph.getVertex_label.
  apply (getVertex_label_from_found h g label i v x lb); try done; lia.
Qed.

Lemma getVertex_label_first_match_witness :
  ∃ h g, example_labelled = Some (h, g)
    ∧ Graph.getVertex_label h g "w" = Graph.getVertex g 2
    ∧ Graph.getVertex g 2 = Some (Some 1%nat).
Proof.
  destruct example_labelled as [[h g]|] eqn:Hex; [|by vm_compute in Hex].
  exists h, g. split; [done|].
  vm_compute in Hex. injection Hex as <- <-.
  split; [|reflexivity].
  match goal with
  | |- Graph.getVertex_label ?h ?g _ = _ =>
      apply (getVertex_label_first_match h g "w" 2 (Some 1%nat)
               (Vertex.mk 2 0 0 0 0 (Some "w"%string) [] None
                          Extremity.default Extremity.default) "w"%string)
  end.
  - intros i p Hp Hnull. unfold vec_get in Hp.
    case_bool_decide as Hi; [|done]. cbn [Graph.vertices] in Hp.
    destruct (Z.to_nat i) as [|[|[|[|k]]]] eqn:Hk; simpl in Hp;
      try (injection Hp as <-); try done;
      eexists; (split; [reflexivity|simpl; lia]).
  - simpl. lia.
  - reflexivity.
  - done.
  - reflexivity.
  - reflexivity.
  - reflexivity.
  - intros k y Hk (p & Hp & Hy). unfold vec_get in Hp.
    case_bool_decide as Hi; [|done]. cbn [Graph.vertices] in Hp.
    destruct (Z.to_nat k) as [|[|n]] eqn:Hn; simpl in Hp.
    + injection Hp as <-. vm_compute in Hy. injection Hy as <-.
      by exists "u"%string.
    + injection Hp as <-. done.
    + lia.
Defined.

(** X16: after [setFamilyName(family, name)], [familyName(family)] is the
    name, and the name of every other family is as before (null beyond
    the names set so far); nothing else of the graph changes. *)
Theorem setFamilyName_then_familyName g family name :
  1 ≤ vec_size (Graph.fname g) → 0 ≤ family →
  ∃ g', Graph.setFamilyName g family name = Some g'
    ∧ Graph.familyName g' family = Some (Some name)
    ∧ (∀ f, 0 ≤ f → f ≠ family →
         Graph.familyName g' f = Graph.familyName g f)
    ∧ (∀ f, vec_size (Graph.fname g) ≤ f → f ≠ family →
         Graph.familyName g' f = Some None)
    ∧ g' = Graph.set_fname g (Graph.fname g').
Proof.
  intros Hsize Hfam. unfold Graph.setFamilyName.
  destruct (grow_some (vec_size (Graph.fname g)) family (Z.to_nat family + 1))
    as [sz Hsz]; [lia|lia|].
  rewrite Hsz. cbn [mbind option_bind].
  apply grow_result in Hsz as [Hge Hlt]; [|lia].
  set (fn := vec_resize (Graph.fname g) sz None).
  assert (Hlen : vec_size fn = sz) by (apply vec_size_resize; lia).
  rewrite vec_set_Some by lia. cbn [mbind option_bind].
  eexists. split; [done|].
  set (fn' := <[Z.to_nat family:=Some name]> fn).
  assert (Hlen' : vec_size fn' = sz).
  { unfold fn', vec_size. rewrite length_insert. exact Hlen. }
  assert (Hget : ∀ f, Graph.familyName (Graph.set_fname g fn') f
                      = if bool_decide (f >= sz) then Some None
                        else vec_get fn' f).
  { intros f. unfold Graph.familyName, Graph.set_fname. cbn [Graph.fname].
    by rewrite Hlen'. }
  assert (Hsame : ∀ f, 0 ≤ f → f ≠ family →
            Graph.familyName (Graph.set_fname g fn') f
            = Graph.familyName g f).
  { intros f Hf Hne. rewrite Hget. unfold Graph.familyName.
    rewrite !vec_get_lookup by lia. unfold fn'.
    rewrite list_lookup_insert_ne by lia. unfold fn, vec_resize.
    repeat case_bool_decide; try done; try lia.
    - rewrite lookup_resize_new; [done| |]; unfold vec_size in *; lia.
    - rewrite lookup_resize; [done| |]; unfold vec_size in *; lia. }
  split; [|split; [exact Hsame|split; [|done]]].
  - rewrite Hget. rewrite bool_decide_eq_false_2 by lia.
    rewrite vec_get_lookup by lia. unfold fn'.
    rewrite list_lookup_insert_eq; [done|]. unfold vec_size in Hlen. lia.
  - intros f Hf Hne. rewrite Hsame by lia. unfold Graph.familyName.
    by rewrite bool_decide_eq_true_2 by lia.
Qed.

Lemma setFamilyName_then_familyName_witness :
  ∃ g g', Graph.new None 4 = Some g
    ∧ Graph.setFamilyName g 200 "globin" = Some g'
    ∧ Graph.familyName g' 200 = Some (Some "globin"%string)
    ∧ Graph.familyName g' 199 = Some None.
Proof.
  destruct (Graph.new None 4) as [g|] eqn:Hg; [|by vm_compute in Hg].
  destruct (setFamilyName_then_familyName g 200 "globin")
    as (g' & Hset & Hget & Hother & _).
  - vm_compute in Hg. injection Hg as <-. unfold vec_size. simpl. lia.
  - lia.
  - exists g, g'. split; [done|]. split; [exact Hset|].
    split; [exact Hget|]. rewrite Hother by lia.
    vm_compute in Hg. injection Hg as <-. reflexivity.
Defined.

(** ** Adding vertices *)

(** Adding a vertex in a free slot within the capacity. *)
Lemma Graph_addVertex_fits h g id label part family :
  0 ≤ id < Graph.maxn g → vec_get (Graph.vertices g) id = Some NULL →
  vec_size (Graph.npart g) = 128 → 1 ≤ vec_size (Graph.fsize g) →
  -128 ≤ part ≤ 127 → 0 ≤ family →
  ∃ g',
    Graph.addVertex h g id label part family
    = Some (Heap.mk (Heap.vs h
                     ++ [Some (Vertex.mk id 0 0 (Z.max part 0)
                                 (to_ushort family) (copy_label label) [] None
                                 Extremity.default Extremity.default)])
                    (Heap.es h),
            g', Some (length (Heap.vs h)))
    ∧ Graph.vertices g'
      = <[Z.to_nat id:=Some (length (Heap.vs h))]> (Graph.vertices g)
    ∧ Graph.maxn g' = Graph.maxn g
    ∧ Graph.n g' = Graph.n g + 1 ∧ Graph.m g' = Graph.m g
    ∧ Graph.lastVid g' = Z.max id (Graph.lastVid g)
    ∧ vec_size (Graph.npart g') = 128
    ∧ vec_size (Graph.fsize g) ≤ vec_size (Graph.fsize g')
    ∧ Graph.label g' = Graph.label g ∧ Graph.fname g' = Graph.fname g.
Proof.
  intros Hid Hslot Hnp Hfs Hpart Hfam. unfold Graph.addVertex.
  set (part' := if bool_decide (part < 0) then 0 else part).
  assert (Hpart' : part' = Z.max part 0 ∧ 0 ≤ part' ≤ 127).
  { unfold part'. case_bool_decide; lia. }
  destruct Hpart' as [Hpmax Hprange].
  rewrite (bool_decide_eq_false_2 (id >= Graph.maxn g)) by lia.
  cbn [mbind option_bind]. rewrite Hslot. cbn [mbind option_bind].
  rewrite (bool_decide_eq_false_2 (NULL ≠ NULL)) by (by intros []).
  destruct (grow_some (vec_size (Graph.fsize g)) family (Z.to_nat family + 1))
    as [sz Hsz]; [lia|lia|].
  rewrite Hsz. cbn [mbind option_bind].
  apply grow_result in Hsz as [Hge Hlt]; [|lia].
  set (fs := vec_resize (Graph.fsize g) sz 0).
  assert (Hlen : vec_size fs = sz) by (apply vec_size_resize; lia).
  destruct (vec_get_is_Some fs family) as [c Hc]; [lia|].
  rewrite Hc. cbn [mbind option_bind].
  rewrite vec_set_Some by lia. cbn [mbind option_bind].
  match goal with
  | |- context [if bool_decide (id > ?l) then ?A else ?B] =>
      set (gl := if bool_decide (id > l) then A else B)
  end.
  assert (Hgl : Graph.npart gl = Graph.npart g
                ∧ Graph.vertices gl = Graph.vertices g
                ∧ Graph.maxn gl = Graph.maxn g ∧ Graph.n gl = Graph.n g
                ∧ Graph.m gl = Graph.m g
                ∧ Graph.lastVid gl = Z.max id (Graph.lastVid g)
                ∧ Graph.fsize gl = <[Z.to_nat family:=c + 1]> fs
                ∧ Graph.label gl = Graph.label g
                ∧ Graph.fname gl = Graph.fname g).
  { unfold gl.
    case_bool_decide;
      cbn [Graph.npart Graph.vertices Graph.maxn Graph.n Graph.m
           Graph.lastVid Graph.fsize Graph.label Graph.fname
           Graph.set_lastVid Graph.set_fsize] in *;
      repeat split; try done; lia. }
  destruct Hgl as (Hg1 & Hg2 & Hg3 & Hg4 & Hg5 & Hg6 & Hg7 & Hg8 & Hg9).
  cbn [Graph.npart Graph.set_n Graph.vertices Graph.set_npart
       Graph.set_vertices Graph.maxn].
  rewrite Hg1, Hg2. rewrite to_unsigned_small by lia.
  destruct (vec_get_is_Some (Graph.npart g) part') as [c' Hc']; [lia|].
  rewrite Hc'. cbn [mbind option_bind].
  rewrite vec_set_Some by lia. cbn [mbind option_bind Vertex.alloc].
  rewrite vec_set_Some by (apply vec_get_Some in Hslot; lia).
  cbn [mbind option_bind].
  unfold Vertex.update. cbn [mbind option_bind].
  assert (Hd : Vertex.deref (Heap.vs h ++ [Some (Vertex.new id 0 0)])
                 (Some (length (Heap.vs h))) = Some (Vertex.new id 0 0)).
  { unfold Vertex.deref. simpl. by rewrite list_lookup_middle. }
  rewrite Hd. cbn [mbind option_bind].
  replace (<[length (Heap.vs h):=_]> (Heap.vs h ++ [Some (Vertex.new id 0 0)]))
    with (Heap.vs h
          ++ [Some (Vertex.mk id 0 0 (Z.max part 0) (to_ushort family)
                      (copy_label label) [] None
                      Extremity.default Extremity.default)]); last first.
  { replace (length (Heap.vs h)) with (length (Heap.vs h) + 0)%nat at 1 by lia.
    rewrite insert_app_r. cbn [list_insert].
    unfold Vertex.setLabel, Vertex.set_family, Vertex.setPart, Vertex.new.
    cbn [Vertex.id Vertex.degree Vertex.direction Vertex.part Vertex.family
         Vertex.label Vertex.edges Vertex.data Vertex.ex1 Vertex.ex2].
    fold part'. rewrite (Z.mod_small part') by lia. by rewrite Hpmax. }
  eexists. split; [done|]. cbn.
  rewrite Hg3, Hg4, Hg5, Hg6, Hg7, Hg8, Hg9.
  unfold vec_size in *. rewrite !length_insert.
  repeat split; try done; lia.
Qed.

Lemma vec_get_resize_old {A} (v : list A) n x i :
  0 ≤ i < vec_size v → vec_size v ≤ n →
  vec_get (vec_resize v n x) i = vec_get v i.
Proof.
  intros Hi Hn. rewrite !vec_get_lookup by lia. unfold vec_resize.
  apply lookup_resize; unfold vec_size in *; lia.
Qed.

Lemma vec_get_resize_new {A} (v : list A) n x i :
  vec_size v ≤ i < n → vec_get (vec_resize v n x) i = Some x.
Proof.
  intros Hi. pose proof (vec_size_nonneg v).
  rewrite vec_get_lookup by lia. unfold vec_resize.
  apply lookup_resize_new; unfold vec_size in *; lia.
Qed.

(** What [addVertex(id, ...)] does on a free id. *)
Lemma Graph_addVertex_post h g id label part family :
  vec_size (Graph.vertices g) = Graph.maxn g → 1 ≤ Graph.maxn g →
  vec_size (Graph.npart g) = 128 → 1 ≤ vec_size (Graph.fsize g) →
  0 ≤ id → (Graph.maxn g ≤ id → id < 2 ^ 30) →
  -128 ≤ part ≤ 127 → 0 ≤ family →
  (id < Graph.maxn g → Graph.getVertex g id = Some NULL) →
  ∃ h' g' v,
    Graph.addVertex h g id label part family = Some (h', g', v)
    ∧ v ≠ NULL ∧ Heap.vertex h v = None
    ∧ Graph.getVertex g' id = Some v
    ∧ Heap.vertex h' v
      = Some (Vertex.mk id 0 0 (Z.max part 0) (to_ushort family)
                (copy_label label) [] None
                Extremity.default Extremity.default)
    ∧ (∀ j, j ≠ id → 0 ≤ j < Graph.maxn g →
         Graph.getVertex g' j = Graph.getVertex g j)
    ∧ (∀ j, j ≠ id → Graph.maxn g ≤ j < Graph.maxn g' →
         Graph.getVertex g' j = Some NULL)
    ∧ Graph.maxn g ≤ Graph.maxn g' ∧ id < Graph.maxn g'
    ∧ vec_size (Graph.vertices g') = Graph.maxn g'
    ∧ (id < Graph.maxn g → Graph.maxn g' = Graph.maxn g)
    ∧ Graph.getN g' = Graph.getN g + 1 ∧ Graph.getM g' = Graph.getM g
    ∧ (∀ p y, Heap.vertex h p = Some y → Heap.vertex h' p = Some y)
    ∧ Heap.es h' = Heap.es h.
Proof.
  intros Hsize Hmax Hnp Hfs Hid Hint Hpart Hfam Hfree.
  (* the graph once the vector is large enough *)
  assert (Hroom : ∃ g1,
            Graph.addVertex h g id label part family
            = Graph.addVertex h g1 id label part family
            ∧ Graph.maxn g ≤ Graph.maxn g1 ∧ id < Graph.maxn g1
            ∧ vec_size (Graph.vertices g1) = Graph.maxn g1
            ∧ (id < Graph.maxn g → g1 = g)
            ∧ Graph.vertices g1
              = vec_resize (Graph.vertices g) (Graph.maxn g1) NULL
            ∧ Graph.npart g1 = Graph.npart g ∧ Graph.fsize g1 = Graph.fsize g
            ∧ Graph.n g1 = Graph.n g ∧ Graph.m g1 = Graph.m g).
  { destruct (decide (id < Graph.maxn g)) as [Hlt|Hge].
    - exists g. repeat split; try done; try lia.
      rewrite <- Hsize. unfold vec_resize, vec_size. rewrite Nat2Z.id.
      symmetry. by apply resize_all_alt.
    - destruct (grow_int_some (Graph.maxn g) id (Z.to_nat id + 1))
        as [mx Hmx]; [lia|lia|lia|].
      destruct (grow_result (Graph.maxn g) id (Z.to_nat id + 1) mx)
        as [Hge' Hlt']; [lia|by apply grow_int_grow|].
      exists (Graph.set_vertices g mx (vec_resize (Graph.vertices g) mx NULL)).
      split; [apply Graph_addVertex_resized; (done || lia)|].
      cbn. rewrite vec_size_resize by lia. repeat split; try done; lia. }
  destruct Hroom as (g1 & Hrun & Hmax1 & Hid1 & Hsize1 & Hsame & Hv1 & Hnp1
                     & Hfs1 & Hn1 & Hm1).
  assert (Hslot : vec_get (Graph.vertices g1) id = Some NULL).
  { destruct (decide (id < Graph.maxn g)) as [Hlt|Hge].
    - rewrite (Hsame Hlt). by apply Hfree.
    - rewrite Hv1. apply vec_get_resize_new. lia. }
  destruct (Graph_addVertex_fits h g1 id label part family)
    as (g' & Hadd & Hvs & Hmaxn & Hn & Hm & _);
    [lia|exact Hslot|by rewrite Hnp1|by rewrite Hfs1|done|done|].
  rewrite Hrun, Hadd. eexists _, g', _. split; [done|].
  split; [done|]. split.
  { unfold Heap.vertex, Vertex.deref. cbn [mbind option_bind].
    by rewrite lookup_ge_None_2 by lia. }
  assert (Hget : ∀ j, 0 ≤ j → Graph.getVertex g' j
            = if bool_decide (j = id) then Some (Some (length (Heap.vs h)))
              else vec_get (Graph.vertices g1) j).
  { intros j Hj. unfold Graph.getVertex. rewrite Hvs.
    rewrite !vec_get_lookup by lia. case_bool_decide as Hji.
    - subst j. apply list_lookup_insert_eq. unfold vec_size in Hsize1. lia.
    - apply list_lookup_insert_ne. lia. }
  split; [rewrite Hget by lia; by rewrite bool_decide_eq_true_2|].
  split.
  { unfold Heap.vertex, Vertex.deref. cbn [mbind option_bind Heap.vs].
    by rewrite list_lookup_middle. }
  split.
  { intros j Hne Hj. rewrite Hget by lia.
    rewrite bool_decide_eq_false_2 by done. rewrite Hv1.
    unfold Graph.getVertex. apply vec_get_resize_old; lia. }
  split.
  { intros j Hne Hj. rewrite Hget by lia.
    rewrite bool_decide_eq_false_2 by done. rewrite Hv1.
    apply vec_get_resize_new. lia. }
  split; [lia|]. split; [lia|]. split.
  { rewrite Hvs. unfold vec_size in *. rewrite length_insert. lia. }
  split; [intros Hlt; by rewrite Hmaxn, (Hsame Hlt)|].
  unfold Graph.getN, Graph.getM. split; [lia|]. split; [lia|].
  split; [|done].
  intros [b|] y Hy; [|done]. unfold Heap.vertex, Vertex.deref in *.
  cbn [mbind option_bind Heap.vs] in *.
  destruct (Heap.vs h !! b) as [o|] eqn:Hb; [|done].
  by rewrite lookup_app_l, Hb by (by eapply lookup_lt_Some).
Qed.

(** X17: [addVertex(id, ...)] on an id whose slot is free, or beyond the
    capacity and below 2^30 (the doubling of the capacity stays in [int]),
    returns a new vertex with this id, the copy of the label (the label
    when it has at most 100 characters, its first 101 characters without
    terminator otherwise), the part (0 for a negative one), the family
    given as an [unsigned short], and no edge; [getVertex] then finds it,
    and finds what it found before for every other id; the capacity is the
    same when the id was within it, and is doubled until the id fits
    otherwise, the new slots being empty. *)
Theorem Graph_addVertex_then_getVertex h g id label part family :
  vec_size (Graph.vertices g) = Graph.maxn g → 1 ≤ Graph.maxn g →
  vec_size (Graph.npart g) = 128 → 1 ≤ vec_size (Graph.fsize g) →
  0 ≤ id → (Graph.maxn g ≤ id → id < 2 ^ 30) →
  -128 ≤ part ≤ 127 → 0 ≤ family →
  (id < Graph.maxn g → Graph.getVertex g id = Some NULL) →
  ∃ h' g' v,
    Graph.addVertex h g id label part family = Some (h', g', v)
    ∧ v ≠ NULL ∧ Heap.vertex h v = None
    ∧ Graph.getVertex g' id = Some v
    ∧ Heap.vertex h' v
      = Some (Vertex.mk id 0 0 (Z.max part 0) (to_ushort family)
                (copy_label label) [] None
                Extremity.default Extremity.default)
    ∧ (∀ j, j ≠ id → 0 ≤ j < Graph.maxn g →
         Graph.getVertex g' j = Graph.getVertex g j)
    ∧ (∀ j, j ≠ id → Graph.maxn g ≤ j < Graph.maxn g' →
         Graph.getVertex g' j = Some NULL)
    ∧ Graph.maxn g ≤ Graph.maxn g' ∧ id < Graph.maxn g'
    ∧ vec_size (Graph.vertices g') = Graph.maxn g'
    ∧ (id < Graph.maxn g → Graph.maxn g' = Graph.maxn g)
    ∧ Graph.getN g' = Graph.getN g + 1 ∧ Graph.getM g' = Graph.getM g
    ∧ (∀ p y, Heap.vertex h p = Some y → Heap.vertex h' p = Some y)
    ∧ Heap.es h' = Heap.es h.
Proof.
  intros Hsize Hmax Hnp Hfs Hid Hint Hpart Hfam Hfree.
  destruct (Graph_addVertex_post h g id label part family)
    as (h' & g' & v & Hadd & Hrest); try done.
  by exists h', g', v.
Qed.

Lemma Graph_addVertex_then_getVertex_witness :
  ∃ g h' g' v, Graph.new None 2 = Some g
    ∧ Graph.addVertex Heap.empty g 5 (Some "v"%string) 1 0 = Some (h', g', v)
    ∧ Graph.getVertex g' 5 = Some v ∧ v ≠ NULL
    ∧ Vertex.getLabel <$> Heap.vertex h' v = Some (Some "v"%string)
    ∧ Graph.maxn g' = 8 ∧ Graph.getVertex g' 7 = Some NULL.
Proof.
  destruct (Graph.new None 2) as [g|] eqn:Hg; [|by vm_compute in Hg].
  vm_compute in Hg. injection Hg as <-.
  match goal with
  | |- ∃ g0 _ _ _, Some ?g = Some g0 ∧ _ =>
      destruct (Graph_addVertex_then_getVertex Heap.empty g 5
                  (Some "v"%string) 1 0)
        as (h' & g' & v & Hadd & Hv & _ & Hget & _ & _ & Hnew & _)
  end.
  - reflexivity.
  - simpl. lia.
  - reflexivity.
  - unfold vec_size. simpl. lia.
  - lia.
  - lia.
  - lia.
  - lia.
  - simpl. lia.
  - eexists _, h', g', v. split; [reflexivity|]. split; [exact Hadd|].
    split; [exact Hget|]. split; [exact Hv|].
    vm_compute in Hadd. injection Hadd as <- <- <-.
    split; [reflexivity|]. split; reflexivity.
Defined.

Lemma free_slot_spec g : ∀ count id,
  0 ≤ id → id + Z.of_nat count ≤ vec_size (Graph.vertices g) →
  ∃ r, Graph.free_slot g id count = Some r
    ∧ id ≤ r ≤ id + Z.of_nat count
    ∧ (∀ k, id ≤ k < r →
         ∃ p, vec_get (Graph.vertices g) k = Some p ∧ p ≠ NULL)
    ∧ (r < id + Z.of_nat count → vec_get (Graph.vertices g) r = Some NULL).
Proof.
  induction count as [|count IH]; intros id Hid Hsz; simpl.
  - exists id. split; [done|]. split; [lia|]. split; intros; lia.
  - destruct (vec_get_is_Some (Graph.vertices g) id) as [p Hp]; [lia|].
    rewrite Hp. cbn [mbind option_bind]. case_bool_decide as Hnull.
    + destruct (IH (id + 1)) as (r & Hr & Hrange & Hfull & Hfree); [lia|lia|].
      exists r. split; [done|]. split; [lia|]. split.
      * intros k Hk. destruct (decide (k = id)) as [->|Hne]; [by exists p|].
        apply Hfull. lia.
      * intros Hlt. apply Hfree. lia.
    + exists id. split; [done|]. split; [lia|]. split; [intros; lia|].
      intros _. by rewrite Hp, Hnull.
Qed.

(** X18: on a graph of capacity below 2^30 (its double is an [int]) where
    no slot above the last id used holds a vertex, [addVertex(label, ...)]
    always adds a vertex, with the copy of the label (the label when it
    has at most 100 characters, its first 101 characters without
    terminator otherwise): with the id after the last one used while the
    capacity allows; otherwise with the least id that is free, or, when
    none is, with the id after the capacity, which is doubled. *)
Theorem Graph_addVertex_auto_adds h g label part family :
  vec_size (Graph.vertices g) = Graph.maxn g → 1 ≤ Graph.maxn g < 2 ^ 30 →
  vec_size (Graph.npart g) = 128 → 1 ≤ vec_size (Graph.fsize g) →
  -128 ≤ part ≤ 127 → 0 ≤ family → -1 ≤ Graph.lastVid g →
  (∀ j, Graph.lastVid g < j < Graph.maxn g →
     Graph.getVertex g j = Some NULL) →
  ∃ h' g' v x,
    Graph.addVertex_auto h g label part family = Some (h', g', v)
    ∧ v ≠ NULL ∧ Heap.vertex h' v = Some x
    ∧ Graph.getVertex g' (Vertex.id x) = Some v
    ∧ Vertex.label x = copy_label label ∧ Vertex.edges x = []
    ∧ Graph.getN g' = Graph.getN g + 1
    ∧ (Graph.lastVid g < Graph.maxn g - 1 →
       Vertex.id x = Graph.lastVid g + 1 ∧ Graph.maxn g' = Graph.maxn g)
    ∧ (Graph.maxn g - 1 ≤ Graph.lastVid g →
       0 ≤ Vertex.id x ≤ Graph.maxn g
       ∧ (∀ k, 0 ≤ k < Vertex.id x →
            ∃ p, Graph.getVertex g k = Some p ∧ p ≠ NULL)
       ∧ (Vertex.id x < Graph.maxn g →
          Graph.getVertex g (Vertex.id x) = Some NULL
          ∧ Graph.maxn g' = Graph.maxn g)
       ∧ (Vertex.id x = Graph.maxn g → Graph.maxn g' = 2 * Graph.maxn g)).
Proof.
  intros Hsize Hmax Hnp Hfs Hpart Hfam Hlast Habove.
  unfold Graph.addVertex_auto.
  assert (Hgrow : ∀ h0 g' v0,
            Graph.addVertex h g (Graph.maxn g) label part family
            = Some (h0, g', v0) → v0 ≠ NULL →
            Graph.maxn g' = 2 * Graph.maxn g).
  { intros h0 g' v0 Hadd Hv0. unfold Graph.addVertex in Hadd.
    rewrite (bool_decide_eq_true_2 (Graph.maxn g >= Graph.maxn g)) in Hadd
      by lia.
    replace (Z.to_nat (Graph.maxn g) + 1)%nat
      with (S (Z.to_nat (Graph.maxn g))) in Hadd by lia.
    rewrite grow_int_once in Hadd by lia. cbn [mbind option_bind] in Hadd.
    apply bind_Some in Hadd as (slot & _ & Hadd).
    case_bool_decide; [by injection Hadd as _ _ <-|].
    inv_opt. cbn. repeat case_bool_decide; cbn; lia. }
  case_bool_decide as Hroom; cbn [mbind option_bind].
  - destruct (Graph_addVertex_post h g (Graph.lastVid g + 1)
                label part family)
      as (h' & g' & v & Hadd & Hv & _ & Hget & Hx & _ & _ & _ & _ & _
          & Hmaxn & Hn & _); try done;
      [lia|lia|lia|intros _; apply Habove; lia|].
    rewrite Hadd. eexists h', g', v, _. split; [done|]. split; [done|].
    split; [exact Hx|]. cbn [Vertex.id Vertex.label Vertex.edges].
    split; [done|]. split; [done|]. split; [done|]. split; [done|].
    split; [intros _; split; [done|apply Hmaxn; lia]|]. intros Hfull. lia.
  - destruct (free_slot_spec g (Z.to_nat (Graph.maxn g)) 0)
      as (r & Hr & Hrange & Hfull & Hfree); [lia|lia|].
    rewrite Hr. cbn [mbind option_bind].
    destruct (Graph_addVertex_post h g r label part family)
      as (h' & g' & v & Hadd & Hv & _ & Hget & Hx & _ & _ & _ & _ & _
          & Hmaxn & Hn & _); try done;
      [lia|lia|lia|intros Hlt; apply Hfree; lia|].
    rewrite Hadd. eexists h', g', v, _. split; [done|]. split; [done|].
    split; [exact Hx|]. cbn [Vertex.id Vertex.label Vertex.edges].
    split; [done|]. split; [done|]. split; [done|]. split; [done|].
    split; [intros Hlt; lia|]. intros _.
    split; [lia|]. split; [exact Hfull|]. split.
    + intros Hlt. split; [apply Hfree; lia|by apply Hmaxn].
    + intros ->. by eapply Hgrow.
Qed.

Lemma Graph_addVertex_auto_adds_witness :
  ∃ h g h' g' v x, example_parts = Some (h, g)
    ∧ Graph.addVertex_auto h g None 0 0 = Some (h', g', v)
    ∧ Heap.vertex h' v = Some x ∧ Vertex.id x = 0.
Proof.
  destruct example_parts_reachable as (h & g & Hex & Hreach).
  pose proof (reachable_parts_ok h g Hreach) as (Hnp & Hsize & _).
  destruct (Graph_addVertex_auto_adds h g None 0 0)
    as (h' & g' & v & x & Hadd & _ & Hx & _ & _ & _ & _ & _ & Hfull).
  - exact Hsize.
  - vm_compute in Hex. injection Hex as <- <-. simpl. lia.
  - exact Hnp.
  - vm_compute in Hex. injection Hex as <- <-. unfold vec_size. simpl. lia.
  - lia.
  - lia.
  - vm_compute in Hex. injection Hex as <- <-. simpl. lia.
  - vm_compute in Hex. injection Hex as <- <-. simpl. intros j Hj. lia.
  - exists h, g, h', g', v, x. split; [done|]. split; [exact Hadd|].
    split; [exact Hx|].
    destruct Hfull as (Hrange & Hbelow & _).
    { vm_compute in Hex. injection Hex as <- <-. simpl. lia. }
    destruct (decide (Vertex.id x = 0)) as [|Hne]; [done|]. exfalso.
    destruct (Hbelow 0) as (p & Hp & Hnull); [lia|].
    vm_compute in Hex. injection Hex as <- <-. vm_compute in Hp. congruence.
Defined.

(** ** Adding and removing edges *)

(** The heap and the graph after [addEdge] between two live vertices. *)
Lemma Graph_addEdge_eq h g a1 a2 label x1 x2 :
  a1 ≠ a2 → Heap.vertex h (Some a1) = Some x1 →
  Heap.vertex h (Some a2) = Some x2 →
  let n := length (Heap.es h) in
  Graph.addEdge h g (Some a1) (Some a2) label
  = Some (Heap.mk
            (<[a2:=Some (Vertex.set_degree_edges x2
                           (to_ushort (Vertex.degree x2 + 1))
                           (Some (S n) :: Vertex.edges x2))]>
               (<[a1:=Some (Vertex.set_degree_edges x1
                              (to_ushort (Vertex.degree x1 + 1))
                              (Some n :: Vertex.edges x1))]> (Heap.vs h)))
            (Heap.es h
             ++ [Some (Edge.set_adjRef (Edge.new (Some a2) label) (Some (S n)));
                 Some (Edge.set_adjRef (Edge.new (Some a1) label) (Some n))]),
          Graph.set_m g (Graph.m g + 1), Some n).
Proof.
  intros Ha Hx1 Hx2 n. unfold Graph.addEdge.
  rewrite (bool_decide_eq_false_2 (Some a1 = Some a2)) by congruence.
  rewrite !(bool_decide_eq_false_2 (Some _ = None)) by done.
  cbn [orb]. rewrite (Heap_Vertex_addEdge_eq h a1 x1) by done.
  cbn [mbind option_bind].
  erewrite (Heap_Vertex_addEdge_eq _ a2 x2); last first.
  { unfold Heap.vertex. cbn [Heap.vs].
    by rewrite Vertex_deref_insert_ne by congruence. }
  cbn [mbind option_bind Heap.es Heap.vs].
  rewrite length_app. cbn [length].
  replace (length (Heap.es h) + 1)%nat with (S n) by (unfold n; lia).
  fold n.
  erewrite Edge_update_eq; last first.
  { apply Edge_deref_app_old. apply Edge_deref_app_new. }
  cbn [mbind option_bind].
  erewrite Edge_update_eq; last first.
  { rewrite Edge_deref_insert_ne by (intros [=]; lia).
    replace (S n)
      with (length (Heap.es h ++ [Some (Edge.new (Some a2) label)]))
      by (rewrite length_app; simpl; unfold n; lia).
    apply Edge_deref_app_new. }
  do 4 f_equal.
  rewrite <- app_assoc. cbn [app].
  rewrite (insert_app_r_alt _ _ n) by (unfold n; lia).
  rewrite (insert_app_r_alt _ _ (S n)) by (unfold n; lia).
  replace (n - length (Heap.es h))%nat with 0%nat by (unfold n; lia).
  replace (S n - length (Heap.es h))%nat with 1%nat by (unfold n; lia).
  done.
Qed.

Lemma Edge_deref_app_ge (es l : list (option Edge.t)) k :
  Edge.deref (es ++ l) (Some (length es + k)%nat) = Edge.deref l (Some k).
Proof.
  unfold Edge.deref. cbn [mbind option_bind].
  rewrite lookup_app_r by lia. do 2 f_equal. lia.
Qed.

Lemma Edge_deref_app_two (es : list (option Edge.t)) r1 r2 :
  Edge.deref (es ++ [Some r1; Some r2]) (Some (length es)) = Some r1
  ∧ Edge.deref (es ++ [Some r1; Some r2]) (Some (S (length es))) = Some r2.
Proof.
  unfold Edge.deref. cbn [mbind option_bind]. split.
  - rewrite lookup_app_r by lia. by rewrite Nat.sub_diag.
  - rewrite lookup_app_r by lia.
    by replace (S (length es) - length es)%nat with 1%nat by lia.
Qed.

Lemma Edge_deref_fresh (es : list (option Edge.t)) k :
  (length es ≤ k)%nat → Edge.deref es (Some k) = None.
Proof.
  intros Hk. unfold Edge.deref. cbn [mbind option_bind].
  by rewrite lookup_ge_None_2.
Qed.

(** X19: [addEdge(v1, v2)] between two different vertices of the graph
    makes two new records, each the mirror of the other, with a copy of
    the label (the label when it has at most 100 characters, its first
    101 characters without terminator otherwise), undefined extremities
    and no sibling: the one returned leads to [v2]
    and is put first in the list of [v1], the other one leads to [v1] and
    is put first in the list of [v2].  The degrees of the two vertices and
    the number of edges go up by one; the other vertices and the other
    edge records are as before. *)
Theorem Graph_addEdge_links_both_ends h g v1 v2 label x1 x2 :
  v1 ≠ v2 → Heap.vertex h v1 = Some x1 → Heap.vertex h v2 = Some x2 →
  ∃ h' e e',
    Graph.addEdge h g v1 v2 label
    = Some (h', Graph.set_m g (Graph.m g + 1), e)
    ∧ e ≠ NULL ∧ e' ≠ NULL ∧ e ≠ e'
    ∧ Heap.edge h e = None ∧ Heap.edge h e' = None
    ∧ Heap.edge h' e
      = Some (Edge.mk v2 e' (copy_label label) Extremity.default
                      Extremity.default NULL)
    ∧ Heap.edge h' e'
      = Some (Edge.mk v1 e (copy_label label) Extremity.default
                      Extremity.default NULL)
    ∧ Heap.vertex h' v1
      = Some (Vertex.set_degree_edges x1 (to_ushort (Vertex.degree x1 + 1))
                (e :: Vertex.edges x1))
    ∧ Heap.vertex h' v2
      = Some (Vertex.set_degree_edges x2 (to_ushort (Vertex.degree x2 + 1))
                (e' :: Vertex.edges x2))
    ∧ (∀ p, p ≠ v1 → p ≠ v2 → Heap.vertex h' p = Heap.vertex h p)
    ∧ (∀ p, p ≠ e → p ≠ e' → Heap.edge h' p = Heap.edge h p).
Proof.
  intros Hne Hx1 Hx2.
  destruct v1 as [a1|]; [|done]. destruct v2 as [a2|]; [|done].
  assert (Ha : a1 ≠ a2) by congruence.
  rewrite (Graph_addEdge_eq h g a1 a2 label x1 x2) by done.
  set (n := length (Heap.es h)).
  eexists _, (Some n), (Some (S n)). split; [done|].
  split; [done|]. split; [done|]. split; [intros [=]; lia|].
  unfold Heap.edge, Heap.vertex. cbn [Heap.es Heap.vs].
  split; [apply Edge_deref_fresh; unfold n; lia|].
  split; [apply Edge_deref_fresh; unfold n; lia|].
  split; [apply Edge_deref_app_two|].
  split; [apply Edge_deref_app_two|].
  split.
  { rewrite Vertex_deref_insert_ne by congruence.
    by eapply Vertex_deref_insert_eq. }
  split.
  { eapply Vertex_deref_insert_eq.
    by rewrite Vertex_deref_insert_ne by congruence. }
  split.
  { intros p Hp1 Hp2. by rewrite !Vertex_deref_insert_ne by done. }
  intros [k|] Hk1 Hk2; [|done].
  destruct (decide (k < n)%nat) as [Hlt|Hge].
  - unfold Edge.deref. cbn [mbind option_bind].
    by rewrite lookup_app_l by done.
  - rewrite (Edge_deref_fresh (Heap.es h)) by (unfold n in *; lia).
    apply Edge_deref_fresh. rewrite length_app. cbn [length].
    assert (k ≠ n) by congruence. assert (k ≠ S n) by congruence.
    unfold n in *. lia.
Qed.

Lemma Graph_addEdge_links_both_ends_witness :
  ∃ h g h' g' e, example_two_vertices = Some (h, g)
    ∧ Graph.addEdge h g (Some 0%nat) (Some 1%nat)
                    (Some (String.append label_100 "bc"))
      = Some (h', g', e)
    ∧ Graph.getM g' = 1
    ∧ (Edge.adj <$> Heap.edge h' e) = Some (Some 1%nat)
    ∧ (Edge.label <$> Heap.edge h' e)
      = Some (Some (String.append label_100 "b"))
    ∧ c_str (String.append label_100 "b") = None.
Proof.
  destruct example_two_vertices as [[h g]|] eqn:Hex; [|by vm_compute in Hex].
  vm_compute in Hex. injection Hex as <- <-.
  match goal with
  | |- ∃ h0 g0 _ _ _, Some (?h, ?g) = Some (h0, g0) ∧ _ =>
      destruct (Graph_addEdge_links_both_ends h g (Some 0%nat) (Some 1%nat)
                  (Some (String.append label_100 "bc"))
                  (Vertex.mk 0 0 0 0 0 (Some label_100) [] None
                     Extremity.default Extremity.default)
                  (Vertex.mk 1 0 0 0 0 None [] None
                     Extremity.default Extremity.default))
        as (h' & e & e' & Hadd & _ & _ & _ & _ & _ & He & _)
  end.
  - done.
  - vm_compute. reflexivity.
  - reflexivity.
  - eexists _, _, h', _, e. split; [reflexivity|]. split; [exact Hadd|].
    split; [reflexivity|]. rewrite He.
    split; [reflexivity|]. split; vm_compute; reflexivity.
Defined.

Lemma filter_all {A} (P : A → Prop) `{∀ x, Decision (P x)} (l : list A) :
  Forall P l → filter P l = l.
Proof.
  induction 1 as [|x l Hx Hl IH]; [done|].
  rewrite filter_cons_True by done. by rewrite IH.
Qed.

Lemma list_insert_undo {A} (l : list A) i x y :
  l !! i = Some x → <[i:=x]> (<[i:=y]> l) = l.
Proof.
  intros Hi. rewrite list_insert_insert_eq. by apply list_insert_id.
Qed.

Lemma Edge_free_eq es a ed :
  Edge.deref es (Some a) = Some ed →
  Edge.free es (Some a) = Some (<[a:=None]> es).
Proof. intros Hed. unfold Edge.free. rewrite Hed. done. Qed.

Lemma Heap_Vertex_removeEdge_eq h a x e k :
  Heap.vertex h (Some a) = Some x → e = Some k → e ∈ Vertex.edges x →
  is_Some (Heap.edge h e) →
  Heap.Vertex_removeEdge h (Some a) e
  = Some (Heap.mk (<[a:=Some (Vertex.set_degree_edges x
                                (to_ushort (Vertex.degree x - 1))
                                (filter (λ y, y ≠ e) (Vertex.edges x)))]>
                     (Heap.vs h))
                  (<[k:=None]> (Heap.es h))).
Proof.
  intros Hx -> Hin [ed Hed]. unfold Heap.Vertex_removeEdge. rewrite Hx.
  cbn [mbind option_bind]. unfold Vertex.removeEdge.
  rewrite bool_decide_eq_true_2 by done.
  rewrite (Edge_free_eq _ _ ed) by done. done.
Qed.

Lemma Vertex_set_degree_edges_id x :
  Vertex.set_degree_edges x (Vertex.degree x) (Vertex.edges x) = x.
Proof. by destruct x. Qed.

Lemma to_ushort_round_trip d :
  0 ≤ d < 2 ^ 16 → to_ushort (to_ushort (d + 1) - 1) = d.
Proof.
  intros Hd. unfold to_ushort. destruct (decide (d = 2 ^ 16 - 1)) as [->|Hne].
  - done.
  - rewrite (Z.mod_small (d + 1)) by lia.
    replace (d + 1 - 1) with d by lia. apply Z.mod_small. lia.
Qed.

Lemma Edge_deref_free_ne (es : list (option Edge.t)) a p :
  p ≠ Some a → Edge.deref (<[a:=None]> es) p = Edge.deref es p.
Proof.
  intros Hne. destruct p as [b|]; [|done]. unfold Edge.deref. simpl.
  by rewrite list_lookup_insert_ne by congruence.
Qed.

Lemma Edge_deref_free_eq (es : list (option Edge.t)) a :
  Edge.deref (<[a:=None]> es) (Some a) = None.
Proof.
  unfold Edge.deref. simpl.
  destruct (decide (a < length es)%nat).
  - by rewrite list_lookup_insert_eq.
  - by rewrite lookup_ge_None_2 by (rewrite length_insert; lia).
Qed.

Lemma Edge_update_live es p f es' q :
  Edge.update es p f = Some es' →
  is_Some (Edge.deref es q) → is_Some (Edge.deref es' q).
Proof.
  unfold Edge.update. intros Hup [dq Hq]. destruct p as [a|]; [|done].
  cbn [mbind option_bind] in Hup.
  destruct (Edge.deref es (Some a)) as [d|] eqn:Hd; [|done].
  injection Hup as <-. destruct (decide (q = Some a)) as [->|Hne].
  - erewrite Edge_deref_insert_eq by done. by eexists.
  - rewrite Edge_deref_insert_ne by done. by eexists.
Qed.

Lemma Edge_setSibling_live es s t es' q :
  Edge.setSibling es s t = Some es' →
  is_Some (Edge.deref es q) → is_Some (Edge.deref es' q).
Proof.
  unfold Edge.setSibling. intros Hset Hq.
  apply bind_Some in Hset as (r & _ & Hset).
  apply bind_Some in Hset as (es1 & H1 & H2).
  eapply Edge_update_live; [exact H2|].
  eapply Edge_update_live; [exact H1|done].
Qed.

(** The heap and the graph after [removeEdge] on a record [k1] in the
    list of the vertex [a1], whose mirror record [k2] is in the list of
    the vertex [a2]; [es0] are the edge records once the sibling pointers
    of the sibling edge are reset. *)
Lemma Graph_removeEdge_eq h g k1 k2 d1 d2 a1 a2 x1 x2 es0 :
  Heap.edge h (Some k1) = Some d1 → Edge.adjRef d1 = Some k2 →
  Heap.edge h (Some k2) = Some d2 → k1 ≠ k2 →
  Edge.adj d2 = Some a1 → Edge.adj d1 = Some a2 → a1 ≠ a2 →
  Heap.vertex h (Some a1) = Some x1 → Heap.vertex h (Some a2) = Some x2 →
  Some k1 ∈ Vertex.edges x1 → Some k2 ∈ Vertex.edges x2 →
  (if bool_decide (Edge.sibling d1 ≠ NULL)
   then Edge.setSibling (Heap.es h) (Edge.sibling d1) NULL
   else Some (Heap.es h)) = Some es0 →
  Graph.removeEdge h g (Some k1)
  = Some (Heap.mk
            (<[a2:=Some (Vertex.set_degree_edges x2
                           (to_ushort (Vertex.degree x2 - 1))
                           (filter (λ y, y ≠ Some k2) (Vertex.edges x2)))]>
               (<[a1:=Some (Vertex.set_degree_edges x1
                              (to_ushort (Vertex.degree x1 - 1))
                              (filter (λ y, y ≠ Some k1) (Vertex.edges x1)))]>
                  (Heap.vs h)))
            (<[k2:=None]> (<[k1:=None]> es0)),
          Graph.set_m g (Graph.m g - 1)).
Proof.
  intros Hd1 Hadj Hd2 Hk Ha1 Ha2 Ha Hx1 Hx2 Hin1 Hin2 Hsib.
  assert (Hlive0 : ∀ q, is_Some (Edge.deref (Heap.es h) q) →
            is_Some (Edge.deref es0 q)).
  { intros q Hq. case_bool_decide.
    - by eapply Edge_setSibling_live.
    - by injection Hsib as <-. }
  unfold Graph.removeEdge.
  rewrite (bool_decide_eq_false_2 (Some k1 = NULL)) by done.
  unfold Edge.getAdjRef, Edge.getAdj, Edge.getSibling.
  unfold Heap.edge in Hd1, Hd2. rewrite Hd1.
  cbn [fmap option_fmap option_map mbind option_bind].
  rewrite Hadj, Hd2. cbn [fmap option_fmap option_map mbind option_bind].
  rewrite Ha1, Ha2.
  assert (Hh0 : (if bool_decide (Edge.sibling d1 ≠ NULL)
                 then Heap.Edge_setSibling h (Edge.sibling d1) NULL
                 else Some h) = Some (Heap.mk (Heap.vs h) es0)).
  { case_bool_decide.
    - unfold Heap.Edge_setSibling. by rewrite Hsib.
    - injection Hsib as <-. by destruct h. }
  rewrite Hh0. cbn [mbind option_bind].
  rewrite (Heap_Vertex_removeEdge_eq _ a1 x1 (Some k1) k1);
    [|done|done|done|apply Hlive0; by eexists].
  cbn [mbind option_bind Heap.vs Heap.es].
  rewrite (Heap_Vertex_removeEdge_eq _ a2 x2 (Some k2) k2); [done| |done|done|].
  - unfold Heap.vertex. cbn [Heap.vs].
    by rewrite Vertex_deref_insert_ne by congruence.
  - unfold Heap.edge. cbn [Heap.es].
    rewrite Edge_deref_free_ne by congruence. apply Hlive0. by eexists.
Qed.

(** X20: removing an edge just added gives back the graph and the heap:
    [removeEdge] on the record returned by [addEdge] (or on its mirror
    record) restores the lists of edges and the degrees of the two
    vertices and the number of edges, and frees the two records. *)
Theorem Graph_addEdge_removeEdge_round_trip h g v1 v2 label x1 x2 :
  v1 ≠ v2 → Heap.vertex h v1 = Some x1 → Heap.vertex h v2 = Some x2 →
  0 ≤ Vertex.degree x1 < 2 ^ 16 → 0 ≤ Vertex.degree x2 < 2 ^ 16 →
  (∀ e, e ∈ Vertex.edges x1 ++ Vertex.edges x2 → is_Some (Heap.edge h e)) →
  ∃ h' g' e e' h'',
    Graph.addEdge h g v1 v2 label = Some (h', g', e)
    ∧ Edge.getAdjRef (Heap.es h') e = Some e'
    ∧ Graph.removeEdge h' g' e = Some (h'', g)
    ∧ Graph.removeEdge h' g' e' = Some (h'', g)
    ∧ Heap.vs h'' = Heap.vs h
    ∧ (∀ p, Heap.edge h'' p = Heap.edge h p).
Proof.
  intros Hne Hx1 Hx2 Hd1 Hd2 Hlive.
  destruct v1 as [a1|]; [|done]. destruct v2 as [a2|]; [|done].
  assert (Ha : a1 ≠ a2) by congruence.
  rewrite (Graph_addEdge_eq h g a1 a2 label x1 x2) by done.
  set (n := length (Heap.es h)).
  set (x1' := Vertex.set_degree_edges x1 (to_ushort (Vertex.degree x1 + 1))
                (Some n :: Vertex.edges x1)).
  set (x2' := Vertex.set_degree_edges x2 (to_ushort (Vertex.degree x2 + 1))
                (Some (S n) :: Vertex.edges x2)).
  set (r1 := Edge.set_adjRef (Edge.new (Some a2) label) (Some (S n))).
  set (r2 := Edge.set_adjRef (Edge.new (Some a1) label) (Some n)).
  set (vs' := <[a2:=Some x2']> (<[a1:=Some x1']> (Heap.vs h))).
  set (es' := Heap.es h ++ [Some r1; Some r2]).
  set (g' := Graph.set_m g (Graph.m g + 1)).
  assert (Hr1 : Edge.deref es' (Some n) = Some r1)
    by apply Edge_deref_app_two.
  assert (Hr2 : Edge.deref es' (Some (S n)) = Some r2)
    by apply Edge_deref_app_two.
  assert (Hfresh : ∀ x k, (∀ e, e ∈ Vertex.edges x → is_Some (Heap.edge h e)) →
            (n ≤ k)%nat → filter (λ y, y ≠ Some k) (Vertex.edges x)
                           = Vertex.edges x).
  { intros x k Hx Hk. apply filter_all. apply Forall_forall.
    intros y Hy ->. destruct (Hx _ Hy) as [ed Hed].
    apply Edge_deref_lt in Hed. unfold n in Hk. lia. }
  assert (Hv1 : Vertex.deref (Heap.vs h) (Some a1) = Some x1) by done.
  assert (Hv2 : Vertex.deref (Heap.vs h) (Some a2) = Some x2) by done.
  assert (Hl1 : Heap.vs h !! a1 = Some (Some x1)).
  { unfold Vertex.deref in Hv1. cbn [mbind option_bind] in Hv1.
    destruct (Heap.vs h !! a1) as [[?|]|]; simpl in Hv1; by simplify_eq. }
  assert (Hl2 : Heap.vs h !! a2 = Some (Some x2)).
  { unfold Vertex.deref in Hv2. cbn [mbind option_bind] in Hv2.
    destruct (Heap.vs h !! a2) as [[?|]|]; simpl in Hv2; by simplify_eq. }
  assert (Hg : Graph.set_m g' (Graph.m g' - 1) = g).
  { destruct g. unfold g', Graph.set_m. cbn. f_equal. lia. }
  assert (Hx1'' : Vertex.set_degree_edges x1'
                    (to_ushort (Vertex.degree x1' - 1))
                    (filter (λ y, y ≠ Some n) (Vertex.edges x1')) = x1).
  { unfold x1'. cbn [Vertex.degree Vertex.edges Vertex.set_degree_edges].
    rewrite filter_cons_False by (by intros []).
    rewrite Hfresh; [|intros e He; apply Hlive, elem_of_app; by left|lia].
    rewrite to_ushort_round_trip by done. by destruct x1. }
  assert (Hx2'' : Vertex.set_degree_edges x2'
                    (to_ushort (Vertex.degree x2' - 1))
                    (filter (λ y, y ≠ Some (S n)) (Vertex.edges x2')) = x2).
  { unfold x2'. cbn [Vertex.degree Vertex.edges Vertex.set_degree_edges].
    rewrite filter_cons_False by (by intros []).
    rewrite Hfresh; [|intros e He; apply Hlive, elem_of_app; by right|lia].
    rewrite to_ushort_round_trip by done. by destruct x2. }
  assert (Hvs1 : Vertex.deref vs' (Some a1) = Some x1').
  { unfold vs'. rewrite Vertex_deref_insert_ne by congruence.
    by eapply Vertex_deref_insert_eq. }
  assert (Hvs2 : Vertex.deref vs' (Some a2) = Some x2').
  { unfold vs'. eapply Vertex_deref_insert_eq.
    by rewrite Vertex_deref_insert_ne by congruence. }
  assert (Hback : <[a2:=Some x2]> (<[a1:=Some x1]> vs') = Heap.vs h).
  { unfold vs'. rewrite (list_insert_insert_ne _ a1 a2) by done.
    rewrite !list_insert_insert_eq.
    rewrite (list_insert_id _ a1) by done. by apply list_insert_id. }
  assert (Hback' : <[a1:=Some x1]> (<[a2:=Some x2]> vs') = Heap.vs h).
  { unfold vs'. rewrite !list_insert_insert_eq.
    rewrite (list_insert_insert_ne _ a1 a2) by done.
    rewrite !list_insert_insert_eq.
    rewrite (list_insert_id _ a1) by done. by apply list_insert_id. }
  assert (Hfreed : <[S n:=None]> (<[n:=None]> es')
                   = Heap.es h ++ [None; None]).
  { unfold es'. rewrite (insert_app_r_alt _ _ n) by (unfold n; lia).
    rewrite (insert_app_r_alt _ _ (S n)) by (unfold n; lia).
    replace (n - length (Heap.es h))%nat with 0%nat by (unfold n; lia).
    replace (S n - length (Heap.es h))%nat with 1%nat by (unfold n; lia).
    done. }
  assert (Hfreed' : <[n:=None]> (<[S n:=None]> es')
                    = Heap.es h ++ [None; None]).
  { rewrite list_insert_insert_ne by lia. exact Hfreed. }
  exists (Heap.mk vs' es'), g', (Some n), (Some (S n)),
         (Heap.mk (Heap.vs h) (Heap.es h ++ [None; None])).
  split; [done|]. cbn [Heap.es Heap.vs].
  split; [unfold Edge.getAdjRef; by rewrite Hr1|].
  assert (Hin1 : Some n ∈ Vertex.edges x1') by (unfold x1'; cbn; by left).
  assert (Hin2 : Some (S n) ∈ Vertex.edges x2')
    by (unfold x2'; cbn; by left).
  assert (Hnn : n ≠ S n) by lia.
  assert (Hnn' : S n ≠ n) by lia.
  assert (Ha' : a2 ≠ a1) by congruence.
  split.
  { rewrite (Graph_removeEdge_eq (Heap.mk vs' es') g' n (S n) r1 r2 a1 a2
               x1' x2' es' Hr1 eq_refl Hr2 Hnn eq_refl eq_refl Ha Hvs1 Hvs2
               Hin1 Hin2 eq_refl).
    cbn [Heap.vs]. by rewrite Hx1'', Hx2'', Hback, Hfreed, Hg. }
  split.
  { rewrite (Graph_removeEdge_eq (Heap.mk vs' es') g' (S n) n r2 r1 a2 a1
               x2' x1' es' Hr2 eq_refl Hr1 Hnn' eq_refl eq_refl Ha' Hvs2 Hvs1
               Hin2 Hin1 eq_refl).
    cbn [Heap.vs]. by rewrite Hx1'', Hx2'', Hback', Hfreed', Hg. }
  split; [done|].
  intros [k|]; [|done]. unfold Heap.edge. cbn [Heap.es].
  destruct (decide (k < n)%nat) as [Hlt|Hge].
  - unfold Edge.deref. cbn [mbind option_bind].
    by rewrite lookup_app_l by done.
  - rewrite (Edge_deref_fresh (Heap.es h)) by (unfold n in *; lia).
    unfold Edge.deref. cbn [mbind option_bind].
    rewrite lookup_app_r by (unfold n in *; lia).
    by destruct (k - length (Heap.es h))%nat as [|[|?]].
Qed.

Lemma Graph_addEdge_removeEdge_round_trip_witness :
  ∃ h g h' g' e h'', example_two_vertices = Some (h, g)
    ∧ Graph.addEdge h g (Some 0%nat) (Some 1%nat) None = Some (h', g', e)
    ∧ Graph.removeEdge h' g' e = Some (h'', g)
    ∧ Heap.vs h'' = Heap.vs h.
Proof.
  destruct example_two_vertices as [[h g]|] eqn:Hex; [|by vm_compute in Hex].
  vm_compute in Hex. injection Hex as <- <-.
  match goal with
  | |- ∃ h0 g0 _ _ _ _, Some (?h, ?g) = Some (h0, g0) ∧ _ =>
      destruct (Graph_addEdge_removeEdge_round_trip h g (Some 0%nat)
                  (Some 1%nat) None
                  (Vertex.mk 0 0 0 0 0 (Some label_100) [] None
                     Extremity.default Extremity.default)
                  (Vertex.mk 1 0 0 0 0 None [] None
                     Extremity.default Extremity.default))
        as (h' & g' & e & e' & h'' & Hadd & _ & Hrem & _ & Hvs & _)
  end.
  - done.
  - vm_compute. reflexivity.
  - reflexivity.
  - simpl. lia.
  - simpl. lia.
  - intros e He. simpl in He. by apply elem_of_nil in He.
  - eexists _, _, h', g', e, h''. split; [reflexivity|].
    split; [exact Hadd|]. split; [exact Hrem|exact Hvs].
Defined.

(** ** Removing edges and vertices *)

Lemma filter_ext_in {A} (P Q : A → Prop) `{∀ x, Decision (P x)}
    `{∀ x, Decision (Q x)} (l : list A) :
  (∀ x, x ∈ l → (P x ↔ Q x)) → filter P l = filter Q l.
Proof.
  induction l as [|x l IH]; intros Hext; [done|].
  rewrite !filter_cons.
  assert (Hl : ∀ y, y ∈ l → (P y ↔ Q y)).
  { intros y Hy. apply Hext. by right. }
  specialize (Hext x ltac:(by left)).
  destruct (decide (P x)) as [Hp|Hp], (decide (Q x)) as [Hq|Hq];
    try tauto; by rewrite IH.
Qed.

Lemma filter_remove_one {A} `{EqDecision A} (l : list A) e :
  NoDup l → e ∈ l → length l = S (length (filter (λ y, y ≠ e) l)).
Proof.
  induction 1 as [|x l Hx Hl IH]; intros Hin; [by apply elem_of_nil in Hin|].
  apply elem_of_cons in Hin as [->|Hin].
  - rewrite filter_cons_False by (by intros []). cbn [length]. f_equal.
    rewrite filter_all; [done|]. apply Forall_forall. by intros y Hy ->.
  - rewrite filter_cons_True by (by intros ->). cbn [length]. f_equal.
    by apply IH.
Qed.

Lemma to_ushort_pred n :
  (1 ≤ n)%nat →
  to_ushort (to_ushort (Z.of_nat n) - 1) = to_ushort (Z.of_nat (n - 1)).
Proof.
  intros Hn. unfold to_ushort. rewrite Zminus_mod_idemp_l. f_equal. lia.
Qed.

Lemma same_vertex_refl x : same_vertex x x.
Proof. exists (Vertex.degree x), (Vertex.edges x). by destruct x. Qed.

Lemma same_vertex_trans x y z :
  same_vertex x y → same_vertex y z → same_vertex x z.
Proof. intros (d & l & ->) (d' & l' & ->). by exists d', l'. Qed.

Lemma Vertex_deref_free_ne (vs : list (option Vertex.t)) a p :
  p ≠ Some a → Vertex.deref (<[a:=None]> vs) p = Vertex.deref vs p.
Proof.
  intros Hne. destruct p as [b|]; [|done]. unfold Vertex.deref. simpl.
  by rewrite list_lookup_insert_ne by congruence.
Qed.

Lemma Vertex_deref_free_eq (vs : list (option Vertex.t)) a :
  Vertex.deref (<[a:=None]> vs) (Some a) = None.
Proof.
  unfold Vertex.deref. simpl.
  destruct (decide (a < length vs)%nat).
  - by rewrite list_lookup_insert_eq.
  - by rewrite lookup_ge_None_2 by (rewrite length_insert; lia).
Qed.

(** A record is in the list of one vertex only. *)
Lemma adjacency_owner h u u' xu xu' t :
  adjacency_ok h → Heap.vertex h u = Some xu → Heap.vertex h u' = Some xu' →
  t ∈ Vertex.edges xu → t ∈ Vertex.edges xu' → u = u'.
Proof.
  intros Hok Hu Hu' Ht Ht'.
  destruct (Hok u xu Hu) as (_ & _ & He).
  destruct (Hok u' xu' Hu') as (_ & _ & He').
  destruct (He t Ht) as (d & d' & y & Hd & Hd' & _ & _ & Hadj & _).
  destruct (He' t Ht') as (d2 & d2' & y2 & Hd2 & Hd2' & _ & _ & Hadj2 & _).
  assert (d2 = d) as -> by congruence.
  assert (d2' = d') as -> by congruence. congruence.
Qed.

(** [removeEdge] on a record of the list of a vertex, in a heap with well
    formed adjacency lists. *)
Lemma Graph_removeEdge_ok h g v x e :
  adjacency_ok h → Heap.vertex h v = Some x → e ∈ Vertex.edges x →
  ∃ h' d,
    Graph.removeEdge h g e = Some (h', Graph.set_m g (Graph.m g - 1))
    ∧ Heap.edge h e = Some d
    ∧ adjacency_ok h'
    ∧ Heap.edge h' e = None ∧ Heap.edge h' (Edge.adjRef d) = None
    ∧ (∀ p, p ≠ e → p ≠ Edge.adjRef d → Heap.edge h' p = Heap.edge h p)
    ∧ (∀ u, Heap.vertex h u = None → Heap.vertex h' u = None)
    ∧ (∀ u xu, Heap.vertex h u = Some xu →
         ∃ xu', Heap.vertex h' u = Some xu' ∧ same_vertex xu xu'
           ∧ Vertex.edges xu'
             = filter (λ t, t ≠ e ∧ t ≠ Edge.adjRef d) (Vertex.edges xu)).
Proof.
  intros Hok Hx He.
  destruct (Hok v x Hx) as (Hnd & Hdeg & Hedges).
  destruct (Hedges e He)
    as (d & d' & y & Hd & Hd' & Hmne & Hmir & Hadj' & Hadj & Hy & Hin' & Hsib).
  destruct (Hok _ y Hy) as (Hndy & Hdegy & Hedgesy).
  destruct e as [k1|]; [|done].
  destruct (Edge.adjRef d) as [k2|] eqn:He'; [|done].
  destruct v as [a1|]; [|done].
  destruct (Edge.adj d) as [a2|] eqn:Hw; [|done].
  assert (Hk : k1 ≠ k2) by congruence.
  assert (Ha : a1 ≠ a2) by congruence.
  set (x1 := Vertex.set_degree_edges x (to_ushort (Vertex.degree x - 1))
               (filter (λ t, t ≠ Some k1) (Vertex.edges x))).
  set (y1 := Vertex.set_degree_edges y (to_ushort (Vertex.degree y - 1))
               (filter (λ t, t ≠ Some k2) (Vertex.edges y))).
  set (vs' := <[a2:=Some y1]> (<[a1:=Some x1]> (Heap.vs h))).
  set (es' := <[k2:=None]> (<[k1:=None]> (Heap.es h))).
  assert (Hrun : Graph.removeEdge h g (Some k1)
                 = Some (Heap.mk vs' es', Graph.set_m g (Graph.m g - 1))).
  { apply (Graph_removeEdge_eq h g k1 k2 d d' a1 a2 x y (Heap.es h));
      try done.
    rewrite Hsib. by rewrite bool_decide_eq_false_2 by (by intros []). }
  (* the records *)
  assert (Hes : ∀ p, p ≠ Some k1 → p ≠ Some k2 →
            Edge.deref es' p = Edge.deref (Heap.es h) p).
  { intros p Hp1 Hp2. unfold es'. by rewrite !Edge_deref_free_ne by done. }
  assert (Hfree1 : Edge.deref es' (Some k1) = None).
  { unfold es'. rewrite Edge_deref_free_ne by congruence.
    apply Edge_deref_free_eq. }
  assert (Hfree2 : Edge.deref es' (Some k2) = None).
  { unfold es'. apply Edge_deref_free_eq. }
  (* the two lists *)
  assert (Hno' : Some k2 ∉ Vertex.edges x).
  { intros Hin. assert (Some a1 = Some a2); [|congruence].
    by eapply (adjacency_owner h _ _ x y (Some k2)). }
  assert (Hno : Some k1 ∉ Vertex.edges y).
  { intros Hin. assert (Some a1 = Some a2); [|congruence].
    by eapply (adjacency_owner h _ _ x y (Some k1)). }
  assert (Hlx : filter (λ t, t ≠ Some k1) (Vertex.edges x)
                = filter (λ t, t ≠ Some k1 ∧ t ≠ Some k2) (Vertex.edges x)).
  { apply filter_ext_in. intros t Ht. split; [|tauto].
    intros Hne. split; [done|]. by intros ->. }
  assert (Hly : filter (λ t, t ≠ Some k2) (Vertex.edges y)
                = filter (λ t, t ≠ Some k1 ∧ t ≠ Some k2) (Vertex.edges y)).
  { apply filter_ext_in. intros t Ht. split; [|tauto].
    intros Hne. split; [|done]. by intros ->. }
  assert (Hvs : ∀ u xu, Vertex.deref (Heap.vs h) u = Some xu →
            ∃ xu', Vertex.deref vs' u = Some xu' ∧ same_vertex xu xu'
              ∧ Vertex.edges xu'
                = filter (λ t, t ≠ Some k1 ∧ t ≠ Some k2) (Vertex.edges xu)
              ∧ Vertex.degree xu'
                = to_ushort (Z.of_nat (length (Vertex.edges xu')))).
  { intros u xu Hu. destruct (decide (u = Some a2)) as [->|Hu2].
    - assert (xu = y) as -> by (unfold Heap.vertex in Hy; congruence).
      exists y1. split.
      { unfold vs'. eapply Vertex_deref_insert_eq.
        rewrite Vertex_deref_insert_ne by congruence. exact Hy. }
      split; [by eexists _, _|]. split; [exact Hly|].
      unfold y1. cbn [Vertex.degree Vertex.edges Vertex.set_degree_edges].
      rewrite Hdegy. pose proof (filter_remove_one _ _ Hndy Hin') as Hlen.
      rewrite to_ushort_pred by lia. do 2 f_equal. lia.
    - destruct (decide (u = Some a1)) as [->|Hu1].
      + assert (xu = x) as -> by (unfold Heap.vertex in Hx; congruence).
        exists x1. split.
        { unfold vs'. rewrite Vertex_deref_insert_ne by congruence.
          eapply Vertex_deref_insert_eq. exact Hx. }
        split; [by eexists _, _|]. split; [exact Hlx|].
        unfold x1. cbn [Vertex.degree Vertex.edges Vertex.set_degree_edges].
        rewrite Hdeg. pose proof (filter_remove_one _ _ Hnd He) as Hlen.
        rewrite to_ushort_pred by lia. do 2 f_equal. lia.
      + exists xu. split.
        { unfold vs'. by rewrite !Vertex_deref_insert_ne by done. }
        split; [apply same_vertex_refl|].
        destruct (Hok u xu Hu) as (_ & Hdegu & _). split; [|done].
        symmetry. apply filter_all. apply Forall_forall. intros t Ht.
        split; intros ->.
        * by pose proof (adjacency_owner h _ _ xu x (Some k1) Hok Hu Hx Ht He).
        * by pose proof
            (adjacency_owner h _ _ xu y (Some k2) Hok Hu Hy Ht Hin'). }
  assert (Hdead : ∀ u, Vertex.deref (Heap.vs h) u = None →
            Vertex.deref vs' u = None).
  { intros u Hu. unfold vs'.
    rewrite !Vertex_deref_insert_ne; [done| |].
    - intros ->. unfold Heap.vertex in Hx. congruence.
    - intros ->. unfold Heap.vertex in Hy. congruence. }
  exists (Heap.mk vs' es'), d. rewrite !He'.
  split; [exact Hrun|]. split; [exact Hd|].
  unfold Heap.edge, Heap.vertex. cbn [Heap.vs Heap.es].
  split; [|split; [exact Hfree1|split; [exact Hfree2|split; [exact Hes|]]]].
  2:{ split; [exact Hdead|]. intros u xu Hu.
      destruct (Hvs u xu Hu) as (xu' & Hu' & Hsame & Hl & _).
      by exists xu'. }
  (* the lists are well formed *)
  intros u xu' Hu'. unfold Heap.vertex in Hu'. cbn [Heap.vs] in Hu'.
  destruct (Vertex.deref (Heap.vs h) u) as [xu|] eqn:Hu;
    [|by rewrite (Hdead u Hu) in Hu'].
  destruct (Hvs u xu Hu) as (xu2 & Hu2 & _ & Hl & Hdg).
  assert (xu2 = xu') as -> by congruence.
  destruct (Hok u xu Hu) as (Hndu & _ & Hedgesu).
  split; [rewrite Hl; by apply NoDup_filter|]. split; [exact Hdg|].
  intros t Ht. rewrite Hl in Ht.
  apply list_elem_of_filter in Ht as [[Ht1 Ht2] Ht].
  destruct (Hedgesu t Ht)
    as (dt & dt' & yt & Hdt & Hdt' & Htne & Htmir & Htadj' & Htadj & Hyt
        & Htin & Htsib).
  assert (Hm1 : Edge.adjRef dt ≠ Some k1).
  { intros Heq. rewrite Heq in Hdt'. unfold Heap.edge in Hd, Hdt'.
    assert (dt' = d) as -> by congruence. congruence. }
  assert (Hm2 : Edge.adjRef dt ≠ Some k2).
  { intros Heq. rewrite Heq in Hdt'. unfold Heap.edge in Hd', Hdt'.
    assert (dt' = d') as -> by congruence. congruence. }
  destruct (Hvs _ yt Hyt) as (yt' & Hyt' & _ & Hlt & _).
  exists dt, dt', yt'. unfold Heap.edge, Heap.vertex. cbn [Heap.vs Heap.es].
  split; [by rewrite Hes|]. split; [by rewrite Hes|].
  split; [done|]. split; [done|]. split; [done|]. split; [done|].
  split; [done|]. split; [|done].
  rewrite Hlt. apply list_elem_of_filter. by split.
Qed.

Lemma edges_removed_refl F h : edges_removed F h h.
Proof.
  split; [|split; [done|by left]]. intros u xu Hu. exists xu.
  split; [done|]. split; [apply same_vertex_refl|]. split; [done|].
  intros t Ht Hnt. done.
Qed.

Lemma edges_removed_trans F h1 h2 h3 :
  edges_removed F h1 h2 → edges_removed F h2 h3 → edges_removed F h1 h3.
Proof.
  intros (Hv12 & Hn12 & He12) (Hv23 & Hn23 & He23).
  split; [|split].
  - intros u xu Hu.
    destruct (Hv12 u xu Hu) as (xu2 & Hu2 & Hs12 & Hsub12 & Hdrop12).
    destruct (Hv23 u xu2 Hu2) as (xu3 & Hu3 & Hs23 & Hsub23 & Hdrop23).
    exists xu3. split; [done|].
    split; [by eapply same_vertex_trans|].
    split; [by etrans|]. intros t Ht Hnt.
    destruct (decide (t ∈ Vertex.edges xu2)) as [Hin|Hout].
    + by apply Hdrop23.
    + destruct (He23 t) as [Heq|[Hnone _]]; [|done].
      rewrite Heq. by apply Hdrop12.
  - intros u Hu. by apply Hn23, Hn12.
  - intros p. destruct (He23 p) as [Heq|[Hnone HF]]; [|by right].
    rewrite Heq. destruct (He12 p) as [Heq'|[Hnone HF]]; [by left|by right].
Qed.

Lemma removeEdges_ok F v : ∀ fuel h g x,
  adjacency_ok h → Heap.vertex h v = Some x →
  (length (Vertex.edges x) ≤ fuel)%nat →
  (∀ p, at_vertex h x p → F p) →
  ∃ h' x',
    Graph.removeEdges h g v fuel
    = Some (h', Graph.set_m g (Graph.m g
                               - Z.of_nat (length (Vertex.edges x))))
    ∧ adjacency_ok h' ∧ edges_removed F h h'
    ∧ Heap.vertex h' v = Some x' ∧ Vertex.edges x' = [].
Proof.
  induction fuel as [|fuel IH]; intros h g x Hok Hx Hlen HF.
  - destruct (Vertex.edges x) as [|e rest] eqn:Hl; [|simpl in Hlen; lia].
    exists h, x. cbn [Graph.removeEdges]. rewrite Hx.
    cbn [mbind option_bind]. rewrite Hl. cbn [length].
    split; [do 2 f_equal; destruct g; unfold Graph.set_m; cbn; f_equal; lia|].
    split; [done|]. split; [apply edges_removed_refl|done].
  - cbn [Graph.removeEdges]. rewrite Hx. cbn [mbind option_bind].
    destruct (Vertex.edges x) as [|e rest] eqn:Hl.
    { exists h, x. cbn [length].
      split; [do 2 f_equal; destruct g; unfold Graph.set_m; cbn; f_equal; lia|].
      split; [done|]. split; [apply edges_removed_refl|done]. }
    assert (He : e ∈ Vertex.edges x) by (rewrite Hl; by left).
    destruct (Graph_removeEdge_ok h g v x e Hok Hx He)
      as (h1 & d & Hrun & Hd & Hok1 & Hf1 & Hf2 & Hes & Hdead & Hvs).
    rewrite Hrun. cbn [mbind option_bind].
    destruct (Hvs v x Hx) as (x1 & Hx1 & Hsame1 & Hl1).
    destruct (Hok v x Hx) as (Hnd & _ & Hedges).
    assert (Hno : Edge.adjRef d ∉ Vertex.edges x).
    { intros Hin.
      destruct (Hedges e He)
        as (d0 & d' & y & Hd0 & _ & _ & _ & _ & Hadj & Hy & Hin' & _).
      assert (d0 = d) as -> by congruence.
      by pose proof (adjacency_owner h _ _ x y _ Hok Hx Hy Hin Hin'). }
    assert (Hrest : Vertex.edges x1 = rest).
    { rewrite Hl1, Hl. rewrite Hl in Hnd, Hno.
      apply NoDup_cons in Hnd as [Hne Hnd'].
      rewrite filter_cons_False by tauto.
      apply filter_all. apply Forall_forall. intros t Ht. split.
      - by intros ->.
      - intros ->. apply Hno. by right. }
    assert (Hstep : edges_removed F h h1).
    { split; [|split; [exact Hdead|]].
      - intros u xu Hu. destruct (Hvs u xu Hu) as (xu' & Hu' & Hs & Hlu).
        exists xu'. split; [done|]. split; [done|].
        split; [rewrite Hlu; apply sublist_filter|].
        intros t Ht Hnt. rewrite Hlu in Hnt.
        destruct (decide (t = e)) as [->|Hte]; [done|].
        destruct (decide (t = Edge.adjRef d)) as [->|Htm]; [done|].
        exfalso. apply Hnt. apply list_elem_of_filter. by split.
      - intros p. destruct (decide (p = e)) as [->|Hpe].
        { right. split; [done|]. apply HF. by left. }
        destruct (decide (p = Edge.adjRef d)) as [->|Hpm].
        { right. split; [done|]. apply HF. right. by exists e, d. }
        left. by apply Hes. }
    destruct (IH h1 (Graph.set_m g (Graph.m g - 1)) x1 Hok1 Hx1)
      as (h' & x' & Hrun' & Hok' & Hrem' & Hx' & Hnil).
    { rewrite Hrest. simpl in Hlen. lia. }
    { intros p [Hp|(t & dt & Ht & Hdt & Hp)]; apply HF.
      - left. rewrite Hrest in Hp. rewrite Hl. by right.
      - rewrite Hrest in Ht. right. exists t, dt.
        split; [rewrite Hl; by right|]. split; [|done].
        pose proof Hstep as (_ & _ & Hst3).
        destruct (Hst3 t) as [Heq|[Hnone _]]; congruence. }
    exists h', x'. rewrite Hrun'. rewrite Hrest. cbn [length].
    split.
    { do 2 f_equal. destruct g; unfold Graph.set_m; cbn; f_equal; lia. }
    split; [done|].
    split; [by eapply edges_removed_trans|done].
Qed.

Lemma sublist_filter_char {A} (P : A → Prop) `{∀ x, Decision (P x)}
    (l' l : list A) :
  l' `sublist_of` l → NoDup l → (∀ t, t ∈ l → (t ∈ l' ↔ P t)) →
  l' = filter P l.
Proof.
  induction 1 as [|x l1 l2 Hsub IH|x l1 l2 Hsub IH]; intros Hnd Hchar.
  - done.
  - apply NoDup_cons in Hnd as [Hx Hnd].
    rewrite filter_cons_True by (apply Hchar; by left). f_equal.
    apply IH; [done|]. intros t Ht. rewrite <- Hchar by (by right).
    rewrite elem_of_cons. split; [by right|].
    intros [->|Hin]; [done|done].
  - apply NoDup_cons in Hnd as [Hx Hnd].
    rewrite filter_cons_False.
    + apply IH; [done|]. intros t Ht. apply Hchar. by right.
    + intros HP. apply Hx. eapply elem_of_sublist; [|exact Hsub].
      apply Hchar; [by left|done].
Qed.

(** X21: in a heap with well formed adjacency lists (and no sibling
    links), [removeVertex] on a vertex of the graph empties its slot and
    deletes the vertex object, after having removed every edge of the
    vertex at both ends: the records of its list and their mirror records
    are freed and no other, the list of every other vertex loses exactly
    the records that led to the vertex, in place, and the numbers of
    vertices and of edges go down by one and by the degree.  The adjacency
    lists are well formed afterwards: no list holds a record to the
    deleted vertex. *)
Theorem Graph_removeVertex_removes_edges h g v x :
  adjacency_ok h → Heap.vertex h v = Some x →
  Graph.getVertex g (Vertex.id x) = Some v →
  vec_size (Graph.npart g) = 128 → 0 ≤ Vertex.part x ≤ 127 →
  0 ≤ Vertex.family x < vec_size (Graph.fsize g) →
  ∃ h' g',
    Graph.removeVertex h g v = Some (h', g')
    ∧ adjacency_ok h'
    ∧ Heap.vertex h' v = None
    ∧ Graph.getVertex g' (Vertex.id x) = Some NULL
    ∧ (∀ j, j ≠ Vertex.id x → Graph.getVertex g' j = Graph.getVertex g j)
    ∧ Graph.getN g' = Graph.getN g - 1
    ∧ Graph.getM g' = Graph.getM g - Z.of_nat (length (Vertex.edges x))
    ∧ Graph.maxn g' = Graph.maxn g
    ∧ (∀ u xu, u ≠ v → Heap.vertex h u = Some xu →
         ∃ xu', Heap.vertex h' u = Some xu' ∧ same_vertex xu xu'
           ∧ Vertex.edges xu'
             = filter (λ t, Edge.getAdj (Heap.es h) t ≠ Some v)
                      (Vertex.edges xu))
    ∧ (∀ u, Heap.vertex h u = None → Heap.vertex h' u = None)
    ∧ (∀ p, at_vertex h x p → Heap.edge h' p = None)
    ∧ (∀ p, ¬ at_vertex h x p → Heap.edge h' p = Heap.edge h p).
Proof.
  intros Hok Hx Hslot Hnp Hpart Hfam.
  destruct v as [a|]; [|done].
  destruct (removeEdges_ok (at_vertex h x) (Some a)
              (length (Vertex.edges x)) h g x Hok Hx)
    as (h1 & x1 & Hrun & Hok1 & Hrem & Hx1 & Hnil); [lia|done|].
  pose proof Hrem as (Hvs & Hdead & Hes).
  destruct (Hvs _ x Hx) as (x1' & Hx1' & (dg & l & Hsame) & _).
  assert (x1' = x1) as -> by congruence.
  assert (Hid : Vertex.id x1 = Vertex.id x) by (by rewrite Hsame).
  assert (Hp1 : Vertex.part x1 = Vertex.part x) by (by rewrite Hsame).
  assert (Hf1 : Vertex.family x1 = Vertex.family x) by (by rewrite Hsame).
  set (g1 := Graph.set_m g (Graph.m g - Z.of_nat (length (Vertex.edges x))))
    in *.
  pose proof (vec_get_Some _ _ _ Hslot) as [Hrange _].
  destruct (vec_get_is_Some (Graph.npart g) (Vertex.part x)) as [c Hc]; [lia|].
  destruct (vec_get_is_Some (Graph.fsize g) (Vertex.family x)) as [c' Hc'];
    [lia|].
  set (vv := <[Z.to_nat (Vertex.id x):=NULL]> (Graph.vertices g)).
  assert (Hrm : ∃ g',
            Graph.removeVertex h g (Some a)
            = Some (Heap.mk (<[a:=None]> (Heap.vs h1)) (Heap.es h1), g')
            ∧ Graph.vertices g' = vv ∧ Graph.n g' = Graph.n g - 1
            ∧ Graph.m g' = Graph.m g - Z.of_nat (length (Vertex.edges x))
            ∧ Graph.maxn g' = Graph.maxn g).
  { unfold Graph.removeVertex.
    rewrite (bool_decide_eq_false_2 (Some a = NULL)) by done.
    rewrite Hx. cbn [mbind option_bind]. rewrite Hrun.
    cbn [mbind option_bind]. rewrite Hx1. cbn [mbind option_bind].
    rewrite Hid, Hp1, Hf1.
    cbn [Graph.vertices Graph.set_vertices Graph.npart Graph.set_npart
         Graph.fsize Graph.set_fsize Graph.maxn Graph.set_n Graph.set_m g1].
    rewrite vec_set_Some by lia. cbn [mbind option_bind].
    rewrite to_unsigned_small by lia. rewrite Hc. cbn [mbind option_bind].
    rewrite vec_set_Some by lia. cbn [mbind option_bind].
    rewrite Hc'. cbn [mbind option_bind].
    rewrite vec_set_Some by lia. cbn [mbind option_bind].
    unfold Vertex.free. cbn [mbind option_bind].
    unfold Heap.vertex in Hx1. rewrite Hx1. cbn [mbind option_bind].
    eexists. split; [done|]. by cbn. }
  destruct Hrm as (g' & Hrm & Hvert & Hn & Hm & Hmaxn).
  set (h' := Heap.mk (<[a:=None]> (Heap.vs h1)) (Heap.es h1)).
  assert (Hlive' : ∀ u, u ≠ Some a → Heap.vertex h' u = Heap.vertex h1 u).
  { intros u Hu. unfold Heap.vertex, h'. cbn [Heap.vs].
    by apply Vertex_deref_free_ne. }
  assert (Hgone : Heap.vertex h' (Some a) = None).
  { unfold Heap.vertex, h'. cbn [Heap.vs]. apply Vertex_deref_free_eq. }
  (* no record of a list leads to the vertex any more *)
  assert (Hnoedge : ∀ u xu t dt, Heap.vertex h1 u = Some xu →
            t ∈ Vertex.edges xu → Heap.edge h1 t = Some dt →
            Edge.adj dt ≠ Some a).
  { intros u xu t dt Hu Ht Hdt Hadj.
    destruct (Hok1 u xu Hu) as (_ & _ & Hedges).
    destruct (Hedges t Ht)
      as (dt0 & dt' & yt & Hdt0 & _ & _ & _ & _ & _ & Hyt & Hin & _).
    assert (dt0 = dt) as -> by congruence.
    rewrite Hadj, Hx1 in Hyt. injection Hyt as <-.
    rewrite Hnil in Hin. by apply elem_of_nil in Hin. }
  exists h', g'. split; [exact Hrm|]. split.
  { intros u xu Hu. destruct (decide (u = Some a)) as [->|Hne];
      [by rewrite Hgone in Hu|].
    rewrite Hlive' in Hu by done.
    destruct (Hok1 u xu Hu) as (Hnd & Hdg & Hedges).
    split; [done|]. split; [done|]. intros t Ht.
    destruct (Hedges t Ht)
      as (dt & dt' & yt & Hdt & Hdt' & H1 & H2 & H3 & H4 & Hyt & Hin & H5).
    exists dt, dt', yt. repeat (split; [done|]).
    split; [|done]. rewrite Hlive'; [done|].
    by apply (Hnoedge u xu t dt). }
  split; [exact Hgone|].
  unfold Graph.getVertex, Graph.getN, Graph.getM. rewrite Hvert.
  split.
  { rewrite vec_get_lookup by lia. unfold vv.
    apply list_lookup_insert_eq. unfold vec_size in Hrange. lia. }
  split.
  { intros j Hj. unfold vec_get. case_bool_decide; [|done]. unfold vv.
    apply list_lookup_insert_ne. lia. }
  split; [done|]. split; [done|]. split; [done|].
  assert (Hrec : ∀ p dp, Heap.edge h1 p = Some dp → Heap.edge h p = Some dp).
  { intros p dp Hp. destruct (Hes p) as [Heq|[Hnone _]]; congruence. }
  split.
  { intros u xu Hu Hux.
    destruct (Hvs u xu Hux) as (xu' & Hu' & Hsm & Hsub & Hdrop).
    exists xu'. split; [by rewrite Hlive'|]. split; [done|].
    destruct (Hok u xu Hux) as (Hnd & _ & Hedges).
    apply sublist_filter_char; [done|done|]. intros t Ht.
    destruct (Hedges t Ht)
      as (dt & dt' & yt & Hdt & Hdt' & _ & Hmir & Hadj' & _).
    unfold Edge.getAdj. unfold Heap.edge in Hdt. rewrite Hdt.
    cbn [fmap option_fmap option_map]. split.
    - intros Hin [= Hadj].
      destruct (Hok1 u xu' Hu') as (_ & _ & Hedges1).
      destruct (Hedges1 t Hin) as (dt1 & _ & _ & Hdt1 & _).
      apply Hrec in Hdt1. unfold Heap.edge in Hdt1.
      assert (dt1 = dt) as -> by congruence.
      eapply (Hnoedge u xu' t dt); try done.
      destruct (Hedges1 t Hin) as (dt2 & _ & _ & Hdt2 & _).
      pose proof (Hrec _ _ Hdt2) as Hdt2'. unfold Heap.edge in Hdt2'.
      by assert (dt2 = dt) as -> by congruence.
    - intros Hadj. destruct (decide (t ∈ Vertex.edges xu')) as [|Hout];
        [done|]. exfalso.
      pose proof (Hdrop t Ht Hout) as Hfreed.
      destruct (Hes t) as [Heq|[_ [Hin|(e & d & He & Hd & Href)]]].
      + unfold Heap.edge in Heq, Hfreed. congruence.
      + apply Hu. symmetry.
        by eapply (adjacency_owner h _ _ x xu t).
      + destruct (Hok _ x Hx) as (_ & _ & Hedgesx).
        destruct (Hedgesx e He)
          as (d0 & d0' & _ & Hd0 & Hd0' & _ & _ & Hadj0 & _).
        assert (d0 = d) as -> by congruence.
        rewrite Href in Hd0'. unfold Heap.edge in Hd0'.
        assert (d0' = dt) as -> by congruence. congruence. }
  split.
  { intros u Hu. destruct (decide (u = Some a)) as [->|Hne]; [done|].
    rewrite Hlive' by done. by apply Hdead. }
  unfold Heap.edge at 1 3. cbn [Heap.es h'].
  split.
  - intros p Hp. destruct (Hok _ x Hx) as (_ & _ & Hedgesx).
    assert (Hlist : ∀ e, e ∈ Vertex.edges x → Heap.edge h1 e = None).
    { intros e He. destruct (Hvs _ x Hx) as (x2 & Hx2 & _ & _ & Hdrop).
      assert (x2 = x1) as -> by congruence.
      apply Hdrop; [done|]. rewrite Hnil. apply not_elem_of_nil. }
    destruct Hp as [Hp|(e & d & He & Hd & Href)]; [by apply Hlist|].
    destruct (Heap.edge h1 p) as [dp|] eqn:Hp1'; [|done]. exfalso.
    destruct (Hedgesx e He)
      as (d0 & d' & y & Hd0 & Hd' & _ & Hmir & _ & _ & Hy & Hin & _).
    assert (d0 = d) as -> by congruence. rewrite Href in Hd', Hin.
    pose proof (Hrec _ _ Hp1') as Hp0.
    assert (dp = d') as -> by congruence.
    destruct (Hvs _ y Hy) as (y1 & Hy1 & _ & _ & Hdropy).
    destruct (decide (p ∈ Vertex.edges y1)) as [Hin1|Hout].
    + destruct (Hok1 _ y1 Hy1) as (_ & _ & Hedges1).
      destruct (Hedges1 p Hin1) as (dp1 & dp1' & _ & Hdp1 & Hdp1' & _).
      assert (dp1 = d') as -> by congruence.
      rewrite Hmir in Hdp1'. rewrite (Hlist e He) in Hdp1'. done.
    + rewrite (Hdropy p Hin Hout) in Hp1'. done.
  - intros p Hp. destruct (Hes p) as [Heq|[_ HF]]; [done|]. by destruct Hp.
Qed.

(** *** The adjacency lists stay well formed *)

Lemma adjacency_ok_empty : adjacency_ok Heap.empty.
Proof. intros [a|] x Hx; [|done]. by destruct a. Qed.

Lemma links_kept_refl es : links_kept es es.
Proof. split; [|done]. intros q d Hd. by exists d. Qed.

Lemma links_kept_trans es1 es2 es3 :
  links_kept es1 es2 → links_kept es2 es3 → links_kept es1 es3.
Proof.
  intros [Hl12 Hn12] [Hl23 Hn23]. split.
  - intros q d Hd. destruct (Hl12 q d Hd) as (d2 & Hd2 & H1 & H2 & H3).
    destruct (Hl23 q d2 Hd2) as (d3 & Hd3 & H1' & H2' & H3').
    exists d3. split; [done|]. unfold same_links. by rewrite H1', H2', H3'.
  - intros q Hq. by apply Hn23, Hn12.
Qed.

Lemma Edge_update_links es p f es' :
  (∀ x, same_links x (f x)) → Edge.update es p f = Some es' →
  links_kept es es'.
Proof.
  intros Hf Hup. unfold Edge.update in Hup. destruct p as [a|]; [|done].
  cbn [mbind option_bind] in Hup.
  destruct (Edge.deref es (Some a)) as [da|] eqn:Ha; [|done].
  injection Hup as <-. split.
  - intros q d Hd. destruct (decide (q = Some a)) as [->|Hne].
    + erewrite Edge_deref_insert_eq by done. exists (f da).
      split; [done|]. assert (d = da) as -> by congruence. apply Hf.
    + rewrite Edge_deref_insert_ne by done. exists d. by split.
  - intros q Hq. destruct (decide (q = Some a)) as [->|Hne]; [congruence|].
    by rewrite Edge_deref_insert_ne by done.
Qed.

Lemma Edge_setExtremities_links es e id1 t1 id2 t2 es' :
  Edge.setExtremities es e id1 t1 id2 t2 = Some es' → links_kept es es'.
Proof.
  unfold Edge.setExtremities. intros Hset.
  apply bind_Some in Hset as (r & _ & Hset).
  repeat (apply bind_Some in Hset as (? & ?%Edge_update_links & Hset);
          [|by intros []]).
  apply Edge_update_links in Hset; [|by intros []].
  repeat (eapply links_kept_trans; [eassumption|]). apply links_kept_refl.
Qed.

Lemma adjacency_ok_links vs es es' :
  adjacency_ok (Heap.mk vs es) → links_kept es es' →
  adjacency_ok (Heap.mk vs es').
Proof.
  intros Hok [Hl Hn] v x Hx. destruct (Hok v x Hx) as (Hnd & Hdg & Hedges).
  split; [done|]. split; [done|]. intros e He.
  destruct (Hedges e He)
    as (d & d' & y & Hd & Hd' & H1 & H2 & H3 & H4 & Hy & Hin & H5).
  unfold Heap.edge, Heap.vertex in *. cbn [Heap.vs Heap.es] in *.
  destruct (Hl _ _ Hd) as (d1 & Hd1 & Ha & Hr & Hs).
  destruct (Hl _ _ Hd') as (d1' & Hd1' & Ha' & Hr' & Hs').
  exists d1, d1', y. unfold Heap.edge, Heap.vertex. cbn [Heap.vs Heap.es].
  rewrite Hr, Ha, Hr', Ha', Hs. done.
Qed.

Lemma Graph_addVertex_heap h g id label part family h' g' v :
  Graph.addVertex h g id label part family = Some (h', g', v) →
  h' = h ∨ ∃ nv, h' = Heap.mk (Heap.vs h ++ [Some nv]) (Heap.es h)
               ∧ Vertex.edges nv = [] ∧ Vertex.degree nv = 0.
Proof.
  unfold Graph.addVertex. intros Hadd.
  apply bind_Some in Hadd as (g1 & _ & Hadd).
  apply bind_Some in Hadd as (slot & _ & Hadd).
  case_bool_decide; [left; by injection Hadd as <- _ _|].
  right. unfold Vertex.alloc, Vertex.update in Hadd.
  cbn [mbind option_bind] in Hadd. inv_opt.
  match goal with
  | H : Vertex.deref (_ ++ [Some ?n]) (Some (length _)) = Some ?y |- _ =>
      assert (y = n) as ->
        by (unfold Vertex.deref in H; cbn [mbind option_bind] in H;
            rewrite list_lookup_middle in H by done; by injection H)
  end.
  eexists. split.
  - f_equal.
    replace (length (Heap.vs h)) with (length (Heap.vs h) + 0)%nat at 1 by lia.
    rewrite insert_app_r. cbn [list_insert]. reflexivity.
  - done.
Qed.

Lemma adjacency_ok_new_vertex h nv :
  adjacency_ok h → Vertex.edges nv = [] → Vertex.degree nv = 0 →
  adjacency_ok (Heap.mk (Heap.vs h ++ [Some nv]) (Heap.es h)).
Proof.
  intros Hok Hnil Hdg.
  assert (Hold : ∀ u xu, Heap.vertex h u = Some xu →
            Heap.vertex (Heap.mk (Heap.vs h ++ [Some nv]) (Heap.es h)) u
            = Some xu).
  { intros [b|] xu Hu; [|done]. unfold Heap.vertex, Vertex.deref in *.
    cbn [mbind option_bind Heap.vs] in *.
    destruct (Heap.vs h !! b) as [o|] eqn:Hb; [|done].
    by rewrite lookup_app_l, Hb by (by eapply lookup_lt_Some). }
  intros [b|] xu Hu; [|done].
  destruct (decide (b < length (Heap.vs h))%nat) as [Hlt|Hge].
  - assert (Hu0 : Heap.vertex h (Some b) = Some xu).
    { unfold Heap.vertex, Vertex.deref in *.
      cbn [mbind option_bind Heap.vs] in *.
      by rewrite lookup_app_l in Hu by done. }
    destruct (Hok _ xu Hu0) as (Hnd & Hdeg & Hedges).
    split; [done|]. split; [done|]. intros e He.
    destruct (Hedges e He)
      as (d & d' & y & Hd & Hd' & H1 & H2 & H3 & H4 & Hy & Hin & H5).
    exists d, d', y. repeat (split; [done|]). split; [by apply Hold|done].
  - unfold Heap.vertex, Vertex.deref in Hu.
    cbn [mbind option_bind Heap.vs] in Hu.
    rewrite lookup_app_r in Hu by lia.
    destruct (b - length (Heap.vs h))%nat as [|k]; [|by destruct k].
    cbn in Hu. injection Hu as <-. rewrite Hnil, Hdg.
    split; [constructor|]. split; [done|].
    intros e He. by apply elem_of_nil in He.
Qed.

Lemma Graph_addVertex_adjacency h g id label part family h' g' v :
  adjacency_ok h →
  Graph.addVertex h g id label part family = Some (h', g', v) →
  adjacency_ok h'.
Proof.
  intros Hok Hadd.
  destruct (Graph_addVertex_heap _ _ _ _ _ _ _ _ _ Hadd)
    as [->|(nv & -> & Hnil & Hdg)]; [done|].
  by apply adjacency_ok_new_vertex.
Qed.

Lemma to_ushort_succ n :
  to_ushort (to_ushort (Z.of_nat n) + 1) = to_ushort (Z.of_nat (S n)).
Proof.
  unfold to_ushort. rewrite Zplus_mod_idemp_l. f_equal. lia.
Qed.

Lemma Graph_addEdge_inv h g v1 v2 label h' g' e :
  Graph.addEdge h g v1 v2 label = Some (h', g', e) →
  (h' = h ∧ g' = g ∧ e = NULL)
  ∨ ∃ a1 a2 x1 x2, v1 = Some a1 ∧ v2 = Some a2 ∧ a1 ≠ a2
      ∧ Heap.vertex h v1 = Some x1 ∧ Heap.vertex h v2 = Some x2.
Proof.
  unfold Graph.addEdge. intros Hadd.
  destruct (bool_decide (v1 = v2) || bool_decide (v1 = NULL)
            || bool_decide (v2 = NULL)) eqn:Hguard.
  { left. by injection Hadd as <- <- <-. }
  right. apply orb_false_iff in Hguard as [Hguard H2].
  apply orb_false_iff in Hguard as [H0 H1].
  apply bool_decide_eq_false in H0, H1, H2.
  destruct v1 as [a1|]; [|done]. destruct v2 as [a2|]; [|done].
  apply bind_Some in Hadd as ([h1 e1] & Hv1 & Hadd).
  apply bind_Some in Hadd as ([h2 e2] & Hv2 & _).
  unfold Heap.Vertex_addEdge in Hv1, Hv2. cbn [mbind option_bind] in Hv1, Hv2.
  destruct (Heap.vertex h (Some a1)) as [x1|] eqn:Hx1; [|done].
  cbn [mbind option_bind] in Hv1. injection Hv1 as <- <-.
  destruct (Heap.vertex _ (Some a2)) as [x2|] eqn:Hx2 in Hv2; [|done].
  unfold Heap.vertex in Hx2. cbn [Heap.vs] in Hx2.
  rewrite Vertex_deref_insert_ne in Hx2 by congruence.
  exists a1, a2, x1, x2. repeat split; try done. congruence.
Qed.

Lemma Graph_addEdge_adjacency h g v1 v2 label h' g' e :
  adjacency_ok h → Graph.addEdge h g v1 v2 label = Some (h', g', e) →
  adjacency_ok h'.
Proof.
  intros Hok Hadd.
  destruct (Graph_addEdge_inv _ _ _ _ _ _ _ _ Hadd)
    as [(-> & _)|(a1 & a2 & x1 & x2 & -> & -> & Ha & Hx1 & Hx2)]; [done|].
  rewrite (Graph_addEdge_eq h g a1 a2 label x1 x2) in Hadd by done.
  cbv zeta in Hadd. injection Hadd as <- _ _.
  set (n := length (Heap.es h)).
  set (x1' := Vertex.set_degree_edges x1 (to_ushort (Vertex.degree x1 + 1))
                (Some n :: Vertex.edges x1)).
  set (x2' := Vertex.set_degree_edges x2 (to_ushort (Vertex.degree x2 + 1))
                (Some (S n) :: Vertex.edges x2)).
  set (r1 := Edge.set_adjRef (Edge.new (Some a2) label) (Some (S n))).
  set (r2 := Edge.set_adjRef (Edge.new (Some a1) label) (Some n)).
  set (vs' := <[a2:=Some x2']> (<[a1:=Some x1']> (Heap.vs h))).
  set (es' := Heap.es h ++ [Some r1; Some r2]).
  destruct (Edge_deref_app_two (Heap.es h) r1 r2) as [Hr1 Hr2].
  fold n es' in Hr1, Hr2.
  destruct (Hok _ x1 Hx1) as (Hnd1 & Hdg1 & Hedges1).
  destruct (Hok _ x2 Hx2) as (Hnd2 & Hdg2 & Hedges2).
  assert (Hlt : ∀ u xu t, Heap.vertex h u = Some xu → t ∈ Vertex.edges xu →
            ∃ k, t = Some k ∧ (k < n)%nat).
  { intros u xu t Hu Ht. destruct (Hok u xu Hu) as (_ & _ & Hedges).
    destruct (Hedges t Ht) as (d & _ & _ & Hd & _).
    destruct t as [k|]; [|done]. exists k. split; [done|].
    by apply Edge_deref_lt in Hd. }
  assert (Hold : ∀ p d, Edge.deref (Heap.es h) p = Some d →
            Edge.deref es' p = Some d).
  { intros p d Hd. by apply Edge_deref_app_old. }
  assert (Hvs : ∀ u xu, Heap.vertex h u = Some xu →
            ∃ xu', Vertex.deref vs' u = Some xu'
              ∧ (∀ t, t ∈ Vertex.edges xu → t ∈ Vertex.edges xu')
              ∧ ((u = Some a1 ∧ xu = x1 ∧ xu' = x1')
                 ∨ (u = Some a2 ∧ xu = x2 ∧ xu' = x2')
                 ∨ (u ≠ Some a1 ∧ u ≠ Some a2 ∧ xu' = xu))).
  { intros u xu Hu. destruct (decide (u = Some a2)) as [->|Hu2].
    - assert (xu = x2) as -> by congruence. exists x2'. split.
      { unfold vs'. eapply Vertex_deref_insert_eq.
        by rewrite Vertex_deref_insert_ne by congruence. }
      split; [intros t Ht; unfold x2'; cbn; by right|]. right. by left.
    - destruct (decide (u = Some a1)) as [->|Hu1].
      + assert (xu = x1) as -> by congruence. exists x1'. split.
        { unfold vs'. rewrite Vertex_deref_insert_ne by congruence.
          by eapply Vertex_deref_insert_eq. }
        split; [intros t Ht; unfold x1'; cbn; by right|]. by left.
      + exists xu. split.
        { unfold vs'. by rewrite !Vertex_deref_insert_ne by done. }
        split; [done|]. right. by right. }
  assert (Hdead : ∀ u, Heap.vertex h u = None → Vertex.deref vs' u = None).
  { intros u Hu. unfold vs'. rewrite !Vertex_deref_insert_ne; [done| |].
    - intros ->. congruence.
    - intros ->. congruence. }
  assert (Hkeep : ∀ u xu t, Heap.vertex h u = Some xu → t ∈ Vertex.edges xu →
            edge_ok (Heap.mk vs' es') u t).
  { intros u xu t Hu Ht. destruct (Hok u xu Hu) as (_ & _ & Hedges).
    destruct (Hedges t Ht)
      as (d & d' & y & Hd & Hd' & H1 & H2 & H3 & H4 & Hy & Hin & H5).
    destruct (Hvs _ y Hy) as (y' & Hy' & Hsub & _).
    exists d, d', y'. unfold Heap.edge, Heap.vertex. cbn [Heap.vs Heap.es].
    split; [by apply Hold|]. split; [by apply Hold|].
    repeat (split; [done|]). split; [by apply Hsub|done]. }
  intros u xu' Hu'. unfold Heap.vertex in Hu'. cbn [Heap.vs] in Hu'.
  destruct (Heap.vertex h u) as [xu|] eqn:Hu;
    [|by rewrite (Hdead u Hu) in Hu'].
  destruct (Hvs u xu Hu) as (xu2 & Hu2 & Hsub & Hcase).
  assert (xu2 = xu') as -> by congruence.
  destruct Hcase as [(-> & -> & ->)|[(-> & -> & ->)|(Hu1 & Hu2' & ->)]].
  - unfold x1'. cbn [Vertex.edges Vertex.degree Vertex.set_degree_edges].
    split.
    { apply NoDup_cons. split; [|done]. intros Hin.
      destruct (Hlt _ _ _ Hx1 Hin) as (k & [= <-] & Hk). lia. }
    split; [rewrite Hdg1; cbn [length]; apply to_ushort_succ|].
    intros t [->|Ht]%elem_of_cons; [|by eapply Hkeep].
    exists r1, r2, x2'. unfold Heap.edge, Heap.vertex. cbn [Heap.vs Heap.es].
    split; [done|]. split; [done|]. split; [intros [=]; lia|].
    split; [done|]. split; [done|]. split; [cbn; congruence|].
    split.
    { cbn [Edge.adj r1 Edge.set_adjRef Edge.new]. unfold vs'.
      eapply Vertex_deref_insert_eq.
      by rewrite Vertex_deref_insert_ne by congruence. }
    split; [unfold x2'; cbn; by left|done].
  - unfold x2'. cbn [Vertex.edges Vertex.degree Vertex.set_degree_edges].
    split.
    { apply NoDup_cons. split; [|done]. intros Hin.
      destruct (Hlt _ _ _ Hx2 Hin) as (k & [= <-] & Hk). lia. }
    split; [rewrite Hdg2; cbn [length]; apply to_ushort_succ|].
    intros t [->|Ht]%elem_of_cons; [|by eapply Hkeep].
    exists r2, r1, x1'. unfold Heap.edge, Heap.vertex. cbn [Heap.vs Heap.es].
    split; [done|]. split; [done|]. split; [intros [=]; lia|].
    split; [done|]. split; [done|]. split; [cbn; congruence|].
    split.
    { cbn [Edge.adj r2 Edge.set_adjRef Edge.new]. unfold vs'.
      rewrite Vertex_deref_insert_ne by congruence.
      by eapply Vertex_deref_insert_eq. }
    split; [unfold x1'; cbn; by left|done].
  - destruct (Hok u xu Hu) as (Hnd & Hdg & _).
    split; [done|]. split; [done|]. intros t Ht. by eapply Hkeep.
Qed.

Lemma Graph_addVertex_auto_adjacency h g label part family h' g' v :
  adjacency_ok h →
  Graph.addVertex_auto h g label part family = Some (h', g', v) →
  adjacency_ok h'.
Proof.
  intros Hok Hadd. unfold Graph.addVertex_auto in Hadd.
  apply bind_Some in Hadd as (id & _ & Hadd).
  by eapply Graph_addVertex_adjacency.
Qed.

Lemma Graph_addEdge_id_adjacency h g id1 id2 label h' g' e :
  adjacency_ok h →
  Graph.addEdge_id h g id1 id2 label = Some (h', g', e) →
  adjacency_ok h'.
Proof.
  intros Hok Hadd. unfold Graph.addEdge_id in Hadd.
  destruct (bool_decide (id1 >= Graph.maxn g)
            || bool_decide (id2 > Graph.maxn g)).
  - by injection Hadd as <- _ _.
  - apply bind_Some in Hadd as (v1 & _ & Hadd).
    apply bind_Some in Hadd as (v2 & _ & Hadd).
    by eapply Graph_addEdge_adjacency.
Qed.

Lemma Heap_Edge_setExtremities_adjacency h e id1 t1 id2 t2 h' :
  adjacency_ok h →
  Heap.Edge_setExtremities h e id1 t1 id2 t2 = Some h' → adjacency_ok h'.
Proof.
  intros Hok Hset. unfold Heap.Edge_setExtremities in Hset.
  apply bind_Some in Hset as (es' & Hes & Hset). injection Hset as <-.
  apply (adjacency_ok_links _ (Heap.es h)); [by destruct h|].
  by eapply Edge_setExtremities_links.
Qed.

Lemma example_edge_adjacency h g x y lab i j h' g' e :
  adjacency_ok h → example_edge h g x y lab i j = Some (h', g', e) →
  adjacency_ok h'.
Proof.
  intros Hok Hex. unfold example_edge in Hex.
  apply bind_Some in Hex as ([[h1 g1] e1] & Hadd & Hex).
  apply bind_Some in Hex as (h2 & Hset & Hex). injection Hex as <- _ _.
  eapply Heap_Edge_setExtremities_adjacency; [|exact Hset].
  by eapply Graph_addEdge_adjacency.
Qed.

Lemma example_path_graph_ok :
  ∃ h g, example_path_graph = Some (h, g) ∧ adjacency_ok h.
Proof.
  unfold example_path_graph.
  destruct (Graph.new None 4) as [g0|] eqn:H0; vm_compute in H0; [|done].
  injection H0 as <-. cbn [mbind option_bind].
  match goal with
  | |- context [Graph.addVertex_auto ?h ?g ?l ?p ?f] =>
      destruct (Graph.addVertex_auto h g l p f) as [[[h1 g1] u]|] eqn:H1;
        [pose proof (Graph_addVertex_auto_adjacency _ _ _ _ _ _ _ _
                       adjacency_ok_empty H1) as Hok1
        |by vm_compute in H1]
  end.
  vm_compute in H1. injection H1 as <- <- <-. cbn [mbind option_bind].
  match goal with
  | |- context [Graph.addVertex_auto ?h ?g ?l ?p ?f] =>
      destruct (Graph.addVertex_auto h g l p f) as [[[h2 g2] v]|] eqn:H2;
        [pose proof (Graph_addVertex_auto_adjacency _ _ _ _ _ _ _ _
                       Hok1 H2) as Hok2
        |by vm_compute in H2]
  end.
  vm_compute in H2. injection H2 as <- <- <-. cbn [mbind option_bind].
  match goal with
  | |- context [Graph.addVertex_auto ?h ?g ?l ?p ?f] =>
      destruct (Graph.addVertex_auto h g l p f) as [[[h3 g3] w]|] eqn:H3;
        [pose proof (Graph_addVertex_auto_adjacency _ _ _ _ _ _ _ _
                       Hok2 H3) as Hok3
        |by vm_compute in H3]
  end.
  vm_compute in H3. injection H3 as <- <- <-. cbn [mbind option_bind].
  match goal with
  | |- context [example_edge ?h ?g ?x ?y ?l ?i ?j] =>
      destruct (example_edge h g x y l i j) as [[[h4 g4] e1]|] eqn:H4;
        [pose proof (example_edge_adjacency _ _ _ _ _ _ _ _ _ _ Hok3 H4)
           as Hok4
        |by vm_compute in H4]
  end.
  vm_compute in H4. injection H4 as <- <- <-. cbn [mbind option_bind].
  match goal with
  | |- context [example_edge ?h ?g ?x ?y ?l ?i ?j] =>
      destruct (example_edge h g x y l i j) as [[[h5 g5] e2]|] eqn:H5;
        [pose proof (example_edge_adjacency _ _ _ _ _ _ _ _ _ _ Hok4 H5)
           as Hok5
        |by vm_compute in H5]
  end.
  cbn [mbind option_bind]. by exists h5, g5.
Qed.

Lemma Graph_removeVertex_removes_edges_witness :
  ∃ h g h' g', example_path_graph = Some (h, g)
    ∧ Graph.removeVertex h g (Some 1%nat) = Some (h', g')
    ∧ adjacency_ok h' ∧ Heap.vertex h' (Some 1%nat) = None
    ∧ Graph.getN g' = 2 ∧ Graph.getM g' = 0.
Proof.
  destruct example_path_graph_ok as (h & g & Hex & Hok).
  destruct (Heap.vertex h (Some 1%nat)) as [x|] eqn:Hx; last first.
  { exfalso. vm_compute in Hex. injection Hex as <- <-. by vm_compute in Hx. }
  destruct (Graph_removeVertex_removes_edges h g (Some 1%nat) x Hok Hx)
    as (h' & g' & Hrm & Hok' & Hgone & _ & _ & Hn & Hm & _).
  - vm_compute in Hex. injection Hex as <- <-.
    vm_compute in Hx. injection Hx as <-. reflexivity.
  - vm_compute in Hex. injection Hex as <- <-. reflexivity.
  - vm_compute in Hex. injection Hex as <- <-.
    vm_compute in Hx. injection Hx as <-. simpl. lia.
  - vm_compute in Hex. injection Hex as <- <-.
    vm_compute in Hx. injection Hx as <-. unfold vec_size. simpl. lia.
  - exists h, g, h', g'. split; [done|]. split; [exact Hrm|].
    split; [exact Hok'|]. split; [exact Hgone|].
    rewrite Hn, Hm. vm_compute in Hex. injection Hex as <- <-.
    vm_compute in Hx. injection Hx as <-. split; reflexivity.
Defined.

(** X22: the operations that build a graph keep the adjacency lists well
    formed: from a heap where every vertex lists different live records,
    each with its mirror record in the list of the vertex at the other end,
    and has their number for degree, so is the heap after [addVertex],
    [addEdge], [Edge::setExtremities] and [removeEdge] on a record of a
    list, whatever their arguments; and the empty heap is such a heap. *)
Theorem adjacency_ok_kept h g :
  adjacency_ok h →
  adjacency_ok Heap.empty
  ∧ (∀ id label part family h' g' v,
       Graph.addVertex h g id label part family = Some (h', g', v) →
       adjacency_ok h')
  ∧ (∀ label part family h' g' v,
       Graph.addVertex_auto h g label part family = Some (h', g', v) →
       adjacency_ok h')
  ∧ (∀ v1 v2 label h' g' e,
       Graph.addEdge h g v1 v2 label = Some (h', g', e) → adjacency_ok h')
  ∧ (∀ id1 id2 label h' g' e,
       Graph.addEdge_id h g id1 id2 label = Some (h', g', e) →
       adjacency_ok h')
  ∧ (∀ e id1 t1 id2 t2 h',
       Heap.Edge_setExtremities h e id1 t1 id2 t2 = Some h' →
       adjacency_ok h')
  ∧ (∀ v x e, Heap.vertex h v = Some x → e ∈ Vertex.edges x →
       ∃ h', Graph.removeEdge h g e
             = Some (h', Graph.set_m g (Graph.m g - 1))
           ∧ adjacency_ok h').
Proof.
  intros Hok. split; [exact adjacency_ok_empty|].
  split; [intros; by eapply Graph_addVertex_adjacency|].
  split; [intros; by eapply Graph_addVertex_auto_adjacency|].
  split; [intros; by eapply Graph_addEdge_adjacency|].
  split; [intros; by eapply Graph_addEdge_id_adjacency|].
  split; [intros; by eapply Heap_Edge_setExtremities_adjacency|].
  intros v x e Hx He.
  destruct (Graph_removeEdge_ok h g v x e Hok Hx He)
    as (h' & d & Hrun & _ & Hok' & _).
  by exists h'.
Qed.

Lemma adjacency_ok_kept_witness :
  ∃ h g h' g' e, example_path_graph = Some (h, g)
    ∧ Graph.addEdge h g (Some 0%nat) (Some 2%nat) None = Some (h', g', e)
    ∧ adjacency_ok h'.
Proof.
  destruct example_path_graph_ok as (h & g & Hex & Hok).
  destruct (adjacency_ok_kept h g Hok) as (_ & _ & _ & Hadd & _).
  destruct (Graph.addEdge h g (Some 0%nat) (Some 2%nat) None)
    as [[[h' g'] e]|] eqn:Hrun.
  - exists h, g, h', g', e. split; [done|]. split; [done|].
    by eapply Hadd.
  - exfalso. vm_compute in Hex. injection Hex as <- <-. by vm_compute in Hrun.
Defined.

(** X23: [removeEdge] on a record that names a sibling resets the sibling
    pointers of the two records of the sibling edge, besides unlinking
    and freeing the two records of the edge itself: no pointer to the
    freed record is left on the sibling. *)
Theorem Graph_removeEdge_resets_sibling h g e e' d d' v1 v2 x1 x2 s s' ds ds' :
  Heap.edge h e = Some d → Edge.adjRef d = e' → Heap.edge h e' = Some d' →
  e ≠ e' → Edge.adj d' = v1 → Edge.adj d = v2 → v1 ≠ v2 →
  Heap.vertex h v1 = Some x1 → Heap.vertex h v2 = Some x2 →
  e ∈ Vertex.edges x1 → e' ∈ Vertex.edges x2 →
  Edge.sibling d = s → s ≠ NULL → Heap.edge h s = Some ds →
  Edge.adjRef ds = s' → Heap.edge h s' = Some ds' →
  s ≠ s' → s ≠ e → s ≠ e' → s' ≠ e → s' ≠ e' →
  ∃ h',
    Graph.removeEdge h g e = Some (h', Graph.set_m g (Graph.m g - 1))
    ∧ Heap.edge h' e = None ∧ Heap.edge h' e' = None
    ∧ Heap.edge h' s = Some (Edge.set_sibling ds NULL)
    ∧ Heap.edge h' s' = Some (Edge.set_sibling ds' NULL)
    ∧ (∀ p, p ≠ e → p ≠ e' → p ≠ s → p ≠ s' →
         Heap.edge h' p = Heap.edge h p)
    ∧ Heap.vertex h' v1
      = Some (Vertex.set_degree_edges x1 (to_ushort (Vertex.degree x1 - 1))
                (filter (λ t, t ≠ e) (Vertex.edges x1)))
    ∧ Heap.vertex h' v2
      = Some (Vertex.set_degree_edges x2 (to_ushort (Vertex.degree x2 - 1))
                (filter (λ t, t ≠ e') (Vertex.edges x2)))
    ∧ (∀ u, u ≠ v1 → u ≠ v2 → Heap.vertex h' u = Heap.vertex h u).
Proof.
  intros Hd He' Hd' Hne Hv1 Hv2 Hv Hx1 Hx2 Hin1 Hin2 Hs Hsn Hds Hs' Hds'
         Hss He1 He2 He3 He4.
  destruct e as [k1|]; [|done]. destruct e' as [k2|]; [|done].
  destruct v1 as [a1|]; [|done]. destruct v2 as [a2|]; [|done].
  destruct s as [ks|]; [|done]. destruct s' as [ks'|]; [|done].
  set (es0 := <[ks:=Some (Edge.set_sibling ds NULL)]>
                (<[ks':=Some (Edge.set_sibling ds' NULL)]> (Heap.es h))).
  assert (Hset : Edge.setSibling (Heap.es h) (Some ks) NULL = Some es0).
  { unfold Edge.setSibling, Edge.getAdjRef. unfold Heap.edge in Hds, Hds'.
    rewrite Hds. cbn [fmap option_fmap option_map mbind option_bind].
    rewrite Hs'. rewrite (Edge_update_eq _ _ ds') by done.
    cbn [mbind option_bind].
    rewrite (Edge_update_eq _ _ ds); [done|].
    by rewrite Edge_deref_insert_ne by congruence. }
  assert (Hrun : Graph.removeEdge h g (Some k1)
            = Some (Heap.mk
                 (<[a2:=Some (Vertex.set_degree_edges x2
                                (to_ushort (Vertex.degree x2 - 1))
                                (filter (λ y, y ≠ Some k2) (Vertex.edges x2)))]>
                    (<[a1:=Some (Vertex.set_degree_edges x1
                                   (to_ushort (Vertex.degree x1 - 1))
                                   (filter (λ y, y ≠ Some k1)
                                           (Vertex.edges x1)))]>
                       (Heap.vs h)))
                 (<[k2:=None]> (<[k1:=None]> es0)),
               Graph.set_m g (Graph.m g - 1))).
  { apply (Graph_removeEdge_eq h g k1 k2 d d' a1 a2 x1 x2 es0); try done;
      try congruence.
    rewrite Hs. by rewrite bool_decide_eq_true_2 by done. }
  eexists. split; [exact Hrun|].
  unfold Heap.edge, Heap.vertex. cbn [Heap.vs Heap.es].
  split.
  { rewrite Edge_deref_free_ne by congruence. apply Edge_deref_free_eq. }
  split; [apply Edge_deref_free_eq|].
  split.
  { rewrite !Edge_deref_free_ne by congruence. unfold es0.
    eapply Edge_deref_insert_eq.
    by rewrite Edge_deref_insert_ne by congruence. }
  split.
  { rewrite !Edge_deref_free_ne by congruence. unfold es0.
    rewrite Edge_deref_insert_ne by congruence.
    by eapply Edge_deref_insert_eq. }
  split.
  { intros p Hp1 Hp2 Hp3 Hp4. rewrite !Edge_deref_free_ne by done.
    unfold es0. by rewrite !Edge_deref_insert_ne by done. }
  split.
  { rewrite Vertex_deref_insert_ne by congruence.
    by eapply Vertex_deref_insert_eq. }
  split.
  { eapply Vertex_deref_insert_eq.
    by rewrite Vertex_deref_insert_ne by congruence. }
  intros u Hu1 Hu2. by rewrite !Vertex_deref_insert_ne by done.
Qed.

Lemma Graph_removeEdge_resets_sibling_witness :
  ∃ h g h', example_siblings = Some (h, g)
    ∧ (Edge.sibling <$> Heap.edge h (Some 2%nat)) = Some (Some 0%nat)
    ∧ Graph.removeEdge h g (Some 0%nat)
      = Some (h', Graph.set_m g (Graph.m g - 1))
    ∧ Heap.edge h' (Some 0%nat) = None
    ∧ (Edge.sibling <$> Heap.edge h' (Some 2%nat)) = Some NULL
    ∧ (Edge.sibling <$> Heap.edge h' (Some 3%nat)) = Some NULL.
Proof.
  destruct example_siblings as [[h g]|] eqn:Hex; [|by vm_compute in Hex].
  vm_compute in Hex. injection Hex as <- <-.
  match goal with
  | |- ∃ h0 g0 _, Some (?h, ?g) = Some (h0, g0) ∧ _ =>
      destruct (Heap.edge h (Some 0%nat)) as [d|] eqn:Hd;
        [|by vm_compute in Hd];
      destruct (Heap.edge h (Some 1%nat)) as [d'|] eqn:Hd';
        [|by vm_compute in Hd'];
      destruct (Heap.edge h (Some 2%nat)) as [ds|] eqn:Hds;
        [|by vm_compute in Hds];
      destruct (Heap.edge h (Some 3%nat)) as [ds'|] eqn:Hds';
        [|by vm_compute in Hds'];
      destruct (Heap.vertex h (Some 0%nat)) as [x1|] eqn:Hx1;
        [|by vm_compute in Hx1];
      destruct (Heap.vertex h (Some 1%nat)) as [x2|] eqn:Hx2;
        [|by vm_compute in Hx2];
      destruct (Graph_removeEdge_resets_sibling h g (Some 0%nat) (Some 1%nat)
                  d d' (Some 0%nat) (Some 1%nat) x1 x2
                  (Some 2%nat) (Some 3%nat) ds ds' Hd)
        as (h' & Hrun & Hfree & _ & Hs & Hs' & _)
  end.
  all: try (vm_compute in Hd; injection Hd as <-).
  all: try (vm_compute in Hd'; injection Hd' as <-).
  all: try (vm_compute in Hds; injection Hds as <-).
  all: try (vm_compute in Hds'; injection Hds' as <-).
  all: try (vm_compute in Hx1; injection Hx1 as <-).
  all: try (vm_compute in Hx2; injection Hx2 as <-).
  all: try reflexivity.
  all: try (intros [=]; fail).
  - cbn. right. by left.
  - cbn. right. by left.
  - eexists _, _, h'. split; [reflexivity|]. split; [reflexivity|].
    split; [exact Hrun|]. split; [exact Hfree|].
    split; [by rewrite Hs|by rewrite Hs'].
Defined.

(** ** The search for the cycles of a given length *)

(** The paths of round [k], for [k] up to [len]: walks of [k] edges from
    [v] that do not come back to [v], closed in the last round. *)
Lemma reach_walk h len v : 2 ≤ len → ∀ k vs eps,
  Z.of_nat k ≤ len →
  reach h len v k (vs, eps)
  ↔ length eps = k
    ∧ length vs = (if bool_decide (Z.of_nat k < len) then S k else k)
    ∧ head vs = Some v
    ∧ (∀ i u, (0 < i)%nat → vs !! i = Some u → u ≠ v)
    ∧ (∀ i e, eps !! i = Some e →
         ∃ u x d, vs !! i = Some u ∧ Heap.vertex h u = Some x
           ∧ e ∈ Vertex.edges x ∧ Heap.edge h e = Some d
           ∧ Edge.adj d = default v (vs !! S i))
    ∧ consistent_list (Heap.es h) eps
    ∧ (Z.of_nat k = len →
       ∃ f e, head eps = Some f ∧ last eps = Some e
         ∧ Edge.gt (Heap.es h) e f = Some true).
Proof.
  intros Hlen k vs eps Hk. split.
  - (* the paths found are such walks *)
    intros Hr. remember (vs, eps) as q eqn:Hq. revert vs eps Hq.
    induction Hr as [|i vs0 eps0 la x e q Hr IH Hla Hx He Hacc];
      intros vs eps Hq.
    + injection Hq as <- <-. rewrite bool_decide_eq_true_2 by lia.
      split; [done|]. split; [done|]. split; [done|]. split.
      { intros [|[|i]] u Hi Hu; [lia|done|done]. }
      split; [by intros i e ?|]. split; [by intros i j x y _ ?|]. lia.
    + destruct (IH ltac:(lia) vs0 eps0 eq_refl)
        as (Hle & Hlv & Hhd & Hnv & Hwalk & _ & _).
      rewrite bool_decide_eq_true_2 in Hlv by lia.
      destruct Hacc as (Hcons & de & f0 & Hde & Hf0 & Hcase).
      assert (f0 = v) as -> by congruence.
      assert (Hlak : vs0 !! i = Some la).
      { rewrite last_lookup, Hlv in Hla. exact Hla. }
      destruct Hcase as [(Hi & Hadj & ->)|(Hi & Hadj & f & Hf & Hgt & ->)];
        injection Hq as <- <-.
      * rewrite bool_decide_eq_true_2 by lia.
        split; [rewrite length_app; simpl; lia|].
        split; [rewrite length_app; simpl; lia|].
        split; [by destruct vs0|]. split.
        { intros j u Hj Hu. apply lookup_app_Some in Hu as [Hu|[Hge Hu]].
          - by eapply Hnv.
          - apply list_lookup_singleton_Some in Hu as [_ <-]. exact Hadj. }
        split.
        { intros j e0 He0. apply lookup_app_Some in He0 as [He0|[Hge He0]].
          - destruct (Hwalk j e0 He0) as (u & xu & d & Hu & Hxu & Hin & Hd & Ha).
            exists u, xu, d. split; [by apply lookup_app_l_Some|].
            split; [done|]. split; [done|]. split; [done|].
            apply lookup_lt_Some in He0.
            destruct (vs0 !! S j) as [w|] eqn:Hw.
            + by rewrite (lookup_app_l_Some _ _ _ _ Hw).
            + apply lookup_ge_None in Hw. lia.
          - apply list_lookup_singleton_Some in He0 as [Hj <-].
            assert (j = i) as -> by lia.
            exists la, x, de. split; [by apply lookup_app_l_Some|].
            split; [done|]. split; [done|]. split; [exact Hde|].
            rewrite lookup_app_r by lia.
            replace (S i - length vs0)%nat with 0%nat by lia. done. }
        split; [done|]. lia.
      * rewrite bool_decide_eq_false_2 by lia.
        split; [rewrite length_app; simpl; lia|].
        split; [lia|]. split; [done|]. split; [done|]. split.
        { intros j e0 He0. apply lookup_app_Some in He0 as [He0|[Hge He0]].
          - exact (Hwalk j e0 He0).
          - apply list_lookup_singleton_Some in He0 as [Hj <-].
            assert (j = i) as -> by lia.
            exists la, x, de. split; [done|].
            split; [done|]. split; [done|]. split; [exact Hde|].
            rewrite (proj2 (lookup_ge_None vs0 (S i))) by lia. done. }
        split; [done|]. intros _. exists f, e.
        split; [by destruct eps0|]. split; [apply last_snoc|done].
  - (* such walks are found *)
    revert vs eps Hk. induction k as [|k IH];
      intros vs eps Hk (Hle & Hlv & Hhd & Hnv & Hwalk & Hcons & Hlast).
    + rewrite bool_decide_eq_true_2 in Hlv by lia.
      destruct eps; [|done]. destruct vs as [|v0 [|]]; [done| |done].
      injection Hhd as ->. constructor.
    + destruct (decide (eps = [])) as [->|Hne]; [done|].
      destruct (exists_last Hne) as (eps0 & e & ->).
      rewrite length_app in Hle. simpl in Hle.
      assert (Hle0 : length eps0 = k) by lia.
      destruct (Hwalk k e) as (la & x & d & Hla & Hx & Hin & Hd & Hadj).
      { rewrite lookup_app_r by lia.
        by replace (k - length eps0)%nat with 0%nat by lia. }
      assert (Hcons0 : consistent_list (Heap.es h) eps0).
      { intros i j a b Hij Ha Hb.
        apply (Hcons i j); [done|by apply lookup_app_l_Some..]. }
      destruct (decide (Z.of_nat (S k) < len)) as [Hlt|Hge].
      * rewrite bool_decide_eq_true_2 in Hlv by done.
        destruct (decide (vs = [])) as [->|Hnev]; [done|].
        destruct (exists_last Hnev) as (vs0 & a & ->).
        rewrite length_app in Hlv. simpl in Hlv.
        assert (Hlv0 : length vs0 = S k) by lia.
        assert (Hla0 : vs0 !! k = Some la).
        { rewrite lookup_app_l in Hla by lia. done. }
        assert (Ha : Edge.adj d = a).
        { rewrite Hadj, lookup_app_r by lia.
          by replace (S k - length vs0)%nat with 0%nat by lia. }
        apply (reach_S h len v k vs0 eps0 la x e); [|by rewrite last_lookup, Hlv0|done|done|].
        { apply IH; [lia|]. split; [done|].
          rewrite bool_decide_eq_true_2 by lia. split; [done|].
          split; [by destruct vs0|]. split.
          { intros i u Hi Hu. apply (Hnv i u Hi). by apply lookup_app_l_Some. }
          split.
          { intros i e0 He0.
            destruct (Hwalk i e0) as (u & xu & d0 & Hu & Hxu & Hin0 & Hd0 & Ha0);
              [by apply lookup_app_l_Some|].
            apply lookup_lt_Some in He0.
            exists u, xu, d0. split; [by rewrite lookup_app_l in Hu by lia|].
            split; [done|]. split; [done|]. split; [done|].
            by rewrite lookup_app_l in Ha0 by lia. }
          split; [done|]. lia. }
        split; [done|]. exists d, v. split; [exact Hd|].
        split; [by destruct vs0|]. left. split; [lia|]. split; [|by rewrite Ha].
        rewrite Ha. apply (Hnv (S k)); [lia|].
        rewrite lookup_app_r by lia.
        by replace (S k - length vs0)%nat with 0%nat by lia.
      * rewrite bool_decide_eq_false_2 in Hlv by done.
        assert (Hend : Z.of_nat (S k) = len) by lia.
        destruct (Hlast Hend) as (f & e' & Hf & He' & Hgt).
        rewrite last_snoc in He'. injection He' as <-.
        assert (Ha : Edge.adj d = v).
        { by rewrite Hadj, (proj2 (lookup_ge_None vs (S k))) by lia. }
        apply (reach_S h len v k vs eps0 la x e); [|by rewrite last_lookup, Hlv|done|done|].
        { apply IH; [lia|]. split; [done|].
          rewrite bool_decide_eq_true_2 by lia. split; [done|].
          split; [done|]. split; [done|]. split.
          { intros i e0 He0. apply (Hwalk i e0). by apply lookup_app_l_Some. }
          split; [done|]. lia. }
        split; [done|]. exists d, v. split; [exact Hd|]. split; [done|].
        right. split; [lia|]. split; [done|]. exists f.
        split; [|done]. destruct eps0; [simpl in Hle0; lia|done].
Qed.

Lemma adjacency_ok_closed h : adjacency_ok h → edges_closed h.
Proof.
  intros Hok v x e Hx He. destruct (Hok v x Hx) as (_ & _ & Hedges).
  destruct (Hedges e He) as (d & d' & y & Hd & _ & _ & _ & _ & _ & Hy & _).
  exists d. split; [done|]. by exists y.
Qed.

(** X24: for a length [len] from 2 to 999, the [len] rounds of the search
    from a vertex [v], over a graph whose adjacency lists hold live
    records that lead to live vertices, end, and the paths they leave
    are exactly the closed walks of [len] edges from [v]: [len] vertices
    of which only the first is [v], each edge taken from the list of
    its vertex and leading to the next one, the last back to [v], the
    edges consistent and the last edge greater than the first. *)
Theorem cycle_search_closed_walks h len v :
  edges_closed h → is_Some (Heap.vertex h v) → 2 ≤ len < 1000 →
  ∃ p0 paths,
    Path.of_vertex v = Some p0
    ∧ for_range (CyclesGraph.round h len) 0 (Z.to_nat len) [p0] = Some paths
    ∧ ∀ vs eps,
        (∃ c, c ∈ paths ∧ Path.getVertices c = vs ∧ Path.getEdges c = eps)
        ↔ closed_walk h len v vs eps.
Proof.
  intros Hclosed Hv Hlen.
  destruct (Path_of_vertex_spec v) as (p0 & Hp0 & Hwf0 & Habs0).
  destruct (rounds_spec h len v p0) as (paths & Hrun & Hwf & Hq); [done..|].
  exists p0, paths. split; [done|]. split; [done|]. intros vs eps.
  transitivity (reach h len v (Z.to_nat len) (vs, eps)).
  - rewrite <-Hq. rewrite list_elem_of_fmap. split.
    + intros (c & Hc & <- & <-). by exists c.
    + intros (c & Hc & Hin). exists c. unfold Path_abs in Hc.
      by injection Hc as -> ->.
  - rewrite (reach_walk h len v) by lia. unfold closed_walk.
    rewrite bool_decide_eq_false_2 by lia. split.
    + intros (H1 & H2 & H3 & H4 & H5 & H6 & H7).
      repeat (split; [done|]). apply H7. lia.
    + intros (H1 & H2 & H3 & H4 & H5 & H6 & H7). by repeat (split; [done|]).
Qed.

Lemma cycle_search_closed_walks_witness :
  ∃ h g p0 paths,
    example_path_graph = Some (h, g)
    ∧ Path.of_vertex (Some 0%nat) = Some p0
    ∧ for_range (CyclesGraph.round h 2) 0 2 [p0] = Some paths
    ∧ ∀ vs eps,
        (∃ c, c ∈ paths ∧ Path.getVertices c = vs ∧ Path.getEdges c = eps)
        ↔ closed_walk h 2 (Some 0%nat) vs eps.
Proof.
  destruct example_path_graph_ok as (h & g & Hex & Hok).
  destruct (cycle_search_closed_walks h 2 (Some 0%nat)
              (adjacency_ok_closed h Hok))
    as (p0 & paths & Hp0 & Hrun & Hiff).
  - destruct (Heap.vertex h (Some 0%nat)) as [x|] eqn:Hx; [by exists x|].
    exfalso. vm_compute in Hex. injection Hex as <- <-.
    vm_compute in Hx. discriminate Hx.
  - lia.
  - exists h, g, p0, paths. split; [exact Hex|]. split; [exact Hp0|].
    split; [exact Hrun|exact Hiff].
Defined.

(** ** Removing the edges between two extremities *)

Lemma Graph_set_m_set_m g a b :
  Graph.set_m (Graph.set_m g a) b = Graph.set_m g b.
Proof. by destruct g. Qed.

(** One [removeEdge], as a step of a loop that removes edges. *)
Lemma Graph_removeEdge_removed (F : ptr → Prop) h g v x e :
  adjacency_ok h → Heap.vertex h v = Some x → e ∈ Vertex.edges x →
  (∀ d, Heap.edge h e = Some d → F e ∧ F (Edge.adjRef d)) →
  ∃ h' d x',
    Graph.removeEdge h g e = Some (h', Graph.set_m g (Graph.m g - 1))
    ∧ Heap.edge h e = Some d
    ∧ adjacency_ok h' ∧ edges_removed F h h'
    ∧ Heap.vertex h' v = Some x'
    ∧ Vertex.edges x' = filter (λ t, t ≠ e) (Vertex.edges x)
    ∧ (∀ p, p ∈ Vertex.edges x' → Heap.edge h' p = Heap.edge h p).
Proof.
  intros Hok Hx He HF.
  destruct (Graph_removeEdge_ok h g v x e Hok Hx He)
    as (h1 & d & Hrun & Hd & Hok1 & Hf1 & Hf2 & Hes & Hdead & Hvs).
  destruct (Hvs v x Hx) as (x1 & Hx1 & Hsame1 & Hl1).
  destruct (Hok v x Hx) as (Hnd & _ & Hedges).
  assert (Hno : Edge.adjRef d ∉ Vertex.edges x).
  { intros Hin.
    destruct (Hedges e He)
      as (d0 & d' & y & Hd0 & _ & _ & _ & _ & Hadj & Hy & Hin' & _).
    assert (d0 = d) as -> by congruence.
    by pose proof (adjacency_owner h _ _ x y _ Hok Hx Hy Hin Hin'). }
  assert (Hl : Vertex.edges x1 = filter (λ t, t ≠ e) (Vertex.edges x)).
  { rewrite Hl1. apply filter_ext_in. intros t Ht. split; [tauto|].
    intros Hte. split; [done|]. by intros ->. }
  destruct (HF d Hd) as [HFe HFm].
  exists h1, d, x1. split; [done|]. split; [done|]. split; [done|].
  split.
  { split; [|split; [exact Hdead|]].
    - intros u xu Hu. destruct (Hvs u xu Hu) as (xu' & Hu' & Hs & Hlu).
      exists xu'. split; [done|]. split; [done|].
      split; [rewrite Hlu; apply sublist_filter|].
      intros t Ht Hnt. rewrite Hlu in Hnt.
      destruct (decide (t = e)) as [->|Hte]; [done|].
      destruct (decide (t = Edge.adjRef d)) as [->|Htm]; [done|].
      exfalso. apply Hnt. apply list_elem_of_filter. by split.
    - intros p. destruct (decide (p = e)) as [->|Hpe]; [by right|].
      destruct (decide (p = Edge.adjRef d)) as [->|Hpm]; [by right|].
      left. by apply Hes. }
  split; [done|]. split; [done|].
  intros p Hp. rewrite Hl in Hp. apply list_elem_of_filter in Hp as [Hpe Hp].
  apply Hes; [done|]. by intros ->.
Qed.

(** The loop of [removeEdge(Extremity, Extremity)] over the list of one
    vertex. *)
Lemma removeEdge_extremities_at (F : ptr → Prop) ex1 ex2 v h1 g1 x1 :
  adjacency_ok h1 → Heap.vertex h1 v = Some x1 →
  (∀ e d, Heap.edge h1 e = Some d → joins ex1 ex2 d = true →
     F e ∧ F (Edge.adjRef d)) →
  ∃ h2 k x2,
    for_each (λ e '(h, g),
        ed ← Heap.edge h e;
        if joins ex1 ex2 ed then Graph.removeEdge h g e else Some (h, g))
      (Vertex.edges x1) (h1, g1)
    = Some (h2, Graph.set_m g1 (Graph.m g1 - k))
    ∧ 0 ≤ k ∧ adjacency_ok h2 ∧ edges_removed F h1 h2
    ∧ Heap.vertex h2 v = Some x2
    ∧ (∀ t d, t ∈ Vertex.edges x2 → Heap.edge h2 t = Some d →
         joins ex1 ex2 d = false).
Proof.
  intros Hok1 Hx1 HF.
  destruct (Hok1 v x1 Hx1) as (Hnd1 & _ & _).
  destruct (for_each_inv
              (λ done (s : Heap.t * Graph.t),
                 adjacency_ok s.1 ∧ edges_removed F h1 s.1
                 ∧ (∃ k, 0 ≤ k ∧ s.2 = Graph.set_m g1 (Graph.m g1 - k))
                 ∧ ∃ xc, Heap.vertex s.1 v = Some xc
                     ∧ (∀ t, t ∈ Vertex.edges x1 → t ∉ done →
                          t ∈ Vertex.edges xc)
                     ∧ (∀ t d, t ∈ done → t ∈ Vertex.edges xc →
                          Heap.edge s.1 t = Some d →
                          joins ex1 ex2 d = false))
              (λ e '(h, g),
                 ed ← Heap.edge h e;
                 if joins ex1 ex2 ed then Graph.removeEdge h g e
                 else Some (h, g))
              (Vertex.edges x1) (h1, g1))
    as ([h2 g2] & Hrun & Hok2 & Hrem2 & (k & Hk & Hg2) & x2 & Hx2 & _ & Hdone).
  - cbn [fst snd]. split; [done|]. split; [apply edges_removed_refl|].
    split.
    { exists 0. split; [done|]. rewrite Z.sub_0_r. by destruct g1. }
    exists x1. split; [done|]. split; [done|].
    by intros t d ?%elem_of_nil.
  - intros done e rest [hc gc] Hxs
      (Hokc & Hremc & (k & Hk & Hgc) & xc & Hxc & Hleft & Hdone).
    cbn [fst snd] in *.
    assert (He1 : e ∈ Vertex.edges x1).
    { rewrite Hxs. apply elem_of_app. right. by left. }
    assert (Hnew : e ∉ done).
    { rewrite Hxs in Hnd1. apply NoDup_app in Hnd1 as (_ & Hdis & _).
      intros Hin. apply (Hdis e Hin). by left. }
    assert (Hec : e ∈ Vertex.edges xc) by by apply Hleft.
    destruct (Hokc v xc Hxc) as (_ & _ & Hedgesc).
    destruct (Hedgesc e Hec) as (d & _ & _ & Hd & _).
    destruct (joins ex1 ex2 d) eqn:Hj.
    + destruct (Graph_removeEdge_removed F hc gc v xc e Hokc Hxc Hec)
        as (h' & d0 & x' & Hrun & Hd0 & Hok' & Hrem' & Hx' & Hl' & Hsame).
      { intros d0 Hd0. assert (d0 = d) as -> by congruence.
        apply HF; [|done]. destruct Hremc as (_ & _ & Hrec).
        destruct (Hrec e) as [Heq|[Hnone _]]; congruence. }
      exists (h', Graph.set_m gc (Graph.m gc - 1)). split.
      { cbn beta iota. rewrite Hd. cbn [mbind option_bind]. by rewrite Hj. }
      cbn [fst snd]. split; [done|].
      split; [by eapply edges_removed_trans|]. split.
      { exists (k + 1). split; [lia|]. rewrite Hgc, Graph_set_m_set_m.
        f_equal. destruct g1. cbn. lia. }
      exists x'. split; [done|]. split.
      * intros t Ht Hnt. rewrite Hl'. apply list_elem_of_filter. split.
        -- intros ->. apply Hnt. apply elem_of_app. right. by left.
        -- apply Hleft; [done|]. intros Hin. apply Hnt. apply elem_of_app.
           by left.
      * intros t dt Ht Htx Hdt. rewrite Hsame in Hdt by done.
        rewrite Hl' in Htx. apply list_elem_of_filter in Htx as [Hte Htx].
        apply elem_of_app in Ht as [Ht| ->%list_elem_of_singleton]; [|done].
        by eapply Hdone.
    + exists (hc, gc). split.
      { cbn beta iota. rewrite Hd. cbn [mbind option_bind]. by rewrite Hj. }
      cbn [fst snd]. split; [done|]. split; [done|].
      split; [by exists k|]. exists xc. split; [done|]. split.
      * intros t Ht Hnt. apply Hleft; [done|]. intros Hin. apply Hnt.
        apply elem_of_app. by left.
      * intros t dt Ht Htx Hdt.
        apply elem_of_app in Ht as [Ht| ->%list_elem_of_singleton].
        -- by eapply Hdone.
        -- congruence.
  - cbn [fst snd] in *. exists h2, k, x2. rewrite Hrun, Hg2.
    split; [done|]. split; [done|]. split; [done|]. split; [done|].
    split; [done|]. intros t d Ht Hd. apply (Hdone t d); [|done|done].
    destruct Hrem2 as (Hvs & _ & _).
    destruct (Hvs v x1 Hx1) as (x2' & Hx2' & _ & Hsub & _).
    assert (x2' = x2) as -> by congruence.
    by eapply elem_of_sublist.
Qed.

(** X25: [removeEdge(Extremity, Extremity)], in a heap with well formed
    adjacency lists, on a graph whose slots point to live vertices: it
    ends; the records it takes out of the lists and frees are records
    of edges between the two extremities (a record that passes its test,
    or the mirror record of one), and nothing else changes; the number of
    edges does not go up; the adjacency lists stay well formed; and
    afterwards no vertex of the graph that has one of the two
    extremities lists a record between them. *)
Theorem Graph_removeEdge_extremities_removes h g ex1 ex2 :
  adjacency_ok h → vec_size (Graph.vertices g) = Graph.maxn g →
  Graph_slots_ok h g →
  ∃ h' k,
    Graph.removeEdge_extremities h g ex1 ex2
    = Some (h', Graph.set_m g (Graph.m g - k))
    ∧ 0 ≤ k ∧ adjacency_ok h'
    ∧ edges_removed (joining h ex1 ex2) h h'
    ∧ (∀ i v x', vec_get (Graph.vertices g) i = Some v →
         Heap.vertex h' v = Some x' →
         Vertex.hasExtremity x' ex1 || Vertex.hasExtremity x' ex2 = true →
         ∀ t d, t ∈ Vertex.edges x' → Heap.edge h' t = Some d →
           joins ex1 ex2 d = false).
Proof.
  intros Hok Hsize Hslots.
  pose proof (vec_size_nonneg (Graph.vertices g)) as Hnn.
  destruct (range_in_order h g (-1) (-1) Hsize Hslots 0)
    as (it & Hit & Hrange & _); [lia|].
  unfold Graph.removeEdge_extremities, Graph.begin_.
  change (drop (Z.to_nat 0) (Graph.vertices g)) with (Graph.vertices g)
    in Hrange.
  rewrite Hit. cbn [mbind option_bind]. rewrite Hrange.
  cbn [mbind option_bind].
  set (vs := List.filter (iter_match h (-1) (-1)) (Graph.vertices g)).
  assert (Hvs : ∀ v, v ∈ vs ↔ v ∈ Graph.vertices g ∧ is_Some (Heap.vertex h v)).
  { intros v. unfold vs. rewrite list_elem_of_In, filter_In.
    rewrite <-list_elem_of_In. unfold iter_match.
    destruct (Heap.vertex h v) as [x|].
    - rewrite !bool_decide_eq_true_2 by done. simpl.
      split; [intros [? _]; by eauto|by intros [? _]].
    - split; [by intros [_ ?]|]. by intros [_ [? ?]]. }
  match goal with
  | |- ∃ h' k, for_each ?body vs (h, g) = _ ∧ _ =>
      destruct (for_each_inv
        (λ done (s : Heap.t * Graph.t),
           adjacency_ok s.1 ∧ edges_removed (joining h ex1 ex2) h s.1
           ∧ (∃ k, 0 ≤ k ∧ s.2 = Graph.set_m g (Graph.m g - k))
           ∧ (∀ v xc, v ∈ done → Heap.vertex s.1 v = Some xc →
                Vertex.hasExtremity xc ex1 || Vertex.hasExtremity xc ex2
                = true →
                ∀ t d, t ∈ Vertex.edges xc → Heap.edge s.1 t = Some d →
                  joins ex1 ex2 d = false))
        body vs (h, g))
        as ([h' g'] & Hrun & Hok' & Hrem' & (k & Hk & Hg') & Hdone)
  end.
  - cbn [fst snd]. split; [done|]. split; [apply edges_removed_refl|].
    split.
    { exists 0. split; [done|]. rewrite Z.sub_0_r. by destruct g. }
    by intros v xc ?%elem_of_nil.
  - intros done v rest [hc gc] Hxs (Hokc & Hremc & (k & Hk & Hgc) & Hdone).
    cbn [fst snd] in *.
    assert (Hv : v ∈ vs).
    { rewrite Hxs. apply elem_of_app. right. by left. }
    apply Hvs in Hv as [_ [x0 Hx0]].
    pose proof Hremc as (Hlive & Hdead & Hrec).
    destruct (Hlive v x0 Hx0) as (xc & Hxc & _).
    destruct (Vertex.hasExtremity xc ex1 || Vertex.hasExtremity xc ex2)
      eqn:Hhas.
    + destruct (removeEdge_extremities_at (joining h ex1 ex2) ex1 ex2
                  v hc gc xc Hokc Hxc)
        as (h2 & k2 & x2 & Hrun & Hk2 & Hok2 & Hrem2 & Hx2 & Hnone).
      { intros e d Hd Hj.
        assert (Hd0 : Heap.edge h e = Some d).
        { destruct (Hrec e) as [Heq|[Hnone _]]; congruence. }
        split; exists e, d; auto. }
      exists (h2, Graph.set_m gc (Graph.m gc - k2)). split.
      { cbn beta iota. rewrite Hxc. cbn [mbind option_bind]. rewrite Hhas.
        exact Hrun. }
      cbn [fst snd]. split; [done|].
      split; [by eapply edges_removed_trans|]. split.
      { exists (k + k2). split; [lia|]. rewrite Hgc, Graph_set_m_set_m.
        f_equal. destruct g. cbn. lia. }
      intros v' x' Hv' Hx' Hhas' t d Ht Hd.
      apply elem_of_app in Hv' as [Hv'| ->%list_elem_of_singleton].
      * destruct Hrem2 as (Hlive2 & Hdead2 & Hrec2).
        destruct (Heap.vertex hc v') as [xc'|] eqn:Hxc';
          [|by rewrite (Hdead2 v' Hxc') in Hx'].
        destruct (Hlive2 v' xc' Hxc') as (x'' & Hx'' & (dg & l & Hsame) & Hsub & _).
        assert (x'' = x') as -> by congruence.
        refine (Hdone v' xc' Hv' Hxc' _ t d _ _);
          [by rewrite Hsame in Hhas'| |].
        -- by eapply elem_of_sublist.
        -- destruct (Hrec2 t) as [Heq|[Hnone' _]]; congruence.
      * assert (x' = x2) as -> by congruence. by eapply Hnone.
    + exists (hc, gc). split.
      { cbn beta iota. rewrite Hxc. cbn [mbind option_bind].
        by rewrite Hhas. }
      cbn [fst snd]. split; [done|]. split; [done|].
      split; [by exists k|].
      intros v' x' Hv' Hx' Hhas' t d Ht Hd.
      apply elem_of_app in Hv' as [Hv'| ->%list_elem_of_singleton].
      * by eapply Hdone.
      * assert (x' = xc) as -> by congruence. congruence.
  - cbn [fst snd] in *. exists h', k. rewrite Hrun, Hg'.
    split; [done|]. split; [done|]. split; [done|]. split; [done|].
    intros i v x' Hi Hx' Hhas t d Ht Hd.
    refine (Hdone v x' _ Hx' Hhas t d Ht Hd).
    apply Hvs. split.
    + apply vec_get_Some in Hi as [_ Hi]. by eapply list_elem_of_lookup_2.
    + destruct Hrem' as (_ & Hdead & _).
      destruct (Heap.vertex h v) as [x|] eqn:Hx; [by eexists|].
      by rewrite (Hdead v Hx) in Hx'.
Qed.

Lemma example_path_graph_slots h g :
  example_path_graph = Some (h, g) →
  vec_size (Graph.vertices g) = Graph.maxn g ∧ Graph_slots_ok h g.
Proof.
  intros Hex. vm_compute in Hex. injection Hex as <- <-.
  split; [reflexivity|]. intros i p Hp Hnull.
  apply vec_get_Some in Hp as [Hi Hp].
  assert (i = Z.of_nat (Z.to_nat i)) as -> by lia.
  destruct (Z.to_nat i) as [|[|[|[|k]]]]; simpl in Hp.
  - injection Hp as <-. eexists. split; reflexivity.
  - injection Hp as <-. eexists. split; reflexivity.
  - injection Hp as <-. eexists. split; reflexivity.
  - injection Hp as <-. contradiction.
  - discriminate Hp.
Qed.

Lemma Heap_update_vertex_eq h a x f :
  Heap.vertex h (Some a) = Some x →
  Heap.update_vertex h (Some a) f
  = Some (Heap.mk (<[a:=Some (f x)]> (Heap.vs h)) (Heap.es h)).
Proof.
  intros Hx. unfold Heap.update_vertex, Vertex.update.
  unfold Heap.vertex in Hx. cbn [mbind option_bind]. by rewrite Hx.
Qed.

(** An assignment to fields of a vertex other than its list of edges. *)
Lemma adjacency_ok_update h a x y :
  adjacency_ok h → Heap.vertex h (Some a) = Some x →
  Vertex.edges y = Vertex.edges x → Vertex.degree y = Vertex.degree x →
  adjacency_ok (Heap.mk (<[a:=Some y]> (Heap.vs h)) (Heap.es h)).
Proof.
  intros Hok Hx Hedges Hdeg.
  set (h' := Heap.mk (<[a:=Some y]> (Heap.vs h)) (Heap.es h)).
  assert (Hlists : ∀ u xu, Heap.vertex h u = Some xu →
            ∃ xu', Heap.vertex h' u = Some xu'
                   ∧ Vertex.edges xu' = Vertex.edges xu).
  { intros u xu Hu. destruct (decide (u = Some a)) as [->|Hne].
    - exists y. split; [by eapply Vertex_deref_insert_eq|]. congruence.
    - exists xu. split; [|done]. unfold h', Heap.vertex. cbn [Heap.vs].
      by rewrite Vertex_deref_insert_ne by done. }
  intros u xu Hu.
  assert (∃ xu0, Heap.vertex h u = Some xu0
            ∧ Vertex.edges xu = Vertex.edges xu0
            ∧ Vertex.degree xu = Vertex.degree xu0) as (xu0 & Hu0 & He & Hd).
  { destruct (decide (u = Some a)) as [->|Hne].
    - exists x. split; [done|].
      unfold h', Heap.vertex in Hu. cbn [Heap.vs] in Hu.
      erewrite Vertex_deref_insert_eq in Hu by done. by injection Hu as <-.
    - exists xu. split; [|done]. unfold h', Heap.vertex in Hu.
      cbn [Heap.vs] in Hu. by rewrite Vertex_deref_insert_ne in Hu by done. }
  destruct (Hok u xu0 Hu0) as (Hnd & Hdg & Hes).
  rewrite He, Hd. split; [done|]. split; [done|]. intros e Hin.
  destruct (Hes e Hin)
    as (d & d' & z & Hd1 & Hd' & H1 & H2 & H3 & H4 & Hz & Hin' & H5).
  destruct (Hlists _ z Hz) as (z' & Hz' & Hzl).
  exists d, d', z'. repeat (split; [done|]).
  split; [by rewrite Hzl|done].
Qed.

Lemma example_path_ends_ok :
  ∃ h g, example_path_ends = Some (h, g) ∧ adjacency_ok h
    ∧ vec_size (Graph.vertices g) = Graph.maxn g ∧ Graph_slots_ok h g.
Proof.
  destruct example_path_graph_ok as (h0 & g & Hex & Hok).
  destruct (example_path_graph_slots h0 g Hex) as [Hsize Hslots].
  unfold example_path_ends. rewrite Hex. cbn [mbind option_bind].
  cbn beta iota.
  destruct (Heap.vertex h0 (Some 0%nat)) as [x|] eqn:Hx; last first.
  { exfalso. vm_compute in Hex. injection Hex as <- <-.
    vm_compute in Hx. discriminate Hx. }
  rewrite (Heap_update_vertex_eq h0 0 x) by exact Hx.
  cbn [mbind option_bind]. eexists _, g. split; [reflexivity|].
  split; [by apply (adjacency_ok_update h0 0 x)|]. split; [exact Hsize|].
  intros i p Hp Hnull. destruct (Hslots i p Hp Hnull) as (y & Hy & Hid).
  destruct (decide (p = Some 0%nat)) as [->|Hne].
  - eexists. split; [by eapply Vertex_deref_insert_eq|].
    assert (y = x) as -> by congruence. exact Hid.
  - exists y. split; [|exact Hid]. unfold Heap.vertex. cbn [Heap.vs].
    by rewrite Vertex_deref_insert_ne by done.
Qed.

(** On the path u - v - w, where u carries the extremity 1t: the edge
    1t-2t between u and v is removed. *)
Lemma Graph_removeEdge_extremities_removes_witness :
  ∃ h g h' k,
    example_path_ends = Some (h, g)
    ∧ Graph.removeEdge_extremities h g (Extremity.mk 1 Extremity.TAIL)
        (Extremity.mk 2 Extremity.TAIL)
      = Some (h', Graph.set_m g (Graph.m g - k))
    ∧ 0 ≤ k ∧ adjacency_ok h'
    ∧ is_Some (Heap.edge h (Some 0%nat)) ∧ Heap.edge h' (Some 0%nat) = None.
Proof.
  destruct example_path_ends_ok as (h & g & Hex & Hok & Hsize & Hslots).
  destruct (Graph_removeEdge_extremities_removes h g
              (Extremity.mk 1 Extremity.TAIL) (Extremity.mk 2 Extremity.TAIL)
              Hok Hsize Hslots)
    as (h' & k & Hrun & Hk & Hok' & (Hlive & _ & Hrec) & Hnone).
  exists h, g, h', k. split; [exact Hex|]. split; [exact Hrun|].
  split; [exact Hk|]. split; [exact Hok'|].
  destruct (Heap.vertex h (Some 0%nat)) as [x|] eqn:Hx; last first.
  { exfalso. vm_compute in Hex. injection Hex as <- <-.
    vm_compute in Hx. discriminate Hx. }
  destruct (Heap.edge h (Some 0%nat)) as [d|] eqn:Hd; last first.
  { exfalso. vm_compute in Hex. injection Hex as <- <-.
    vm_compute in Hd. discriminate Hd. }
  split; [by exists d|].
  destruct (Hlive _ x Hx) as (x' & Hx' & (dg & l & Hsame) & _ & Hgone).
  assert (Hin : Some 0%nat ∈ Vertex.edges x).
  { vm_compute in Hex. injection Hex as <- <-.
    vm_compute in Hx. injection Hx as <-. apply list_elem_of_singleton.
    reflexivity. }
  destruct (decide (Some 0%nat ∈ Vertex.edges x')) as [Hin'|Hout];
    [|by apply Hgone].
  destruct (Hrec (Some 0%nat)) as [Heq|[Hfree _]]; [|exact Hfree].
  exfalso. rewrite Hd in Heq.
  assert (Hj : joins (Extremity.mk 1 Extremity.TAIL)
                 (Extremity.mk 2 Extremity.TAIL) d = false).
  { refine (Hnone 0 (Some 0%nat) x' _ Hx' _ (Some 0%nat) d Hin' Heq).
    - vm_compute in Hex. injection Hex as <- <-. reflexivity.
    - subst x'. vm_compute in Hex. injection Hex as <- <-.
      vm_compute in Hx. injection Hx as <-. reflexivity. }
  vm_compute in Hex. injection Hex as <- <-.
  vm_compute in Hd. injection Hd as <-. discriminate Hj.
Defined.

(** ** A new graph *)

Lemma Graph_new_fields label maxvertices :
  0 ≤ maxvertices →
  ∃ g, Graph.new label maxvertices = Some g
    ∧ Graph.maxn g
      = (if bool_decide (maxvertices = 0) then 128 else maxvertices)
    ∧ Graph.vertices g = replicate (Z.to_nat (Graph.maxn g)) NULL
    ∧ Graph.label g = copy_label label
    ∧ Graph.n g = 0 ∧ Graph.m g = 0 ∧ Graph.lastVid g = -1
    ∧ Graph.npart g = replicate 128 0
    ∧ Graph.fname g = replicate 128 None.
Proof.
  intros Hmax. unfold Graph.new. rewrite bool_decide_eq_false_2 by lia.
  eexists. split; [reflexivity|].
  unfold Graph.setLabel, Graph.set_fname, Graph.set_fsize, Graph.set_vertices,
    vec_resize.
  cbn [Graph.n Graph.maxn Graph.m Graph.lastVid Graph.vertices Graph.label
       Graph.npart Graph.fsize Graph.fname].
  destruct (decide (maxvertices = 0)) as [->|Hne].
  - rewrite !bool_decide_eq_true_2 by lia.
    cbn [Graph.n Graph.maxn Graph.m Graph.lastVid Graph.vertices Graph.label
         Graph.npart Graph.fsize Graph.fname].
    repeat (split; [reflexivity|]). reflexivity.
  - rewrite !bool_decide_eq_false_2 by lia.
    cbn [Graph.n Graph.maxn Graph.m Graph.lastVid Graph.vertices Graph.label
         Graph.npart Graph.fsize Graph.fname].
    split; [done|]. split; [apply resize_nil|].
    repeat (split; [reflexivity|]). reflexivity.
Qed.

Lemma vec_get_replicate {A} n (x : A) i :
  0 ≤ i < Z.of_nat n → vec_get (replicate n x) i = Some x.
Proof.
  intros Hi. rewrite vec_get_lookup by lia. apply lookup_replicate_2. lia.
Qed.

(** X26: the constructor, for a capacity that is not negative, gives an
    empty graph with that many slots, and with 128 slots when the
    capacity asked for is 0: it has the copy of the label (the label when
    it has at most 100 characters, its first 101 characters without
    terminator otherwise), no vertex and no edge, every slot is null,
    every part has size 0, no family has a name, the greatest vertex id
    is -1, and an iteration, whatever the part and the family, visits
    nothing. *)
Theorem Graph_new_is_empty label maxvertices :
  0 ≤ maxvertices →
  ∃ g, Graph.new label maxvertices = Some g
    ∧ Graph.maxn g
      = (if bool_decide (maxvertices = 0) then 128 else maxvertices)
    ∧ Graph.getLabel g = copy_label label
    ∧ Graph.getN g = 0 ∧ Graph.getM g = 0
    ∧ Graph.getMaxVertexId g = Some (-1)
    ∧ (∀ id, 0 ≤ id < Graph.maxn g → Graph.getVertex g id = Some NULL)
    ∧ (∀ part, Graph.partSize g part = Some 0)
    ∧ (∀ family, 0 ≤ family → Graph.familyName g family = Some None)
    ∧ (∀ h part family id, 0 ≤ id ≤ Graph.maxn g →
         ∃ it, Graph._begin h g part family id = Some it
               ∧ Graph.range h g it = Some []).
Proof.
  intros Hmax.
  destruct (Graph_new_fields label maxvertices Hmax)
    as (g & Hnew & Hmaxn & Hvs & Hlabel & Hn & Hm & Hlast & Hnpart & Hfname).
  assert (Hpos : 0 < Graph.maxn g).
  { rewrite Hmaxn. case_bool_decide; lia. }
  assert (Hnull : ∀ id, 0 ≤ id < Graph.maxn g →
            Graph.getVertex g id = Some NULL).
  { intros id Hid. unfold Graph.getVertex. rewrite Hvs.
    apply vec_get_replicate. lia. }
  exists g. split; [done|]. split; [done|]. split; [done|].
  split; [done|]. split; [done|]. split.
  { unfold Graph.getMaxVertexId. by rewrite Hlast. }
  split; [done|]. split.
  { intros part. unfold Graph.partSize.
    destruct (bool_decide (part < 0) || bool_decide (part > 127)) eqn:Hp;
      [done|].
    apply orb_false_iff in Hp as [Hp1 Hp2].
    apply bool_decide_eq_false in Hp1, Hp2.
    rewrite Hnpart. apply vec_get_replicate. unfold to_unsigned.
    rewrite Z.mod_small by lia. lia. }
  split.
  { intros family Hfam. unfold Graph.familyName. rewrite Hfname.
    match goal with
    | |- (if bool_decide ?P then _ else _) = _ =>
        destruct (decide P) as [Hge|Hge];
          [by rewrite bool_decide_eq_true_2 by done
          |rewrite bool_decide_eq_false_2 by done]
    end.
    apply vec_get_replicate. unfold vec_size in Hge.
    rewrite length_replicate in Hge. lia. }
  intros h part family id Hid.
  assert (Hsize : vec_size (Graph.vertices g) = Graph.maxn g).
  { unfold vec_size. rewrite Hvs, length_replicate. lia. }
  assert (Hslots : Graph_slots_ok h g).
  { intros i p Hp Hne. exfalso. apply Hne.
    pose proof (vec_get_Some _ _ _ Hp) as [Hi _]. rewrite Hsize in Hi.
    specialize (Hnull i Hi). unfold Graph.getVertex in Hnull. congruence. }
  destruct (range_in_order h g part family Hsize Hslots id Hid)
    as (it & Hit & Hrange & _).
  exists it. split; [done|]. rewrite Hrange. f_equal.
  rewrite Hvs, drop_replicate.
  induction (Z.to_nat (Graph.maxn g) - Z.to_nat id)%nat as [|n IH]; [done|].
  cbn [replicate List.filter]. by rewrite iter_match_NULL.
Qed.

(** A graph asked for with no slot has 128 of them. *)
Lemma Graph_new_is_empty_witness :
  ∃ g, Graph.new (Some (String.append label_100 "bc")) 0 = Some g
    ∧ Graph.maxn g = 128
    ∧ Graph.getLabel g = Some (String.append label_100 "b")
    ∧ c_str (String.append label_100 "b") = None
    ∧ Graph.getN g = 0 ∧ Graph.getMaxVertexId g = Some (-1)
    ∧ Graph.getVertex g 127 = Some NULL.
Proof.
  destruct (Graph_new_is_empty (Some (String.append label_100 "bc")) 0)
    as (g & Hnew & Hmaxn & Hlabel & Hn & _ & Hmx & Hnull & _); [lia|].
  exists g. split; [exact Hnew|]. split; [exact Hmaxn|].
  split; [rewrite Hlabel; vm_compute; reflexivity|].
  split; [vm_compute; reflexivity|].
  split; [exact Hn|]. split; [exact Hmx|]. apply Hnull. rewrite Hmaxn.
  simpl. lia.
Defined.

(** ** The end vertices of an edge *)

(** X27: in a heap with well formed adjacency lists, [incident] on a
    record of the list of a vertex is true for that vertex and for the
    vertex the record leads to, which is another one, and for no other
    pointer. *)
Theorem Edge_incident_end_vertices h v x e :
  adjacency_ok h → Heap.vertex h v = Some x → e ∈ Vertex.edges x →
  ∃ d, Heap.edge h e = Some d ∧ Edge.adj d ≠ v
    ∧ is_Some (Heap.vertex h (Edge.adj d))
    ∧ ∀ u, Edge.incident (Heap.es h) e u
           = Some (bool_decide (u = v ∨ u = Edge.adj d)).
Proof.
  intros Hok Hx He. destruct (Hok v x Hx) as (_ & _ & Hedges).
  destruct (Hedges e He)
    as (d & d' & y & Hd & Hd' & _ & _ & Hadj' & Hadj & Hy & _).
  exists d. split; [done|]. split; [done|]. split; [by exists y|].
  intros u. unfold Edge.incident. unfold Heap.edge in Hd, Hd'.
  rewrite Hd. cbn [mbind option_bind].
  destruct (decide (Edge.adj d = u)) as [Hu|Hu].
  - rewrite bool_decide_eq_true_2 by done.
    by rewrite bool_decide_eq_true_2 by (by right).
  - rewrite bool_decide_eq_false_2 by done. rewrite Hd'.
    cbn [mbind option_bind]. rewrite Hadj'.
    destruct (decide (v = u)) as [Hv|Hv].
    + rewrite bool_decide_eq_true_2 by done.
      by rewrite bool_decide_eq_true_2 by (by left).
    + rewrite bool_decide_eq_false_2 by done.
      rewrite bool_decide_eq_false_2; [done|]. intros [?|?]; congruence.
Qed.

Lemma Edge_incident_end_vertices_witness :
  ∃ h g d, example_path_graph = Some (h, g)
    ∧ Heap.edge h (Some 0%nat) = Some d
    ∧ ∀ u, Edge.incident (Heap.es h) (Some 0%nat) u
           = Some (bool_decide (u = Some 0%nat ∨ u = Edge.adj d)).
Proof.
  destruct example_path_graph_ok as (h & g & Hex & Hok).
  destruct (Heap.vertex h (Some 0%nat)) as [x|] eqn:Hx; last first.
  { exfalso. vm_compute in Hex. injection Hex as <- <-.
    vm_compute in Hx. discriminate Hx. }
  destruct (Edge_incident_end_vertices h (Some 0%nat) x (Some 0%nat) Hok Hx)
    as (d & Hd & _ & _ & Hinc).
  - vm_compute in Hex. injection Hex as <- <-.
    vm_compute in Hx. injection Hx as <-. apply list_elem_of_singleton.
    reflexivity.
  - exists h, g, d. split; [exact Hex|]. split; [exact Hd|exact Hinc].
Defined.

(** ** The copy of a graph *)

Lemma Graph_new_fsize label maxvertices g :
  Graph.new label maxvertices = Some g → vec_size (Graph.fsize g) = 128.
Proof.
  unfold Graph.new. case_bool_decide; [done|]. intros [= <-].
  unfold vec_size, vec_resize, Graph.set_fname, Graph.set_fsize.
  cbn [Graph.fsize]. by rewrite length_resize.
Qed.

Lemma vec_set_size {A} (v : list A) i x v' :
  vec_set v i x = Some v' → vec_size v' = vec_size v.
Proof.
  unfold vec_set. case_bool_decide; [|done]. intros [= <-].
  unfold vec_size. by rewrite length_insert.
Qed.

(** [addVertex] leaves the label and the number of parts of a graph, and
    does not shrink the vector of the families. *)
Lemma Graph_addVertex_sizes h g id label part family h' g' v :
  Graph.addVertex h g id label part family = Some (h', g', v) →
  vec_size (Graph.npart g') = vec_size (Graph.npart g)
  ∧ vec_size (Graph.fsize g) ≤ vec_size (Graph.fsize g')
  ∧ Graph.label g' = Graph.label g.
Proof.
  unfold Graph.addVertex. intros Hadd.
  pose proof (vec_size_nonneg (Graph.fsize g)) as Hnn.
  apply bind_Some in Hadd as (g1 & Hg1 & Hadd).
  assert (Hsame : Graph.npart g1 = Graph.npart g
                  ∧ Graph.fsize g1 = Graph.fsize g
                  ∧ Graph.label g1 = Graph.label g).
  { destruct (bool_decide (id >= Graph.maxn g)).
    - apply bind_Some in Hg1 as (mx & _ & [= <-]). done.
    - by injection Hg1 as <-. }
  destruct Hsame as (Hnp & Hfs & Hlb).
  apply bind_Some in Hadd as (slot & _ & Hadd).
  case_bool_decide.
  { injection Hadd as _ <- _. rewrite Hnp, Hfs, Hlb. done. }
  apply bind_Some in Hadd as (sz & Hsz & Hadd).
  apply bind_Some in Hadd as (c & Hc & Hadd).
  apply bind_Some in Hadd as (fs & Hfsv & Hadd).
  apply bind_Some in Hadd as (c' & Hc' & Hadd).
  apply bind_Some in Hadd as (np & Hnpv & Hadd).
  unfold Vertex.alloc in Hadd. cbn beta iota in Hadd.
  apply bind_Some in Hadd as (vv & Hvv & Hadd).
  apply bind_Some in Hadd as (vs' & Hvs' & Hadd).
  injection Hadd as _ <- _.
  apply vec_set_size in Hnpv, Hfsv.
  rewrite Hfs in Hsz. destruct (grow_result _ _ _ _ Hnn Hsz) as [Hle _].
  unfold vec_resize, vec_size in Hfsv. rewrite length_resize in Hfsv.
  destruct (bool_decide (id > _));
    cbn [Graph.npart Graph.fsize Graph.label Graph.set_vertices
         Graph.set_npart Graph.set_n Graph.set_fsize Graph.set_lastVid]
      in *;
    (split; [congruence|]); (split; [|done]); unfold vec_size in *; lia.
Qed.

Lemma NoDup_filter_lookup {A} (P : A → bool) (l : list A) :
  (∀ i j x, l !! i = Some x → l !! j = Some x → P x = true → i = j) →
  NoDup (List.filter P l).
Proof.
  induction l as [|a l IH]; intros Hinj; [constructor|].
  assert (Hl : NoDup (List.filter P l)).
  { apply IH. intros i j x Hi Hj Hx.
    assert (S i = S j) by (by apply (Hinj (S i) (S j) x)). lia. }
  simpl. destruct (P a) eqn:Ha; [|done].
  apply NoDup_cons. split; [|done]. intros Hin.
  apply list_elem_of_In, filter_In in Hin as [Hin _].
  apply list_elem_of_In, list_elem_of_lookup in Hin as [j Hj].
  by pose proof (Hinj 0%nat (S j) a eq_refl Hj Ha).
Qed.

(** The vertices of a graph, as an iteration visits them. *)
Lemma Graph_live_slots h g :
  Graph_slots_ok h g →
  NoDup (List.filter (iter_match h (-1) (-1)) (Graph.vertices g))
  ∧ ∀ v, v ∈ List.filter (iter_match h (-1) (-1)) (Graph.vertices g)
         ↔ (∃ i, Graph.getVertex g i = Some v) ∧ is_Some (Heap.vertex h v).
Proof.
  intros Hslots.
  assert (Hm : ∀ v, iter_match h (-1) (-1) v = true
                    ↔ is_Some (Heap.vertex h v)).
  { intros v. unfold iter_match. destruct (Heap.vertex h v) as [x|].
    - rewrite !bool_decide_eq_true_2 by done. by split; [eexists|].
    - split; [done|]. by intros [? ?]. }
  split.
  - apply NoDup_filter_lookup. intros i j v Hi Hj Hv.
    apply Hm in Hv as [x Hx].
    assert (Hnull : v ≠ NULL) by (by intros ->).
    destruct (Hslots (Z.of_nat i) v) as (x1 & Hx1 & Hid1);
      [by rewrite vec_get_nat|done|].
    destruct (Hslots (Z.of_nat j) v) as (x2 & Hx2 & Hid2);
      [by rewrite vec_get_nat|done|].
    assert (x1 = x2) by congruence. subst x2. lia.
  - intros v. rewrite list_elem_of_In, filter_In, <-list_elem_of_In, Hm.
    rewrite list_elem_of_lookup. split; intros [[i Hi] Hv]; (split; [|done]).
    + exists (Z.of_nat i). unfold Graph.getVertex. by rewrite vec_get_nat.
    + apply vec_get_Some in Hi as [Hr Hi]. by exists (Z.to_nat i).
Qed.

Lemma copied_eq x part family :
  0 ≤ Vertex.part x → 0 ≤ Vertex.family x < 2 ^ 16 →
  part = Vertex.part x → family = Vertex.family x →
  Vertex.setExtremities
    (Vertex.setDirection
       (Vertex.mk (Vertex.id x) 0 0 (Z.max part 0) (to_ushort family)
          (copy_label (Vertex.label x)) [] None
          Extremity.default Extremity.default)
       (Vertex.getDirection x))
    (Extremity.getId (Vertex.getExtremityLeft x))
    (Extremity.getType (Vertex.getExtremityLeft x))
    (Extremity.getId (Vertex.getExtremityRight x))
    (Extremity.getType (Vertex.getExtremityRight x))
  = copied x.
Proof.
  intros Hp Hf -> ->. unfold copied, Vertex.setExtremities, Vertex.setDirection.
  cbn. unfold to_ushort. rewrite Z.mod_small by lia.
  rewrite Z.max_l by lia. destruct x as [? ? ? ? ? ? ? ? [? ?] [? ?]]. done.
Qed.

(** The first loop of the copy constructor. *)
Lemma copy_vertices h g this0 :
  adjacency_ok h → Graph_slots_ok h g →
  vec_size (Graph.vertices g) = Graph.maxn g → 1 ≤ Graph.maxn g →
  (∀ i v x, Graph.getVertex g i = Some v → Heap.vertex h v = Some x →
     0 ≤ Vertex.part x ≤ 127 ∧ 0 ≤ Vertex.family x < 2 ^ 16) →
  Graph.maxn this0 = Graph.maxn g →
  Graph.vertices this0 = replicate (Z.to_nat (Graph.maxn g)) NULL →
  vec_size (Graph.npart this0) = 128 → 1 ≤ vec_size (Graph.fsize this0) →
  Graph.n this0 = 0 → Graph.m this0 = 0 →
  ∃ h1 this1,
    for_each (λ v '(h, this),
        x ← Heap.vertex h v;
        '(h, this, newv) ← Graph.addVertex h this (Vertex.id x)
                             (Vertex.label x) (to_char (Vertex.part x))
                             (Vertex.family x);
        h ← Heap.update_vertex h newv
               (λ y, Vertex.setDirection y (Vertex.getDirection x));
        let e1 := Vertex.getExtremityLeft x in
        let e2 := Vertex.getExtremityRight x in
        h ← Heap.update_vertex h newv
               (λ y, Vertex.setExtremities y
                       (Extremity.getId e1) (Extremity.getType e1)
                       (Extremity.getId e2) (Extremity.getType e2));
        Some (h, this))
      (List.filter (iter_match h (-1) (-1)) (Graph.vertices g)) (h, this0)
    = Some (h1, this1)
    ∧ Heap.es h1 = Heap.es h
    ∧ (∀ p y, Heap.vertex h p = Some y → Heap.vertex h1 p = Some y)
    ∧ adjacency_ok h1
    ∧ Graph.maxn this1 = Graph.maxn g
    ∧ vec_size (Graph.vertices this1) = Graph.maxn g
    ∧ Graph.m this1 = 0
    ∧ Graph.n this1
      = Z.of_nat (length (List.filter (iter_match h (-1) (-1))
                            (Graph.vertices g)))
    ∧ Graph.label this1 = Graph.label this0
    ∧ (∀ i v, Graph.getVertex g i = Some v → Heap.vertex h v = None →
         Graph.getVertex this1 i = Some NULL)
    ∧ (∀ i v x, Graph.getVertex g i = Some v → Heap.vertex h v = Some x →
         ∃ v', Graph.getVertex this1 i = Some v' ∧ v' ≠ NULL
           ∧ Heap.vertex h v' = None ∧ Heap.vertex h1 v' = Some (copied x)).
Proof.
  intros Hok Hslots Hsize Hmax Hbounds Hmaxn0 Hvs0 Hnp0 Hfs0 Hn0 Hm0.
  destruct (Graph_live_slots h g Hslots) as [Hnd Hvs].
  set (vs := List.filter (iter_match h (-1) (-1)) (Graph.vertices g)) in *.
  match goal with
  | |- ∃ h1 this1, for_each ?body vs (h, this0) = _ ∧ _ =>
      destruct (for_each_inv
        (λ done (s : Heap.t * Graph.t),
           Heap.es s.1 = Heap.es h
           ∧ (∀ p y, Heap.vertex h p = Some y → Heap.vertex s.1 p = Some y)
           ∧ adjacency_ok s.1
           ∧ Graph.maxn s.2 = Graph.maxn g
           ∧ vec_size (Graph.vertices s.2) = Graph.maxn g
           ∧ vec_size (Graph.npart s.2) = 128
           ∧ 1 ≤ vec_size (Graph.fsize s.2)
           ∧ Graph.m s.2 = 0
           ∧ Graph.n s.2 = Z.of_nat (length done)
           ∧ Graph.label s.2 = Graph.label this0
           ∧ (∀ i v, Graph.getVertex g i = Some v → v ∉ done →
                Graph.getVertex s.2 i = Some NULL)
           ∧ (∀ i v x, Graph.getVertex g i = Some v → v ∈ done →
                Heap.vertex h v = Some x →
                ∃ v', Graph.getVertex s.2 i = Some v' ∧ v' ≠ NULL
                  ∧ Heap.vertex h v' = None
                  ∧ Heap.vertex s.1 v' = Some (copied x)))
        body vs (h, this0))
        as ([h1 this1] & Hrun & Hes & Hold & Hok1 & Hmaxn & Hsz & _ & _ & Hm
            & Hn & Hlabel & Hfree & Hnew)
  end.
  - cbn [fst snd]. split; [done|]. split; [done|]. split; [done|].
    split; [done|]. split.
    { unfold vec_size. rewrite Hvs0, length_replicate. lia. }
    repeat (split; [done|]). split.
    + intros i v Hi _. unfold Graph.getVertex in *. rewrite Hvs0.
      apply vec_get_replicate. apply vec_get_Some in Hi as [Hi _]. lia.
    + by intros i v x _ ?%elem_of_nil.
  - intros done v rest [hc this] Hxs
      (Hes & Hold & Hokc & Hmaxn & Hsz & Hnp & Hfs & Hm & Hn & Hlabel
       & Hfree & Hnew).
    cbn [fst snd] in *.
    assert (Hv : v ∈ vs).
    { rewrite Hxs. apply elem_of_app. right. by left. }
    apply Hvs in Hv as [[i Hi] [x Hx]].
    assert (Hvn : v ≠ NULL) by (by intros ->).
    destruct (Hslots i v Hi Hvn) as (x1 & Hx1 & Hid).
    assert (x1 = x) as -> by congruence.
    assert (Hnot : v ∉ done).
    { rewrite Hxs in Hnd. apply NoDup_app in Hnd as (_ & Hdis & _).
      intros Hin. apply (Hdis v Hin). by left. }
    destruct (Hbounds i v x Hi Hx) as [Hpart Hfam].
    pose proof (vec_get_Some _ _ _ Hi) as [Hirange _]. rewrite Hsize in Hirange.
    destruct (Graph_addVertex_post hc this (Vertex.id x) (Vertex.label x)
                (Vertex.part x) (Vertex.family x))
      as (h2 & this2 & v' & Hadd & Hv'n & Hv'fresh & Hget & Hv' & Hothers & _
          & _ & _ & Hsz2 & Hmaxn2 & Hn2 & Hm2 & Hold2 & Hes2);
      [lia|lia|done|done|lia|lia|lia|lia| |].
    { intros _. rewrite Hid. by apply (Hfree i v). }
    specialize (Hmaxn2 ltac:(lia)).
    destruct (Graph_addVertex_sizes _ _ _ _ _ _ _ _ _ Hadd)
      as (Hnp2 & Hfs2 & Hlabel2).
    pose proof (Graph_addVertex_adjacency _ _ _ _ _ _ _ _ _ Hokc Hadd) as Hok2.
    destruct v' as [a'|]; [|done].
    set (y0 := Vertex.mk (Vertex.id x) 0 0 (Z.max (Vertex.part x) 0)
                 (to_ushort (Vertex.family x))
                 (copy_label (Vertex.label x)) [] None
                 Extremity.default Extremity.default) in *.
    set (y1 := Vertex.setDirection y0 (Vertex.getDirection x)).
    set (h3 := Heap.mk (<[a':=Some y1]> (Heap.vs h2)) (Heap.es h2)).
    assert (Hy1 : Heap.vertex h3 (Some a') = Some y1).
    { by eapply Vertex_deref_insert_eq. }
    assert (Hok3 : adjacency_ok h3).
    { by apply (adjacency_ok_update h2 a' y0 y1). }
    set (y2 := Vertex.setExtremities y1
                 (Extremity.getId (Vertex.getExtremityLeft x))
                 (Extremity.getType (Vertex.getExtremityLeft x))
                 (Extremity.getId (Vertex.getExtremityRight x))
                 (Extremity.getType (Vertex.getExtremityRight x))).
    set (h4 := Heap.mk (<[a':=Some y2]> (Heap.vs h3)) (Heap.es h3)).
    assert (Hy2 : Heap.vertex h4 (Some a') = Some (copied x)).
    { unfold h4, Heap.vertex. cbn [Heap.vs].
      erewrite Vertex_deref_insert_eq by exact Hy1. f_equal.
      unfold y2, y1, y0. apply copied_eq; [lia|lia|done|done]. }
    assert (Hok4 : adjacency_ok h4).
    { by apply (adjacency_ok_update h3 a' y1 y2). }
    assert (Hkeep : ∀ p y, p ≠ Some a' → Heap.vertex h2 p = Some y →
              Heap.vertex h4 p = Some y).
    { intros p y Hp Hy. unfold h4, h3, Heap.vertex. cbn [Heap.vs].
      by rewrite !Vertex_deref_insert_ne by done. }
    exists (h4, this2). split.
    { cbn beta iota. rewrite (Hold v x Hx). cbn [mbind option_bind].
      unfold to_char. rewrite (bool_decide_eq_false_2 (Vertex.part x > 127))
        by lia.
      rewrite Hadd. cbn [mbind option_bind]. cbn beta iota.
      rewrite (Heap_update_vertex_eq h2 a' y0) by done.
      cbn [mbind option_bind]. fold y1. fold h3.
      rewrite (Heap_update_vertex_eq h3 a' y1) by done.
      cbn [mbind option_bind]. done. }
    cbn [fst snd]. split; [by rewrite <-Hes, <-Hes2|]. split.
    { intros p y Hy. apply Hkeep; [|by apply Hold2, Hold].
      intros ->. apply Hold in Hy. congruence. }
    split; [done|]. split; [lia|]. split; [lia|]. split; [lia|].
    split; [lia|]. split; [unfold Graph.getM in *; lia|]. split.
    { unfold Graph.getN in *. rewrite length_app. cbn [length]. lia. }
    split; [congruence|]. split.
    + intros j u Hj Hu. rewrite Hothers.
      * apply (Hfree j u Hj). intros Hin. apply Hu. apply elem_of_app.
        by left.
      * intros ->. rewrite Hid in Hj.
        assert (u = v) as -> by (unfold Graph.getVertex in *; congruence).
        apply Hu. apply elem_of_app. right. by left.
      * apply vec_get_Some in Hj as [Hj _]. unfold Graph.getVertex in *. lia.
    + intros j u xu Hj Hu Hxu.
      apply elem_of_app in Hu as [Hu| ->%list_elem_of_singleton].
      * destruct (Hnew j u xu Hj Hu Hxu) as (u' & Hgu & Hun & Hufresh & Hu').
        exists u'. rewrite Hothers.
        -- split; [done|]. split; [done|]. split; [done|].
           apply Hkeep; [congruence|by apply Hold2].
        -- intros ->. rewrite Hid in Hgu.
           rewrite (Hfree i v Hi Hnot) in Hgu. by injection Hgu as <-.
        -- apply vec_get_Some in Hj as [Hj _]. unfold Graph.getVertex in *.
           lia.
      * assert (xu = x) as -> by congruence.
        destruct (Hslots j v Hj Hvn) as (x2 & Hx2 & Hid2).
        assert (x2 = x) as -> by congruence. rewrite <-Hid2.
        exists (Some a'). split; [done|]. split; [done|]. split; [|done].
        destruct (Heap.vertex h (Some a')) as [z|] eqn:Hz; [|done].
        apply Hold in Hz. congruence.
  - cbn [fst snd] in *. exists h1, this1. rewrite Hrun.
    split; [done|]. split; [done|]. split; [done|]. split; [done|].
    split; [done|]. split; [done|]. split; [done|]. split; [done|].
    split; [done|]. split.
    + intros i v Hi Hv. apply (Hfree i v Hi). intros Hin.
      apply Hvs in Hin as [_ [? ?]]. congruence.
    + intros i v x Hi Hx. apply (Hnew i v x Hi); [|done].
      apply Hvs. split; [by exists i|by exists x].
Qed.

(** [addEdge] between two vertices and [setExtremities] on the record
    returned. *)
Lemma Graph_addEdge_setExtremities hc g0 b1 b2 label x1 x2 i1 t1 i2 t2 :
  b1 ≠ b2 → Heap.vertex hc (Some b1) = Some x1 →
  Heap.vertex hc (Some b2) = Some x2 →
  ∃ hA hB,
    Graph.addEdge hc g0 (Some b1) (Some b2) label
    = Some (hA, Graph.set_m g0 (Graph.m g0 + 1), Some (length (Heap.es hc)))
    ∧ Heap.Edge_setExtremities hA (Some (length (Heap.es hc))) i1 t1 i2 t2
      = Some hB
    ∧ Heap.vertex hB (Some b1)
      = Some (Vertex.set_degree_edges x1 (to_ushort (Vertex.degree x1 + 1))
                (Some (length (Heap.es hc)) :: Vertex.edges x1))
    ∧ Heap.vertex hB (Some b2)
      = Some (Vertex.set_degree_edges x2 (to_ushort (Vertex.degree x2 + 1))
                (Some (S (length (Heap.es hc))) :: Vertex.edges x2))
    ∧ (∀ p, p ≠ Some b1 → p ≠ Some b2 →
         Heap.vertex hB p = Heap.vertex hc p)
    ∧ Heap.edge hB (Some (length (Heap.es hc)))
      = Some (Edge.mk (Some b2) (Some (S (length (Heap.es hc))))
                (copy_label label) (Extremity.mk i1 t1) (Extremity.mk i2 t2)
                NULL)
    ∧ Heap.edge hB (Some (S (length (Heap.es hc))))
      = Some (Edge.mk (Some b1) (Some (length (Heap.es hc)))
                (copy_label label) (Extremity.mk i2 t2) (Extremity.mk i1 t1)
                NULL)
    ∧ (∀ p d0, Heap.edge hc p = Some d0 → Heap.edge hB p = Some d0).
Proof.
  intros Hne Hx1 Hx2. set (n := length (Heap.es hc)).
  pose proof (Graph_addEdge_eq hc g0 b1 b2 label x1 x2 Hne Hx1 Hx2) as Hadd.
  cbn zeta in Hadd. fold n in Hadd.
  set (r1 := Edge.set_adjRef (Edge.new (Some b2) label) (Some (S n))) in *.
  set (r2 := Edge.set_adjRef (Edge.new (Some b1) label) (Some n)) in *.
  set (esA := Heap.es hc ++ [Some r1; Some r2]) in *.
  destruct (Edge_deref_app_two (Heap.es hc) r1 r2) as [Hr1 Hr2].
  fold n esA in Hr1, Hr2.
  destruct (Edge_setExtremities_eq esA (Some n) r1 r2 i1 t1 i2 t2)
    as (esB & Hset & HB1 & HB2 & HBother & _); [done|done|by intros [=]; lia|].
  eexists _, _. split; [exact Hadd|]. split.
  { unfold Heap.Edge_setExtremities. cbn [Heap.es Heap.vs]. rewrite Hset.
    cbn [mbind option_bind]. reflexivity. }
  unfold Heap.vertex, Heap.edge. cbn [Heap.vs Heap.es].
  split.
  { rewrite Vertex_deref_insert_ne by congruence.
    by eapply Vertex_deref_insert_eq. }
  split.
  { eapply Vertex_deref_insert_eq.
    by rewrite Vertex_deref_insert_ne by congruence. }
  split.
  { intros p Hp1 Hp2. by rewrite !Vertex_deref_insert_ne by done. }
  split; [exact HB1|]. split; [exact HB2|].
  intros p d0 Hp. destruct p as [k|]; [|done].
  pose proof (Edge_deref_lt _ _ _ Hp) as Hk. fold n in Hk.
  rewrite HBother; [|intros [=]; lia|cbn; intros [=]; lia].
  by apply Edge_deref_app_old.
Qed.

Lemma substring_idem n s :
  String.substring 0 n (String.substring 0 n s) = String.substring 0 n s.
Proof.
  revert s. induction n as [|n IH]; intros [|c s]; simpl; try done.
  by rewrite IH.
Qed.

Lemma copy_label_idem l : copy_label (copy_label l) = copy_label l.
Proof.
  destruct l as [s|]; [|done]. unfold copy_label. simpl. f_equal.
  apply substring_idem.
Qed.

Lemma filter_bool_cons {A} (f : A → bool) x l :
  filter f (x :: l) = if f x then x :: filter f l else filter f l.
Proof.
  rewrite filter_cons. destruct (decide (f x)) as [H|H]; destruct (f x); done.
Qed.

(** What a copy keeps of the records of a list is read the same in a heap
    that has these records and, with the same ids, the vertices they lead
    to. *)
Lemma edge_views_frame hc hc' x x' l :
  Vertex.id x' = Vertex.id x →
  (∀ e, e ∈ l →
     ∃ d a a', Heap.edge hc e = Some d ∧ Heap.vertex hc (Edge.adj d) = Some a
       ∧ Heap.edge hc' e = Some d ∧ Heap.vertex hc' (Edge.adj d) = Some a'
       ∧ Vertex.id a' = Vertex.id a) →
  map (edge_info hc') (filter (upward hc' x') l)
  = map (edge_info hc) (filter (upward hc x) l).
Proof.
  intros Hid. induction l as [|e l IH]; intros Hl; [done|].
  destruct (Hl e) as (d & a & a' & Hd & Ha & Hd' & Ha' & Hida); [by left|].
  rewrite !filter_bool_cons.
  assert (Hup : upward hc' x' e = upward hc x e).
  { unfold upward. by rewrite Hd, Hd', Ha, Ha', Hida, Hid. }
  assert (Hinfo : edge_info hc' e = edge_info hc e).
  { unfold edge_info. rewrite Hd, Hd'. cbn [mbind option_bind].
    rewrite Ha, Ha'. cbn [mbind option_bind]. by rewrite Hida. }
  rewrite Hup. destruct (upward hc x e); cbn [map]; rewrite ?Hinfo, IH;
    try done; intros e0 He0; apply Hl; by right.
Qed.

Lemma same_vertex_id x x' : same_vertex x x' → Vertex.id x' = Vertex.id x.
Proof. by intros (d & l & ->). Qed.

(** One turn of the inner loop of the second loop of the copy
    constructor, on a record without a sibling. *)
Lemma copy_edge h g this seen hc k v x e d a :
  Graph_slots_ok h g → vec_size (Graph.vertices g) = Graph.maxn g →
  Graph.maxn this = Graph.maxn g →
  edges_copied h g this seen hc →
  Graph.getVertex g (Vertex.id x) = Some v → Heap.vertex h v = Some x →
  Heap.edge h e = Some d → Heap.vertex h (Edge.adj d) = Some a →
  Graph.getVertex g (Vertex.id a) = Some (Edge.adj d) →
  Edge.sibling d = NULL → Edge.adj d ≠ v →
  ∃ hc',
    (λ e '(h, this),
       ed ← Heap.edge h e;
       a ← Heap.vertex h (Edge.adj ed);
       if bool_decide (Vertex.id a > Vertex.id x)
       then
         let sibling := Edge.sibling ed in
         if bool_decide (sibling ≠ NULL)
            && bool_decide (Extremity.getType (Edge.getExtremityFrom ed)
                            = Extremity.HEAD)
         then Some (h, this)
         else
           '(h, this, newe) ← Graph.addEdge_id h this (Vertex.id x)
                                (Vertex.id a) (Edge.label ed);
           let e1 := Edge.getExtremityFrom ed in
           let e2 := Edge.getExtremityTo ed in
           h ← Heap.Edge_setExtremities h newe
                  (Extremity.getId e1) (Extremity.getType e1)
                  (Extremity.getId e2) (Extremity.getType e2);
           if bool_decide (sibling ≠ NULL)
           then
             sb ← Heap.edge h sibling;
             sr ← Heap.edge h (Edge.adjRef sb);
             sfrom ← Heap.vertex h (Edge.adj sr);
             sto ← Heap.vertex h (Edge.adj sb);
             '(h, this, newe_sibling) ←
               Graph.addEdge_id h this (Vertex.id sfrom) (Vertex.id sto)
                                (Edge.label sb);
             ed ← Heap.edge h e;
             let e1 := Edge.getExtremityFrom ed in
             let e2 := Edge.getExtremityTo ed in
             h ← Heap.Edge_setExtremities h newe_sibling
                    (Extremity.getId e1) (Extremity.getType e1)
                    (Extremity.getId e2) (Extremity.getType e2);
             h ← Heap.Edge_setSibling h newe newe_sibling;
             h ← Heap.Edge_setSibling h newe_sibling newe;
             Some (h, this)
           else Some (h, this)
       else Some (h, this)) e (hc, Graph.set_m this k)
    = Some (hc', Graph.set_m this
                   (k + (if upward h x e then 1 else 0)))
    ∧ edges_copied h g this
        (λ u, if decide (u = v) then seen u ++ [e] else seen u) hc'.
Proof.
  intros Hslots Hsize Hmaxn (Hokc & Hvold & Heold & Hmap) Hgv Hx He Ha Hga
         Hsib Hav.
  pose proof (Heold e d He) as Hec. pose proof (Hvold _ a Ha) as Hac.
  assert (Hup : upward h x e = bool_decide (Vertex.id a > Vertex.id x)).
  { unfold upward. by rewrite He, Ha. }
  assert (Hvn : v ≠ NULL) by (by intros ->).
  assert (Han : Edge.adj d ≠ NULL) by (intros Hn; by rewrite Hn in Ha).
  (* a vertex of [g] is in the slot of its id only *)
  assert (Hslot : ∀ i u xu, Graph.getVertex g i = Some u →
            Heap.vertex h u = Some xu → Vertex.id xu = i).
  { intros i u xu Hgu Hxu. destruct (Hslots i u Hgu) as (xu1 & Hxu1 & Hid).
    - by intros ->.
    - congruence. }
  cbn beta iota. rewrite Hec. cbn [mbind option_bind]. rewrite Hac.
  cbn [mbind option_bind]. rewrite Hup.
  destruct (decide (Vertex.id a > Vertex.id x)) as [Hgt|Hle]; last first.
  { (* the record leads to a vertex of smaller id: nothing is added *)
    rewrite bool_decide_eq_false_2 by done. exists hc. split.
    { by rewrite Z.add_0_r. }
    split; [done|]. split; [done|]. split; [done|].
    intros i u xu Hgu Hxu.
    destruct (Hmap i u xu Hgu Hxu)
      as (u' & xu' & Hgu' & Hu'n & Hu'f & Hxu' & Hsameu & Hmapu).
    exists u', xu'. repeat (split; [done|]). rewrite Hmapu.
    destruct (decide (u = v)) as [->|Hne]; [|done].
    assert (xu = x) as -> by congruence.
    rewrite filter_app, filter_bool_cons, Hup.
    rewrite bool_decide_eq_false_2 by done.
    by rewrite filter_nil, app_nil_r. }
  rewrite bool_decide_eq_true_2 by done. cbn zeta. rewrite Hsib.
  rewrite (bool_decide_eq_false_2 (NULL ≠ NULL)) by (by intros []).
  cbn [andb].
  destruct (Hmap _ v x Hgv Hx)
    as (v' & xv' & Hgv' & Hv'n & Hv'f & Hxv' & Hsamev & Hmapv).
  destruct (Hmap _ _ a Hga Ha)
    as (a' & xa' & Hga' & Ha'n & Ha'f & Hxa' & Hsamea & Hmapa).
  pose proof (same_vertex_id _ _ Hsamev) as Hidv.
  pose proof (same_vertex_id _ _ Hsamea) as Hida.
  cbn [copied Vertex.id] in Hidv, Hida.
  destruct v' as [b1|]; [|done]. destruct a' as [b2|]; [|done].
  assert (Hb : b1 ≠ b2).
  { intros ->. assert (xv' = xa') by congruence. subst xa'. lia. }
  destruct (Graph_addEdge_setExtremities hc (Graph.set_m this k) b1 b2
              (Edge.label d) xv' xa'
              (Extremity.getId (Edge.getExtremityFrom d))
              (Extremity.getType (Edge.getExtremityFrom d))
              (Extremity.getId (Edge.getExtremityTo d))
              (Extremity.getType (Edge.getExtremityTo d)) Hb Hxv' Hxa')
    as (hA & hB & Hadd & Hset & HvB1 & HvB2 & HvBo & HeB1 & HeB2 & HeBold).
  set (n := length (Heap.es hc)) in *.
  set (xv1 := Vertex.set_degree_edges xv' (to_ushort (Vertex.degree xv' + 1))
                (Some n :: Vertex.edges xv')) in *.
  set (xa1 := Vertex.set_degree_edges xa' (to_ushort (Vertex.degree xa' + 1))
                (Some (S n) :: Vertex.edges xa')) in *.
  pose proof (vec_get_Some _ _ _ Hgv) as [Hrv _].
  pose proof (vec_get_Some _ _ _ Hga) as [Hra _].
  pose proof (vec_get_Some _ _ _ Hgv') as [Hrv' _].
  exists hB. split.
  { unfold Graph.addEdge_id. cbn [Graph.maxn Graph.set_m].
    unfold Graph.getVertex in *. cbn [Graph.vertices Graph.set_m].
    rewrite Hgv', Hga'. cbn [mbind option_bind].
    rewrite (bool_decide_eq_false_2 (Vertex.id x >= Graph.maxn this)) by lia.
    rewrite (bool_decide_eq_false_2 (Vertex.id a > Graph.maxn this)) by lia.
    cbn [orb].
    + rewrite Hadd. cbn [mbind option_bind]. cbn beta iota.
      rewrite Hset. cbn [mbind option_bind]. done. }
  (* the vertices keep their ids *)
  assert (Hids : ∀ p y, Heap.vertex hc p = Some y →
            ∃ y', Heap.vertex hB p = Some y' ∧ Vertex.id y' = Vertex.id y).
  { intros p y Hy. destruct (decide (p = Some b1)) as [->|Hp1].
    - exists xv1. split; [done|]. by assert (y = xv') as -> by congruence.
    - destruct (decide (p = Some b2)) as [->|Hp2].
      + exists xa1. split; [done|].
        by assert (y = xa') as -> by congruence.
      + exists y. split; [|done]. by rewrite HvBo. }
  (* the records of the lists are as before *)
  assert (Hframe : ∀ u' xu' y', Heap.vertex hc u' = Some xu' →
            Vertex.id y' = Vertex.id xu' →
            map (edge_info hB) (filter (upward hB y') (Vertex.edges xu'))
            = map (edge_info hc)
                  (filter (upward hc xu') (Vertex.edges xu'))).
  { intros u' xu' y' Hxu' Hid. apply edge_views_frame; [done|].
    intros e0 He0. destruct (Hokc u' xu' Hxu') as (_ & _ & Hedges).
    destruct (Hedges e0 He0)
      as (d0 & _ & a0 & Hd0 & _ & _ & _ & _ & _ & Ha0 & _).
    destruct (Hids _ a0 Ha0) as (a0' & Ha0' & Hida0).
    exists d0, a0, a0'. split; [done|]. split; [done|].
    split; [by apply HeBold|done]. }
  split.
  { eapply Heap_Edge_setExtremities_adjacency; [|exact Hset].
    by eapply Graph_addEdge_adjacency. }
  split.
  { intros p y Hy. rewrite HvBo; [by apply Hvold| |]; intros ->; congruence. }
  split; [intros p d0 Hd0; by apply HeBold, Heold|].
  intros i u xu Hgu Hxu.
  destruct (Hmap i u xu Hgu Hxu)
    as (u' & xu' & Hgu' & Hu'n & Hu'f & Hxu' & Hsameu & Hmapu).
  pose proof (Hslot i u xu Hgu Hxu) as Hiu.
  pose proof (same_vertex_id _ _ Hsameu) as Hidu.
  cbn [copied Vertex.id] in Hidu.
  destruct (decide (u = v)) as [->|Hne].
  - assert (xu = x) as -> by congruence. subst i.
    assert (u' = Some b1) as -> by (unfold Graph.getVertex in *; congruence).
    assert (xu' = xv') as -> by congruence.
    exists (Some b1), xv1. split; [done|]. split; [done|]. split; [done|].
    split; [done|]. split.
    { eapply same_vertex_trans; [exact Hsamev|]. by eexists _, _. }
    assert (Hupn : upward hB xv1 (Some n) = true).
    { unfold upward. rewrite HeB1. cbn [Edge.adj]. rewrite HvB2.
      apply bool_decide_eq_true_2. unfold xa1, xv1.
      cbn [Vertex.id Vertex.set_degree_edges]. lia. }
    change (Vertex.edges xv1) with (Some n :: Vertex.edges xv').
    rewrite filter_bool_cons, Hupn. cbn [map].
    rewrite filter_app, filter_bool_cons, Hup.
    rewrite bool_decide_eq_true_2 by done.
    rewrite filter_nil, map_app, rev_app_distr. cbn [map rev app].
    f_equal.
    + unfold edge_info. rewrite HeB1, He. cbn [mbind option_bind Edge.adj].
      rewrite HvB2, Ha. cbn [mbind option_bind]. f_equal.
      cbn [Edge.label Edge.ex1 Edge.ex2]. rewrite copy_label_idem.
      unfold xa1. cbn [Vertex.id Vertex.set_degree_edges]. rewrite Hida.
      unfold Edge.getExtremityFrom, Edge.getExtremityTo, Extremity.getId,
        Extremity.getType.
      by destruct (Edge.ex1 d), (Edge.ex2 d).
    + rewrite <-Hmapv. by apply (Hframe (Some b1)).
  - destruct (decide (u = Edge.adj d)) as [->|Hne2].
    + assert (xu = a) as -> by congruence. subst i.
      assert (u' = Some b2) as ->
        by (unfold Graph.getVertex in *; congruence).
      assert (xu' = xa') as -> by congruence.
      exists (Some b2), xa1. split; [done|]. split; [done|].
      split; [done|]. split; [done|]. split.
      { eapply same_vertex_trans; [exact Hsamea|]. by eexists _, _. }
      assert (Hupn : upward hB xa1 (Some (S n)) = false).
      { unfold upward. rewrite HeB2. cbn [Edge.adj]. rewrite HvB1.
        apply bool_decide_eq_false_2. unfold xa1, xv1.
        cbn [Vertex.id Vertex.set_degree_edges]. lia. }
      change (Vertex.edges xa1) with (Some (S n) :: Vertex.edges xa').
      rewrite filter_bool_cons, Hupn. rewrite <-Hmapa.
      by apply (Hframe (Some b2)).
    + assert (Hu1 : u' ≠ Some b1).
      { intros ->. assert (xu' = xv') by congruence. subst xu'.
        apply Hne. unfold Graph.getVertex in *.
        assert (i = Vertex.id x) as -> by lia. congruence. }
      assert (Hu2 : u' ≠ Some b2).
      { intros ->. assert (xu' = xa') by congruence. subst xu'.
        apply Hne2. unfold Graph.getVertex in *.
        assert (i = Vertex.id a) as -> by lia. congruence. }
      exists u', xu'. split; [done|]. split; [done|]. split; [done|].
      split; [by rewrite HvBo|]. split; [done|].
      rewrite <-Hmapu. by apply (Hframe u').
Qed.

Lemma edges_copied_ext h g this seen seen' hc :
  (∀ u, seen u = seen' u) →
  edges_copied h g this seen hc → edges_copied h g this seen' hc.
Proof.
  intros Hext (Hok & Hv & He & Hmap). split; [done|]. split; [done|].
  split; [done|]. intros i v x Hg Hx.
  destruct (Hmap i v x Hg Hx) as (v' & x' & H1 & H2 & H3 & H4 & H5 & H6).
  exists v', x'. repeat (split; [done|]). by rewrite <-Hext.
Qed.

Lemma Graph_set_m_m g : Graph.set_m g (Graph.m g) = g.
Proof. by destruct g. Qed.

(** X28: the copy constructor, on a graph of capacity 1 or more whose
    slots point to live vertices, with parts from 0 to 127 and families
    below 65536, in a heap with well formed adjacency lists (so without
    sibling links) whose edges join vertices of the graph: it ends and
    leaves the objects of the heap as they are; the copy has the capacity
    and the label (cut) of the graph and as many vertices; it has an
    empty slot where the graph has one and, where the graph has a vertex,
    a new vertex with the same id, direction, part, family, label (cut)
    and extremities; the records of a new vertex that lead to vertices of
    greater ids are the copies of the records of that kind of the
    original vertex, in the reverse order, each with the id of the vertex
    it leads to, the label and the two extremities of the original; the
    number of edges is the number of these records, and the adjacency
    lists are well formed afterwards. *)
Theorem Graph_copy_copies h g :
  adjacency_ok h → Graph_slots_ok h g →
  vec_size (Graph.vertices g) = Graph.maxn g → 1 ≤ Graph.maxn g →
  (∀ i v x, Graph.getVertex g i = Some v → Heap.vertex h v = Some x →
     0 ≤ Vertex.part x ≤ 127 ∧ 0 ≤ Vertex.family x < 2 ^ 16
     ∧ ∀ e d, e ∈ Vertex.edges x → Heap.edge h e = Some d →
         ∃ j, Graph.getVertex g j = Some (Edge.adj d)) →
  ∃ h' g',
    Graph.copy h g = Some (h', g')
    ∧ adjacency_ok h'
    ∧ (∀ p y, Heap.vertex h p = Some y → Heap.vertex h' p = Some y)
    ∧ (∀ e d, Heap.edge h e = Some d → Heap.edge h' e = Some d)
    ∧ Graph.maxn g' = Graph.maxn g
    ∧ Graph.getLabel g' = copy_label (Graph.label g)
    ∧ Graph.getN g'
      = Z.of_nat (length (List.filter (iter_match h (-1) (-1))
                            (Graph.vertices g)))
    ∧ Graph.getM g' = Z.of_nat (length (upward_records h g))
    ∧ (∀ i v, Graph.getVertex g i = Some v → Heap.vertex h v = None →
         Graph.getVertex g' i = Some NULL)
    ∧ (∀ i v x, Graph.getVertex g i = Some v → Heap.vertex h v = Some x →
         ∃ v' x', Graph.getVertex g' i = Some v' ∧ v' ≠ NULL
           ∧ Heap.vertex h v' = None ∧ Heap.vertex h' v' = Some x'
           ∧ same_vertex (copied x) x'
           ∧ map (edge_info h') (filter (upward h' x') (Vertex.edges x'))
             = rev (map (edge_info h)
                        (filter (upward h x) (Vertex.edges x)))).
Proof.
  intros Hok Hslots Hsize Hmax Hverts.
  pose proof (vec_size_nonneg (Graph.vertices g)) as Hnn.
  destruct (Graph_new_fields (Graph.label g) (Graph.maxn g))
    as (this0 & Hnew & Hmaxn0 & Hvs0 & Hlabel0 & Hn0 & Hm0 & _ & Hnp0 & _);
    [lia|].
  rewrite bool_decide_eq_false_2 in Hmaxn0 by lia. rewrite Hmaxn0 in Hvs0.
  pose proof (Graph_new_fsize _ _ _ Hnew) as Hfs0.
  destruct (range_in_order h g (-1) (-1) Hsize Hslots 0)
    as (it & Hit & Hrange & _); [lia|].
  change (drop (Z.to_nat 0) (Graph.vertices g)) with (Graph.vertices g)
    in Hrange.
  destruct (Graph_live_slots h g Hslots) as [Hnd Hvs].
  destruct (copy_vertices h g this0 Hok Hslots Hsize Hmax)
    as (h1 & this1 & Hloop1 & Hes1 & Hold1 & Hok1 & Hmaxn1 & Hsz1 & Hm1 & Hn1
        & Hlabel1 & Hfree1 & Hnew1);
    [intros i v x Hg Hx; destruct (Hverts i v x Hg Hx) as (? & ? & _); done
    |done|done
    |by rewrite Hnp0; unfold vec_size; rewrite length_replicate
    |lia|done|done|].
  unfold Graph.copy. rewrite Hnew. cbn [mbind option_bind].
  unfold Graph.begin_. rewrite Hit. cbn [mbind option_bind]. rewrite Hrange.
  cbn [mbind option_bind].
  match goal with
  | |- ∃ h' g', (?t ≫= _) = _ ∧ _ =>
      replace t with (Some (h1, this1)) by (symmetry; exact Hloop1)
  end.
  cbn [mbind option_bind]. cbn beta iota.
  set (vs := List.filter (iter_match h (-1) (-1)) (Graph.vertices g)) in *.
  (* a vertex of [g] is in the slot of its id only *)
  assert (Hslot : ∀ i u xu, Graph.getVertex g i = Some u →
            Heap.vertex h u = Some xu → Vertex.id xu = i).
  { intros i u xu Hgu Hxu. destruct (Hslots i u Hgu) as (xu1 & Hxu1 & Hid).
    - by intros ->.
    - congruence. }
  assert (Hstart : edges_copied h g this1 (λ _, []) h1).
  { split; [done|]. split; [done|]. split.
    { intros e d Hd. unfold Heap.edge in *. by rewrite Hes1. }
    intros i v x Hg Hx. destruct (Hnew1 i v x Hg Hx) as (v' & H1 & H2 & H3 & H4).
    exists v', (copied x). repeat (split; [done|]).
    split; [apply same_vertex_refl|done]. }
  match goal with
  | |- ∃ h' g', for_each ?body vs (h1, this1) = _ ∧ _ =>
      destruct (for_each_inv
        (λ done (s : Heap.t * Graph.t),
           s.2 = Graph.set_m this1
                   (Z.of_nat (length (concat (map (upward_of h) done))))
           ∧ edges_copied h g this1
               (λ u, if decide (u ∈ done) then edges_of h u else []) s.1)
        body vs (h1, this1))
        as ([h' g'] & Hrun & Hg' & Hcop)
  end.
  - cbn [fst snd map concat length]. split.
    { change (Z.of_nat 0) with 0. rewrite <-Hm1. by rewrite Graph_set_m_m. }
    eapply edges_copied_ext; [|exact Hstart]. intros u.
    by rewrite decide_False by apply not_elem_of_nil.
  - intros done v rest [hc thc] Hxs [Hthc Hcopc]. cbn [fst snd] in *.
    subst thc.
    assert (Hv : v ∈ vs).
    { rewrite Hxs. apply elem_of_app. right. by left. }
    apply Hvs in Hv as [[i Hi] [x Hx]].
    assert (Hnot : v ∉ done).
    { rewrite Hxs in Hnd. apply NoDup_app in Hnd as (_ & Hdis & _).
      intros Hin. apply (Hdis v Hin). by left. }
    pose proof (Hslot i v x Hi Hx) as Hid. subst i.
    destruct (Hverts _ v x Hi Hx) as (_ & _ & Hends).
    destruct (Hok v x Hx) as (_ & _ & Hedges).
    pose proof Hcopc as (_ & Hvoldc & _ & _).
    cbn beta iota. rewrite (Hvoldc v x Hx). cbn [mbind option_bind].
    set (k0 := Z.of_nat (length (concat (map (upward_of h) done)))).
    match goal with
    | |- ∃ s', for_each ?inner (Vertex.edges x) _ = _ ∧ _ =>
        destruct (for_each_inv
          (λ pre (s : Heap.t * Graph.t),
             s.2 = Graph.set_m this1
                     (k0 + Z.of_nat (length (filter (upward h x) pre)))
             ∧ edges_copied h g this1
                 (λ u, if decide (u = v) then pre
                       else if decide (u ∈ done) then edges_of h u else [])
                 s.1)
          inner (Vertex.edges x) (hc, Graph.set_m this1 k0))
          as ([h2 g2] & Hrun2 & Hg2 & Hcop2)
    end.
    + cbn [fst snd]. split; [by rewrite filter_nil, Z.add_0_r|].
      eapply edges_copied_ext; [|exact Hcopc]. intros u. cbn beta.
      destruct (decide (u = v)) as [->|]; [|done].
      by rewrite decide_False by done.
    + intros pre e rest2 [hc2 thc2] Hxs2 [Hthc2 Hcopc2]. cbn [fst snd] in *.
      subst thc2.
      assert (He : e ∈ Vertex.edges x).
      { rewrite Hxs2. apply elem_of_app. right. by left. }
      destruct (Hedges e He)
        as (d & _ & a & Hd & _ & _ & _ & _ & Hadj & Ha & _ & Hsib).
      destruct (Hends e d He Hd) as [j Hj].
      pose proof (Hslot j _ a Hj Ha) as Hida. subst j.
      destruct (copy_edge h g this1 _ hc2
                  (k0 + Z.of_nat (length (filter (upward h x) pre)))
                  v x e d a Hslots Hsize Hmaxn1 Hcopc2 Hi Hx Hd Ha Hj Hsib Hadj)
        as (hc' & Hstep & Hcop').
      eexists. split; [exact Hstep|]. cbn [fst snd]. split.
      * f_equal. rewrite filter_app, length_app, filter_bool_cons.
        destruct (upward h x e); cbn [length filter]; rewrite ?filter_nil;
          cbn [length]; lia.
      * eapply edges_copied_ext; [|exact Hcop']. intros u. cbn beta.
        by destruct (decide (u = v)).
    + cbn [fst snd] in *. subst g2. exists (h2, Graph.set_m this1
        (k0 + Z.of_nat (length (filter (upward h x) (Vertex.edges x))))).
      split; [exact Hrun2|]. cbn [fst snd]. split.
      * f_equal. rewrite map_app, concat_app, length_app. cbn [map concat].
        rewrite app_nil_r. unfold upward_of at 2. rewrite Hx. unfold k0. lia.
      * eapply edges_copied_ext; [|exact Hcop2]. intros u. cbn beta.
        destruct (decide (u = v)) as [->|Hne].
        -- rewrite decide_True by (apply elem_of_app; right; by left).
           unfold edges_of. by rewrite Hx.
        -- destruct (decide (u ∈ done)) as [Hin|Hout].
           ++ by rewrite decide_True by (apply elem_of_app; by left).
           ++ rewrite decide_False; [done|].
              intros [?| ->%list_elem_of_singleton]%elem_of_app; done.
  - cbn [fst snd] in *. subst g'. exists h', (Graph.set_m this1
      (Z.of_nat (length (concat (map (upward_of h) vs))))).
    destruct Hcop as (Hok' & Hvold' & Heold' & Hmap').
    split; [exact Hrun|]. split; [done|]. split; [done|]. split; [done|].
    split; [done|]. split.
    { unfold Graph.getLabel. cbn [Graph.label Graph.set_m]. congruence. }
    split; [done|]. split; [done|]. split.
    { intros i v Hg Hv. by apply (Hfree1 i v). }
    intros i v x Hg Hx.
    destruct (Hmap' i v x Hg Hx) as (v' & x' & H1 & H2 & H3 & H4 & H5 & H6).
    exists v', x'. repeat (split; [done|]). rewrite H6.
    rewrite decide_True; [by unfold edges_of; rewrite Hx|].
    apply Hvs. split; [by exists i|by exists x].
Qed.

(** The copy of the path u - v - w has its three vertices and its two
    edges. *)
Lemma Graph_copy_copies_witness :
  ∃ h g h' g',
    example_path_graph = Some (h, g)
    ∧ Graph.copy h g = Some (h', g')
    ∧ adjacency_ok h'
    ∧ Graph.getN g' = 3 ∧ Graph.getM g' = 2.
Proof.
  destruct example_path_graph_ok as (h & g & Hex & Hok).
  destruct (example_path_graph_slots h g Hex) as [Hsize Hslots].
  destruct (Graph_copy_copies h g Hok Hslots Hsize)
    as (h' & g' & Hcopy & Hok' & _ & _ & _ & _ & Hn & Hm & _).
  - vm_compute in Hex. injection Hex as <- <-. cbn. lia.
  - vm_compute in Hex. injection Hex as <- <-. intros i v x Hg Hx.
    apply vec_get_Some in Hg as [Hi Hg].
    destruct (Z.to_nat i) as [|[|[|[|k]]]]; simpl in Hg;
      try discriminate Hg; injection Hg as <-; vm_compute in Hx;
      try discriminate Hx; injection Hx as <-.
    all: split; [cbn; lia|]; split; [cbn; lia|]; intros e d He Hd.
    all: cbn in He.
    all: repeat (apply elem_of_cons in He as [->|He];
                 [vm_compute in Hd; injection Hd as <-;
                  first [exists 0; vm_compute; reflexivity
                        |exists 1; vm_compute; reflexivity
                        |exists 2; vm_compute; reflexivity]|]).
    all: by apply elem_of_nil in He.
  - exists h, g, h', g'. split; [exact Hex|]. split; [exact Hcopy|].
    split; [exact Hok'|]. rewrite Hn, Hm.
    vm_compute in Hex. injection Hex as <- <-.
    split; vm_compute; reflexivity.
Defined.

(** ** The cycles kept by the search *)

(** The number of buckets of the hash table of the signatures is an [int]
    for fewer than 92682 vertices. *)
Lemma bucket_count_fits n :
  0 ≤ n < 92682 → ¬ (n ÷ 2) * (n ÷ 2) >= 2 ^ 31.
Proof.
  intros Hn. rewrite Z.quot_div_nonneg by lia.
  assert (0 ≤ n / 2 < 46341)
    by (split; [apply Z.div_pos|apply Z.div_lt_upper_bound]; lia).
  nia.
Qed.

Lemma signature_of_path es c :
  Path_wf c → edges_live es (Path.getEdges c) →
  Path.signature es c = signature_of es (Path.getEdges c).
Proof. intros Hwf Hlive. by rewrite Path_signature_refines. Qed.

Lemma signature_of_labelled es eps :
  (∀ e, e ∈ eps →
     ∃ d lb, Edge.deref es e = Some d ∧ Edge.label d = Some lb
             ∧ (String.length lb ≤ _GRAPH_MAX_LABEL)%nat) →
  is_Some (signature_of es eps).
Proof.
  intros Hlab. unfold signature_of, concat_labels.
  apply foldl_labels_Some; [|by eexists].
  apply Forall_forall. intros lab Hin.
  apply list_elem_of_fmap in Hin as (y & -> & Hy).
  apply sorted_edges_elem in Hy.
  destruct (Hlab y Hy) as (d & lb & Hd & Hl & Hlen).
  exists lb. unfold Edge.getLabel. rewrite Hd. cbn. by rewrite Hl.
Qed.

Lemma closed_walk_labelled h len v vs eps :
  (∀ u x e d, Heap.vertex h u = Some x → e ∈ Vertex.edges x →
     Heap.edge h e = Some d →
     ∃ lb, Edge.label d = Some lb
           ∧ (String.length lb ≤ _GRAPH_MAX_LABEL)%nat) →
  closed_walk h len v vs eps →
  edges_live (Heap.es h) eps ∧ is_Some (signature_of (Heap.es h) eps).
Proof.
  intros Hlab (_ & _ & _ & _ & Hwalk & _).
  assert (Hrec : ∀ e, e ∈ eps →
            ∃ d lb, Edge.deref (Heap.es h) e = Some d
                    ∧ Edge.label d = Some lb
                    ∧ (String.length lb ≤ _GRAPH_MAX_LABEL)%nat).
  { intros e [i Hi]%list_elem_of_lookup.
    destruct (Hwalk i e Hi) as (u & x & d & _ & Hx & Hin & Hd & _).
    destruct (Hlab u x e d Hx Hin Hd) as (lb & Hl & Hlen). by exists d, lb. }
  split; [|by apply signature_of_labelled].
  intros e He. destruct (Hrec e He) as (d & _ & Hd & _). by exists d.
Qed.

(** The loop that keeps a path when its signature is new. *)
Lemma keep_new_loop_signatures es paths : ∀ sigs cycles,
  (∀ c, c ∈ paths → is_Some (Path.signature es c)) →
  Forall2 (λ c s, Path.signature es c = Some s) cycles sigs → NoDup sigs →
  ∃ sigs' cycles',
    for_each (CyclesGraph.keep_new es) paths (sigs, cycles)
    = Some (sigs', cycles')
    ∧ Forall2 (λ c s, Path.signature es c = Some s) cycles' sigs'
    ∧ NoDup sigs'
    ∧ (∀ c, c ∈ cycles' → c ∈ cycles ∨ c ∈ paths)
    ∧ (∀ s, s ∈ sigs → s ∈ sigs')
    ∧ (∀ c s, c ∈ paths → Path.signature es c = Some s → s ∈ sigs').
Proof.
  induction paths as [|c paths IH]; intros sigs cycles Hsig H2 Hnd.
  - exists sigs, cycles. split; [done|]. split; [done|]. split; [done|].
    split; [by left|]. split; [done|]. by intros c s ?%elem_of_nil.
  - destruct (Hsig c) as [s Hs]; [by left|]. cbn [for_each].
    rewrite (keep_new_eq _ _ _ _ s Hs).
    assert (Hrest : ∀ c', c' ∈ paths → is_Some (Path.signature es c')).
    { intros c' Hc'. apply Hsig. by right. }
    case_bool_decide as Hin; cbn [mbind option_bind].
    + destruct (IH sigs cycles Hrest H2 Hnd)
        as (sigs' & cycles' & Hrun & H2' & Hnd' & Hsub & Hold & Hnew).
      exists sigs', cycles'. split; [done|]. split; [done|]. split; [done|].
      split.
      { intros c' Hc'. destruct (Hsub c' Hc'); [by left|right; by right]. }
      split; [done|]. intros c' s' [->|Hc']%elem_of_cons Hs'.
      * assert (s' = s) as -> by congruence. by apply Hold.
      * by eapply Hnew.
    + destruct (IH (s :: sigs) (c :: cycles) Hrest)
        as (sigs' & cycles' & Hrun & H2' & Hnd' & Hsub & Hold & Hnew).
      { by constructor. }
      { by apply NoDup_cons. }
      exists sigs', cycles'. split; [done|]. split; [done|]. split; [done|].
      split.
      { intros c' Hc'. destruct (Hsub c' Hc') as [[->|?]%elem_of_cons|?].
        - right. by left.
        - by left.
        - right. by right. }
      split; [intros s' Hs'; apply Hold; by right|].
      intros c' s' [->|Hc']%elem_of_cons Hs'.
      * assert (s' = s) as -> by congruence. apply Hold. by left.
      * by eapply Hnew.
Qed.

(** The search from one vertex. *)
Lemma from_vertex_signatures h len v sigs cycles :
  edges_closed h → is_Some (Heap.vertex h v) → 2 ≤ len < 1000 →
  (∀ u x e d, Heap.vertex h u = Some x → e ∈ Vertex.edges x →
     Heap.edge h e = Some d →
     ∃ lb, Edge.label d = Some lb
           ∧ (String.length lb ≤ _GRAPH_MAX_LABEL)%nat) →
  Forall2 (λ c s, Path.signature (Heap.es h) c = Some s) cycles sigs →
  NoDup sigs →
  ∃ sigs' cycles',
    CyclesGraph.from_vertex h len v (sigs, cycles) = Some (sigs', cycles')
    ∧ Forall2 (λ c s, Path.signature (Heap.es h) c = Some s) cycles' sigs'
    ∧ NoDup sigs'
    ∧ (∀ c, c ∈ cycles' →
         c ∈ cycles
         ∨ closed_walk h len v (Path.getVertices c) (Path.getEdges c))
    ∧ (∀ s, s ∈ sigs → s ∈ sigs')
    ∧ (∀ vs eps, closed_walk h len v vs eps →
         ∃ s, signature_of (Heap.es h) eps = Some s ∧ s ∈ sigs').
Proof.
  intros Hclosed Hv Hlen Hlab H2 Hnd. unfold CyclesGraph.from_vertex.
  destruct (Path_of_vertex_spec v) as (p0 & -> & Hwf0 & Habs0).
  cbn [mbind option_bind].
  destruct (rounds_spec h len v p0) as (paths & -> & Hwf & Hq); [done..|].
  cbn [mbind option_bind].
  assert (Hwalks : ∀ vs eps,
            (∃ c, c ∈ paths ∧ Path.getVertices c = vs ∧ Path.getEdges c = eps)
            ↔ closed_walk h len v vs eps).
  { intros vs eps.
    transitivity (reach h len v (Z.to_nat len) (vs, eps)).
    - rewrite <-Hq. rewrite list_elem_of_fmap. split.
      + intros (c & Hc & <- & <-). by exists c.
      + intros (c & Hc & Hin). exists c. unfold Path_abs in Hc.
        by injection Hc as -> ->.
    - rewrite (reach_walk h len v) by lia. unfold closed_walk.
      rewrite bool_decide_eq_false_2 by lia. split.
      + intros (H1 & H3 & H4 & H5 & H6 & H7 & H8).
        repeat (split; [done|]). apply H8. lia.
      + intros (H1 & H3 & H4 & H5 & H6 & H7 & H8).
        by repeat (split; [done|]). }
  assert (Hpaths : ∀ c, c ∈ paths →
            closed_walk h len v (Path.getVertices c) (Path.getEdges c)
            ∧ Path.signature (Heap.es h) c
              = signature_of (Heap.es h) (Path.getEdges c)
            ∧ is_Some (signature_of (Heap.es h) (Path.getEdges c))).
  { intros c Hc.
    assert (Hw : closed_walk h len v (Path.getVertices c) (Path.getEdges c)).
    { apply Hwalks. by exists c. }
    destruct (closed_walk_labelled _ _ _ _ _ Hlab Hw) as [Hlive Hsome].
    split; [done|]. split; [|done]. apply signature_of_path; [|done].
    rewrite Forall_forall in Hwf. by apply Hwf. }
  destruct (keep_new_loop_signatures (Heap.es h) paths sigs cycles)
    as (sigs' & cycles' & Hrun & H2' & Hnd' & Hsub & Hold & Hnew);
    [|done|done|].
  { intros c Hc. destruct (Hpaths c Hc) as (_ & -> & Hs). done. }
  exists sigs', cycles'. split; [done|]. split; [done|]. split; [done|].
  split.
  { intros c Hc. destruct (Hsub c Hc) as [?|Hin]; [by left|].
    right. by destruct (Hpaths c Hin). }
  split; [done|]. intros vs eps Hw.
  apply Hwalks in Hw as (c & Hc & <- & <-).
  destruct (Hpaths c Hc) as (_ & Heq & [s Hs]).
  exists s. split; [done|]. apply (Hnew c); [done|]. by rewrite Heq.
Qed.

(** X29: the list of cycles of [buildCyclesGraph(Graph *ag, int len)], for
    a length from 2 to 999, on a graph with a vertex and fewer than 92682
    vertices (the square of half their number, which sizes the hash table
    of the signatures, stays in [int]), whose adjacency lists hold live
    records that lead to live vertices and carry a label of at most 100
    characters: the search ends; every cycle kept is a closed walk of
    [len] edges from a vertex of the part of the first vertex of the
    graph; the cycles kept have signatures, which are all different; and
    the signature of every closed walk of [len] edges from a vertex of
    that part is the signature of a cycle kept. *)
Theorem cycle_search_one_per_signature h ag len p0 :
  0 ≤ Graph.getN ag < 92682 →
  vec_size (Graph.vertices ag) = Graph.maxn ag → Graph_slots_ok h ag →
  edges_closed h → 2 ≤ len < 1000 →
  (∀ u x e d, Heap.vertex h u = Some x → e ∈ Vertex.edges x →
     Heap.edge h e = Some d →
     ∃ lb, Edge.label d = Some lb
           ∧ (String.length lb ≤ _GRAPH_MAX_LABEL)%nat) →
  first_part h ag p0 →
  ∃ cycles sigs,
    CyclesGraph.cycles h ag len = Some cycles
    ∧ Forall2 (λ c s, Path.signature (Heap.es h) c = Some s) cycles sigs
    ∧ NoDup sigs
    ∧ (∀ c, c ∈ cycles →
         ∃ v, start_vertex h ag p0 v
              ∧ closed_walk h len v (Path.getVertices c) (Path.getEdges c))
    ∧ (∀ v vs eps, start_vertex h ag p0 v → closed_walk h len v vs eps →
         ∃ s, signature_of (Heap.es h) eps = Some s ∧ s ∈ sigs).
Proof.
  intros Hn Hsize Hslots Hclosed Hlen Hlab Hfirst.
  destruct (starts_spec h ag Hsize Hslots p0 Hfirst)
    as (it & v0 & x0 & starts & Hit & Hv0 & Hx0 & Hp0 & it' & Hit' & Hstarts
        & Hs).
  unfold CyclesGraph.cycles.
  rewrite bool_decide_eq_false_2 by (by apply bucket_count_fits).
  rewrite Hit. cbn [mbind option_bind].
  rewrite Hv0. cbn [mbind option_bind]. rewrite Hx0. cbn [mbind option_bind].
  rewrite <-Hp0, Hit'. cbn [mbind option_bind]. rewrite Hstarts.
  cbn [mbind option_bind].
  destruct (for_each_inv
              (λ done (st : list string * list Path.t),
                 Forall2 (λ c s, Path.signature (Heap.es h) c = Some s)
                         st.2 st.1
                 ∧ NoDup st.1
                 ∧ (∀ c, c ∈ st.2 →
                      ∃ v, v ∈ done
                           ∧ closed_walk h len v (Path.getVertices c)
                                         (Path.getEdges c))
                 ∧ (∀ v vs eps, v ∈ done → closed_walk h len v vs eps →
                      ∃ s, signature_of (Heap.es h) eps = Some s ∧ s ∈ st.1))
              (CyclesGraph.from_vertex h len) starts ([], []))
    as ([sigs cycles] & Hrun & H2 & Hnd & Hsound & Hall).
  - cbn [fst snd]. split; [constructor|]. split; [constructor|].
    split; [by intros c ?%elem_of_nil|]. by intros v vs eps ?%elem_of_nil.
  - intros done v rest [sigs cycles] Hxs (H2 & Hnd & Hsound & Hall).
    cbn [fst snd] in *.
    assert (Hv : start_vertex h ag p0 v).
    { apply Hs. rewrite Hxs. apply elem_of_app. right. by left. }
    assert (Hlive : is_Some (Heap.vertex h v)).
    { destruct Hv as (i & x & _ & _ & Hx & _). by exists x. }
    destruct (from_vertex_signatures h len v sigs cycles Hclosed Hlive Hlen
                Hlab H2 Hnd)
      as (sigs' & cycles' & Hstep & H2' & Hnd' & Hsub & Hold & Hnew).
    exists (sigs', cycles'). split; [done|]. cbn [fst snd].
    split; [done|]. split; [done|]. split.
    + intros c Hc. destruct (Hsub c Hc) as [Hin|Hw].
      * destruct (Hsound c Hin) as (u & Hu & Hw). exists u.
        split; [|done]. apply elem_of_app. by left.
      * exists v. split; [|done]. apply elem_of_app. right. by left.
    + intros u vs eps [Hu| ->%list_elem_of_singleton]%elem_of_app Hw.
      * destruct (Hall u vs eps Hu Hw) as (s & Hsig & Hin).
        exists s. split; [done|]. by apply Hold.
      * by apply (Hnew vs).
  - cbn [fst snd] in *. rewrite Hrun. cbn [mbind option_bind].
    exists cycles, sigs. split; [done|]. split; [done|]. split; [done|].
    split.
    + intros c Hc. destruct (Hsound c Hc) as (v & Hv & Hw). exists v.
      split; [by apply Hs|done].
    + intros v vs eps Hv Hw. apply (Hall v vs eps); [by apply Hs|done].
Qed.

(** The search for the cycles of length 3 on the triangle with the edges
    "a" 1t-2t, "b" 3t-4t and "c" 5t-6t. *)
Lemma cycle_search_one_per_signature_witness :
  ∃ h ag,
    example_triangle 1 2 3 4 5 6 = Some (h, ag)
    ∧ ∃ cycles sigs,
        CyclesGraph.cycles h ag 3 = Some cycles
        ∧ Forall2 (λ c s, Path.signature (Heap.es h) c = Some s) cycles sigs
        ∧ NoDup sigs
        ∧ ∀ c, c ∈ cycles →
            ∃ v, start_vertex h ag 0 v
                 ∧ closed_walk h 3 v (Path.getVertices c) (Path.getEdges c).
Proof.
  eexists _, _. split; [vm_compute; reflexivity|].
  match goal with
  | |- ∃ cycles sigs, CyclesGraph.cycles ?h ?g 3 = _ ∧ _ =>
      assert (Hrecords : ∀ v x e, Heap.vertex h v = Some x →
                e ∈ Vertex.edges x →
                ∃ ed, Heap.edge h e = Some ed
                      ∧ is_Some (Heap.vertex h (Edge.adj ed))
                      ∧ ∃ lb, Edge.label ed = Some lb
                              ∧ (String.length lb ≤ _GRAPH_MAX_LABEL)%nat);
      [|destruct (cycle_search_one_per_signature h g 3 0)
          as (cycles & sigs & Hrun & H2 & Hnd & Hsound & _)]
  end.
  - intros [[|[|[|n]]]|] x e Hx He; vm_compute in Hx; simplify_eq;
      vm_compute in He;
      repeat (apply elem_of_cons in He as [->|He];
              [eexists; split; [vm_compute; reflexivity|
                 split; [by eexists|
                   eexists; split; [reflexivity|
                     unfold _GRAPH_MAX_LABEL; simpl; lia]]]|]);
      by apply elem_of_nil in He.
  - split; vm_compute; [intros Hc; discriminate Hc|reflexivity].
  - vm_compute. reflexivity.
  - intros i p Hp Hnull. apply vec_get_Some in Hp as [Hi Hp].
    assert (i = Z.of_nat (Z.to_nat i)) as -> by lia.
    destruct (Z.to_nat i) as [|[|[|k]]]; simpl in Hp; simplify_eq;
      by eexists.
  - intros v x e Hx He. destruct (Hrecords v x e Hx He) as (ed & ? & ? & _).
    by exists ed.
  - lia.
  - intros u x e d Hx He Hd.
    destruct (Hrecords u x e Hx He) as (ed & Hed & _ & Hl).
    rewrite Hd in Hed. injection Hed as ->. exact Hl.
  - eexists 0, (Some 0%nat), _. split; [done|].
    split; [vm_compute; reflexivity|]. split; [done|].
    split; [vm_compute; reflexivity|]. split; [intros; lia|].
    vm_compute. reflexivity.
  - exists cycles, sigs. split; [exact Hrun|].
    split; [exact H2|]. split; [exact Hnd|exact Hsound].
Defined.

(** ** C10: the counts of the parts *)

Lemma Graph_addVertex_maxn h g id label part family h' g' v :
  0 ≤ Graph.maxn g →
  Graph.addVertex h g id label part family = Some (h', g', v) →
  Graph.maxn g ≤ Graph.maxn g'.
Proof.
  unfold Graph.addVertex. intros Hnn Hadd.
  apply bind_Some in Hadd as (g1 & Hg1 & Hadd).
  assert (Hle : Graph.maxn g ≤ Graph.maxn g1).
  { destruct (bool_decide (id >= Graph.maxn g)).
    - apply bind_Some in Hg1 as (mx & Hmx & [= <-]). cbn.
      by destruct (grow_result _ _ _ _ Hnn (grow_int_grow _ _ _ _ Hmx)).
    - injection Hg1 as <-. lia. }
  apply bind_Some in Hadd as (slot & _ & Hadd).
  case_bool_decide.
  { by injection Hadd as _ <- _. }
  apply bind_Some in Hadd as (sz & Hsz & Hadd).
  apply bind_Some in Hadd as (c & Hc & Hadd).
  apply bind_Some in Hadd as (fs & Hfsv & Hadd).
  apply bind_Some in Hadd as (c' & Hc' & Hadd).
  apply bind_Some in Hadd as (np & Hnpv & Hadd).
  unfold Vertex.alloc in Hadd. cbn beta iota in Hadd.
  apply bind_Some in Hadd as (vv & Hvv & Hadd).
  apply bind_Some in Hadd as (vs' & Hvs' & Hadd).
  injection Hadd as _ <- _.
  destruct (bool_decide (id > _)); cbn; lia.
Qed.

Lemma Graph_removeVertex_sizes h g v h' g' :
  Graph.removeVertex h g v = Some (h', g') →
  Graph.maxn g' = Graph.maxn g
  ∧ vec_size (Graph.fsize g') = vec_size (Graph.fsize g).
Proof.
  unfold Graph.removeVertex. intros Hrem.
  case_bool_decide; [by injection Hrem as <- <-|].
  apply bind_Some in Hrem as (x & Hx & Hrem).
  apply bind_Some in Hrem as ([h1 g1] & Hedges & Hrem).
  apply Graph_removeEdges_keeps in Hedges as (_ & _ & _ & Hm & Hf).
  simpl in Hm, Hf.
  apply bind_Some in Hrem as (x0 & _ & Hrem).
  apply bind_Some in Hrem as (vv & _ & Hrem).
  apply bind_Some in Hrem as (c & _ & Hrem).
  apply bind_Some in Hrem as (np & _ & Hrem).
  apply bind_Some in Hrem as (c' & _ & Hrem).
  apply bind_Some in Hrem as (fs & Hfs & Hrem).
  apply bind_Some in Hrem as (vs & _ & Hrem). injection Hrem as <- <-.
  apply vec_set_size in Hfs. cbn in *. split; [done|]. by rewrite Hfs, Hf.
Qed.

(** The operations other than adding and removing a vertex leave the
    vertices of the graph, their parts, the counts and the capacity. *)
Lemma run_keeps op h g h' g' r :
  run op h g = Some (h', g', r) →
  match op with
  | AddVertex _ _ _ _ | AddVertexAuto _ _ _ | RemoveVertex _
  | RemoveVertexId _ => True
  | _ => keeps_parts (h, g) (h', g')
  end.
Proof.
  intros Hrun. destruct op; simpl in Hrun; try done.
  - by eapply Graph_addEdge_keeps.
  - by eapply Graph_addEdge_id_keeps.
  - apply bind_Some in Hrun as ([h1 g1] & Hrem & Hrun).
    injection Hrun as <- <- <-. by eapply Graph_removeEdge_keeps.
  - apply bind_Some in Hrun as ([h1 g1] & Hrem & Hrun).
    injection Hrun as <- <- <-. by eapply Graph_removeEdge_extremities_keeps.
  - injection Hrun as <- <- <-. split; [apply same_vertices_refl|done].
  - apply bind_Some in Hrun as (g1 & Hset & Hrun). injection Hrun as <- <- <-.
    unfold Graph.setFamilyName in Hset.
    apply bind_Some in Hset as (? & _ & Hset).
    apply bind_Some in Hset as (? & _ & Hset). injection Hset as <-.
    split; [apply same_vertices_refl|done].
  - apply bind_Some in Hrun as (h1 & Hupd & Hrun). injection Hrun as <- <- <-.
    split; [|done]. by eapply same_vertices_update; [|done].
  - apply bind_Some in Hrun as (h1 & Hupd & Hrun). injection Hrun as <- <- <-.
    split; [|done]. by eapply same_vertices_update; [|done].
  - apply bind_Some in Hrun as (h1 & Hupd & Hrun). injection Hrun as <- <- <-.
    split; [|done]. by eapply same_vertices_update; [|done].
  - apply bind_Some in Hrun as (h1 & Hupd & Hrun). injection Hrun as <- <- <-.
    split; [|done]. by eapply same_vertices_update; [|done].
  - apply bind_Some in Hrun as (h1 & Hupd & Hrun). injection Hrun as <- <- <-.
    split; [|done]. by eapply same_vertices_Edge_setExtremities.
  - apply bind_Some in Hrun as (h1 & Hupd & Hrun). injection Hrun as <- <- <-.
    split; [|done]. by eapply same_vertices_Edge_setSibling.
  - apply bind_Some in Hrun as (es1 & Hupd & Hrun). injection Hrun as <- <- <-.
    split; [|done]. apply same_vertices_es.
Qed.

(** No operation empties the vector of the vertices or the vector of the
    sizes of the families. *)
Lemma step_sizes op h g h' g' r :
  1 ≤ Graph.maxn g → 1 ≤ vec_size (Graph.fsize g) →
  run op h g = Some (h', g', r) →
  1 ≤ Graph.maxn g' ∧ 1 ≤ vec_size (Graph.fsize g').
Proof.
  intros Hmax Hfs Hrun. pose proof (run_keeps _ _ _ _ _ _ Hrun) as Hkeep.
  assert (Hadd : ∀ id label part family,
            Graph.addVertex h g id label part family = Some (h', g', r) →
            1 ≤ Graph.maxn g' ∧ 1 ≤ vec_size (Graph.fsize g')).
  { intros id label part family Hadd.
    assert (Hnn : 0 ≤ Graph.maxn g) by lia.
    pose proof (Graph_addVertex_maxn _ _ _ _ _ _ _ _ _ Hnn Hadd).
    destruct (Graph_addVertex_sizes _ _ _ _ _ _ _ _ _ Hadd) as (_ & Hle & _).
    lia. }
  assert (Hrem : ∀ v h1 g1, Graph.removeVertex h g v = Some (h1, g1) →
            1 ≤ Graph.maxn g1 ∧ 1 ≤ vec_size (Graph.fsize g1)).
  { intros v h1 g1 Hrem.
    destruct (Graph_removeVertex_sizes _ _ _ _ _ Hrem) as [-> ->]. done. }
  destruct op; simpl in Hrun;
    try (destruct Hkeep as (_ & _ & _ & Hm & Hf); simpl in Hm, Hf;
         by rewrite Hm, Hf).
  - by eapply Hadd.
  - unfold Graph.addVertex_auto in Hrun.
    apply bind_Some in Hrun as (id & _ & Hrun). by eapply Hadd.
  - apply bind_Some in Hrun as ([h1 g1] & Hrun & Heq).
    injection Heq as <- <- <-. by eapply Hrem.
  - apply bind_Some in Hrun as ([h1 g1] & Hrun & Heq).
    injection Heq as <- <- <-. unfold Graph.removeVertex_id in Hrun.
    apply bind_Some in Hrun as (v & _ & Hrun). by eapply Hrem.
Qed.

Lemma reachable_sizes h g :
  reachable h g → 1 ≤ Graph.maxn g ∧ 1 ≤ vec_size (Graph.fsize g).
Proof.
  induction 1 as [h label maxv g Hnew|h g op h' g' r _ [IH1 IH2] Hop Hrun].
  - split; [|by rewrite (Graph_new_fsize _ _ _ Hnew)].
    assert (0 ≤ maxv).
    { unfold Graph.new in Hnew. by case_bool_decide; [|lia]. }
    destruct (Graph_new_fields label maxv) as (g0 & Hg0 & Hm & _); [done|].
    rewrite Hnew in Hg0. injection Hg0 as <-. rewrite Hm.
    case_bool_decide; lia.
  - by eapply step_sizes.
Qed.

(** C10, as stated, fails after [Vertex::setPart].  In the graph of
    [example_parts], made by the operations of the graph, the vertex of id 3
    (at the address 2) is the one live vertex of part 1 and the vertex of
    id 1 the one live vertex of part 2.  [setPart(2)] on the vertex of id 3
    writes its part and leaves the counts of the graph: [partSize(1)] is
    still 1 with no live vertex of part 1, and [partSize(2)] is still 1
    with two live vertices of part 2. *)
Lemma setPart_leaves_partSize :
  ∃ h g h',
    example_parts = Some (h, g) ∧ reachable h g
    ∧ Graph.getVertex g 3 = Some (Some 2%nat)
    ∧ Heap.update_vertex h (Some 2%nat) (λ x, Vertex.setPart x 2) = Some h'
    ∧ Graph.partSize g 1 = Some 1 ∧ count_part h' g 1 = 0
    ∧ Graph.partSize g 2 = Some 1 ∧ count_part h' g 2 = 2.
Proof.
  destruct example_parts_reachable as (h & g & Hex & Hreach).
  exists h, g. vm_compute in Hex. injection Hex as <- <-.
  eexists. split; [vm_compute; reflexivity|]. split; [exact Hreach|].
  split; [vm_compute; reflexivity|]. split; [vm_compute; reflexivity|].
  repeat split; vm_compute; reflexivity.
Qed.

(** C10, amended: on the graphs made by the constructor and the operations
    of the graph, with the setters of its vertices and edges other than
    [Vertex::setPart], [partSize(q)] is the number of live vertices whose
    part is [q]; an operation that returns changes that number by one for
    a vertex added to the part [q], by minus one for a vertex removed from
    it, and not otherwise; and [addVertex] of an id that is free, below
    2^30 when it is beyond the capacity, does return a new vertex, with
    one more vertex counted in its part (0 for a negative part). *)
Theorem partSize_counts_live_vertices h g :
  reachable h g →
  (∀ q, Graph.partSize g q = Some (count_part h g q))
  ∧ (∀ op h' g' result,
       op_ok g op → run op h g = Some (h', g', result) →
       ∀ q, Graph.partSize g' q = Some (count_part h' g' q)
            ∧ count_part h' g' q
              = count_part h g q + part_delta op h g result q)
  ∧ (∀ id label part family,
       0 ≤ id → (Graph.maxn g ≤ id → id < 2 ^ 30) →
       -128 ≤ part ≤ 127 → 0 ≤ family < 2 ^ 32 →
       (id < Graph.maxn g → Graph.getVertex g id = Some NULL) →
       ∃ h' g' v,
         Graph.addVertex h g id label part family = Some (h', g', v)
         ∧ v ≠ NULL
         ∧ ∀ q, Graph.partSize g' q
                = Some (count_part h g q
                        + if bool_decide (q = Z.max part 0) then 1 else 0)).
Proof.
  intros Hreach. pose proof (reachable_parts_ok h g Hreach) as Hok.
  assert (Hstep : ∀ op h' g' result,
            op_ok g op → run op h g = Some (h', g', result) →
            ∀ q, Graph.partSize g' q = Some (count_part h' g' q)
                 ∧ count_part h' g' q
                   = count_part h g q + part_delta op h g result q).
  { intros op h' g' r Hop Hrun q.
    destruct (step_parts op h g h' g' r Hok Hop Hrun) as [Hok' Hc].
    split; [by apply partSize_count|by apply Hc]. }
  split; [intros q; by apply partSize_count|]. split; [exact Hstep|].
  intros id label part family Hid Hint Hpart Hfam Hfree.
  destruct (reachable_sizes h g Hreach) as [Hmax Hfs].
  destruct Hok as (Hnp & Hsize & _).
  destruct (Graph_addVertex_post h g id label part family)
    as (h' & g' & v & Hadd & Hv & _); [done|done|done|done|done|done|done|lia|done|].
  exists h', g', v. split; [done|]. split; [done|]. intros q.
  destruct (Hstep (AddVertex id label part family) h' g' v) with (q := q)
    as [-> ->]; [done|done|].
  f_equal. f_equal. unfold part_delta.
  rewrite (bool_decide_eq_true_2 (v ≠ NULL)) by done. cbn [andb].
  destruct (decide (part < 0)).
  - rewrite (bool_decide_eq_true_2 (part < 0)) by done.
    rewrite Z.max_r by lia. done.
  - rewrite (bool_decide_eq_false_2 (part < 0)) by done.
    rewrite Z.max_l by lia. done.
Qed.

(** The graph of [example_parts], with the vertex of id 1 in part 2 and
    the vertex of id 3 in part 1, after the vertex of id 0 was removed:
    one vertex is counted in each of these parts; adding the vertex of id 0
    to part 1 makes two of them; removing the vertex of id 3 leaves none. *)
Lemma partSize_counts_live_vertices_witness :
  ∃ h g,
    example_parts = Some (h, g)
    ∧ Graph.partSize g 1 = Some 1 ∧ count_part h g 1 = 1
    ∧ Graph.partSize g 2 = Some 1 ∧ count_part h g 2 = 1
    ∧ Graph.partSize g 0 = Some 0
    ∧ (∃ h' g' v,
         Graph.addVertex h g 0 None 1 0 = Some (h', g', v) ∧ v ≠ NULL
         ∧ Graph.partSize g' 1 = Some 2 ∧ Graph.partSize g' 2 = Some 1)
    ∧ (∃ h' g',
         run (RemoveVertexId 3) h g = Some (h', g', NULL)
         ∧ Graph.partSize g' 1 = Some 0 ∧ count_part h' g' 1 = 0
         ∧ Graph.partSize g' 2 = Some 1).
Proof.
  destruct example_parts_reachable as (h & g & Hex & Hreach).
  destruct (partSize_counts_live_vertices h g Hreach)
    as (Hinv & Hstep & Hadd).
  exists h, g. split; [exact Hex|].
  vm_compute in Hex. injection Hex as <- <-.
  split; [rewrite Hinv; vm_compute; reflexivity|].
  split; [vm_compute; reflexivity|].
  split; [rewrite Hinv; vm_compute; reflexivity|].
  split; [vm_compute; reflexivity|].
  split; [rewrite Hinv; vm_compute; reflexivity|].
  split.
  - destruct (Hadd 0 None 1 0) as (h' & g' & v & Hrun & Hv & Hcount).
    + lia.
    + simpl. lia.
    + lia.
    + lia.
    + intros _. vm_compute. reflexivity.
    + exists h', g', v. split; [exact Hrun|]. split; [exact Hv|].
      split; rewrite Hcount; vm_compute; reflexivity.
  - destruct (run (RemoveVertexId 3) _ _) as [[[h' g'] r]|] eqn:Hrun;
      [|vm_compute in Hrun; discriminate Hrun].
    destruct (Hstep (RemoveVertexId 3) h' g' r I Hrun 1) as [Hp1 Hc1].
    destruct (Hstep (RemoveVertexId 3) h' g' r I Hrun 2) as [Hp2 Hc2].
    assert (r = NULL) as ->.
    { vm_compute in Hrun. by injection Hrun as _ _ <-. }
    exists h', g'. split; [reflexivity|].
    rewrite Hp1, Hp2, Hc1, Hc2.
    repeat split; vm_compute; reflexivity.
Defined.

(** ** C7: the signature of a path *)

Lemma label_at_getLabel es y :
  (lab ← Edge.getLabel es y; lab) = label_at es y.
Proof.
  unfold Edge.getLabel, label_at. by destruct (Edge.deref es y).
Qed.

Lemma key_label_keys es (l : list ptr) :
  fst <$> (key_label es <$> l) = key_of es <$> l.
Proof. rewrite <-list_fmap_compose. by apply list_fmap_ext. Qed.

Lemma key_label_labels es (l : list ptr) :
  snd <$> (key_label es <$> l) = label_at es <$> l.
Proof. rewrite <-list_fmap_compose. by apply list_fmap_ext. Qed.

Lemma StronglySorted_by_fst {V} (L : list ((Z * Z) * V)) :
  StronglySorted key_lt (fst <$> L) →
  StronglySorted (λ a b, key_lt a.1 b.1) L.
Proof.
  induction L as [|a L IH]; intros Hs; [constructor|].
  rewrite fmap_cons in Hs. apply StronglySorted_inv in Hs as [Hs Hall].
  constructor; [by apply IH|]. by rewrite Forall_fmap in Hall.
Qed.

(** Two lists of edges with the same keys and labels, each in the
    increasing order of the keys, carry the same labels in the same
    order. *)
Lemma sorted_keys_same_labels es (l1 l2 : list ptr) :
  StronglySorted key_lt (key_of es <$> l1) →
  StronglySorted key_lt (key_of es <$> l2) →
  key_label es <$> l1 ≡ₚ key_label es <$> l2 →
  label_at es <$> l1 = label_at es <$> l2.
Proof.
  intros Hs1 Hs2 Hperm. rewrite <-!key_label_labels. f_equal.
  apply (StronglySorted_unique_strong (λ a b, key_lt a.1 b.1)); [| | |done].
  - intros a b _ _ Hab Hba. exfalso.
    eapply key_lt_irrefl, key_lt_trans; [exact Hab|exact Hba].
  - apply StronglySorted_by_fst. by rewrite key_label_keys.
  - apply StronglySorted_by_fst. by rewrite key_label_keys.
Qed.

(** The signature of a path over edges with different pairs of gene ids:
    the labels in the increasing order of these pairs. *)
Lemma Path_signature_by_keys es p :
  Path_wf p → Forall (two_way es) (Path.getEdges p) →
  NoDup (key_of es <$> Path.getEdges p) →
  ∃ s,
    Path.signature es p = Some s
    ∧ sorted_edges es (Path.getEdges p) ≡ₚ Path.getEdges p
    ∧ StronglySorted key_lt (key_of es <$> sorted_edges es (Path.getEdges p))
    ∧ concat_labels (label_at es <$> sorted_edges es (Path.getEdges p))
      = Some s.
Proof.
  intros Hwf Htwo Hnd.
  assert (Hlive : edges_live es (Path.getEdges p)).
  { intros y Hy. rewrite Forall_forall in Htwo.
    destruct (Htwo y Hy) as (d & _ & _ & Hd & _). by exists d. }
  destruct (foldl_place_sorted (Edge_ltb es) (key_of es) (two_way es)
              (Edge_ltb_key es) (Path.getEdges p) Htwo Hnd) as [Hs Hp].
  fold (sorted_edges es (Path.getEdges p)) in Hs, Hp.
  assert (Heq : Path.signature es p
                = concat_labels
                    (label_at es <$> sorted_edges es (Path.getEdges p))).
  { rewrite Path_signature_refines by done. unfold sorted_labels. f_equal.
    apply list_fmap_ext. intros _ y _. apply label_at_getLabel. }
  destruct (signature_of_two_way es (Path.getEdges p) Htwo) as [s Hsome].
  unfold signature_of in Hsome.
  assert (Hs' : concat_labels
                  (label_at es <$> sorted_edges es (Path.getEdges p))
                = Some s).
  { rewrite <-Hsome. f_equal. apply list_fmap_ext. intros _ y _.
    symmetry. apply label_at_getLabel. }
  exists s. by rewrite Heq.
Qed.

(** Edges in the increasing order of their pairs of gene ids are in the
    order of [operator<]. *)
Lemma sorted_by_lt es (l : list ptr) :
  Forall (two_way es) l → StronglySorted key_lt (key_of es <$> l) →
  StronglySorted (λ x y, Edge.lt es x y = Some true) l.
Proof.
  induction l as [|a l IH]; intros Htwo Hs; [constructor|].
  apply Forall_cons in Htwo as [Ha Htwo]. rewrite fmap_cons in Hs.
  apply StronglySorted_inv in Hs as [Hs Hall].
  constructor; [by apply IH|].
  rewrite Forall_fmap in Hall. rewrite Forall_forall in Hall, Htwo.
  apply Forall_forall. intros y Hy. specialize (Hall y Hy). simpl in Hall.
  assert (Hne : key_of es a ≠ key_of es y).
  { intros Heq. rewrite Heq in Hall. by apply key_lt_irrefl in Hall. }
  apply (Edge_ltb_key es a y Ha (Htwo y Hy) Hne) in Hall.
  unfold Edge_ltb in Hall. by destruct (Edge.lt es a y) as [[]|].
Qed.

(** C7, as stated, fails: the signature is not a function of the labels
    of the edges.  In [example_signatures] the paths P and R both have one
    edge labelled "a" and one edge labelled "b".  The sort of the
    signature orders the edges by their pairs of gene ids, not by their
    labels: in P the edge "a" pairs the genes 1 and 2 and comes before the
    edge "b", which pairs 3 and 4; in R the edge "a" pairs 7 and 8 and
    comes after the edge "b", which pairs 5 and 6.  The signatures are "ab"
    and "ba", and the loop that keeps the cycles with a new signature
    keeps R after P. *)
Lemma same_labels_other_signature :
  ∃ h P Q R,
    example_signatures = Some (h, [P; Q; R])
    ∧ key_label (Heap.es h) <$> Path.getEdges P
      = [((1, 2), Some "a"%string); ((3, 4), Some "b"%string)]
    ∧ key_label (Heap.es h) <$> Path.getEdges R
      = [((7, 8), Some "a"%string); ((5, 6), Some "b"%string)]
    ∧ Path.signature (Heap.es h) P = Some "ab"%string
    ∧ Path.signature (Heap.es h) R = Some "ba"%string
    ∧ CyclesGraph.keep_new (Heap.es h) R (["ab"%string], [P])
      = Some (["ba"%string; "ab"%string], [R; P]).
Proof.
  eexists _, _, _, _.
  split; [vm_compute; reflexivity|].
  split; [vm_compute; reflexivity|].
  split; [vm_compute; reflexivity|].
  split; [vm_compute; reflexivity|].
  split; vm_compute; reflexivity.
Qed.

(** C7, amended: take two paths over the records of edges as [addEdge]
    and [setExtremities] leave them, with a label of at most 100
    characters and defined extremities, the edges of a path pairing
    different pairs of gene ids.  If the two paths carry the same labels on
    the same pairs of gene ids, then [signature()] returns the same string
    for both, whatever their vertices and their edge records, and the
    loop that keeps a cycle when its signature is new does not keep the
    second one after the first.  The string is made of the labels of the
    edges, one after the other, in the increasing order of the pairs of
    gene ids of the edges (the smaller id of a pair first), which is the
    order of the edge ordering relation. *)
Theorem signature_by_sorted_keys es p q :
  Path_wf p → Path_wf q →
  Forall (two_way es) (Path.getEdges p) →
  Forall (two_way es) (Path.getEdges q) →
  NoDup (key_of es <$> Path.getEdges p) →
  key_label es <$> Path.getEdges p ≡ₚ key_label es <$> Path.getEdges q →
  ∃ s l,
    Path.signature es p = Some s ∧ Path.signature es q = Some s
    ∧ l ≡ₚ Path.getEdges p
    ∧ StronglySorted key_lt (key_of es <$> l)
    ∧ StronglySorted (λ x y, Edge.lt es x y = Some true) l
    ∧ concat_labels (label_at es <$> l) = Some s
    ∧ ∀ sigs cycles, s ∈ sigs →
        CyclesGraph.keep_new es q (sigs, cycles) = Some (sigs, cycles).
Proof.
  intros Hwfp Hwfq Htp Htq Hnd Hperm.
  assert (Hndq : NoDup (key_of es <$> Path.getEdges q)).
  { rewrite <-key_label_keys, <-Hperm, key_label_keys. done. }
  destruct (Path_signature_by_keys es p) as (s & Hsp & Hpp & Hsortp & Hcp);
    [done..|].
  destruct (Path_signature_by_keys es q) as (s' & Hsq & Hpq & Hsortq & Hcq);
    [done..|].
  assert (s' = s) as ->.
  { assert (Hlab : label_at es <$> sorted_edges es (Path.getEdges p)
                   = label_at es <$> sorted_edges es (Path.getEdges q)).
    { apply sorted_keys_same_labels; [done|done|]. by rewrite Hpp, Hpq. }
    rewrite Hlab in Hcp. congruence. }
  exists s, (sorted_edges es (Path.getEdges p)).
  split; [done|]. split; [done|]. split; [done|]. split; [done|].
  split; [apply sorted_by_lt; [by rewrite Hpp|done]|].
  split; [done|]. intros sigs cycles Hin.
  rewrite (keep_new_eq _ _ _ _ s Hsq). by rewrite bool_decide_eq_true_2.
Qed.

(** The paths P and Q of [example_signatures], over different vertices and
    different edge records, walk their edges in different orders of the
    labels: both have the signature "ab". *)
Lemma signature_by_sorted_keys_witness :
  ∃ h P Q R,
    example_signatures = Some (h, [P; Q; R])
    ∧ Path_abs P = ([Some 0; Some 1], [Some 0; Some 3])%nat
    ∧ Path_abs Q = ([Some 2; Some 3], [Some 4; Some 7])%nat
    ∧ key_label (Heap.es h) <$> Path.getEdges Q
      = [((3, 4), Some "b"%string); ((1, 2), Some "a"%string)]
    ∧ Path.signature (Heap.es h) P = Some "ab"%string
    ∧ Path.signature (Heap.es h) Q = Some "ab"%string
    ∧ ∃ s l,
        Path.signature (Heap.es h) P = Some s
        ∧ Path.signature (Heap.es h) Q = Some s
        ∧ l ≡ₚ Path.getEdges P
        ∧ StronglySorted key_lt (key_of (Heap.es h) <$> l)
        ∧ StronglySorted (λ x y, Edge.lt (Heap.es h) x y = Some true) l
        ∧ concat_labels (label_at (Heap.es h) <$> l) = Some s
        ∧ ∀ sigs cycles, s ∈ sigs →
            CyclesGraph.keep_new (Heap.es h) Q (sigs, cycles)
            = Some (sigs, cycles).
Proof.
  eexists _, _, _, _.
  split; [vm_compute; reflexivity|].
  split; [vm_compute; reflexivity|].
  split; [vm_compute; reflexivity|].
  split; [vm_compute; reflexivity|].
  split; [vm_compute; reflexivity|].
  split; [vm_compute; reflexivity|].
  apply signature_by_sorted_keys.
  - unfold Path_wf, vec_size. simpl. lia.
  - unfold Path_wf, vec_size. simpl. lia.
  - repeat apply Forall_cons_2; [..|apply Forall_nil_2];
      eexists _, _, _;
      (split; [vm_compute; reflexivity|]);
      (split; [vm_compute; reflexivity|]);
      repeat (split; [vm_compute; reflexivity|]);
      (split; [done|]); (split; [done|]); unfold _GRAPH_MAX_LABEL; simpl; lia.
  - repeat apply Forall_cons_2; [..|apply Forall_nil_2];
      eexists _, _, _;
      (split; [vm_compute; reflexivity|]);
      (split; [vm_compute; reflexivity|]);
      repeat (split; [vm_compute; reflexivity|]);
      (split; [done|]); (split; [done|]); unfold _GRAPH_MAX_LABEL; simpl; lia.
  - apply (bool_decide_unpack _). vm_compute. reflexivity.
  - vm_compute. apply perm_swap.
Defined.

(** ** The copies of the labels *)


